(** * bptree: the configurable sectioned page cache

    A shallow embedding of the cache layer of the bptree repository:

    - [Page] (include/bptree/page.h): identifier, byte buffer, dirty flag and
      the atomic 32-bit pin counter;
    - [CacheSection] and [ConfigurableCache] (src/configurable_cache.cpp and
      include/bptree/configurable_cache.h): the three section geometries, the
      router over them, the page-to-section mapping and the size optimizer;
    - [SimplifiedConfigurableCache] and [SimplifiedConfigurableCacheB]
      (the two variants of include/bptree/simplified_configurable_cache.h).

    Conventions.  Unsigned and signed machine integers are integers of [Z]
    with the wrap-around of each operation written out.  Page objects live in
    a store indexed by address, so that the [Page*] handed to a client and the
    owning [unique_ptr] of a cache entry designate the same object.  The
    operations are taken as one thread runs them, one call after the other.
    An operation whose C++ behaviour is undefined (division by zero,
    dereferencing a destroyed page, indexing out of range, locking a
    [std::shared_mutex] the thread already owns) returns [None]. *)

From Stdlib Require Import ZArith List Bool Lia Floats Permutation.
From stdpp Require Import base option list gmap.

Open Scope Z_scope.

(** ** Machine integers *)

(** [size_t] arithmetic wraps modulo 2^64. *)
Definition to_size_t (x : Z) : Z := x mod 2 ^ 64.

(** [PageID] is [uint32_t]: conversions to it wrap modulo 2^32. *)
Definition to_PageID (x : Z) : Z := x mod 2 ^ 32.

(** [std::atomic<int32_t>::fetch_add] wraps in two's complement. *)
Definition to_int32_t (x : Z) : Z := (x + 2 ^ 31) mod 2 ^ 32 - 2 ^ 31.


(** ** Doubles *)

(** [double] is IEEE 754 binary64, the kernel's [float].  The conversion of an
    unsigned integer to [double] rounds to nearest, ties to even. *)
Definition Z_to_double (z : Z) : float :=
  SF2Prim (binary_normalize prec emax z 0 false).

(** [static_cast<size_t>(d)] truncates toward zero; it is undefined when the
    truncated value is not a [size_t] (too large, negative, infinite, NaN). *)
Definition double_to_size_t (d : float) : option Z :=
  match Prim2SF d with
  | S754_zero _ => Some 0
  | S754_finite sgn mant e =>
      let v := if 0 <=? e then Z.pos mant * 2 ^ e else Z.pos mant / 2 ^ (- e) in
      if v =? 0 then Some 0
      else if sgn then None
      else if v <? 2 ^ 64 then Some v else None
  | _ => None
  end.

(** ** Mutexes *)

(** Each cache object guards its members with one [std::shared_mutex].  It
    is not recursive: a thread that locks it, shared or exclusive, while it
    already owns it in either mode has undefined behaviour (the call blocks
    for ever or [std::system_error] is thrown).  With one thread, all that
    matters of a mutex is how the running call holds it when it locks it
    again. *)
Inductive mutex_held : Type := NotHeld | HeldShared | HeldExclusive.

(** The constructor of [std::shared_lock], [std::unique_lock] or
    [std::lock_guard] on a mutex that the thread holds as [held]. *)
Definition lock_mutex (held : mutex_held) : option unit :=
  match held with
  | NotHeld => Some tt
  | HeldShared | HeldExclusive => None
  end.

(** First element of a list that satisfies a test, with its index: the
    shape of the [for (auto& entry : ...) if (...) { ...; return; }] loops. *)
Fixpoint find_first {A : Type} (f : A -> bool) (l : list A) : option (nat * A) :=
  match l with
  | [] => None
  | x :: l' =>
      if f x then Some (O, x)
      else match find_first f l' with
           | Some (i, y) => Some (S i, y)
           | None => None
           end
  end.

(** ** Pages *)

Module Page.

Definition INVALID_PAGE_ID : Z := 0.

Record t : Type := mk {
  id : Z;              (* PageID *)
  buffer : list Z;     (* uint8_t[size] *)
  size : Z;
  dirty : bool;
  pin_count : Z        (* std::atomic<int32_t> *)
}.

(** [Page(id, size)]: [make_unique<uint8_t[]>(size)] value-initialises the
    buffer, so a fresh page is zero-filled, clean and unpinned. *)
Definition new (pid sz : Z) : t :=
  mk pid (repeat 0 (Z.to_nat sz)) sz false 0.

(** [pin()] is [pin_count.fetch_add(1)]: it returns the previous value. *)
Definition pin (p : t) : Z * t :=
  (pin_count p,
   mk (id p) (buffer p) (size p) (dirty p) (to_int32_t (pin_count p + 1))).

(** [unpin()] is [pin_count.fetch_add(-1)]: it returns the previous value. *)
Definition unpin (p : t) : Z * t :=
  (pin_count p,
   mk (id p) (buffer p) (size p) (dirty p) (to_int32_t (pin_count p - 1))).

Definition get_id (p : t) : Z := id p.
Definition is_dirty (p : t) : bool := dirty p.

Definition set_dirty (d : bool) (p : t) : t :=
  mk (id p) (buffer p) (size p) d (pin_count p).

(** What a client does through [get_buffer] under the exclusive lock. *)
Definition write_buffer (bytes : list Z) (p : t) : t :=
  mk (id p) bytes (size p) (dirty p) (pin_count p).

End Page.

(** ** The store of page objects *)

(** [heap] holds the live [Page] objects by address; [next_addr] is the next
    address [std::make_unique<Page>] returns; [clock_hand] is the function-local
    [static size_t clock_hand] of [CacheSection::find_victim_in_set], which is
    one variable for the whole process. *)
Record Mem : Type := mkMem {
  heap : gmap N Page.t;
  next_addr : N;
  clock_hand : Z
}.

Definition empty_mem : Mem := mkMem ∅ 0%N 0.

Definition alloc (p : Page.t) (m : Mem) : N * Mem :=
  (next_addr m,
   mkMem (<[next_addr m := p]> (heap m)) (N.succ (next_addr m)) (clock_hand m)).

(** Destruction of the page a [unique_ptr] owned ([None] is the null pointer). *)
Definition free (o : option N) (m : Mem) : Mem :=
  match o with
  | Some a => mkMem (delete a (heap m)) (next_addr m) (clock_hand m)
  | None => m
  end.

Definition update_page (a : N) (f : Page.t -> Page.t) (m : Mem) : Mem :=
  mkMem (alter f a (heap m)) (next_addr m) (clock_hand m).

Definition set_clock_hand (h : Z) (m : Mem) : Mem :=
  mkMem (heap m) (next_addr m) h.

(** [page->pin()] through a raw pointer; undefined on a destroyed page. *)
Definition mem_pin (a : N) (m : Mem) : option Mem :=
  match heap m !! a with
  | Some p => Some (update_page a (fun q => snd (Page.pin q)) m)
  | None => None
  end.

Definition mem_unpin (a : N) (m : Mem) : option Mem :=
  match heap m !! a with
  | Some p => Some (update_page a (fun q => snd (Page.unpin q)) m)
  | None => None
  end.

Definition mem_set_dirty (a : N) (d : bool) (m : Mem) : option Mem :=
  match heap m !! a with
  | Some p => Some (update_page a (Page.set_dirty d) m)
  | None => None
  end.

(** [page && page->is_dirty()] on an owning pointer. *)
Definition owned_dirty (o : option N) (m : Mem) : bool :=
  match o with
  | Some a => match heap m !! a with
              | Some p => Page.is_dirty p
              | None => false
              end
  | None => false
  end.

(** [page->set_dirty(false)] on an owning pointer, when the guard held. *)
Definition owned_clean (o : option N) (m : Mem) : Mem :=
  match o with
  | Some a => update_page a (Page.set_dirty false) m
  | None => m
  end.

Definition pin_count_at (a : N) (m : Mem) : option Z :=
  Page.pin_count <$> heap m !! a.

(** ** Per-section statistics *)

(** [CacheSectionStats].  The two running averages [avg_hit_time_ms] and
    [avg_miss_time_ms] are readings of the wall clock; they are written by the
    hit path only and nothing in the cache reads them back, so the three
    counters are the whole of the state that the operations depend on. *)
Module CacheSectionStats.

Record t : Type := mk {
  accesses : Z;
  hits : Z;
  misses : Z
}.

(** [CacheSectionStats{}] *)
Definition zero : t := mk 0 0 0.

(** [stats.accesses++; stats.hits++;] *)
Definition record_hit (s : t) : t :=
  mk (to_size_t (accesses s + 1)) (to_size_t (hits s + 1)) (misses s).

(** [stats.accesses++; stats.misses++;] *)
Definition record_miss (s : t) : t :=
  mk (to_size_t (accesses s + 1)) (hits s) (to_size_t (misses s + 1)).

(** [miss_rate()]:
    [accesses > 0 ? static_cast<double>(misses) / accesses : 0.0] *)
Definition miss_rate (s : t) : float :=
  if 0 <? accesses s
  then PrimFloat.div (Z_to_double (misses s)) (Z_to_double (accesses s))
  else PrimFloat.zero.

End CacheSectionStats.

(** ** Cache sections *)

Module CacheSection.

Inductive Structure : Type :=
  | DirectMapped
  | SetAssociative
  | FullyAssociative.

Definition set_based (st : Structure) : bool :=
  match st with
  | DirectMapped | SetAssociative => true
  | FullyAssociative => false
  end.

(** [CacheEntry]: [page] is the owning [unique_ptr<Page>]. *)
Record CacheEntry : Type := mkEntry {
  page : option N;
  id : Z;
  valid : bool;
  referenced : bool
}.

(** [CacheEntry()] *)
Definition empty_entry : CacheEntry :=
  mkEntry None Page.INVALID_PAGE_ID false false.

(** The section.  In [page_map] the C++ value is an iterator into [pages]; a
    list node owns exactly one page at a time and the map entry of a node is
    rewritten whenever its page is replaced, so the iterator is represented by
    the address of the page its node owns. *)
Record t : Type := mk {
  section_id : Z;
  size : Z;
  line_size : Z;
  structure : Structure;
  associativity : Z;
  num_sets : Z;
  pages_capacity : Z;
  sets : list (list CacheEntry);
  pages : list CacheEntry;
  page_map : gmap Z N;
  stats : CacheSectionStats.t
}.

Definition with_stats (st : CacheSectionStats.t) (s : t) : t :=
  mk (section_id s) (size s) (line_size s) (structure s) (associativity s)
     (num_sets s) (pages_capacity s) (sets s) (pages s) (page_map s) st.

Definition with_sets (ss : list (list CacheEntry)) (s : t) : t :=
  mk (section_id s) (size s) (line_size s) (structure s) (associativity s)
     (num_sets s) (pages_capacity s) ss (pages s) (page_map s) (stats s).

Definition with_pages (ps : list CacheEntry) (pm : gmap Z N) (s : t) : t :=
  mk (section_id s) (size s) (line_size s) (structure s) (associativity s)
     (num_sets s) (pages_capacity s) (sets s) ps pm (stats s).

(** [sets.resize(num_sets); for (auto& set : sets) set.resize(associativity);]
    on an empty vector. *)
Definition fresh_sets (n a : Z) : list (list CacheEntry) :=
  replicate (Z.to_nat n) (replicate (Z.to_nat a) empty_entry).

(** The constructor.  [size / (line_size * associativity)] and
    [size / line_size] are evaluated in the member initialisers; a zero
    divisor is undefined behaviour. *)
Definition new (sid sz lsz : Z) (st : Structure) (assoc : Z) : option t :=
  if (to_size_t (lsz * assoc) =? 0) || (lsz =? 0) then None
  else
    let n0 := sz / to_size_t (lsz * assoc) in
    let n := if n0 =? 0 then 1 else n0 in
    Some (mk sid sz lsz st assoc n (sz / lsz)
             (if set_based st then fresh_sets n assoc else [])
             [] ∅ CacheSectionStats.zero).

Definition get_size (s : t) : Z := size s.
Definition get_line_size (s : t) : Z := line_size s.
Definition get_stats (s : t) : CacheSectionStats.t := stats s.

(** [id % num_sets] *)
Definition get_set_index (s : t) (pid : Z) : Z := pid mod num_sets s.

(** The hit test of the set-based lookup loop. *)
Definition entry_hit (pid : Z) (e : CacheEntry) : bool :=
  valid e && (id e =? pid) && bool_decide (is_Some (page e)).

Definition set_referenced (b : bool) (e : CacheEntry) : CacheEntry :=
  mkEntry (page e) (id e) (valid e) b.

(** Node of [pages] designated by an iterator stored in [page_map]. *)
Definition node_at (a : N) (ps : list CacheEntry) : option (nat * CacheEntry) :=
  find_first (fun e => bool_decide (page e = Some a)) ps.

(** [pages.splice(pages.begin(), pages, it)]: move one node to the front. *)
Definition splice_front (i : nat) (ps : list CacheEntry) : list CacheEntry :=
  match ps !! i with
  | Some e => e :: delete i ps
  | None => ps
  end.

(** The miss path of [fetch_page]: "Cache miss - update statistics".  The
    [std::shared_lock guard(mutex)] taken on entry is released on the hit
    path only ([guard.unlock()]); here it is still held when
    [std::unique_lock stats_guard(mutex)] locks the same mutex. *)
Definition fetch_miss (s : t) : option (t * option N) :=
  _ ← lock_mutex HeldShared;
  Some (with_stats (CacheSectionStats.record_miss (stats s)) s, None).

(** [fetch_page].  The result is the page pointer ([None] is [nullptr]). *)
Definition fetch_page (s : t) (pid : Z) : option (t * option N) :=
  if set_based (structure s) then
    match sets s with
    | [] => Some (s, None)
    | _ =>
        let set_idx := Z.to_nat (get_set_index s pid) in
        set ← sets s !! set_idx;
        match find_first (entry_hit pid) set with
        | Some (j, e) =>
            let set' := <[j := set_referenced true e]> set in
            Some (with_stats (CacheSectionStats.record_hit (stats s))
                    (with_sets (<[set_idx := set']> (sets s)) s),
                  page e)
        | None => fetch_miss s
        end
    end
  else
    match page_map s !! pid with
    | Some a =>
        match node_at a (pages s) with
        | Some (i, e) =>
            if valid e && bool_decide (is_Some (page e)) then
              Some (with_stats (CacheSectionStats.record_hit (stats s))
                      (with_pages (splice_front i (pages s)) (page_map s) s),
                    page e)
            else fetch_miss s
        | None => None
        end
    | None => fetch_miss s
    end.

(** [find_victim_in_set]: the clock sweep.  The [do ... while (pos !=
    start_pos)] loop advances [pos] by one modulo [associativity], so it is
    back at [start_pos] after [associativity] rounds; [fuel] counts them. *)
Fixpoint clock_sweep (fuel : nat) (assoc start pos : Z) (set : list CacheEntry)
  : option (list CacheEntry * Z * Z) :=
  match fuel with
  | O => Some (set, pos, (pos + 1) mod assoc)
  | S fuel' =>
      e ← set !! Z.to_nat pos;
      if negb (referenced e) then Some (set, pos, (pos + 1) mod assoc)
      else
        let set' := <[Z.to_nat pos := set_referenced false e]> set in
        let pos' := (pos + 1) mod assoc in
        if pos' =? start then Some (set', pos', (pos' + 1) mod assoc)
        else clock_sweep fuel' assoc start pos' set'
  end.

(** Result: the memory (its [clock_hand] advanced), the section (reference
    bits cleared along the sweep) and the victim's position in the set. *)
Definition find_victim_in_set (m : Mem) (s : t) (set_index : nat)
  : option (Mem * t * nat) :=
  if associativity s =? 0 then None
  else
    set ← sets s !! set_index;
    let start_pos := clock_hand m mod associativity s in
    '(set', pos, hand) ← clock_sweep (Z.to_nat (associativity s))
                           (associativity s) start_pos start_pos set;
    Some (set_clock_hand hand m,
          with_sets (<[set_index := set']> (sets s)) s,
          Z.to_nat pos).

(** [find_victim_in_fully_associative]: [std::prev(pages.end())], the back of
    the list; undefined on an empty list. *)
Definition find_victim_in_fully_associative (s : t) : option (nat * CacheEntry) :=
  match pages s with
  | [] => None
  | _ => e ← last (pages s); Some (pred (length (pages s)), e)
  end.

(** [create_page(id)]: [std::make_unique<Page>(id, line_size)]. *)
Definition create_page (m : Mem) (s : t) (pid : Z) : N * Mem :=
  alloc (Page.new pid (line_size s)) m.

(** [allocate_page].  Assigning the new [unique_ptr] to [entry.page]
    destroys the page the entry owned before. *)
Definition allocate_page (m : Mem) (s : t) (pid : Z) : option (Mem * t * option N) :=
  if set_based (structure s) then
    let s1 := match sets s with
              | [] => with_sets (fresh_sets (num_sets s) (associativity s)) s
              | _ => s
              end in
    let set_idx := Z.to_nat (get_set_index s1 pid) in
    set ← sets s1 !! set_idx;
    match find_first (fun e => negb (valid e)) set with
    | Some (j, e) =>
        let '(a, m1) := create_page m s1 pid in
        let m2 := free (page e) m1 in
        let set' := <[j := mkEntry (Some a) pid true true]> set in
        Some (m2, with_sets (<[set_idx := set']> (sets s1)) s1, Some a)
    | None =>
        '(m1, s2, victim_idx) ← find_victim_in_set m s1 set_idx;
        set2 ← sets s2 !! set_idx;
        victim ← set2 !! victim_idx;
        let m2 := if valid victim && owned_dirty (page victim) m1
                  then owned_clean (page victim) m1 else m1 in
        let '(a, m3) := create_page m2 s2 pid in
        let m4 := free (page victim) m3 in
        let set' := <[victim_idx := mkEntry (Some a) pid true true]> set2 in
        Some (m4, with_sets (<[set_idx := set']> (sets s2)) s2, Some a)
    end
  else
    if Z.of_nat (length (pages s)) <? pages_capacity s then
      let '(a, m1) := create_page m s pid in
      Some (m1,
            with_pages (mkEntry (Some a) pid true false :: pages s)
                       (<[pid := a]> (page_map s)) s,
            Some a)
    else
      match pages s with
      | _ :: _ =>
          '(i, victim) ← find_victim_in_fully_associative s;
          let m1 := if valid victim && owned_dirty (page victim) m
                    then owned_clean (page victim) m else m in
          let pm1 := if valid victim then delete (id victim) (page_map s)
                     else page_map s in
          let '(a, m2) := create_page m1 s pid in
          let m3 := free (page victim) m2 in
          let ps := <[i := mkEntry (Some a) pid true (referenced victim)]> (pages s) in
          Some (m3, with_pages (splice_front i ps) (<[pid := a]> pm1) s, Some a)
      | [] =>
          let '(a, m1) := create_page m s pid in
          Some (m1,
                with_pages (mkEntry (Some a) pid true false :: pages s)
                           (<[pid := a]> (page_map s)) s,
                Some a)
      end.

(** [new_page]: "We're creating a new page, so it's always a cache miss". *)
Definition new_page (m : Mem) (s : t) (pid : Z) : option (Mem * t * option N) :=
  allocate_page m (with_stats (CacheSectionStats.record_miss (stats s)) s) pid.

(** [pin_page], [unpin_page], [flush_page] act on the page alone. *)
Definition pin_page (m : Mem) (a : N) : option Mem := mem_pin a m.

Definition unpin_page (m : Mem) (a : N) (is_dirty : bool) : option Mem :=
  m1 ← (if is_dirty then mem_set_dirty a true m else Some m);
  mem_unpin a m1.

Definition flush_page (m : Mem) (a : N) : option Mem := mem_set_dirty a false m.

(** [flush_all_pages]: every valid entry whose page is dirty is marked
    clean; nothing is written anywhere and nothing is evicted. *)
Definition flush_entries (es : list CacheEntry) (m : Mem) : Mem :=
  foldl (fun acc e =>
           if valid e && owned_dirty (page e) acc
           then owned_clean (page e) acc else acc) m es.

Definition flush_all_pages (m : Mem) (s : t) : Mem :=
  if set_based (structure s) then flush_entries (concat (sets s)) m
  else flush_entries (pages s) m.

(** [prefetch_page]: "just allocate space in the cache".  The statistics
    are not touched and nothing is returned.  Indexing an empty [sets]
    vector, taking the back of an empty list and reading the dirty flag
    through a null [page] are undefined. *)
Definition prefetch_page (m : Mem) (s : t) (pid : Z) : option (Mem * t) :=
  if set_based (structure s) then
    let set_idx := Z.to_nat (get_set_index s pid) in
    set ← sets s !! set_idx;
    match find_first (fun e => valid e && (id e =? pid)) set with
    | Some _ => Some (m, s)
    | None =>
        match find_first (fun e => negb (valid e)) set with
        | Some (j, e) =>
            let '(a, m1) := create_page m s pid in
            let m2 := free (page e) m1 in
            let set' := <[j := mkEntry (Some a) pid true (referenced e)]> set in
            Some (m2, with_sets (<[set_idx := set']> (sets s)) s)
        | None =>
            '(m1, s2, victim_idx) ← find_victim_in_set m s set_idx;
            set2 ← sets s2 !! set_idx;
            victim ← set2 !! victim_idx;
            a0 ← page victim;
            p0 ← heap m1 !! a0;
            let m2 := if Page.is_dirty p0 then owned_clean (page victim) m1 else m1 in
            let '(a, m3) := create_page m2 s2 pid in
            let m4 := free (page victim) m3 in
            let set' := <[victim_idx := mkEntry (Some a) pid true false]> set2 in
            Some (m4, with_sets (<[set_idx := set']> (sets s2)) s2)
        end
    end
  else
    match page_map s !! pid with
    | Some _ => Some (m, s)
    | None =>
        if Z.of_nat (length (pages s)) <? pages_capacity s then
          let '(a, m1) := create_page m s pid in
          Some (m1,
                with_pages (mkEntry (Some a) pid true false :: pages s)
                           (<[pid := a]> (page_map s)) s)
        else
          '(i, victim) ← find_victim_in_fully_associative s;
          let m1 := if owned_dirty (page victim) m
                    then owned_clean (page victim) m else m in
          let pm1 := delete (id victim) (page_map s) in
          let '(a, m2) := create_page m1 s pid in
          let m3 := free (page victim) m2 in
          let ps := <[i := mkEntry (Some a) pid true (referenced victim)]> (pages s) in
          Some (m3, with_pages (splice_front i ps) (<[pid := a]> pm1) s)
    end.

(** [prefetch_pages] *)
Fixpoint prefetch_pages (m : Mem) (s : t) (ids : list Z) : option (Mem * t) :=
  match ids with
  | [] => Some (m, s)
  | pid :: ids' =>
      '(m1, s1) ← prefetch_page m s pid;
      prefetch_pages m1 s1 ids'
  end.

(** [reset_stats] *)
Definition reset_stats (s : t) : t := with_stats CacheSectionStats.zero s.

(** The pages a vector or list of entries owns are destroyed with it. *)
Definition free_entries (es : list CacheEntry) (m : Mem) : Mem :=
  foldr (fun e acc => free (page e) acc) m es.

(** [resize]: "This is a simple implementation - a more sophisticated one
    would try to preserve as many pages as possible during resize". *)
Definition resize (m : Mem) (s : t) (new_size : Z) : option (Mem * t) :=
  if new_size =? size s then Some (m, s)
  else if (line_size s =? 0)
          || (set_based (structure s)
              && (to_size_t (line_size s * associativity s) =? 0))
  then None
  else
    let cap := new_size / line_size s in
    if set_based (structure s) then
      let n0 := new_size / to_size_t (line_size s * associativity s) in
      let n := if n0 =? 0 then 1 else n0 in
      Some (free_entries (concat (sets s)) m,
            mk (section_id s) new_size (line_size s) (structure s)
               (associativity s) n cap (fresh_sets n (associativity s))
               (pages s) (page_map s) (stats s))
    else
      Some (free_entries (pages s) m,
            mk (section_id s) new_size (line_size s) (structure s)
               (associativity s) (num_sets s) cap (sets s) [] ∅ (stats s)).

(** [page_count] *)
Definition page_count (s : t) : Z :=
  if set_based (structure s) then
    Z.of_nat (length (filter (fun e => valid e = true) (concat (sets s))))
  else Z.of_nat (length (pages s)).

(** Identifiers held by the fully-associative list, most recently used first. *)
Definition lru_order (s : t) : list Z := map id (pages s).

End CacheSection.

(** ** The router *)

Module ConfigurableCache.

(** [sections] is the [unordered_map] from section identifier to the section
    it owns; [page_ranges] and [range_section_ids] are the two parallel
    vectors of the class. *)
Record t : Type := mk {
  total_size : Z;
  available_size : Z;
  page_size : Z;
  next_section_id : Z;
  next_page_id : Z;                 (* size_t *)
  sections : gmap Z CacheSection.t;
  default_section_id : Z;
  page_to_section_map : gmap Z Z;
  page_ranges : list (Z * Z);
  range_section_ids : list Z
}.

Definition with_sections (ss : gmap Z CacheSection.t) (c : t) : t :=
  mk (total_size c) (available_size c) (page_size c) (next_section_id c)
     (next_page_id c) ss (default_section_id c) (page_to_section_map c)
     (page_ranges c) (range_section_ids c).

Definition with_available (av : Z) (c : t) : t :=
  mk (total_size c) av (page_size c) (next_section_id c)
     (next_page_id c) (sections c) (default_section_id c)
     (page_to_section_map c) (page_ranges c) (range_section_ids c).

Definition with_next_page_id (n : Z) (c : t) : t :=
  mk (total_size c) (available_size c) (page_size c) (next_section_id c)
     n (sections c) (default_section_id c) (page_to_section_map c)
     (page_ranges c) (range_section_ids c).

Definition with_ranges (rs : list (Z * Z)) (ids : list Z) (c : t) : t :=
  mk (total_size c) (available_size c) (page_size c) (next_section_id c)
     (next_page_id c) (sections c) (default_section_id c)
     (page_to_section_map c) rs ids.

Definition with_page_map (pm : gmap Z Z) (c : t) : t :=
  mk (total_size c) (available_size c) (page_size c) (next_section_id c)
     (next_page_id c) (sections c) (default_section_id c) pm
     (page_ranges c) (range_section_ids c).

(** The pages a section owns go with it when the section is destroyed. *)
Definition free_section (s : CacheSection.t) (m : Mem) : Mem :=
  CacheSection.free_entries (CacheSection.pages s)
    (CacheSection.free_entries (concat (CacheSection.sets s)) m).

(** [create_section] on a cache value; the result carries the new section's
    identifier.  Its [associativity] parameter defaults to 8 in the header. *)
Definition create_section (m : Mem) (c : t) (sz lsz : Z)
    (st : CacheSection.Structure) (assoc : Z) : option (Mem * t * Z) :=
  let sz := if available_size c <? sz then available_size c else sz in
  let sid := next_section_id c in
  s ← CacheSection.new sid sz lsz st assoc;
  let m' := match sections c !! sid with
            | Some old => free_section old m
            | None => m
            end in
  Some (m',
        mk (total_size c) (to_size_t (available_size c - sz)) (page_size c)
           (to_size_t (sid + 1)) (next_page_id c)
           (<[sid := s]> (sections c)) (default_section_id c)
           (page_to_section_map c) (page_ranges c) (range_section_ids c),
        sid).

Definition default_associativity : Z := 8.

(** The constructor: members initialised, then the default section (fully
    associative) is created with the whole of [total_size]. *)
Definition new (total psz default_line_size : Z) : option (Mem * t) :=
  let c0 := mk total total psz 0 0 ∅ 0 ∅ [] [] in
  '(m, c1, sid) ← create_section empty_mem c0 total default_line_size
                    CacheSection.FullyAssociative default_associativity;
  Some (m,
        mk (total_size c1) (available_size c1) (page_size c1)
           (next_section_id c1) (next_page_id c1) (sections c1) sid
           (page_to_section_map c1) (page_ranges c1) (range_section_ids c1)).

(** The range scan shared by [get_section_for_page] and
    [find_section_for_page]: index [i] runs over [page_ranges]. *)
Fixpoint first_range (pid : Z) (rs : list (Z * Z)) (ids : list Z) : option Z :=
  match rs, ids with
  | (lo, hi) :: rs', sid :: ids' =>
      if (lo <=? pid) && (pid <=? hi) then Some sid
      else first_range pid rs' ids'
  | _, _ => None
  end.

(** [get_section_for_page] *)
Definition get_section_for_page (c : t) (pid : Z) : Z :=
  match page_to_section_map c !! pid with
  | Some sid => sid
  | None =>
      match first_range pid (page_ranges c) (range_section_ids c) with
      | Some sid => sid
      | None => default_section_id c
      end
  end.

(** The range scan of [find_section_for_page]: a matching range whose
    section no longer exists is passed over. *)
Fixpoint first_live_range (ss : gmap Z CacheSection.t) (pid : Z)
    (rs : list (Z * Z)) (ids : list Z) : option Z :=
  match rs, ids with
  | (lo, hi) :: rs', sid :: ids' =>
      if (lo <=? pid) && (pid <=? hi) && bool_decide (is_Some (ss !! sid))
      then Some sid
      else first_live_range ss pid rs' ids'
  | _, _ => None
  end.

(** [find_section_for_page]: the section is designated by its key in
    [sections]; [None] is the null pointer. *)
Definition find_section_for_page (c : t) (pid : Z) : option Z :=
  let by_range :=
    match first_live_range (sections c) pid (page_ranges c) (range_section_ids c) with
    | Some sid => Some sid
    | None =>
        match sections c !! default_section_id c with
        | Some _ => Some (default_section_id c)
        | None => fst <$> head (map_to_list (sections c))
        end
    end in
  match page_to_section_map c !! pid with
  | Some sid =>
      match sections c !! sid with
      | Some _ => Some sid
      | None => by_range
      end
  | None => by_range
  end.

(** [new_page].  [PageID new_id = next_page_id++] converts the [size_t]
    counter to the 32-bit identifier.  The call holds
    [std::lock_guard guard(mutex)] from its first line to its return, and
    [find_section_for_page] takes [std::shared_lock guard(mutex)] on the same
    mutex. *)
Definition new_page (m : Mem) (c : t) : option (Mem * t * option N) :=
  let n := if next_page_id c =? 0 then 1 else next_page_id c in
  let new_id := to_PageID n in
  let c1 := with_next_page_id (to_size_t (n + 1)) c in
  _ ← lock_mutex HeldExclusive;
  sid ← match find_section_for_page c1 new_id with
        | Some sid => Some sid
        | None => if bool_decide (is_Some (sections c1 !! default_section_id c1))
                  then Some (default_section_id c1) else None
        end;
  s ← sections c1 !! sid;
  '(m1, s1, pg) ← CacheSection.new_page m s new_id;
  let c2 := with_sections (<[sid := s1]> (sections c1)) c1 in
  match pg with
  | Some a => m2 ← CacheSection.pin_page m1 a; Some (m2, c2, Some a)
  | None => Some (m1, c2, None)
  end.

(** [fetch_page] *)
Definition fetch_page (m : Mem) (c : t) (pid : Z) : option (Mem * t * option N) :=
  sid ← find_section_for_page c pid;
  s ← sections c !! sid;
  '(s1, pg) ← CacheSection.fetch_page s pid;
  match pg with
  | Some a => Some (m, with_sections (<[sid := s1]> (sections c)) c, Some a)
  | None =>
      '(m1, s2, pg') ← CacheSection.new_page m s1 pid;
      Some (m1, with_sections (<[sid := s2]> (sections c)) c, pg')
  end.

(** [pin_page], [unpin_page], [flush_page]: [if (!page) return;] then the
    section is looked up from [page->get_id()] and the call acts on the page. *)
Definition pin_page (m : Mem) (c : t) (pg : option N) : option Mem :=
  match pg with
  | None => Some m
  | Some a =>
      p ← heap m !! a;
      _ ← find_section_for_page c (Page.get_id p);
      CacheSection.pin_page m a
  end.

Definition unpin_page (m : Mem) (c : t) (pg : option N) (is_dirty : bool) : option Mem :=
  match pg with
  | None => Some m
  | Some a =>
      p ← heap m !! a;
      _ ← find_section_for_page c (Page.get_id p);
      CacheSection.unpin_page m a is_dirty
  end.

Definition flush_page (m : Mem) (c : t) (pg : option N) : option Mem :=
  match pg with
  | None => Some m
  | Some a =>
      p ← heap m !! a;
      _ ← find_section_for_page c (Page.get_id p);
      CacheSection.flush_page m a
  end.

(** [flush_all_pages] *)
Definition flush_all_pages (m : Mem) (c : t) : Mem :=
  foldl (fun acc kv => CacheSection.flush_all_pages acc (snd kv)) m
        (map_to_list (sections c)).

(** [size]: the sum of the sections' page counts. *)
Definition size (c : t) : Z :=
  to_size_t (foldr (fun kv acc => CacheSection.page_count (snd kv) + acc) 0
                   (map_to_list (sections c))).

(** The overlap loop of [map_page_range_to_section]: an overlapping range is
    erased from both vectors and the index stays in place ([--i] then [++i]). *)
Fixpoint erase_overlapping (lo hi : Z) (rs : list (Z * Z)) (ids : list Z)
  : list (Z * Z) * list Z :=
  match rs, ids with
  | (first, second) :: rs', sid :: ids' =>
      let '(rs2, ids2) := erase_overlapping lo hi rs' ids' in
      if negb ((second <? lo) || (hi <? first)) then (rs2, ids2)
      else ((first, second) :: rs2, sid :: ids2)
  | _, _ => (rs, ids)
  end.

(** [map_page_range_to_section] *)
Definition map_page_range_to_section (c : t) (lo hi sid : Z) : t :=
  match sections c !! sid with
  | None => c
  | Some _ =>
      let '(rs, ids) := erase_overlapping lo hi (page_ranges c) (range_section_ids c) in
      with_ranges (rs ++ [(lo, hi)]) (ids ++ [sid]) c
  end.

(** [map_page_to_section] *)
Definition map_page_to_section (c : t) (pid sid : Z) : t :=
  match sections c !! sid with
  | None => c
  | Some _ => with_page_map (<[pid := sid]> (page_to_section_map c)) c
  end.

(** [resize_section] *)
Definition resize_section (m : Mem) (c : t) (sid new_size : Z) : option (Mem * t) :=
  match sections c !! sid with
  | None => Some (m, c)
  | Some s =>
      let old_size := CacheSection.get_size s in
      let '(new_size, avail) :=
        if old_size <? new_size then
          let additional := new_size - old_size in
          let new_size := if available_size c <? additional
                          then to_size_t (old_size + available_size c)
                          else new_size in
          (new_size, to_size_t (available_size c - to_size_t (new_size - old_size)))
        else (new_size, to_size_t (available_size c + (old_size - new_size))) in
      '(m1, s1) ← CacheSection.resize m s new_size;
      Some (m1, with_available avail (with_sections (<[sid := s1]> (sections c)) c))
  end.

(** The two erase loops of [remove_section] over the mappings; in the
    second one an erased range leaves the index in place ([--i] then [++i]). *)
Fixpoint erase_section_ranges (sid : Z) (rs : list (Z * Z)) (ids : list Z)
  : list (Z * Z) * list Z :=
  match rs, ids with
  | r :: rs', sid' :: ids' =>
      let '(rs2, ids2) := erase_section_ranges sid rs' ids' in
      if sid' =? sid then (rs2, ids2) else (r :: rs2, sid' :: ids2)
  | _, _ => (rs, ids)
  end.

(** [remove_section] *)
Definition remove_section (m : Mem) (c : t) (sid : Z) : Mem * t :=
  if sid =? default_section_id c then (m, c)
  else
    match sections c !! sid with
    | None => (m, c)
    | Some s =>
        let '(rs, ids) := erase_section_ranges sid (page_ranges c) (range_section_ids c) in
        (free_section s m,
         mk (total_size c)
            (to_size_t (available_size c + CacheSection.get_size s))
            (page_size c) (next_section_id c) (next_page_id c)
            (delete sid (sections c)) (default_section_id c)
            (filter (fun kv => snd kv <> sid) (page_to_section_map c))
            rs ids)
    end.

(** [prefetch_page] *)
Definition prefetch_page (m : Mem) (c : t) (pid : Z) : option (Mem * t) :=
  sid ← find_section_for_page c pid;
  s ← sections c !! sid;
  '(m1, s1) ← CacheSection.prefetch_page m s pid;
  Some (m1, with_sections (<[sid := s1]> (sections c)) c).

(** [prefetch_pages]: the identifiers are grouped by the section
    [get_section_for_page] names, in their order of appearance, and each
    group that names an existing section is prefetched into it. *)
Definition group_by_section (c : t) (ids : list Z) : gmap Z (list Z) :=
  foldl (fun g pid =>
           let sid := get_section_for_page c pid in
           <[sid := default [] (g !! sid) ++ [pid]]> g)
        ∅ ids.

Definition prefetch_pages (m : Mem) (c : t) (ids : list Z) : option (Mem * t) :=
  foldl (fun acc kv =>
           '(m0, c0) ← acc;
           match sections c0 !! fst kv with
           | None => Some (m0, c0)
           | Some s =>
               '(m1, s1) ← CacheSection.prefetch_pages m0 s (snd kv);
               Some (m1, with_sections (<[fst kv := s1]> (sections c0)) c0)
           end)
        (Some (m, c)) (map_to_list (group_by_section c ids)).

(** [reset_all_stats] *)
Definition reset_all_stats (c : t) : t :=
  with_sections (CacheSection.reset_stats <$> sections c) c.

(** *** The size optimizer *)

(** The first loop of [simple_size_optimization]: one pair per section. *)
Definition collect_stats (c : t) : list (Z * CacheSectionStats.t) :=
  map (fun kv => (fst kv, CacheSection.get_stats (snd kv)))
      (map_to_list (sections c)).

(** [total_allocated], summed in [size_t]. *)
Definition total_allocated (c : t) : Z :=
  to_size_t (foldr (fun kv acc => CacheSection.get_size (snd kv) + acc) 0
                   (map_to_list (sections c))).

(** The comparator of the [std::sort] call: [a.miss_rate() > b.miss_rate()]. *)
Definition higher_miss_rate (a b : Z * CacheSectionStats.t) : bool :=
  PrimFloat.ltb (CacheSectionStats.miss_rate (snd b))
                (CacheSectionStats.miss_rate (snd a)).

(** [std::sort] leaves the order of sections of equal miss rate open, and so
    does the iteration over the [unordered_map]; this insertion sort is one
    of the orders it may produce.  What is proved about the optimizer below
    is proved for every order of the sections. *)
Fixpoint insert_by_miss_rate (x : Z * CacheSectionStats.t)
    (l : list (Z * CacheSectionStats.t)) : list (Z * CacheSectionStats.t) :=
  match l with
  | [] => [x]
  | y :: l' => if higher_miss_rate y x then y :: insert_by_miss_rate x l'
               else x :: l
  end.

Definition sort_by_miss_rate (l : list (Z * CacheSectionStats.t))
  : list (Z * CacheSectionStats.t) :=
  foldr insert_by_miss_rate [] l.

(** [total_miss_rate += rate], in the order of the sorted vector. *)
Definition total_miss_rate (order : list (Z * CacheSectionStats.t)) : float :=
  foldl (fun acc x => PrimFloat.add acc (CacheSectionStats.miss_rate (snd x)))
        PrimFloat.zero order.

(** [sections[id]->get_line_size() * 2], the minimum size of a section. *)
Definition min_size (c : t) (sid : Z) : option Z :=
  s ← sections c !! sid;
  Some (to_size_t (CacheSection.get_line_size s * 2)).

(** One round of the "Calculate new sizes" loop. *)
Definition proportional_size (c : t) (total : float) (total_size_to_allocate : Z)
    (x : Z * CacheSectionStats.t) : option Z :=
  let proportion := PrimFloat.div (CacheSectionStats.miss_rate (snd x)) total in
  new_size ← double_to_size_t
               (PrimFloat.mul proportion (Z_to_double total_size_to_allocate));
  floor ← min_size c (fst x);
  Some (if new_size <? floor then floor else new_size).

(** "Reduce from sections with lowest miss rates":
    [for (size_t i = n - 1; i > 0 && excess > 0; --i)].  The list holds the
    sizes of indices [n-1] down to [1] with their minima. *)
Fixpoint reduce_sizes (excess : Z) (l : list (Z * Z)) : list Z :=
  match l with
  | [] => []
  | (sz, floor) :: l' =>
      if 0 <? excess then
        let max_reduction := to_size_t (sz - floor) in
        let reduction := Z.min excess max_reduction in
        to_size_t (sz - reduction) :: reduce_sizes (to_size_t (excess - reduction)) l'
      else sz :: map fst l'
  end.

(** "Allocate to sections with highest miss rates":
    [for (size_t i = 0; i < n && extra > 0; ++i)], with [k = n - i]. *)
Fixpoint add_sizes (extra : Z) (k : Z) (l : list Z) : list Z :=
  match l with
  | [] => []
  | sz :: l' =>
      if 0 <? extra then
        let addition := Z.min extra (extra / k) in
        to_size_t (sz + addition) :: add_sizes (to_size_t (extra - addition)) (k - 1) l'
      else l
  end.

(** [std::accumulate(new_sizes.begin(), new_sizes.end(), 0ULL)] *)
Definition accumulate (l : list Z) : Z := foldl (fun acc x => to_size_t (acc + x)) 0 l.

(** "Adjust sizes to match total". *)
Definition adjust_sizes (total_size_to_allocate : Z) (new_sizes floors : list Z)
  : list Z :=
  let pool := total_size_to_allocate in
  let total_new_size := accumulate new_sizes in
  if pool <? total_new_size then
    match new_sizes, floors with
    | sz0 :: rest, _ :: floors' =>
        sz0 :: rev (reduce_sizes (to_size_t (total_new_size - pool))
                                 (rev (zip rest floors')))
    | _, _ => new_sizes
    end
  else if total_new_size <? pool then
    add_sizes (to_size_t (pool - total_new_size))
              (Z.of_nat (length new_sizes)) new_sizes
  else new_sizes.

(** [total_size_to_allocate = total_allocated + available_size] *)
Definition pool (c : t) : Z := to_size_t (total_allocated c + available_size c).

(** The "Calculate new sizes" loop, in the order of [order]. *)
Definition proportional_sizes (c : t) (order : list (Z * CacheSectionStats.t))
  : option (list Z) :=
  mapM (proportional_size c (total_miss_rate order) (pool c)) order.

(** The sizes the optimizer decides on, in the order of [order]. *)
Definition target_sizes (c : t) (order : list (Z * CacheSectionStats.t))
  : option (list Z) :=
  new_sizes ← proportional_sizes c order;
  floors ← mapM (fun x => min_size c (fst x)) order;
  Some (adjust_sizes (pool c) new_sizes floors).

(** "Apply new sizes": [resize_section] on each section in turn. *)
Fixpoint apply_sizes (m : Mem) (c : t) (l : list (Z * Z)) : option (Mem * t) :=
  match l with
  | [] => Some (m, c)
  | (sid, new_size) :: l' =>
      '(m1, c1) ← resize_section m c sid new_size;
      apply_sizes m1 c1 l'
  end.

(** [simple_size_optimization] from the sorted vector on. *)
Definition optimize_in_order (m : Mem) (c : t)
    (order : list (Z * CacheSectionStats.t)) : option (Mem * t) :=
  if (length order <=? 1)%nat then Some (m, c)
  else if PrimFloat.leb (total_miss_rate order) PrimFloat.zero then Some (m, c)
  else
    new_sizes ← target_sizes c order;
    apply_sizes m c (zip (map fst order) new_sizes).

(** [simple_size_optimization] *)
Definition simple_size_optimization (m : Mem) (c : t) : option (Mem * t) :=
  optimize_in_order m c (sort_by_miss_rate (collect_stats c)).

(** [optimize_section_sizes] *)
Definition optimize_section_sizes (m : Mem) (c : t) : option (Mem * t) :=
  simple_size_optimization m c.

End ConfigurableCache.

(** ** The simplified single-section cache *)

(** include/bptree/simplified_configurable_cache.h comes in two variants of
    one class.  They share the fields, the constructor, [updateLRU] and the
    pin, unpin and flush members, which are defined here together with the
    members of the first variant (the one with the [debug] flag, which only
    prints).  The members in which the second variant differs are in
    [SimplifiedConfigurableCacheB]. *)
Module SimplifiedConfigurableCache.

Record t : Type := mk {
  page_size : Z;
  line_size : Z;
  structure : CacheSection.Structure;
  associativity : Z;
  capacity : Z;
  page_map : gmap Z N;      (* unordered_map<PageID, unique_ptr<Page>> *)
  lru_list : list Z;        (* most recently used first *)
  stats : CacheSectionStats.t;
  next_id : Z               (* std::atomic<PageID> *)
}.

Definition with_pages (pm : gmap Z N) (l : list Z) (c : t) : t :=
  mk (page_size c) (line_size c) (structure c) (associativity c) (capacity c)
     pm l (stats c) (next_id c).

Definition with_stats (st : CacheSectionStats.t) (c : t) : t :=
  mk (page_size c) (line_size c) (structure c) (associativity c) (capacity c)
     (page_map c) (lru_list c) st (next_id c).

Definition with_capacity (cap : Z) (c : t) : t :=
  mk (page_size c) (line_size c) (structure c) (associativity c) cap
     (page_map c) (lru_list c) (stats c) (next_id c).

Definition with_next_id (n : Z) (c : t) : t :=
  mk (page_size c) (line_size c) (structure c) (associativity c) (capacity c)
     (page_map c) (lru_list c) (stats c) n.

(** The constructor: [capacity = total_size / page_size], at least 1, and
    [next_id(1)]. *)
Definition new (total psz lsz : Z) (st : CacheSection.Structure) (assoc : Z)
  : option t :=
  if psz =? 0 then None
  else
    let cap := total / psz in
    Some (mk psz lsz st assoc (if cap =? 0 then 1 else cap) ∅ []
             CacheSectionStats.zero 1).

(** [std::find] then [erase]: the first occurrence is removed. *)
Fixpoint remove_first (x : Z) (l : list Z) : list Z :=
  match l with
  | [] => []
  | y :: l' => if y =? x then l' else y :: remove_first x l'
  end.

(** [updateLRU] *)
Definition updateLRU (pid : Z) (c : t) : t :=
  with_pages (page_map c) (pid :: remove_first pid (lru_list c)) c.

(** [page_map[id] = std::move(page)]: a page already stored under [id] is
    destroyed by the assignment. *)
Definition store_page (pid : Z) (a : N) (m : Mem) (c : t) : Mem * t :=
  (free (page_map c !! pid) m,
   with_pages (<[pid := a]> (page_map c)) (lru_list c) c).

(** [page_map.size() >= capacity] *)
Definition full (c : t) : bool := capacity c <=? Z.of_nat (size (page_map c)).

(** The scan of [evictPage], over the identifiers from the back of
    [lru_list].  The result lists what is left of the scanned identifiers,
    in scan order, and tells whether a page was evicted.

    [pin_count = page->pin(); page->unpin(); pin_count--;]: [pin()] returns
    the value before the increment and the two calls leave the counter as it
    was, so the local [pin_count] is the page's count minus one; the
    decrement of an [int] at [INT_MIN] is undefined. *)
Fixpoint evict_scan (m : Mem) (pm : gmap Z N) (r : list Z)
  : option (Mem * gmap Z N * list Z * bool) :=
  match r with
  | [] => Some (m, pm, [], false)
  | pid :: r' =>
      match pm !! pid with
      | None => evict_scan m pm r'
      | Some a =>
          p ← heap m !! a;
          if Page.pin_count p =? - 2 ^ 31 then None
          else if Page.pin_count p - 1 <=? 0 then
            Some (free (Some a) m, delete pid pm, r', true)
          else
            '(m', pm', r'', ev) ← evict_scan m pm r';
            Some (m', pm', pid :: r'', ev)
      end
  end.

(** [evictPage]: "If we got here, we couldn't evict any page.  Rather than
    failing, we'll just expand the cache". *)
Definition evictPage (m : Mem) (c : t) : option (Mem * t) :=
  '(m', pm', r, ev) ← evict_scan m (page_map c) (rev (lru_list c));
  let c' := with_pages pm' (rev r) c in
  Some (m', if (ev : bool) then c' else with_capacity (to_size_t (capacity c + 1)) c').

(** [new_page] *)
Definition new_page (m : Mem) (c : t) : option (Mem * t * N) :=
  let pid := next_id c in
  let c1 := with_next_id (to_PageID (pid + 1)) c in
  let '(a, m1) := alloc (Page.new pid (page_size c)) m in
  '(m2, c2) ← (if full c1 then evictPage m1 c1 else Some (m1, c1));
  let '(m3, c3) := store_page pid a m2 c2 in
  let c4 := updateLRU pid c3 in
  m4 ← mem_pin a m3;
  Some (m4, c4, a).

(** [fetch_page].  Taken sequentially, the second lookup ("Double-check if
    page appeared since we last checked") finds what the first one found, so
    a miss of the first lookup runs the miss path. *)
Definition fetch_page (m : Mem) (c : t) (pid : Z) : option (Mem * t * N) :=
  match page_map c !! pid with
  | Some a =>
      m1 ← mem_pin a m;
      Some (m1,
            updateLRU pid (with_stats (CacheSectionStats.record_hit (stats c)) c),
            a)
  | None =>
      let c1 := with_stats (CacheSectionStats.record_miss (stats c)) c in
      '(m1, c2) ← (if full c1 then evictPage m c1 else Some (m, c1));
      let '(a, m2) := alloc (Page.new pid (page_size c)) m1 in
      let '(m3, c3) := store_page pid a m2 c2 in
      let c4 := updateLRU pid c3 in
      m4 ← mem_pin a m3;
      Some (m4, c4, a)
  end.

(** [pin_page], [unpin_page], [flush_page]: [if (!page) return;] and then
    the page alone is touched. *)
Definition pin_page (m : Mem) (pg : option N) : option Mem :=
  match pg with
  | None => Some m
  | Some a => mem_pin a m
  end.

Definition unpin_page (m : Mem) (pg : option N) (is_dirty : bool) : option Mem :=
  match pg with
  | None => Some m
  | Some a =>
      m1 ← (if is_dirty then mem_set_dirty a true m else Some m);
      mem_unpin a m1
  end.

Definition flush_page (m : Mem) (pg : option N) : option Mem :=
  match pg with
  | None => Some m
  | Some a => mem_set_dirty a false m
  end.

(** [flush_all_pages] *)
Definition flush_all_pages (m : Mem) (c : t) : Mem :=
  foldl (fun acc kv => if owned_dirty (Some (snd kv)) acc
                       then owned_clean (Some (snd kv)) acc else acc)
        m (map_to_list (page_map c)).

Definition reset_stats (c : t) : t := with_stats CacheSectionStats.zero c.

Definition is_page_in_cache (c : t) (pid : Z) : bool :=
  bool_decide (is_Some (page_map c !! pid)).

(** [size] and [get_capacity] *)
Definition size (c : t) : Z := Z.of_nat (base.size (page_map c)).

Definition get_capacity (c : t) : Z := capacity c.

(** [configure] *)
Definition configure (st : CacheSection.Structure) (lsz assoc : Z) (c : t) : t :=
  mk (page_size c) lsz st assoc (capacity c) (page_map c) (lru_list c) (stats c)
     (next_id c).

(** [get_page_from_lock]: "Find the page in our map with matching ID"; the
    loop compares the address of every stored page with the lock's mutex,
    which is the page the lock was taken on. *)
Definition get_page_from_lock (c : t) (locked : N) : option N :=
  snd <$> List.find (fun kv => N.eqb (snd kv) locked) (map_to_list (page_map c)).

(** [prefetch_page]: [fetch_page], which leaves the lock owned, then
    "Immediately unpin the page since it was just for prefetching". *)
Definition prefetch_page (m : Mem) (c : t) (pid : Z) : option (Mem * t) :=
  '(m1, c1, a) ← fetch_page m c pid;
  match get_page_from_lock c1 a with
  | Some pg => m2 ← unpin_page m1 (Some pg) false; Some (m2, c1)
  | None => Some (m1, c1)
  end.

(** [prefetch_pages] *)
Fixpoint prefetch_pages (m : Mem) (c : t) (ids : list Z) : option (Mem * t) :=
  match ids with
  | [] => Some (m, c)
  | pid :: ids' =>
      '(m1, c1) ← prefetch_page m c pid;
      prefetch_pages m1 c1 ids'
  end.

End SimplifiedConfigurableCache.

(** The second variant of the header: [new_page] neither evicts nor pins,
    [fetch_page] does not pin, and [evictPage] tests [unpin() <= 0]. *)
Module SimplifiedConfigurableCacheB.

Import SimplifiedConfigurableCache.

(** The scan of [evictPage].  [page_it->second->unpin() <= 0] decrements the
    counter of every page it tests and compares the value before the
    decrement; an identifier with no page in [page_map] is stepped over. *)
Fixpoint evict_scan (m : Mem) (pm : gmap Z N) (r : list Z)
  : option (Mem * gmap Z N * list Z * bool) :=
  match r with
  | [] => Some (m, pm, [], false)
  | pid :: r' =>
      match pm !! pid with
      | None =>
          '(m', pm', r'', ev) ← evict_scan m pm r';
          Some (m', pm', pid :: r'', ev)
      | Some a =>
          p ← heap m !! a;
          let m1 := update_page a (fun q => snd (Page.unpin q)) m in
          if fst (Page.unpin p) <=? 0 then
            Some (free (Some a) m1, delete pid pm, r', true)
          else
            '(m', pm', r'', ev) ← evict_scan m1 pm r';
            Some (m', pm', pid :: r'', ev)
      end
  end.

(** [evictPage]: "If we get here, all pages are pinned. [...] for testing
    we'll just not evict." *)
Definition evictPage (m : Mem) (c : t) : option (Mem * t) :=
  '(m', pm', r, _) ← evict_scan m (page_map c) (rev (lru_list c));
  Some (m', with_pages pm' (rev r) c).

(** [new_page] *)
Definition new_page (m : Mem) (c : t) : option (Mem * t * N) :=
  let pid := next_id c in
  let c1 := with_next_id (to_PageID (pid + 1)) c in
  let '(a, m1) := alloc (Page.new pid (page_size c)) m in
  let '(m2, c2) := store_page pid a m1 c1 in
  Some (m2, updateLRU pid c2, a).

(** [fetch_page] *)
Definition fetch_page (m : Mem) (c : t) (pid : Z) : option (Mem * t * N) :=
  match page_map c !! pid with
  | Some a =>
      Some (m,
            updateLRU pid (with_stats (CacheSectionStats.record_hit (stats c)) c),
            a)
  | None =>
      let c1 := with_stats (CacheSectionStats.record_miss (stats c)) c in
      let '(a, m1) := alloc (Page.new pid (page_size c)) m in
      '(m2, c2) ← (if full c1 then evictPage m1 c1 else Some (m1, c1));
      let '(m3, c3) := store_page pid a m2 c2 in
      Some (m3, updateLRU pid c3, a)
  end.

End SimplifiedConfigurableCacheB.

(** ** Well-formed sections and caches *)

(** Every page an entry owns was handed out by the allocator: its address is
    below [next_addr], so the next allocation is distinct from it. *)
Definition entry_below (m : Mem) (e : CacheSection.CacheEntry) : Prop :=
  forall a, CacheSection.page e = Some a -> (a < next_addr m)%N.

(** Page [a], created for identifier [pid], sits in a valid entry of the
    section. *)
Definition resident (s : CacheSection.t) (pid : Z) (a : N) : Prop :=
  exists e, (e ∈ CacheSection.pages s \/
             exists set, set ∈ CacheSection.sets s /\ e ∈ set) /\
            CacheSection.page e = Some a /\ CacheSection.id e = pid /\
            CacheSection.valid e = true.

(** What the constructor and [resize] establish and every operation of the
    section keeps: non-zero divisors, set vectors of the declared shape, and
    iterators of [page_map] that designate nodes of [pages]. *)
Record section_wf (m : Mem) (s : CacheSection.t) : Prop := {
  wf_line_size : CacheSection.line_size s <> 0;
  wf_divisor :
    to_size_t (CacheSection.line_size s * CacheSection.associativity s) <> 0;
  wf_associativity : 0 < CacheSection.associativity s;
  wf_num_sets : 0 < CacheSection.num_sets s;
  wf_sets :
    CacheSection.sets s = [] \/
    (length (CacheSection.sets s) = Z.to_nat (CacheSection.num_sets s) /\
     Forall (fun set => length set = Z.to_nat (CacheSection.associativity s))
            (CacheSection.sets s));
  wf_page_map :
    forall pid a, CacheSection.page_map s !! pid = Some a ->
      exists e, e ∈ CacheSection.pages s /\ CacheSection.page e = Some a /\
                CacheSection.id e = pid;
  wf_pages_valid :
    Forall (fun e => CacheSection.valid e = true) (CacheSection.pages s);
  wf_shape :
    if CacheSection.set_based (CacheSection.structure s)
    then CacheSection.pages s = [] else CacheSection.sets s = [];
  wf_sets_below : Forall (Forall (entry_below m)) (CacheSection.sets s);
  wf_pages_below : Forall (entry_below m) (CacheSection.pages s)
}.

(** The router always has its default section, and its sections are
    well formed. *)
Record cache_wf (m : Mem) (c : ConfigurableCache.t) : Prop := {
  wf_default :
    is_Some (ConfigurableCache.sections c !! ConfigurableCache.default_section_id c);
  wf_sections :
    forall sid s, ConfigurableCache.sections c !! sid = Some s -> section_wf m s
}.

(** The identifier [new_page] hands out, and the counter it leaves. *)
Definition next_new_id (c : ConfigurableCache.t) : Z :=
  to_PageID (if ConfigurableCache.next_page_id c =? 0 then 1
             else ConfigurableCache.next_page_id c).

(** *** Scenarios on the router *)

(** A sequence of [fetch_page] calls, the pages dropped. *)
Definition fetch_all (ids : list Z) (st : option (Mem * ConfigurableCache.t))
  : option (Mem * ConfigurableCache.t) :=
  foldl (fun acc pid =>
           '(m, c) ← acc;
           '(m', c', _) ← ConfigurableCache.fetch_page m c pid;
           Some (m', c'))
        st ids.

(** A cache of 256 pages in which section A (direct-mapped) and section B
    (fully associative) are created in turn, with the header's default
    associativity.  The result carries the identifiers of A and B. *)
Definition two_sections : option (Z * Z * ConfigurableCache.t) :=
  '(m, c) ← ConfigurableCache.new 1048576 4096 4096;
  '(m, c, a) ← ConfigurableCache.create_section m c 262144 4096
                 CacheSection.DirectMapped ConfigurableCache.default_associativity;
  '(m, c, b) ← ConfigurableCache.create_section m c 262144 4096
                 CacheSection.FullyAssociative ConfigurableCache.default_associativity;
  Some (a, b, c).

(** The range-routing scenario: [map_range(1, 100, A)] and then
    [map_range(50, 150, B)] on that cache. *)
Definition range_routing_scenario : option (Z * Z * ConfigurableCache.t) :=
  '(a, b, c) ← two_sections;
  Some (a, b,
        ConfigurableCache.map_page_range_to_section
          (ConfigurableCache.map_page_range_to_section c 1 100 a) 50 150 b).

(** The resize scenario: a fully-associative default section of three lines
    is given pages 1 and 2 by [prefetch_pages] and is resized to two lines. *)
Definition resize_scenario : option (Mem * ConfigurableCache.t) :=
  '(m, c) ← ConfigurableCache.new 12288 4096 4096;
  '(m, c) ← ConfigurableCache.prefetch_pages m c [1; 2];
  ConfigurableCache.resize_section m c 0 8192.

(** A cache of 1 MB in which [prefetch_page(1)] has put page 1. *)
Definition prefetched_page_one : option (Mem * ConfigurableCache.t) :=
  '(m, c) ← ConfigurableCache.new 1048576 4096 4096;
  ConfigurableCache.prefetch_page m c 1.

(** "Pin blocks eviction" on a fully-associative section of one line:
    [new_page(1)], the page is pinned, then [new_page(2)].  The result
    carries the memory between the two calls, the final memory and section,
    the first page and what the second call returned. *)
Definition pin_blocks_eviction_scenario
  : option (Mem * Mem * CacheSection.t * N * option N) :=
  s ← CacheSection.new 0 4096 4096 CacheSection.FullyAssociative 8;
  '(m1, s1, pg1) ← CacheSection.new_page empty_mem s 1;
  a1 ← pg1;
  m1' ← CacheSection.pin_page m1 a1;
  '(m2, s2, pg2) ← CacheSection.new_page m1' s1 2;
  Some (m1', m2, s2, a1, pg2).

(** The same through the router, on a cache of one line: [prefetch_page(1)],
    [fetch_page(1)], the page is pinned, then [prefetch_page(2)]. *)
Definition pinned_page_prefetch_scenario
  : option (Mem * Mem * ConfigurableCache.t * N) :=
  '(m, c) ← ConfigurableCache.new 4096 4096 4096;
  '(m, c) ← ConfigurableCache.prefetch_page m c 1;
  '(m, c, pg) ← ConfigurableCache.fetch_page m c 1;
  a ← pg;
  m1 ← ConfigurableCache.pin_page m c (Some a);
  '(m2, c2) ← ConfigurableCache.prefetch_page m1 c 2;
  Some (m1, m2, c2, a).

(** *** Runs of the router *)

(** The calls a client can make on a [ConfigurableCache]. *)
Inductive cache_op : Type :=
  | NewPage
  | FetchPage (pid : Z)
  | PinPage (pg : option N)
  | UnpinPage (pg : option N) (is_dirty : bool)
  | FlushPage (pg : option N)
  | FlushAllPages
  | PrefetchPage (pid : Z)
  | PrefetchPages (ids : list Z)
  | CreateSection (sz lsz : Z) (st : CacheSection.Structure) (assoc : Z)
  | RemoveSection (sid : Z)
  | ResizeSection (sid new_size : Z)
  | MapPageToSection (pid sid : Z)
  | MapPageRangeToSection (lo hi sid : Z)
  | ResetAllStats
  | OptimizeSectionSizes.

Definition cache_step (st : Mem * ConfigurableCache.t) (o : cache_op)
  : option (Mem * ConfigurableCache.t) :=
  let '(m, c) := st in
  match o with
  | NewPage => '(m', c', _) ← ConfigurableCache.new_page m c; Some (m', c')
  | FetchPage pid => '(m', c', _) ← ConfigurableCache.fetch_page m c pid; Some (m', c')
  | PinPage pg => m' ← ConfigurableCache.pin_page m c pg; Some (m', c)
  | UnpinPage pg d => m' ← ConfigurableCache.unpin_page m c pg d; Some (m', c)
  | FlushPage pg => m' ← ConfigurableCache.flush_page m c pg; Some (m', c)
  | FlushAllPages => Some (ConfigurableCache.flush_all_pages m c, c)
  | PrefetchPage pid => ConfigurableCache.prefetch_page m c pid
  | PrefetchPages ids => ConfigurableCache.prefetch_pages m c ids
  | CreateSection sz lsz st assoc =>
      '(m', c', _) ← ConfigurableCache.create_section m c sz lsz st assoc;
      Some (m', c')
  | RemoveSection sid => Some (ConfigurableCache.remove_section m c sid)
  | ResizeSection sid new_size => ConfigurableCache.resize_section m c sid new_size
  | MapPageToSection pid sid => Some (m, ConfigurableCache.map_page_to_section c pid sid)
  | MapPageRangeToSection lo hi sid =>
      Some (m, ConfigurableCache.map_page_range_to_section c lo hi sid)
  | ResetAllStats => Some (m, ConfigurableCache.reset_all_stats c)
  | OptimizeSectionSizes => ConfigurableCache.optimize_section_sizes m c
  end.

(** A sequence of calls, from left to right; [None] once a call is undefined. *)
Definition cache_run (ops : list cache_op) (st : option (Mem * ConfigurableCache.t))
  : option (Mem * ConfigurableCache.t) :=
  foldl (fun acc o => st ← acc; cache_step st o) st ops.

(** [accesses == hits + misses], in [size_t] arithmetic as C++ evaluates it. *)
Definition stats_consistent (st : CacheSectionStats.t) : Prop :=
  CacheSectionStats.accesses st
  = to_size_t (CacheSectionStats.hits st + CacheSectionStats.misses st).

(** Every section of the router has consistent counters. *)
Definition all_consistent (c : ConfigurableCache.t) : Prop :=
  forall sid s, ConfigurableCache.sections c !! sid = Some s ->
                stats_consistent (CacheSection.stats s).

(** *** Runs of the simplified cache (second variant) *)






(** *** The pins a client holds *)






(** *** The byte budget of the router *)

(** The sum of the sections' sizes, as an integer. *)
Definition allocated (c : ConfigurableCache.t) : Z :=
  foldr (fun kv acc => CacheSection.get_size (snd kv) + acc) 0
        (map_to_list (ConfigurableCache.sections c)).

Definition sum_sizes (l : list Z) : Z := foldr Z.add 0 l.

(** Sizes and the available bytes are [size_t] values and together fit in
    one: the constructor hands [total_size] to the default section and every
    later call moves bytes between the sections and [available_size]. *)
Record budget_ok (c : ConfigurableCache.t) : Prop := {
  budget_available : 0 <= ConfigurableCache.available_size c;
  budget_sizes :
    forall sid s, ConfigurableCache.sections c !! sid = Some s ->
                  0 <= CacheSection.size s;
  budget_total : allocated c + ConfigurableCache.available_size c < 2 ^ 64
}.

(** The sections' sizes, in the order of the map. *)
Definition section_sizes (ss : gmap Z CacheSection.t) : list Z :=
  map (fun kv => CacheSection.size (snd kv)) (map_to_list ss).

(** The bytes by which the sections would have to grow to reach the sizes
    asked for in [l]. *)
Definition requested_growth (c : ConfigurableCache.t) (l : list (Z * Z)) : Z :=
  sum_sizes
    (map (fun p => match ConfigurableCache.sections c !! fst p with
                   | Some s => Z.max 0 (snd p - CacheSection.size s)
                   | None => 0
                   end) l).

(** *** Optimizer runs *)







(** [budget_ok] as a test. *)
Definition budget_okb (c : ConfigurableCache.t) : bool :=
  (0 <=? ConfigurableCache.available_size c)
  && forallb (fun kv => 0 <=? CacheSection.size (snd kv))
             (map_to_list (ConfigurableCache.sections c))
  && (allocated c + ConfigurableCache.available_size c <? 2 ^ 64).

(** *** Routing tables *)

(** Every section a mapping names exists, the default section exists, and the
    two range vectors have one length. *)
Record routes_live (c : ConfigurableCache.t) : Prop := {
  rl_default :
    is_Some (ConfigurableCache.sections c !! ConfigurableCache.default_section_id c);
  rl_pages :
    forall pid sid, ConfigurableCache.page_to_section_map c !! pid = Some sid ->
                    is_Some (ConfigurableCache.sections c !! sid);
  rl_ranges :
    Forall (fun sid => is_Some (ConfigurableCache.sections c !! sid))
           (ConfigurableCache.range_section_ids c);
  rl_lengths :
    length (ConfigurableCache.page_ranges c)
    = length (ConfigurableCache.range_section_ids c)
}.

(** *** The calls of the router, taken apart *)

(** The three members of [CacheSection] that the page operations of the
    router call on a section.  The router calls [new_page] on a section
    after the section's [fetch_page] has returned the null pointer, which it
    does when the set vector is empty. *)
Inductive section_call : Mem -> CacheSection.t -> Mem -> CacheSection.t -> Prop :=
  | via_fetch_page m s pid s' r :
      CacheSection.fetch_page s pid = Some (s', r) ->
      section_call m s m s'
  | via_new_page m s pid m' s' r :
      CacheSection.set_based (CacheSection.structure s) = true ->
      CacheSection.sets s = [] ->
      CacheSection.new_page m s pid = Some (m', s', r) ->
      section_call m s m' s'
  | via_prefetch_page m s pid m' s' :
      CacheSection.prefetch_page m s pid = Some (m', s') ->
      section_call m s m' s'.

(** What one call of the router is made of, [create_section] apart: calls on
    one section, calls on one page, and the section management members.  The argument of [resize_section] is a [size_t]. *)
Inductive router_step : Mem * ConfigurableCache.t -> Mem * ConfigurableCache.t -> Prop :=
  | step_section m c sid s m' s' :
      ConfigurableCache.sections c !! sid = Some s ->
      section_call m s m' s' ->
      router_step (m, c)
        (m', ConfigurableCache.with_sections
               (<[sid := s']> (ConfigurableCache.sections c)) c)
  | step_pin m c a m' :
      mem_pin a m = Some m' -> router_step (m, c) (m', c)
  | step_unpin m c a m' :
      mem_unpin a m = Some m' -> router_step (m, c) (m', c)
  | step_set_dirty m c a d m' :
      mem_set_dirty a d m = Some m' -> router_step (m, c) (m', c)
  | step_flush_all m c :
      router_step (m, c) (ConfigurableCache.flush_all_pages m c, c)
  | step_remove m c sid :
      router_step (m, c) (ConfigurableCache.remove_section m c sid)
  | step_resize m c sid n m' c' :
      0 <= n ->
      ConfigurableCache.resize_section m c sid n = Some (m', c') ->
      router_step (m, c) (m', c')
  | step_map_page m c pid sid :
      router_step (m, c) (m, ConfigurableCache.map_page_to_section c pid sid)
  | step_map_range m c lo hi sid :
      router_step (m, c) (m, ConfigurableCache.map_page_range_to_section c lo hi sid)
  | step_reset m c :
      router_step (m, c) (m, ConfigurableCache.reset_all_stats c).

(** [create_section], the one call that adds a section.  Its size and its
    associativity are [size_t] values. *)
Inductive create_step : Mem * ConfigurableCache.t -> Mem * ConfigurableCache.t -> Prop :=
  | step_create m c sz lsz st assoc m' c' sid :
      0 <= sz -> 0 <= assoc ->
      ConfigurableCache.create_section m c sz lsz st assoc = Some (m', c', sid) ->
      create_step (m, c) (m', c').

(** The arguments of a call are values of their C++ types: sizes and the
    associativity are [size_t]. *)
Definition op_typed (o : cache_op) : Prop :=
  match o with
  | CreateSection sz lsz st assoc => 0 <= sz /\ 0 <= assoc
  | ResizeSection sid new_size => 0 <= new_size
  | _ => True
  end.

(** *** The configuration of a section *)

(** The members of a section that only the constructor and [resize] set. *)
Record same_config (s s' : CacheSection.t) : Prop := {
  cfg_section_id : CacheSection.section_id s' = CacheSection.section_id s;
  cfg_size : CacheSection.size s' = CacheSection.size s;
  cfg_line_size : CacheSection.line_size s' = CacheSection.line_size s;
  cfg_structure : CacheSection.structure s' = CacheSection.structure s;
  cfg_associativity : CacheSection.associativity s' = CacheSection.associativity s;
  cfg_num_sets : CacheSection.num_sets s' = CacheSection.num_sets s;
  cfg_pages_capacity : CacheSection.pages_capacity s' = CacheSection.pages_capacity s
}.

(** The byte budget after [k] calls: the sizes of the sections and the
    available bytes add up to [total_size], and the section identifiers
    handed out so far are below the counter. *)
Record budget_inv (k : nat) (c : ConfigurableCache.t) : Prop := {
  bi_budget : budget_ok c;
  bi_total : allocated c + ConfigurableCache.available_size c
             = ConfigurableCache.total_size c;
  bi_keys : forall sid, is_Some (ConfigurableCache.sections c !! sid) ->
                        0 <= sid < ConfigurableCache.next_section_id c;
  bi_counter : 0 <= ConfigurableCache.next_section_id c <= Z.of_nat k + 1
}.

(** *** Entries under the clock sweep *)

(** [e'] is [e] with its reference bit possibly cleared. *)
Definition bit_cleared (e e' : CacheSection.CacheEntry) : Prop :=
  CacheSection.page e' = CacheSection.page e /\
  CacheSection.id e' = CacheSection.id e /\
  CacheSection.valid e' = CacheSection.valid e /\
  (CacheSection.referenced e' = CacheSection.referenced e \/
   CacheSection.referenced e' = false).

(** *** Ownership of pages *)

(** The entries of a section: those of its sets, then the nodes of its list. *)
Definition entries (s : CacheSection.t) : list CacheSection.CacheEntry :=
  concat (CacheSection.sets s) ++ CacheSection.pages s.

(** The pages a list of entries owns, each with the identifier its entry
    records. *)
Definition footprint_of (es : list CacheSection.CacheEntry) : list (N * Z) :=
  omap (fun e => a ← CacheSection.page e; Some (a, CacheSection.id e)) es.

Definition footprint (s : CacheSection.t) : list (N * Z) :=
  footprint_of (entries s).

(** Every live page has exactly one owning entry, in exactly one section;
    no entry points to a destroyed page, and the page an entry owns carries
    the identifier the entry records. *)
Record heap_owned (m : Mem) (c : ConfigurableCache.t) : Prop := {
  ho_unique :
    forall sid s, ConfigurableCache.sections c !! sid = Some s ->
                  NoDup (footprint s).*1;
  ho_disjoint :
    forall sid1 sid2 s1 s2 a, sid1 <> sid2 ->
      ConfigurableCache.sections c !! sid1 = Some s1 ->
      ConfigurableCache.sections c !! sid2 = Some s2 ->
      a ∈ (footprint s1).*1 -> a ∉ (footprint s2).*1;
  ho_live :
    forall sid s a pid, ConfigurableCache.sections c !! sid = Some s ->
      (a, pid) ∈ footprint s ->
      exists p, heap m !! a = Some p /\ Page.get_id p = pid;
  ho_no_leak :
    forall a, is_Some (heap m !! a) ->
      exists sid s, ConfigurableCache.sections c !! sid = Some s /\
                    a ∈ (footprint s).*1
}.

(** *** Flushing *)

(** The entries of the container a section's structure uses: the sets of a
    direct-mapped or set-associative section, the list of a fully associative
    one. *)
Definition active_entries (s : CacheSection.t) : list CacheSection.CacheEntry :=
  if CacheSection.set_based (CacheSection.structure s)
  then concat (CacheSection.sets s) else CacheSection.pages s.

(** The page at [a] is as in [m], or as in [m] with its dirty flag cleared. *)
Definition kept_or_cleaned (m m' : Mem) (a : N) : Prop :=
  heap m' !! a = heap m !! a \/
  heap m' !! a = Page.set_dirty false <$> heap m !! a.

(** *** Capacity *)

(** [size / (line_size * associativity)], at least one: the number of sets
    the constructor and [resize] give a set-based section. *)
Definition sets_for_size (s : CacheSection.t) : Z :=
  let n0 := CacheSection.size s
            / to_size_t (CacheSection.line_size s * CacheSection.associativity s) in
  if n0 =? 0 then 1 else n0.

(** The containers of a section are sized from its [size], and the list of
    a fully associative section is within its capacity. *)
Record section_sized (s : CacheSection.t) : Prop := {
  sz_pages_capacity :
    CacheSection.pages_capacity s = CacheSection.size s / CacheSection.line_size s;
  sz_num_sets :
    CacheSection.set_based (CacheSection.structure s) = true ->
    CacheSection.num_sets s = sets_for_size s;
  sz_pages :
    Z.of_nat (length (CacheSection.pages s)) <= Z.max 1 (CacheSection.pages_capacity s)
}.

(** *** Least recently used *)

(** The order of a fully associative section after [id] was fetched from
    it or brought into it: [id] at the front; [before] is the order before the call and
    [hit] the position of [id] in it, if it was there. *)
Definition lru_after (s : CacheSection.t) (pid : Z) (hit : option nat) : list Z :=
  let before := CacheSection.lru_order s in
  match hit with
  | Some i => pid :: delete i before
  | None =>
      if Z.of_nat (length before) <? Z.max 1 (CacheSection.pages_capacity s)
      then pid :: before
      else pid :: take (pred (length before)) before
  end.

(** *** Valid entries own a page *)

Definition backed_entry (e : CacheSection.CacheEntry) : Prop :=
  CacheSection.valid e = true -> is_Some (CacheSection.page e).

(** Every valid entry of the sets of a section owns a page. *)
Definition backed (s : CacheSection.t) : Prop :=
  Forall (Forall backed_entry) (CacheSection.sets s).

(** *** Sets in place *)

(** The set vector of a direct-mapped or set-associative section is not
    empty: the constructor and [resize] fill it. *)
Definition sets_ready (s : CacheSection.t) : Prop :=
  CacheSection.set_based (CacheSection.structure s) = true ->
  CacheSection.sets s <> [].

(** *** Misses counted *)

(** No miss has been counted in the section. *)
Definition no_miss (s : CacheSection.t) : Prop :=
  CacheSectionStats.misses (CacheSection.stats s) = 0.

(** *** Pages a section holds *)

(** The lookup of [CacheSection::fetch_page] finds page [pid] in the
    section: in the set the identifier selects, or in the map of a fully
    associative section. *)
Definition holds (s : CacheSection.t) (pid : Z) : bool :=
  if CacheSection.set_based (CacheSection.structure s) then
    match CacheSection.sets s !! Z.to_nat (CacheSection.get_set_index s pid) with
    | Some set =>
        match find_first (CacheSection.entry_hit pid) set with
        | Some _ => true
        | None => false
        end
    | None => false
    end
  else
    match CacheSection.page_map s !! pid with
    | Some _ => true
    | None => false
    end.

(** *** The simplified cache: what a scan keeps *)

(** The identifiers of a list that have a page in [pm]. *)
Definition mapped_ids (pm : gmap Z N) (l : list Z) : list Z :=
  filter (fun q => is_Some (pm !! q)) l.

(** Every identifier of [l] that has a page has it pinned more than once. *)
Definition all_pinned (m : Mem) (pm : gmap Z N) (l : list Z) : Prop :=
  forall q b, q ∈ l -> pm !! q = Some b ->
    exists pb, heap m !! b = Some pb /\ 1 < Page.pin_count pb.

(** *** Runs of the simplified cache *)

(** The public members of [SimplifiedConfigurableCache] that change it. *)
Inductive simplified_call : Type :=
  | CallNewPage
  | CallFetchPage (pid : Z)
  | CallPinPage (pg : option N)
  | CallUnpinPage (pg : option N) (is_dirty : bool)
  | CallFlushPage (pg : option N)
  | CallFlushAllPages
  | CallPrefetchPage (pid : Z)
  | CallPrefetchPages (ids : list Z)
  | CallConfigure (st : CacheSection.Structure) (lsz assoc : Z)
  | CallResetStats.

Definition simplified_step (st : Mem * SimplifiedConfigurableCache.t)
    (o : simplified_call) : option (Mem * SimplifiedConfigurableCache.t) :=
  let '(m, c) := st in
  match o with
  | CallNewPage =>
      '(m', c', _) ← SimplifiedConfigurableCache.new_page m c; Some (m', c')
  | CallFetchPage pid =>
      '(m', c', _) ← SimplifiedConfigurableCache.fetch_page m c pid; Some (m', c')
  | CallPinPage pg => m' ← SimplifiedConfigurableCache.pin_page m pg; Some (m', c)
  | CallUnpinPage pg d =>
      m' ← SimplifiedConfigurableCache.unpin_page m pg d; Some (m', c)
  | CallFlushPage pg => m' ← SimplifiedConfigurableCache.flush_page m pg; Some (m', c)
  | CallFlushAllPages => Some (SimplifiedConfigurableCache.flush_all_pages m c, c)
  | CallPrefetchPage pid => SimplifiedConfigurableCache.prefetch_page m c pid
  | CallPrefetchPages ids => SimplifiedConfigurableCache.prefetch_pages m c ids
  | CallConfigure st lsz assoc =>
      Some (m, SimplifiedConfigurableCache.configure st lsz assoc c)
  | CallResetStats => Some (m, SimplifiedConfigurableCache.reset_stats c)
  end.

(** A sequence of calls on a cache fresh from its constructor, from left to
    right; [None] once a call is undefined. *)
Definition simplified_run (total psz lsz : Z) (st : CacheSection.Structure)
    (assoc : Z) (ops : list simplified_call)
  : option (Mem * SimplifiedConfigurableCache.t) :=
  foldl (fun acc o => s ← acc; simplified_step s o)
        (c ← SimplifiedConfigurableCache.new total psz lsz st assoc;
         Some (empty_mem, c))
        ops.

(** The simplified cache and the store of pages agree: every identifier of
    [page_map] has a live page, which carries that identifier; no page is
    stored under two identifiers; every live page is stored, except
    [pending], the page a call has created and not stored yet; pin counts are
    [int32_t] values. *)
Record pages_owned (pending : option N) (m : Mem)
    (c : SimplifiedConfigurableCache.t) : Prop := {
  po_live : forall pid a,
      SimplifiedConfigurableCache.page_map c !! pid = Some a ->
      exists p, heap m !! a = Some p /\ Page.get_id p = pid;
  po_inj : forall p1 p2 a,
      SimplifiedConfigurableCache.page_map c !! p1 = Some a ->
      SimplifiedConfigurableCache.page_map c !! p2 = Some a -> p1 = p2;
  po_stored : forall a, is_Some (heap m !! a) ->
      Some a = pending \/
      exists pid, SimplifiedConfigurableCache.page_map c !! pid = Some a;
  po_pending : forall pid a,
      SimplifiedConfigurableCache.page_map c !! pid = Some a -> Some a <> pending;
  po_below : forall a, is_Some (heap m !! a) -> (a < next_addr m)%N;
  po_pins : forall a p, heap m !! a = Some p ->
      - 2 ^ 31 <= Page.pin_count p < 2 ^ 31
}.

(** [page_map.size() <= capacity] *)
Definition within_capacity (c : SimplifiedConfigurableCache.t) : Prop :=
  SimplifiedConfigurableCache.size c <= SimplifiedConfigurableCache.capacity c.

(** The number of pages a call asks the cache to hold: each such request can
    make [evictPage] expand the cache by one page. *)
Definition call_requests (o : simplified_call) : Z :=
  match o with
  | CallNewPage | CallFetchPage _ | CallPrefetchPage _ => 1
  | CallPrefetchPages ids => Z.of_nat (length ids)
  | _ => 0
  end.

Definition run_requests (ops : list simplified_call) : Z :=
  fold_right (fun o k => call_requests o + k) 0 ops.

(** [capacity] as the constructor sets it *)
Definition initial_capacity (total psz : Z) : Z :=
  if total / psz =? 0 then 1 else total / psz.

(** The LRU list names the cached pages: no identifier twice, and an
    identifier is listed exactly when [page_map] has it. *)
Record lru_tracks (c : SimplifiedConfigurableCache.t) : Prop := {
  lt_nodup : NoDup (SimplifiedConfigurableCache.lru_list c);
  lt_same : forall pid,
      pid ∈ SimplifiedConfigurableCache.lru_list c
      <-> is_Some (SimplifiedConfigurableCache.page_map c !! pid)
}.

(** *** Counting pages *)

(** An entry owns a page exactly when it is valid. *)
Definition owner_entry (e : CacheSection.CacheEntry) : Prop :=
  is_Some (CacheSection.page e) <-> CacheSection.valid e = true.

(** Only the container of the section's structure is in use: a direct-mapped
    or set-associative section has an empty list and its entries own a page
    exactly when they are valid; a fully associative section has no sets and
    every node of its list owns a page. *)
Definition tidy (s : CacheSection.t) : Prop :=
  if CacheSection.set_based (CacheSection.structure s)
  then CacheSection.pages s = [] /\
       Forall (Forall owner_entry) (CacheSection.sets s)
  else CacheSection.sets s = [] /\
       Forall (fun e => is_Some (CacheSection.page e)) (CacheSection.pages s).

(** The addresses of the pages the sections own, section after section. *)
Definition owned_addresses (c : ConfigurableCache.t) : list N :=
  concat (map (fun kv => (footprint (snd kv)).*1)
              (map_to_list (ConfigurableCache.sections c))).

(** * Properties *)

(** ** Machine integers *)

Lemma to_size_t_range x : 0 <= to_size_t x < 2 ^ 64.
Proof. unfold to_size_t. apply Z.mod_pos_bound. lia. Qed.

Lemma to_size_t_small x : 0 <= x < 2 ^ 64 -> to_size_t x = x.
Proof. intros H. unfold to_size_t. apply Z.mod_small. exact H. Qed.

Lemma to_PageID_small x : 0 <= x < 2 ^ 32 -> to_PageID x = x.
Proof. intros H. unfold to_PageID. apply Z.mod_small. exact H. Qed.


Lemma to_int32_t_range x : - 2 ^ 31 <= to_int32_t x < 2 ^ 31.
Proof.
  unfold to_int32_t.
  pose proof (Z.mod_pos_bound (x + 2 ^ 31) (2 ^ 32)). lia.
Qed.

(** ** Searching a list *)

Lemma find_first_Some {A} (f : A -> bool) l i x :
  find_first f l = Some (i, x) -> l !! i = Some x /\ f x = true.
Proof.
  revert i. induction l as [|y l IH]; intros i; simpl; [discriminate|].
  destruct (f y) eqn:Hy.
  - intros [= <- <-]. auto.
  - destruct (find_first f l) as [[j z]|] eqn:Hl; [|discriminate].
    intros [= <- <-]. simpl. apply IH. reflexivity.
Qed.

Lemma find_first_None {A} (f : A -> bool) l :
  find_first f l = None -> forall x, x ∈ l -> f x = false.
Proof.
  induction l as [|y l IH]; simpl; intros H x Hx.
  - inversion Hx.
  - destruct (f y) eqn:Hy; [discriminate|].
    destruct (find_first f l) as [[j z]|] eqn:Hl; [discriminate|].
    apply list_elem_of_In in Hx. destruct Hx as [<-|Hx]; [exact Hy|].
    apply IH; [reflexivity|]. apply list_elem_of_In. exact Hx.
Qed.

Lemma find_first_is_Some {A} (f : A -> bool) l x :
  x ∈ l -> f x = true -> is_Some (find_first f l).
Proof.
  intros Hx Hf. destruct (find_first f l) as [r|] eqn:H; [eauto|].
  rewrite (find_first_None f l H x Hx) in Hf. discriminate.
Qed.

(** ** Well-formedness of sections *)

Lemma entry_below_mono m m' e :
  (next_addr m <= next_addr m')%N -> entry_below m e -> entry_below m' e.
Proof. intros Hle H a Ha. specialize (H a Ha). lia. Qed.

Lemma section_wf_mono m m' s :
  (next_addr m <= next_addr m')%N -> section_wf m s -> section_wf m' s.
Proof.
  intros Hle [H1 H2 H3 H4 H5 H6 Hv Hsh H7 H8].
  split; try assumption.
  - eapply Forall_impl; [exact H7|]. intros set Hset.
    eapply Forall_impl; [exact Hset|]. intros e. apply entry_below_mono, Hle.
  - eapply Forall_impl; [exact H8|]. intros e. apply entry_below_mono, Hle.
Qed.

Lemma fresh_sets_shape n a :
  length (CacheSection.fresh_sets n a) = Z.to_nat n /\
  Forall (fun set => length set = Z.to_nat a) (CacheSection.fresh_sets n a).
Proof.
  unfold CacheSection.fresh_sets. split.
  - apply length_replicate.
  - apply Forall_replicate. apply length_replicate.
Qed.

Lemma fresh_sets_below m n a :
  Forall (Forall (entry_below m)) (CacheSection.fresh_sets n a).
Proof.
  unfold CacheSection.fresh_sets.
  apply Forall_replicate, Forall_replicate.
  intros x Hx. discriminate.
Qed.

Lemma new_section_wf m sid sz lsz st assoc s :
  0 <= sz -> 0 <= assoc ->
  CacheSection.new sid sz lsz st assoc = Some s ->
  section_wf m s.
Proof.
  intros Hsz Hassoc. unfold CacheSection.new.
  destruct (to_size_t (lsz * assoc) =? 0) eqn:Hd; [discriminate|].
  destruct (lsz =? 0) eqn:Hl; [discriminate|]. simpl.
  intros [= <-]. apply Z.eqb_neq in Hd, Hl.
  assert (Ha : 0 < assoc).
  { destruct (Z.eq_dec assoc 0) as [->|]; [|lia].
    rewrite Z.mul_0_r in Hd. exfalso. apply Hd. reflexivity. }
  assert (Hn : 0 < (if sz / to_size_t (lsz * assoc) =? 0 then 1
                    else sz / to_size_t (lsz * assoc))).
  { destruct (sz / to_size_t (lsz * assoc) =? 0) eqn:Hq; [lia|].
    apply Z.eqb_neq in Hq.
    pose proof (to_size_t_range (lsz * assoc)).
    pose proof (Z.div_pos sz (to_size_t (lsz * assoc)) Hsz). lia. }
  split; simpl; try assumption.
  - destruct (CacheSection.set_based st); [right|left; reflexivity].
    apply fresh_sets_shape.
  - intros pid a Hpa. rewrite lookup_empty in Hpa. discriminate.
  - constructor.
  - destruct (CacheSection.set_based st); reflexivity.
  - destruct (CacheSection.set_based st); [apply fresh_sets_below|constructor].
  - constructor.
Qed.

(** ** The section's lookups never leave its vectors *)

Lemma set_index_bound s pid :
  0 < CacheSection.num_sets s ->
  (Z.to_nat (CacheSection.get_set_index s pid) < Z.to_nat (CacheSection.num_sets s))%nat.
Proof.
  intros Hn. unfold CacheSection.get_set_index.
  pose proof (Z.mod_pos_bound pid (CacheSection.num_sets s) Hn). lia.
Qed.

Lemma set_lookup m s pid :
  section_wf m s -> CacheSection.sets s <> [] ->
  exists set, CacheSection.sets s !! Z.to_nat (CacheSection.get_set_index s pid) = Some set
              /\ length set = Z.to_nat (CacheSection.associativity s)
              /\ Forall (entry_below m) set.
Proof.
  intros Hwf Hne. destruct (wf_sets _ _ Hwf) as [He|[Hlen Hall]]; [contradiction|].
  pose proof (set_index_bound s pid (wf_num_sets _ _ Hwf)) as Hlt.
  rewrite <- Hlen in Hlt.
  destruct (lookup_lt_is_Some_2 _ _ Hlt) as [set Hset].
  exists set. split; [exact Hset|]. split.
  - eapply Forall_lookup_1 in Hall; eauto.
  - pose proof (wf_sets_below _ _ Hwf) as Hb.
    eapply Forall_lookup_1 in Hb; eauto.
Qed.

Lemma with_stats_wf m s st :
  section_wf m s -> section_wf m (CacheSection.with_stats st s).
Proof. intros [H1 H2 H3 H4 H5 H6 Hv Hsh H7 H8]. split; assumption. Qed.

Lemma with_sets_insert_wf m s i set set' :
  section_wf m s ->
  CacheSection.sets s !! i = Some set ->
  length set' = length set ->
  Forall (entry_below m) set' ->
  section_wf m (CacheSection.with_sets (<[i := set']> (CacheSection.sets s)) s).
Proof.
  intros [H1 H2 H3 H4 H5 H6 Hv Hsh H7 H8] Hi Hlen Hb.
  split; simpl; try assumption.
  - destruct H5 as [He|[Hl Hall]].
    + rewrite He in Hi. discriminate.
    + right. split; [rewrite length_insert; exact Hl|].
      apply Forall_insert; [exact Hall|].
      rewrite Hlen. eapply Forall_lookup_1 in Hall; eauto.
  - destruct (CacheSection.set_based (CacheSection.structure s)); [exact Hsh|].
    rewrite Hsh in Hi. discriminate.
  - apply Forall_insert; assumption.
Qed.

Lemma set_referenced_below m b e :
  entry_below m e -> entry_below m (CacheSection.set_referenced b e).
Proof. intros H a Ha. apply H. exact Ha. Qed.

Lemma node_at_is_Some a l :
  is_Some (CacheSection.node_at a l) <->
  exists e, e ∈ l /\ CacheSection.page e = Some a.
Proof.
  unfold CacheSection.node_at. split.
  - intros [[i e] H]. apply find_first_Some in H as [Hi He].
    exists e. split; [eapply list_elem_of_lookup_2; eauto|].
    apply bool_decide_eq_true in He. exact He.
  - intros (e & He & Hp). eapply find_first_is_Some; [exact He|].
    apply bool_decide_eq_true. exact Hp.
Qed.

Lemma splice_front_perm i (l : list CacheSection.CacheEntry) :
  CacheSection.splice_front i l ≡ₚ l.
Proof.
  unfold CacheSection.splice_front.
  destruct (l !! i) as [e|] eqn:Hi; [|reflexivity].
  symmetry. apply delete_Permutation. exact Hi.
Qed.

Lemma with_pages_wf m s ps pm :
  section_wf m s ->
  CacheSection.set_based (CacheSection.structure s) = false ->
  Forall (entry_below m) ps ->
  Forall (fun e => CacheSection.valid e = true) ps ->
  (forall pid a, pm !! pid = Some a ->
     exists e, e ∈ ps /\ CacheSection.page e = Some a /\ CacheSection.id e = pid) ->
  section_wf m (CacheSection.with_pages ps pm s).
Proof.
  intros [H1 H2 H3 H4 H5 H6 Hv Hsh H7 H8] Hfa Hb Hval Hm.
  split; simpl; try assumption.
  rewrite Hfa in Hsh |- *. exact Hsh.
Qed.

Lemma page_map_node m s pid a :
  section_wf m s -> CacheSection.page_map s !! pid = Some a ->
  is_Some (CacheSection.node_at a (CacheSection.pages s)).
Proof.
  intros Hwf Hpm. apply node_at_is_Some.
  destruct (wf_page_map _ _ Hwf _ _ Hpm) as (e & He & Hp & _). eauto.
Qed.

Lemma fetch_miss_undefined s : CacheSection.fetch_miss s = None.
Proof. reflexivity. Qed.

Lemma fetch_page_wf m s pid s' r :
  section_wf m s ->
  CacheSection.fetch_page s pid = Some (s', r) ->
  section_wf m s' /\ CacheSection.line_size s' = CacheSection.line_size s.
Proof.
  intros Hwf. unfold CacheSection.fetch_page. rewrite fetch_miss_undefined.
  destruct (CacheSection.set_based (CacheSection.structure s)) eqn:Hsb.
  - destruct (CacheSection.sets s) as [|set0 rest] eqn:Hsets.
    + intros [= <- _]. auto.
    + rewrite <- Hsets.
      destruct (set_lookup m s pid Hwf) as (set & Hset & Hlen & Hb).
      { rewrite Hsets. discriminate. }
      rewrite Hset. simpl.
      destruct (find_first (CacheSection.entry_hit pid) set) as [[j e]|] eqn:Hf;
        [|discriminate].
      apply find_first_Some in Hf as [Hj _].
      intros [= <- _]. split; [|reflexivity].
      apply with_stats_wf. eapply with_sets_insert_wf; eauto.
      * apply length_insert.
      * apply Forall_insert; [exact Hb|].
        apply set_referenced_below.
        eapply Forall_lookup_1 in Hb; eauto.
  - destruct (CacheSection.page_map s !! pid) as [a|] eqn:Hpm; [|discriminate].
    destruct (CacheSection.node_at a (CacheSection.pages s)) as [[i e]|];
      [|discriminate].
    destruct (CacheSection.valid e && bool_decide (is_Some (CacheSection.page e)));
      [|discriminate].
    intros [= <- _]. split; [|reflexivity].
    apply with_stats_wf, with_pages_wf; [exact Hwf|exact Hsb| | |].
    + rewrite splice_front_perm. apply (wf_pages_below _ _ Hwf).
    + rewrite splice_front_perm. apply (wf_pages_valid _ _ Hwf).
    + intros pid' a' H'.
      destruct (wf_page_map _ _ Hwf _ _ H') as (e' & He' & Hp' & Hid').
      exists e'. split; [|auto]. rewrite splice_front_perm. exact He'.
Qed.

(** ** The page store *)

Lemma next_addr_free o m : next_addr (free o m) = next_addr m.
Proof. destruct o; reflexivity. Qed.

Lemma next_addr_owned_clean o m : next_addr (owned_clean o m) = next_addr m.
Proof. destruct o; reflexivity. Qed.

Lemma heap_free_below o m a :
  (forall b, o = Some b -> (b < a)%N) ->
  heap (free o m) !! a = heap m !! a.
Proof.
  intros H. destruct o as [b|]; [|reflexivity]. simpl.
  apply lookup_delete_ne. specialize (H b eq_refl). lia.
Qed.

Lemma heap_alloc p m : heap (snd (alloc p m)) !! next_addr m = Some p.
Proof. simpl. apply lookup_insert_eq. Qed.

(** ** The clock sweep *)

Lemma clock_sweep_total m fuel assoc start pos set :
  0 < assoc -> 0 <= pos < assoc ->
  length set = Z.to_nat assoc ->
  Forall (entry_below m) set ->
  exists set' pos' hand,
    CacheSection.clock_sweep fuel assoc start pos set = Some (set', pos', hand) /\
    0 <= pos' < assoc /\ length set' = Z.to_nat assoc /\
    Forall (entry_below m) set'.
Proof.
  intros Ha. revert pos set.
  induction fuel as [|fuel IH]; intros pos set Hpos Hlen Hb; simpl.
  - eauto 10.
  - assert (Hlt : (Z.to_nat pos < length set)%nat) by lia.
    destruct (lookup_lt_is_Some_2 _ _ Hlt) as [e He]. rewrite He. simpl.
    destruct (negb (CacheSection.referenced e)); [eauto 10|].
    pose proof (Z.mod_pos_bound (pos + 1) assoc Ha) as Hpos'.
    assert (Hb' : Forall (entry_below m)
                    (<[Z.to_nat pos := CacheSection.set_referenced false e]> set)).
    { apply Forall_insert; [exact Hb|]. apply set_referenced_below.
      eapply Forall_lookup_1 in Hb; eauto. }
    destruct ((pos + 1) mod assoc =? start).
    + eexists _, _, _. split; [reflexivity|].
      rewrite length_insert. auto.
    + apply IH; [exact Hpos'|rewrite length_insert; exact Hlen|exact Hb'].
Qed.

Lemma find_victim_in_set_total m s i set :
  section_wf m s ->
  CacheSection.sets s !! i = Some set ->
  exists m' s' v set',
    CacheSection.find_victim_in_set m s i = Some (m', s', v) /\
    heap m' = heap m /\ next_addr m' = next_addr m /\
    section_wf m' s' /\
    CacheSection.line_size s' = CacheSection.line_size s /\
    CacheSection.sets s' !! i = Some set' /\
    (v < length set')%nat.
Proof.
  intros Hwf Hi. unfold CacheSection.find_victim_in_set.
  pose proof (wf_associativity _ _ Hwf) as Ha.
  destruct (CacheSection.associativity s =? 0) eqn:H0; [lia|].
  rewrite Hi. simpl.
  assert (Hlen : length set = Z.to_nat (CacheSection.associativity s)).
  { destruct (wf_sets _ _ Hwf) as [He|[_ Hall]].
    - rewrite He in Hi. discriminate.
    - eapply Forall_lookup_1 in Hall; eauto. }
  assert (Hb : Forall (entry_below m) set).
  { pose proof (wf_sets_below _ _ Hwf) as Hall.
    eapply Forall_lookup_1 in Hall; eauto. }
  pose proof (Z.mod_pos_bound (clock_hand m) _ Ha) as Hpos.
  destruct (clock_sweep_total m (Z.to_nat (CacheSection.associativity s))
              _ (clock_hand m mod CacheSection.associativity s) _ set Ha Hpos Hlen Hb)
    as (set' & pos' & hand & Hsw & Hpos' & Hlen' & Hb').
  rewrite Hsw. simpl.
  eexists _, _, _, set'. split; [reflexivity|].
  split; [reflexivity|]. split; [reflexivity|]. split.
  - eapply section_wf_mono with (m := m); [simpl; lia|].
    eapply with_sets_insert_wf; eauto. lia.
  - split; [reflexivity|]. split.
    + simpl. apply list_lookup_insert_eq. eapply lookup_lt_Some; eauto.
    + lia.
Qed.

(** ** Allocation never fails *)

Lemma init_sets_wf m s :
  section_wf m s ->
  CacheSection.set_based (CacheSection.structure s) = true ->
  section_wf m
    (CacheSection.with_sets
       (CacheSection.fresh_sets (CacheSection.num_sets s) (CacheSection.associativity s)) s).
Proof.
  intros [H1 H2 H3 H4 H5 H6 Hv Hsh H7 H8] Hsb. split; simpl; try assumption.
  - right. apply fresh_sets_shape.
  - rewrite Hsb in Hsh |- *. exact Hsh.
  - apply fresh_sets_below.
Qed.

Lemma fresh_sets_nonempty n a : 0 < n -> CacheSection.fresh_sets n a <> [].
Proof.
  intros Hn H. apply (f_equal length) in H.
  rewrite (proj1 (fresh_sets_shape n a)) in H. simpl in H. lia.
Qed.

Lemma new_entry_below m pid r1 r2 :
  entry_below (snd (alloc (Page.new pid r1) m))
              (CacheSection.mkEntry (Some (next_addr m)) pid true r2).
Proof. intros a [= <-]. simpl. lia. Qed.

Lemma allocate_page_spec m s pid :
  section_wf m s ->
  exists m' s',
    CacheSection.allocate_page m s pid = Some (m', s', Some (next_addr m)) /\
    section_wf m' s' /\
    next_addr m' = N.succ (next_addr m) /\
    heap m' !! next_addr m = Some (Page.new pid (CacheSection.line_size s)) /\
    CacheSection.stats s' = CacheSection.stats s /\
    resident s' pid (next_addr m).
Proof.
  intros Hwf. unfold CacheSection.allocate_page.
  destruct (CacheSection.set_based (CacheSection.structure s)) eqn:Hsb.
  - (* direct-mapped and set-associative *)
    set (s1 := match CacheSection.sets s with
               | [] => CacheSection.with_sets _ s
               | _ => s
               end).
    assert (Hwf1 : section_wf m s1).
    { subst s1. destruct (CacheSection.sets s); [apply init_sets_wf|]; assumption. }
    assert (Hne1 : CacheSection.sets s1 <> []).
    { subst s1. destruct (CacheSection.sets s) eqn:Hs; simpl.
      - apply fresh_sets_nonempty, (wf_num_sets _ _ Hwf).
      - rewrite Hs. discriminate. }
    assert (Hls1 : CacheSection.line_size s1 = CacheSection.line_size s).
    { subst s1. destruct (CacheSection.sets s); reflexivity. }
    assert (Hst1 : CacheSection.stats s1 = CacheSection.stats s).
    { subst s1. destruct (CacheSection.sets s); reflexivity. }
    clearbody s1.
    destruct (set_lookup m s1 pid Hwf1 Hne1) as (set & Hset & Hlen & Hb).
    rewrite Hset. simpl.
    destruct (find_first (fun e => negb (CacheSection.valid e)) set) as [[j e]|] eqn:Hf.
    + (* a free slot *)
      apply find_first_Some in Hf as [Hj _].
      unfold CacheSection.create_page. simpl.
      eexists _, _. split; [reflexivity|].
      assert (Hej : entry_below m e) by (eapply Forall_lookup_1 in Hb; eauto).
      split; [|split; [|split]].
      * eapply section_wf_mono
          with (m := snd (alloc (Page.new pid (CacheSection.line_size s1)) m)).
        { rewrite next_addr_free. simpl. lia. }
        eapply with_sets_insert_wf; eauto.
        -- eapply section_wf_mono; [|exact Hwf1]. simpl. lia.
        -- apply length_insert.
        -- apply Forall_insert.
           ++ eapply Forall_impl; [exact Hb|]. intros x.
              apply entry_below_mono. simpl. lia.
           ++ apply new_entry_below.
      * rewrite next_addr_free. reflexivity.
      * rewrite heap_free_below by (intros b Hb'; apply Hej; exact Hb').
        simpl. rewrite lookup_insert_eq, Hls1. reflexivity.
      * split; [exact Hst1|].
        exists (CacheSection.mkEntry (Some (next_addr m)) pid true true).
        split; [|simpl; auto]. right.
        eexists. split; simpl.
        -- eapply list_elem_of_lookup_2, list_lookup_insert_eq.
           eapply lookup_lt_Some; eauto.
        -- eapply list_elem_of_lookup_2, list_lookup_insert_eq.
           eapply lookup_lt_Some; eauto.
    + (* the clock picks a victim *)
      destruct (find_victim_in_set_total m s1 _ set Hwf1 Hset)
        as (m1 & s2 & v & set2 & Hfv & Hheap & Hnext & Hwf2 & Hls2 & Hset2 & Hv).
      assert (Hst2 : CacheSection.stats s2 = CacheSection.stats s1).
      { unfold CacheSection.find_victim_in_set in Hfv.
        destruct (CacheSection.associativity s1 =? 0); [discriminate|].
        rewrite Hset in Hfv. simpl in Hfv.
        destruct (CacheSection.clock_sweep _ _ _ _ set) as [[[? ?] ?]|]; [|discriminate].
        simpl in Hfv. injection Hfv as _ <- _. reflexivity. }
      rewrite Hfv. simpl. rewrite Hset2. simpl.
      destruct (lookup_lt_is_Some_2 _ _ Hv) as [victim Hvictim].
      rewrite Hvictim. simpl.
      unfold CacheSection.create_page.
      set (m2 := if CacheSection.valid victim && owned_dirty (CacheSection.page victim) m1
                 then owned_clean (CacheSection.page victim) m1 else m1).
      assert (Hn2 : next_addr m2 = next_addr m).
      { subst m2. destruct (_ && _); [rewrite next_addr_owned_clean|]; exact Hnext. }
      clearbody m2. unfold alloc. simpl. rewrite Hn2.
      eexists _, _. split; [reflexivity|].
      assert (Hb2 : Forall (entry_below m1) set2).
      { pose proof (wf_sets_below _ _ Hwf2) as Hall.
        eapply Forall_lookup_1 in Hall; eauto. }
      assert (Hev : entry_below m1 victim) by (eapply Forall_lookup_1 in Hb2; eauto).
      split; [|split; [|split]].
      * eapply section_wf_mono
          with (m := snd (alloc (Page.new pid (CacheSection.line_size s2)) m)).
        { rewrite next_addr_free. simpl. lia. }
        eapply with_sets_insert_wf; eauto.
        -- eapply section_wf_mono; [|exact Hwf2]. simpl. lia.
        -- apply length_insert.
        -- apply Forall_insert.
           ++ eapply Forall_impl; [exact Hb2|]. intros x.
              apply entry_below_mono. simpl. lia.
           ++ apply new_entry_below.
      * rewrite next_addr_free. reflexivity.
      * rewrite heap_free_below.
        -- simpl. rewrite lookup_insert_eq, Hls2, Hls1. reflexivity.
        -- intros b Hb'. specialize (Hev b Hb'). lia.
      * split; [simpl; rewrite Hst2; exact Hst1|].
        exists (CacheSection.mkEntry (Some (next_addr m)) pid true true).
        split; [|simpl; auto]. right.
        eexists. split; simpl.
        -- eapply list_elem_of_lookup_2, list_lookup_insert_eq.
           eapply lookup_lt_Some; eauto.
        -- eapply list_elem_of_lookup_2, list_lookup_insert_eq. exact Hv.
  - (* fully associative *)
    assert (Hroom : forall m1,
      next_addr m1 = N.succ (next_addr m) ->
      section_wf m1
        (CacheSection.with_pages
           (CacheSection.mkEntry (Some (next_addr m)) pid true false
              :: CacheSection.pages s)
           (<[pid := next_addr m]> (CacheSection.page_map s)) s)).
    { intros m1 Hm1. apply with_pages_wf.
      - eapply section_wf_mono; [|exact Hwf]. lia.
      - exact Hsb.
      - constructor.
        + intros a [= <-]. lia.
        + eapply Forall_impl; [apply (wf_pages_below _ _ Hwf)|].
          intros x. apply entry_below_mono. lia.
      - constructor; [reflexivity|apply (wf_pages_valid _ _ Hwf)].
      - intros pid' a'. rewrite lookup_insert. case_decide as Hd.
        + intros [= <-]. eexists. split; [apply list_elem_of_here|]. auto.
        + intros H'. destruct (wf_page_map _ _ Hwf _ _ H') as (e' & He' & Hp').
          exists e'. split; [apply list_elem_of_further, He'|exact Hp']. }
    destruct (Z.of_nat (length (CacheSection.pages s)) <? CacheSection.pages_capacity s).
    { unfold CacheSection.create_page, alloc. simpl.
      eexists _, _. split; [reflexivity|].
      split; [apply Hroom; reflexivity|].
      split; [reflexivity|]. split; [apply lookup_insert_eq|].
      split; [reflexivity|].
      exists (CacheSection.mkEntry (Some (next_addr m)) pid true false).
      split; [left; apply list_elem_of_here|simpl; auto]. }
    destruct (CacheSection.pages s) as [|e0 ps0] eqn:Hps.
    { unfold CacheSection.create_page, alloc. simpl.
      eexists _, _. split; [reflexivity|].
      split; [rewrite ?Hps; apply Hroom; reflexivity|].
      split; [reflexivity|]. split; [apply lookup_insert_eq|].
      split; [reflexivity|].
      exists (CacheSection.mkEntry (Some (next_addr m)) pid true false).
      split; [left; apply list_elem_of_here|simpl; auto]. }
    rewrite <- Hps. unfold CacheSection.find_victim_in_fully_associative.
    rewrite Hps. rewrite <- Hps.
    assert (Hlast : exists victim, last (CacheSection.pages s) = Some victim).
    { rewrite Hps. destruct (last (e0 :: ps0)) eqn:Hl; [eauto|].
      apply last_None in Hl. discriminate. }
    destruct Hlast as [victim Hlast]. rewrite Hlast. simpl.
    set (i := pred (length (CacheSection.pages s))).
    assert (Hi : CacheSection.pages s !! i = Some victim).
    { rewrite <- Hlast. subst i. symmetry. apply last_lookup. }
    assert (Hvalid : CacheSection.valid victim = true).
    { pose proof (wf_pages_valid _ _ Hwf) as Hv.
      eapply Forall_lookup_1 in Hv; eauto. }
    assert (Hvb : entry_below m victim).
    { pose proof (wf_pages_below _ _ Hwf) as Hv.
      eapply Forall_lookup_1 in Hv; eauto. }
    rewrite Hvalid. simpl.
    set (m1 := if owned_dirty (CacheSection.page victim) m
               then owned_clean (CacheSection.page victim) m else m).
    assert (Hn1 : next_addr m1 = next_addr m).
    { subst m1. destruct (owned_dirty _ _); [apply next_addr_owned_clean|reflexivity]. }
    clearbody m1. unfold CacheSection.create_page, alloc. simpl. rewrite Hn1.
    eexists _, _. split; [reflexivity|].
    split; [|split; [|split]].
    + unfold CacheSection.splice_front.
      rewrite list_lookup_insert_eq by (eapply lookup_lt_Some; eauto).
      apply with_pages_wf.
      * eapply section_wf_mono; [|exact Hwf]. rewrite next_addr_free. simpl. lia.
      * exact Hsb.
      * constructor.
        -- intros a [= <-]. rewrite next_addr_free. simpl. lia.
        -- apply Forall_delete, Forall_insert.
           ++ eapply Forall_impl; [apply (wf_pages_below _ _ Hwf)|].
              intros x. apply entry_below_mono. rewrite next_addr_free. simpl. lia.
           ++ intros a [= <-]. rewrite next_addr_free. simpl. lia.
      * constructor; [reflexivity|].
        apply Forall_delete, Forall_insert; [apply (wf_pages_valid _ _ Hwf)|reflexivity].
      * intros pid' a'. rewrite lookup_insert. case_decide as Hd.
        -- intros [= <-]. eexists. split; [apply list_elem_of_here|]. auto.
        -- rewrite lookup_delete. case_decide as Hd'; [discriminate|].
           intros H'. destruct (wf_page_map _ _ Hwf _ _ H') as (e' & He' & Hp' & Hid').
           exists e'. split; [|auto]. apply list_elem_of_further.
           apply list_elem_of_lookup in He' as [j Hj].
           destruct (decide (j = i)) as [->|Hne].
           ++ rewrite Hi in Hj. injection Hj as ->. congruence.
           ++ apply list_elem_of_lookup.
              destruct (decide (j < i)%nat).
              ** exists j. rewrite list_lookup_delete_lt by assumption.
                 rewrite list_lookup_insert_ne by lia. exact Hj.
              ** exfalso. apply lookup_lt_Some in Hj. subst i. lia.
    + rewrite next_addr_free. reflexivity.
    + rewrite heap_free_below.
      * simpl. apply lookup_insert_eq.
      * intros b Hb'. specialize (Hvb b Hb'). lia.
    + split; [reflexivity|].
      exists (CacheSection.mkEntry (Some (next_addr m)) pid true
                (CacheSection.referenced victim)).
      split; [left|simpl; auto]. simpl.
      unfold CacheSection.splice_front.
      rewrite list_lookup_insert_eq by (eapply lookup_lt_Some; eauto).
      apply list_elem_of_here.
Qed.

(** ** Well-formedness of the router *)

Lemma cache_wf_mono m m' c :
  (next_addr m <= next_addr m')%N -> cache_wf m c -> cache_wf m' c.
Proof.
  intros Hle [Hd Hs]. split; [exact Hd|].
  intros sid s Hsid. eapply section_wf_mono; eauto.
Qed.

Lemma update_section_wf m m' c sid s' :
  cache_wf m c ->
  is_Some (ConfigurableCache.sections c !! sid) ->
  (next_addr m <= next_addr m')%N ->
  section_wf m' s' ->
  cache_wf m'
    (ConfigurableCache.with_sections
       (<[sid := s']> (ConfigurableCache.sections c)) c).
Proof.
  intros [Hd Hs] Hsid Hle Hwf. split; simpl.
  - rewrite lookup_insert. case_decide; [eauto|exact Hd].
  - intros sid' s0. rewrite lookup_insert. case_decide.
    + intros [= <-]. exact Hwf.
    + intros H0. eapply section_wf_mono; eauto.
Qed.

Lemma first_live_range_live ss pid rs ids sid :
  ConfigurableCache.first_live_range ss pid rs ids = Some sid ->
  is_Some (ss !! sid).
Proof.
  revert ids. induction rs as [|[lo hi] rs IH]; intros [|sid0 ids]; simpl;
    try discriminate.
  destruct (_ && bool_decide (is_Some (ss !! sid0))) eqn:Hc.
  - intros [= <-].
    apply andb_true_iff in Hc as [_ Hc]. apply bool_decide_eq_true in Hc. exact Hc.
  - apply IH.
Qed.

Lemma find_section_live m c pid :
  cache_wf m c ->
  exists sid s, ConfigurableCache.find_section_for_page c pid = Some sid /\
                ConfigurableCache.sections c !! sid = Some s.
Proof.
  intros [Hd Hs]. unfold ConfigurableCache.find_section_for_page.
  assert (Hrange : exists sid s,
    match ConfigurableCache.first_live_range (ConfigurableCache.sections c) pid
            (ConfigurableCache.page_ranges c) (ConfigurableCache.range_section_ids c) with
    | Some sid => Some sid
    | None =>
        match ConfigurableCache.sections c !! ConfigurableCache.default_section_id c with
        | Some _ => Some (ConfigurableCache.default_section_id c)
        | None => fst <$> head (map_to_list (ConfigurableCache.sections c))
        end
    end = Some sid /\ ConfigurableCache.sections c !! sid = Some s).
  { destruct (ConfigurableCache.first_live_range _ _ _ _) as [sid|] eqn:Hr.
    - destruct (first_live_range_live _ _ _ _ _ Hr) as [s Hsid]. eauto.
    - destruct Hd as [s Hdef]. rewrite Hdef. eauto. }
  destruct (ConfigurableCache.page_to_section_map c !! pid) as [sid|]; [|exact Hrange].
  destruct (ConfigurableCache.sections c !! sid) as [s|] eqn:Hsid; [eauto|exact Hrange].
Qed.

Lemma new_cache_wf total psz lsz m c :
  0 <= total ->
  ConfigurableCache.new total psz lsz = Some (m, c) ->
  cache_wf m c.
Proof.
  intros Htotal. unfold ConfigurableCache.new, ConfigurableCache.create_section.
  simpl. rewrite Z.ltb_irrefl.
  destruct (CacheSection.new 0 total lsz CacheSection.FullyAssociative
              ConfigurableCache.default_associativity) as [s|] eqn:Hs;
    [|discriminate].
  simpl. rewrite lookup_empty. intros [= <- <-].
  assert (Hwf : section_wf empty_mem s).
  { eapply new_section_wf; [exact Htotal| |exact Hs]. 
    unfold ConfigurableCache.default_associativity. lia. }
  split; simpl.
  - rewrite lookup_insert_eq. eauto.
  - intros sid s0. rewrite lookup_insert. case_decide; [|rewrite lookup_empty; discriminate].
    intros [= <-]. exact Hwf.
Qed.

(** ** What the router's [fetch_page] and [new_page] return *)

Lemma section_new_page_spec m s pid :
  section_wf m s ->
  exists m' s',
    CacheSection.new_page m s pid = Some (m', s', Some (next_addr m)) /\
    section_wf m' s' /\
    next_addr m' = N.succ (next_addr m) /\
    heap m' !! next_addr m = Some (Page.new pid (CacheSection.line_size s)) /\
    CacheSection.stats s' = CacheSectionStats.record_miss (CacheSection.stats s) /\
    resident s' pid (next_addr m).
Proof.
  intros Hwf. unfold CacheSection.new_page.
  destruct (allocate_page_spec m
              (CacheSection.with_stats
                 (CacheSectionStats.record_miss (CacheSection.stats s)) s) pid)
    as (m' & s' & H1 & H2 & H3 & H4 & H5 & H6).
  { apply with_stats_wf, Hwf. }
  exists m', s'. auto 10.
Qed.

Lemma fetch_hit_resident m s pid s' a :
  section_wf m s ->
  CacheSection.fetch_page s pid = Some (s', Some a) ->
  resident s pid a.
Proof.
  intros Hwf. unfold CacheSection.fetch_page.
  destruct (CacheSection.set_based (CacheSection.structure s)).
  - destruct (CacheSection.sets s) as [|set0 rest] eqn:Hsets; [discriminate|].
    rewrite <- Hsets.
    destruct (CacheSection.sets s !! _) as [set|] eqn:Hset; [|discriminate]. simpl.
    destruct (find_first (CacheSection.entry_hit pid) set) as [[j e]|] eqn:Hf;
      [|discriminate].
    intros [= _ Hp]. apply find_first_Some in Hf as [Hj Hhit].
    unfold CacheSection.entry_hit in Hhit.
    apply andb_true_iff in Hhit as [Hhit _].
    apply andb_true_iff in Hhit as [Hv Hid]. apply Z.eqb_eq in Hid.
    exists e. split; [right|auto].
    exists set. split; eapply list_elem_of_lookup_2; eauto.
  - destruct (CacheSection.page_map s !! pid) as [a0|] eqn:Hpm; [|discriminate].
    destruct (CacheSection.node_at a0 (CacheSection.pages s)) as [[i e]|] eqn:Hn;
      [|discriminate].
    destruct (CacheSection.valid e && _); [|discriminate].
    intros [= _ Hp].
    apply find_first_Some in Hn as [_ He]. apply bool_decide_eq_true in He.
    assert (a0 = a) as -> by congruence.
    destruct (wf_page_map _ _ Hwf _ _ Hpm) as (e' & He' & Hp' & Hid').
    exists e'. split; [left; exact He'|]. split; [exact Hp'|]. split; [exact Hid'|].
    pose proof (wf_pages_valid _ _ Hwf) as Hv.
    rewrite Forall_forall in Hv. apply Hv, He'.
Qed.

(** Where the sets of a section are in place, [fetch_page] returns a page or
    does not return. *)
Lemma fetch_page_no_null s pid s' r :
  CacheSection.sets s <> [] \/ CacheSection.set_based (CacheSection.structure s) = false ->
  CacheSection.fetch_page s pid = Some (s', r) ->
  is_Some r.
Proof.
  intros Hready. unfold CacheSection.fetch_page. rewrite fetch_miss_undefined.
  destruct (CacheSection.set_based (CacheSection.structure s)).
  - destruct (CacheSection.sets s) as [|set0 rest] eqn:Hsets;
      [destruct Hready as [H|H]; [contradiction|discriminate]|].
    rewrite <- Hsets.
    destruct (CacheSection.sets s !! _) as [set|]; [|discriminate]. simpl.
    destruct (find_first (CacheSection.entry_hit pid) set) as [[j e]|] eqn:Hf;
      [|discriminate].
    intros [= _ <-]. apply find_first_Some in Hf as [_ Hhit].
    unfold CacheSection.entry_hit in Hhit.
    apply andb_true_iff in Hhit as [_ Hp]. apply bool_decide_eq_true in Hp. exact Hp.
  - destruct (CacheSection.page_map s !! pid) as [a0|]; [|discriminate].
    destruct (CacheSection.node_at a0 (CacheSection.pages s)) as [[i e]|];
      [|discriminate].
    destruct (CacheSection.valid e) eqn:Hv; [|discriminate]. simpl.
    destruct (bool_decide (is_Some (CacheSection.page e))) eqn:Hp; [|discriminate].
    intros [= _ <-]. apply bool_decide_eq_true in Hp. exact Hp.
Qed.

(** [fetch_page] returns the null pointer only from a section whose set
    vector is empty, and then leaves the section as it is. *)
Lemma fetch_page_null s pid s' :
  CacheSection.fetch_page s pid = Some (s', None) ->
  s' = s /\ CacheSection.set_based (CacheSection.structure s) = true /\
  CacheSection.sets s = [].
Proof.
  intros H.
  destruct (CacheSection.set_based (CacheSection.structure s)) eqn:Hsb.
  - destruct (CacheSection.sets s) as [|x l] eqn:E.
    + unfold CacheSection.fetch_page in H. rewrite Hsb, E in H.
      injection H as <-. auto.
    + apply fetch_page_no_null in H; [destruct H as [a Ha]; discriminate|].
      left. rewrite E. discriminate.
  - apply fetch_page_no_null in H; [destruct H as [a Ha]; discriminate|].
    right. exact Hsb.
Qed.

Lemma fetch_page_spec m c pid m' c' r :
  cache_wf m c ->
  ConfigurableCache.fetch_page m c pid = Some (m', c', r) ->
  exists sid s a,
    ConfigurableCache.find_section_for_page c pid = Some sid /\
    ConfigurableCache.sections c !! sid = Some s /\
    r = Some a /\
    cache_wf m' c' /\
    ((exists s1, CacheSection.fetch_page s pid = Some (s1, Some a) /\
                 m' = m /\ resident s pid a /\
                 c' = ConfigurableCache.with_sections
                        (<[sid := s1]> (ConfigurableCache.sections c)) c) \/
     (exists s1 s2, CacheSection.fetch_page s pid = Some (s1, None) /\
                    a = next_addr m /\
                    heap m' !! a = Some (Page.new pid (CacheSection.line_size s)) /\
                    ConfigurableCache.sections c' !! sid = Some s2 /\
                    resident s2 pid a)).
Proof.
  intros Hwf. unfold ConfigurableCache.fetch_page.
  destruct (find_section_live m c pid Hwf) as (sid & s & Hfind & Hsid).
  rewrite Hfind. simpl. rewrite Hsid. simpl.
  pose proof (wf_sections _ _ Hwf _ _ Hsid) as Hswf.
  destruct (CacheSection.fetch_page s pid) as [[s1 r1]|] eqn:Hfetch; [|discriminate].
  destruct (fetch_page_wf m s pid s1 r1 Hswf Hfetch) as [Hwf1 Hls].
  simpl. destruct r1 as [a|].
  - intros [= <- <- <-]. exists sid, s, a.
    split; [first [reflexivity|assumption]|]. split; [first [reflexivity|assumption]|]. split; [first [reflexivity|assumption]|]. split.
    + eapply update_section_wf; eauto; lia.
    + left. exists s1. split; [first [reflexivity|assumption]|]. split; [first [reflexivity|assumption]|].
      split; [eapply fetch_hit_resident; eauto|reflexivity].
  - destruct (section_new_page_spec m s1 pid Hwf1)
      as (m1 & s2 & Hnew & Hwf2 & Hn & Hh & _ & Hres).
    rewrite Hnew. simpl. intros [= <- <- <-]. exists sid, s, (next_addr m).
    split; [first [reflexivity|assumption]|]. split; [first [reflexivity|assumption]|]. split; [first [reflexivity|assumption]|]. split.
    + eapply update_section_wf; eauto; lia.
    + right. exists s1, s2. split; [first [reflexivity|assumption]|]. split; [first [reflexivity|assumption]|].
      split; [rewrite Hh, Hls; reflexivity|].
      split; [simpl; apply lookup_insert_eq|exact Hres].
Qed.

Lemma with_next_page_id_wf m c n :
  cache_wf m c -> cache_wf m (ConfigurableCache.with_next_page_id n c).
Proof. intros [Hd Hs]. split; assumption. Qed.

Lemma mem_pin_spec a m p :
  heap m !! a = Some p ->
  exists m', mem_pin a m = Some m' /\ next_addr m' = next_addr m /\
             heap m' !! a = Some (snd (Page.pin p)).
Proof.
  intros Hp. unfold mem_pin. rewrite Hp. eexists. split; [reflexivity|].
  split; [reflexivity|]. simpl. rewrite lookup_alter_eq, Hp. reflexivity.
Qed.

(** [new_page] locks the router's mutex a second time before it reaches a
    section. *)
Lemma new_page_undefined m c : ConfigurableCache.new_page m c = None.
Proof. reflexivity. Qed.

(** On a cache fresh from its constructor no page is resident: the first
    [fetch_page], whatever the identifier, takes the miss path of the
    default section. *)
Lemma fetch_page_fresh_cache total psz lsz m c pid :
  ConfigurableCache.new total psz lsz = Some (m, c) ->
  ConfigurableCache.fetch_page m c pid = None.
Proof.
  unfold ConfigurableCache.new, ConfigurableCache.create_section. simpl.
  destruct (CacheSection.new _ _ _ _ _) as [s|] eqn:Hs; [|discriminate].
  simpl. intros [= <- <-].
  unfold CacheSection.new in Hs. destruct (_ || _); [discriminate|].
  injection Hs as <-.
  unfold ConfigurableCache.fetch_page, ConfigurableCache.find_section_for_page.
  simpl. rewrite !lookup_empty. simpl. rewrite lookup_insert_eq. simpl.
  rewrite lookup_insert_eq. reflexivity.
Qed.

Lemma cache_run_None ops : cache_run ops None = None.
Proof. induction ops as [|o ops IH]; [reflexivity|exact IH]. Qed.

(** ** Identifiers handed out by [new_page] *)

Lemma new_cache_counter total psz lsz m c :
  ConfigurableCache.new total psz lsz = Some (m, c) ->
  ConfigurableCache.next_page_id c = 0.
Proof.
  unfold ConfigurableCache.new, ConfigurableCache.create_section. simpl.
  destruct (CacheSection.new _ _ _ _ _); [|discriminate]. simpl.
  intros [= _ <-]. reflexivity.
Qed.

(** C9, evaluated on the code: [new_page] returns no identifier.  The call
    holds [lock_guard] on the router's mutex when [find_section_for_page]
    locks the same mutex again, so in every state, and already for the first
    call on a cache fresh from its constructor, it is undefined and no page
    is handed out; the identifiers 1, 2, 3, ... of the claim are never
    returned.  Apart from that, the identifier the call computes before it
    looks for a section is the 64-bit counter cut to 32 bits: it is the
    counter itself while that is below 2^32, and 0 when the counter stands at
    2^32, although [if (next_page_id == 0) next_page_id = 1] is there to
    "reserve 0 for special cases". *)
Theorem new_page_returns_no_identifier :
  (forall m c, ConfigurableCache.new_page m c = None) /\
  (forall total psz lsz ops,
     cache_run (NewPage :: ops) (ConfigurableCache.new total psz lsz) = None) /\
  (exists m c, ConfigurableCache.new 12288 4096 4096 = Some (m, c) /\
               ConfigurableCache.next_page_id c = 0 /\ next_new_id c = 1 /\
               ConfigurableCache.new_page m c = None) /\
  (forall c, next_new_id (ConfigurableCache.with_next_page_id (2 ^ 32) c) = 0).
Proof.
  split; [exact new_page_undefined|]. split; [|split].
  - intros total psz lsz ops.
    destruct (ConfigurableCache.new total psz lsz) as [[m c]|]; simpl;
      apply cache_run_None.
  - eexists _, _. split; [reflexivity|]. split; [reflexivity|].
    split; reflexivity.
  - intros c. reflexivity.
Qed.

(** ** [fetch_page] through the router *)

(** C10, evaluated on the code: [fetch_page] of an identifier that is not
    resident does not return.  On a cache fresh from its constructor no
    identifier is resident and the call is undefined for every one of them,
    0 included: the miss path of [CacheSection::fetch_page] locks the
    section's mutex exclusively while the shared lock taken on entry is
    still held, so the router never reaches the [new_page] call that would
    fabricate the page.  A page that [prefetch_page] has put in the section
    is returned. *)
Theorem fetch_page_blocks_on_a_miss :
  (forall total psz lsz pid ids,
     fetch_all (pid :: ids) (ConfigurableCache.new total psz lsz) = None) /\
  (forall s, CacheSection.fetch_miss s = None) /\
  (exists m c,
     ConfigurableCache.new 12288 4096 4096 = Some (m, c) /\
     ConfigurableCache.fetch_page m c 0 = None /\
     exists m1 c1 c2 a,
       ConfigurableCache.prefetch_page m c 0 = Some (m1, c1) /\
       ConfigurableCache.fetch_page m1 c1 0 = Some (m1, c2, Some a) /\
       Page.id <$> heap m1 !! a = Some 0).
Proof.
  split; [|split; [exact fetch_miss_undefined|]].
  - intros total psz lsz pid ids. unfold fetch_all.
    destruct (ConfigurableCache.new total psz lsz) as [[m c]|] eqn:Hnew; simpl.
    + rewrite (fetch_page_fresh_cache _ _ _ _ _ pid Hnew). simpl.
      induction ids as [|i ids IH]; [reflexivity|exact IH].
    + induction ids as [|i ids IH]; [reflexivity|exact IH].
  - eexists _, _. split; [reflexivity|]. split; [vm_compute; reflexivity|].
    eexists _, _, _, _. split; [vm_compute; reflexivity|].
    split; [vm_compute; reflexivity|]. reflexivity.
Qed.

(** ** Range routing *)

(** C5, as stated, fails: in the scenario identifier 30 does not resolve to
    section A, because mapping (50, 150) to B erased the range (1, 100). *)
Lemma range_routing_30_is_not_A :
  exists a b c,
    range_routing_scenario = Some (a, b, c) /\
    ConfigurableCache.get_section_for_page c 30 <> a.
Proof.
  eexists _, _, _. split; [vm_compute; reflexivity|].
  vm_compute. discriminate.
Qed.

(** C5 (amended): with sections A and B registered and no mapping installed
    yet, after [map_range(1, 100, A)] and [map_range(50, 150, B)] the only
    range left is (50, 150): [section_for_page(75)] is B, and both
    [section_for_page(30)] and [section_for_page(200)] are the default
    section. *)
Theorem range_routing c a b :
  is_Some (ConfigurableCache.sections c !! a) ->
  is_Some (ConfigurableCache.sections c !! b) ->
  ConfigurableCache.page_to_section_map c = ∅ ->
  ConfigurableCache.page_ranges c = [] ->
  ConfigurableCache.range_section_ids c = [] ->
  ConfigurableCache.page_ranges
    (ConfigurableCache.map_page_range_to_section
       (ConfigurableCache.map_page_range_to_section c 1 100 a) 50 150 b)
  = [(50, 150)] /\
  ConfigurableCache.get_section_for_page
    (ConfigurableCache.map_page_range_to_section
       (ConfigurableCache.map_page_range_to_section c 1 100 a) 50 150 b) 75 = b /\
  ConfigurableCache.get_section_for_page
    (ConfigurableCache.map_page_range_to_section
       (ConfigurableCache.map_page_range_to_section c 1 100 a) 50 150 b) 30
  = ConfigurableCache.default_section_id c /\
  ConfigurableCache.get_section_for_page
    (ConfigurableCache.map_page_range_to_section
       (ConfigurableCache.map_page_range_to_section c 1 100 a) 50 150 b) 200
  = ConfigurableCache.default_section_id c.
Proof.
  intros [sa Ha] [sb Hb] Hmap Hr Hi.
  unfold ConfigurableCache.map_page_range_to_section at 2 4 6 8.
  rewrite Ha, Hr, Hi. simpl.
  unfold ConfigurableCache.map_page_range_to_section. simpl. rewrite Hb. simpl.
  unfold ConfigurableCache.get_section_for_page. simpl.
  rewrite Hmap, !lookup_empty. simpl. auto.
Qed.

Lemma range_routing_witness :
  exists a b c,
    two_sections = Some (a, b, c) /\
    ConfigurableCache.get_section_for_page
      (ConfigurableCache.map_page_range_to_section
         (ConfigurableCache.map_page_range_to_section c 1 100 a) 50 150 b) 30
    = ConfigurableCache.default_section_id c.
Proof.
  eexists _, _, _. split; [vm_compute; reflexivity|].
  eapply range_routing; try reflexivity; vm_compute; eauto.
Defined.

(** ** Fully-associative LRU *)

(** C6, evaluated on the code: the sequence of the claim does not get past
    its first call.  On a cache whose fully-associative default section has
    three lines, of whatever line size, [fetch_page(1)] finds the section
    empty and takes the miss path of [CacheSection::fetch_page], which locks
    the section's mutex a second time: the call is undefined, and with it
    the whole sequence 1, 2, 3, 4, 2.  The list itself is kept as the claim
    says when the pages come in through [prefetch_page], which locks once:
    after prefetching 1, 2, 3 and 4 and fetching 2 the order is [2; 4; 3]
    and identifier 1 is gone. *)
Theorem fetch_sequence_blocks_at_first_miss :
  (forall psz lsz,
     fetch_all [1; 2; 3; 4; 2] (ConfigurableCache.new (3 * lsz) psz lsz) = None) /\
  (exists m c,
     ConfigurableCache.new 12288 4096 4096 = Some (m, c) /\
     ConfigurableCache.fetch_page m c 1 = None) /\
  (exists m c s,
     cache_run [PrefetchPage 1; PrefetchPage 2; PrefetchPage 3; PrefetchPage 4;
                FetchPage 2]
               (ConfigurableCache.new 12288 4096 4096) = Some (m, c) /\
     ConfigurableCache.sections c !! ConfigurableCache.default_section_id c = Some s /\
     CacheSection.lru_order s = [2; 4; 3] /\
     CacheSection.page_map s !! 1 = None /\
     CacheSection.page_count s = 3).
Proof.
  split; [|split].
  - intros psz lsz. unfold fetch_all.
    destruct (ConfigurableCache.new (3 * lsz) psz lsz) as [[m c]|] eqn:Hnew;
      [|reflexivity].
    simpl. rewrite (fetch_page_fresh_cache _ _ _ _ _ 1 Hnew). reflexivity.
  - eexists _, _. split; [reflexivity|]. vm_compute. reflexivity.
  - eexists _, _, _. split; [vm_compute; reflexivity|].
    split; [vm_compute; reflexivity|].
    split; [reflexivity|]. split; reflexivity.
Qed.

(** ** Resizing a section *)

Lemma free_entries_destroys es m e a :
  e ∈ es -> CacheSection.page e = Some a ->
  heap (CacheSection.free_entries es m) !! a = None.
Proof.
  intros He Hp. induction es as [|x es IH]; [inversion He|].
  simpl. apply list_elem_of_In in He. destruct He as [->|He].
  - rewrite Hp. simpl. apply lookup_delete_eq.
  - apply list_elem_of_In in He. specialize (IH He).
    destruct (CacheSection.page x) as [b|]; [|exact IH]. simpl.
    rewrite lookup_delete. case_decide; [reflexivity|exact IH].
Qed.

Lemma next_addr_free_entries es m :
  next_addr (CacheSection.free_entries es m) = next_addr m.
Proof.
  induction es as [|x es IH]; [reflexivity|].
  simpl. rewrite next_addr_free. exact IH.
Qed.

Lemma fresh_sets_invalid n a set e :
  set ∈ CacheSection.fresh_sets n a -> e ∈ set -> e = CacheSection.empty_entry.
Proof.
  unfold CacheSection.fresh_sets. intros Hset He.
  apply elem_of_replicate in Hset as [-> _].
  apply elem_of_replicate in He as [-> _]. reflexivity.
Qed.

Lemma replicate_empty_count j :
  filter (fun e => CacheSection.valid e = true)
         (replicate j CacheSection.empty_entry) = [].
Proof.
  induction j as [|j IHj]; [reflexivity|].
  simpl. rewrite filter_cons_False; [exact IHj|]. simpl. discriminate.
Qed.

Lemma fresh_sets_count n a :
  filter (fun e => CacheSection.valid e = true)
         (concat (CacheSection.fresh_sets n a)) = [].
Proof.
  unfold CacheSection.fresh_sets.
  induction (Z.to_nat n) as [|k IH]; [reflexivity|].
  simpl. rewrite filter_app, IH, app_nil_r. apply replicate_empty_count.
Qed.

Lemma resize_spec m s new_size :
  section_wf m s -> 0 <= new_size -> new_size <> CacheSection.size s ->
  exists m' s',
    CacheSection.resize m s new_size = Some (m', s') /\
    section_wf m' s' /\ next_addr m' = next_addr m /\
    CacheSection.size s' = new_size /\
    CacheSection.line_size s' = CacheSection.line_size s /\
    CacheSection.pages_capacity s' = new_size / CacheSection.line_size s /\
    CacheSection.stats s' = CacheSection.stats s /\
    CacheSection.page_count s' = 0 /\
    (forall pid a, ~ resident s' pid a) /\
    (forall pid a, resident s pid a -> heap m' !! a = None).
Proof.
  intros Hwf Hpos Hne. unfold CacheSection.resize.
  destruct (Z.eqb_spec new_size (CacheSection.size s)) as [?|_]; [contradiction|].
  pose proof (wf_line_size _ _ Hwf) as Hl.
  pose proof (wf_divisor _ _ Hwf) as Hd.
  pose proof (wf_shape _ _ Hwf) as Hsh.
  destruct (Z.eqb_spec (CacheSection.line_size s) 0) as [?|_]; [contradiction|].
  destruct (Z.eqb_spec (to_size_t (CacheSection.line_size s * CacheSection.associativity s)) 0)
    as [?|_]; [contradiction|].
  rewrite andb_false_r. simpl.
  destruct (CacheSection.set_based (CacheSection.structure s)) eqn:Hsb.
  - set (n0 := new_size / to_size_t (CacheSection.line_size s * CacheSection.associativity s)).
    assert (Hn : 0 < (if n0 =? 0 then 1 else n0)).
    { destruct (Z.eqb_spec n0 0); [lia|].
      pose proof (to_size_t_range (CacheSection.line_size s * CacheSection.associativity s)).
      pose proof (Z.div_pos new_size
                    (to_size_t (CacheSection.line_size s * CacheSection.associativity s)) Hpos).
      subst n0. lia. }
    eexists _, _. split; [reflexivity|].
    split; [|split; [apply next_addr_free_entries|]].
    + destruct Hwf as [H1 H2 H3 H4 H5 H6 Hv _ H7 H8].
      split; simpl; try assumption.
      * right. apply fresh_sets_shape.
      * rewrite Hsb. exact Hsh.
      * apply fresh_sets_below.
      * eapply Forall_impl; [exact H8|]. intros x.
        apply entry_below_mono. rewrite next_addr_free_entries. lia.
    + simpl. repeat (split; [reflexivity|]).
      unfold CacheSection.page_count. simpl. rewrite Hsb, fresh_sets_count.
      split; [reflexivity|]. split.
      * intros pid a (e & [He|(set & Hset & He)] & _ & _ & Hv); simpl in *.
        -- rewrite Hsh in He. inversion He.
        -- rewrite (fresh_sets_invalid _ _ _ _ Hset He) in Hv. discriminate.
      * intros pid a (e & [He|(set & Hset & He)] & Hp & _ & _).
        -- rewrite Hsh in He. inversion He.
        -- eapply free_entries_destroys; [|exact Hp].
           apply list_elem_of_In, in_concat. exists set.
           split; apply list_elem_of_In; assumption.
  - eexists _, _. split; [reflexivity|].
    split; [|split; [apply next_addr_free_entries|]].
    + destruct Hwf as [H1 H2 H3 H4 H5 H6 Hv _ H7 H8].
      split; simpl; try assumption.
      * intros pid a Hpa. rewrite lookup_empty in Hpa. discriminate.
      * constructor.
      * rewrite Hsb. exact Hsh.
      * eapply Forall_impl; [exact H7|]. intros set Hset.
        eapply Forall_impl; [exact Hset|]. intros x.
        apply entry_below_mono. rewrite next_addr_free_entries. lia.
      * constructor.
    + simpl. repeat (split; [reflexivity|]).
      unfold CacheSection.page_count. simpl. rewrite Hsb.
      split; [reflexivity|]. split.
      * intros pid a (e & [He|(set & Hset & He)] & _); simpl in *.
        -- inversion He.
        -- rewrite Hsh in Hset. inversion Hset.
      * intros pid a (e & [He|(set & Hset & He)] & Hp & _).
        -- eapply free_entries_destroys; eauto.
        -- rewrite Hsh in Hset. inversion Hset.
Qed.

Lemma fetch_all_wf ids : forall m c m' c',
  cache_wf m c ->
  fetch_all ids (Some (m, c)) = Some (m', c') -> cache_wf m' c'.
Proof.
  induction ids as [|pid ids IH]; intros m c m' c' Hwf.
  - simpl. intros [= <- <-]. exact Hwf.
  - unfold fetch_all. simpl.
    destruct (ConfigurableCache.fetch_page m c pid) as [[[m1 c1] r]|] eqn:Hfetch.
    + destruct (fetch_page_spec m c pid m1 c1 r Hwf Hfetch)
        as (sid & s & a & _ & _ & _ & Hwf1 & _).
      simpl. apply (IH m1 c1 m' c' Hwf1).
    + simpl. intros H. exfalso. revert H. clear.
      induction ids as [|i ids IH]; [discriminate|exact IH].
Qed.

(** C7, as stated, fails: a fully-associative section of three lines that
    holds two pages is resized to two lines, which both pages would fit,
    and is left with no page at all. *)
Lemma resize_discards_pages_that_fit :
  exists m0 c0 s0 m c s,
    cache_run [PrefetchPage 1; PrefetchPage 2]
              (ConfigurableCache.new 12288 4096 4096) = Some (m0, c0) /\
    ConfigurableCache.sections c0 !! 0 = Some s0 /\
    CacheSection.page_count s0 = 2 /\
    resize_scenario = Some (m, c) /\
    ConfigurableCache.resize_section m0 c0 0 8192 = Some (m, c) /\
    ConfigurableCache.sections c !! 0 = Some s /\
    CacheSection.pages_capacity s = 2 /\
    CacheSection.page_count s = 0.
Proof.
  eexists _, _, _, _, _, _.
  split; [vm_compute; reflexivity|]. split; [vm_compute; reflexivity|].
  split; [reflexivity|]. split; [vm_compute; reflexivity|].
  split; [vm_compute; reflexivity|].
  split; [vm_compute; reflexivity|]. split; reflexivity.
Qed.

(** C7 (amended): [resize] to a capacity different from the current one,
    smaller or larger, discards every resident page of the section, pinned
    or not and dirty or not: the pages are destroyed without being flushed,
    no page stays resident and [page_count()] is 0 afterwards.  The size and
    the capacity in lines follow the new size; the statistics are kept.
    [resize] to the current capacity changes nothing. *)
Theorem resize_discards_every_page m s new_size :
  section_wf m s -> 0 <= new_size ->
  CacheSection.resize m s (CacheSection.size s) = Some (m, s) /\
  (new_size <> CacheSection.size s ->
   exists m' s',
     CacheSection.resize m s new_size = Some (m', s') /\
     CacheSection.size s' = new_size /\
     CacheSection.pages_capacity s' = new_size / CacheSection.line_size s /\
     CacheSection.stats s' = CacheSection.stats s /\
     CacheSection.page_count s' = 0 /\
     (forall pid a, ~ resident s' pid a) /\
     (forall pid a, resident s pid a -> heap m' !! a = None)).
Proof.
  intros Hwf Hpos. split.
  - unfold CacheSection.resize. rewrite Z.eqb_refl. reflexivity.
  - intros Hne.
    destruct (resize_spec m s new_size Hwf Hpos Hne)
      as (m' & s' & H1 & _ & _ & H2 & _ & H3 & H4 & H5 & H6 & H7).
    exists m', s'. auto 10.
Qed.

(** ** Pinning and the router *)

Lemma fetch_page_hit_keeps_memory m c pid sid s s1 a :
  ConfigurableCache.find_section_for_page c pid = Some sid ->
  ConfigurableCache.sections c !! sid = Some s ->
  CacheSection.fetch_page s pid = Some (s1, Some a) ->
  exists c', ConfigurableCache.fetch_page m c pid = Some (m, c', Some a).
Proof.
  intros Hfind Hsid Hfetch. unfold ConfigurableCache.fetch_page.
  rewrite Hfind. simpl. rewrite Hsid. simpl. rewrite Hfetch. simpl. eauto.
Qed.

(** C2, evaluated on the code: page 1 is resident, put there by
    [prefetch_page(1)], with pin count 0; [fetch_page(1)] returns that page
    and leaves the memory as it was, so its pin count is still 0, not 1.
    The [unpin_page] that every caller issues after a fetch then takes the
    count to -1. *)
Theorem fetch_page_does_not_pin :
  exists m c a c' m2,
    prefetched_page_one = Some (m, c) /\
    Page.id <$> heap m !! a = Some 1 /\
    pin_count_at a m = Some 0 /\
    ConfigurableCache.fetch_page m c 1 = Some (m, c', Some a) /\
    ConfigurableCache.unpin_page m c' (Some a) false = Some m2 /\
    pin_count_at a m2 = Some (-1).
Proof.
  eexists _, _, 0%N, _, _.
  split; [vm_compute; reflexivity|]. split; [reflexivity|].
  split; [reflexivity|]. split; [vm_compute; reflexivity|].
  split; [vm_compute; reflexivity|]. reflexivity.
Qed.

(** ** Eviction of pinned pages *)

(** C1, as stated, fails: on a section of one line the second [new_page]
    returns page 2 although page 1 is still pinned when it is called; page 1
    is destroyed to make room.  Through the router, [prefetch_page(2)]
    destroys page 1 in the same way while it is pinned. *)
Lemma second_new_page_succeeds_while_first_is_pinned :
  (exists m1 m2 s2 a1 a2,
     pin_blocks_eviction_scenario = Some (m1, m2, s2, a1, Some a2) /\
     pin_count_at a1 m1 = Some 1 /\
     Page.id <$> heap m2 !! a2 = Some 2 /\
     CacheSection.lru_order s2 = [2] /\
     heap m2 !! a1 = None) /\
  (exists m1 m2 c2 a,
     pinned_page_prefetch_scenario = Some (m1, m2, c2, a) /\
     pin_count_at a m1 = Some 1 /\
     heap m2 !! a = None).
Proof.
  split.
  - eexists _, _, _, _, _.
    split; [vm_compute; reflexivity|].
    split; [reflexivity|]. split; [reflexivity|]. split; reflexivity.
  - eexists _, _, _, _.
    split; [vm_compute; reflexivity|]. split; reflexivity.
Qed.

Lemma allocate_page_replaces_tail m s pid front victim :
  CacheSection.structure s = CacheSection.FullyAssociative ->
  CacheSection.pages s = front ++ [victim] ->
  CacheSection.pages_capacity s <= Z.of_nat (length (CacheSection.pages s)) ->
  exists m' s' a,
    CacheSection.allocate_page m s pid = Some (m', s', Some a) /\
    CacheSection.lru_order s' = pid :: map CacheSection.id front /\
    forall av, CacheSection.page victim = Some av -> heap m' !! av = None.
Proof.
  intros Hfa Hps Hfull. unfold CacheSection.allocate_page.
  rewrite Hfa. simpl.
  destruct (Z.ltb_spec (Z.of_nat (length (CacheSection.pages s)))
              (CacheSection.pages_capacity s)) as [?|_]; [lia|].
  unfold CacheSection.find_victim_in_fully_associative.
  rewrite Hps.
  destruct (front ++ [victim]) as [|e0 rest] eqn:Hl.
  { destruct front; discriminate. }
  rewrite <- Hl. rewrite last_snoc. simpl.
  rewrite length_app. simpl.
  replace (pred (length front + 1)) with (length front) by lia.
  unfold CacheSection.create_page, alloc. simpl.
  eexists _, _, _. split; [reflexivity|]. split.
  - unfold CacheSection.lru_order, CacheSection.splice_front. simpl.
    replace (length front) with (length front + 0)%nat by lia.
    rewrite insert_app_r. simpl.
    replace (length front + 0)%nat with (length front) by lia.
    rewrite list_lookup_middle by reflexivity.
    simpl. rewrite delete_middle, app_nil_r. reflexivity.
  - intros av Hav. rewrite Hav. simpl. apply lookup_delete_eq.
Qed.

Lemma evict_scan_all_pinned m pm r :
  (forall pid, pid ∈ r ->
     exists a p, pm !! pid = Some a /\ heap m !! a = Some p /\ 1 < Page.pin_count p) ->
  SimplifiedConfigurableCache.evict_scan m pm r = Some (m, pm, r, false).
Proof.
  induction r as [|pid r IH]; intros H; [reflexivity|].
  simpl. destruct (H pid) as (a & p & Hpm & Hh & Hpin); [apply list_elem_of_here|].
  rewrite Hpm, Hh. simpl.
  destruct (Z.eqb_spec (Page.pin_count p) (- 2 ^ 31)) as [?|_]; [lia|].
  destruct (Z.leb_spec (Page.pin_count p - 1) 0) as [?|_]; [lia|].
  rewrite IH; [reflexivity|].
  intros pid' Hin. apply H, list_elem_of_further, Hin.
Qed.

Lemma evictPage_all_pinned m c :
  (forall pid, pid ∈ SimplifiedConfigurableCache.lru_list c ->
     exists a p, SimplifiedConfigurableCache.page_map c !! pid = Some a /\
                 heap m !! a = Some p /\ 1 < Page.pin_count p) ->
  SimplifiedConfigurableCache.evictPage m c
  = Some (m, SimplifiedConfigurableCache.with_capacity
               (to_size_t (SimplifiedConfigurableCache.capacity c + 1)) c).
Proof.
  intros H. unfold SimplifiedConfigurableCache.evictPage.
  rewrite evict_scan_all_pinned.
  - simpl. rewrite rev_involutive. destruct c. reflexivity.
  - intros pid Hin. apply H. apply list_elem_of_In, in_rev, list_elem_of_In, Hin.
Qed.

(** C1 (amended): no section refuses to evict.  [CacheSection::new_page]
    returns a page on every well-formed section, whatever the pin counts of
    the resident pages; a full fully-associative section reuses the entry
    at the back of its list, destroying the page it held, pinned or not; and
    the single-section [SimplifiedConfigurableCache], when its scan finds
    every resident page pinned more than once, evicts nothing and raises its
    capacity by one. *)
Theorem eviction_never_refuses :
  (forall m s pid, section_wf m s ->
     exists m' s',
       CacheSection.new_page m s pid = Some (m', s', Some (next_addr m)) /\
       Page.id <$> heap m' !! next_addr m = Some pid) /\
  (forall m s pid front victim,
     CacheSection.structure s = CacheSection.FullyAssociative ->
     CacheSection.pages s = front ++ [victim] ->
     CacheSection.pages_capacity s <= Z.of_nat (length (CacheSection.pages s)) ->
     exists m' s' a,
       CacheSection.allocate_page m s pid = Some (m', s', Some a) /\
       CacheSection.lru_order s' = pid :: map CacheSection.id front /\
       forall av, CacheSection.page victim = Some av -> heap m' !! av = None) /\
  (forall m c,
     (forall pid, pid ∈ SimplifiedConfigurableCache.lru_list c ->
        exists a p, SimplifiedConfigurableCache.page_map c !! pid = Some a /\
                    heap m !! a = Some p /\ 1 < Page.pin_count p) ->
     SimplifiedConfigurableCache.evictPage m c
     = Some (m, SimplifiedConfigurableCache.with_capacity
                  (to_size_t (SimplifiedConfigurableCache.capacity c + 1)) c)).
Proof.
  split; [|split].
  - intros m s pid Hwf.
    destruct (section_new_page_spec m s pid Hwf)
      as (m' & s' & Hnew & _ & _ & Hh & _).
    exists m', s'. split; [exact Hnew|]. rewrite Hh. reflexivity.
  - intros m s pid front victim. apply allocate_page_replaces_tail.
  - apply evictPage_all_pinned.
Qed.

Lemma eviction_never_refuses_witness :
  (exists s m1 s1 m1' m2 s2,
     CacheSection.new 0 4096 4096 CacheSection.FullyAssociative 8 = Some s /\
     CacheSection.new_page empty_mem s 1 = Some (m1, s1, Some 0%N) /\
     CacheSection.pin_page m1 0%N = Some m1' /\
     pin_count_at 0%N m1' = Some 1 /\
     CacheSection.new_page m1' s1 2 = Some (m2, s2, Some 1%N) /\
     Page.id <$> heap m2 !! 1%N = Some 2) /\
  (exists c0 m c a m2,
     SimplifiedConfigurableCache.new 4096 4096 4096
       CacheSection.FullyAssociative 8 = Some c0 /\
     SimplifiedConfigurableCache.new_page empty_mem c0 = Some (m, c, a) /\
     SimplifiedConfigurableCache.pin_page m (Some a) = Some m2 /\
     pin_count_at a m2 = Some 2 /\
     SimplifiedConfigurableCache.evictPage m2 c
     = Some (m2, SimplifiedConfigurableCache.with_capacity 2 c)).
Proof.
  destruct eviction_never_refuses as (Hsection & _ & Hsimple). split.
  - destruct (CacheSection.new 0 4096 4096 CacheSection.FullyAssociative 8)
      as [s|] eqn:Hs; [|vm_compute in Hs; discriminate].
    assert (Hwf : section_wf empty_mem s)
      by (eapply new_section_wf; [| |exact Hs]; lia).
    destruct (section_new_page_spec empty_mem s 1 Hwf)
      as (m1 & s1 & Hnew & Hwf1 & Hn1 & Hh & _).
    destruct (mem_pin_spec _ _ _ Hh) as (m1' & Hpin & Hn1' & Hh').
    assert (Hwf1' : section_wf m1' s1)
      by (eapply section_wf_mono; [|exact Hwf1]; lia).
    destruct (Hsection m1' s1 2 Hwf1') as (m2 & s2 & Hnew2 & Hid2).
    assert (Ha : next_addr m1' = 1%N) by (rewrite Hn1', Hn1; reflexivity).
    rewrite Ha in Hnew2, Hid2.
    exists s, m1, s1, m1', m2, s2.
    split; [reflexivity|]. split; [exact Hnew|]. split; [exact Hpin|].
    split; [|split; [exact Hnew2|exact Hid2]].
    unfold pin_count_at. simpl in Hh'. rewrite Hh'. reflexivity.
  - eexists _, _, _, _, _.
    split; [reflexivity|]. split; [vm_compute; reflexivity|].
    split; [vm_compute; reflexivity|]. split; [reflexivity|].
    rewrite Hsimple; [reflexivity|].
    intros pid Hin. apply list_elem_of_In in Hin. simpl in Hin.
    destruct Hin as [<-|[]].
    eexists _, _. split; [reflexivity|]. split; [reflexivity|]. simpl. lia.
Defined.

(** ** Statistics *)

Lemma zero_consistent : stats_consistent CacheSectionStats.zero.
Proof. reflexivity. Qed.

Lemma record_hit_consistent st :
  stats_consistent st -> stats_consistent (CacheSectionStats.record_hit st).
Proof.
  unfold stats_consistent, CacheSectionStats.record_hit, to_size_t. simpl.
  intros ->. rewrite Zplus_mod_idemp_l.
  rewrite (Z.add_comm (_ mod _) (CacheSectionStats.misses st)).
  rewrite Zplus_mod_idemp_r. f_equal. lia.
Qed.

Lemma record_miss_consistent st :
  stats_consistent st -> stats_consistent (CacheSectionStats.record_miss st).
Proof.
  unfold stats_consistent, CacheSectionStats.record_miss, to_size_t. simpl.
  intros ->. rewrite Zplus_mod_idemp_l, Zplus_mod_idemp_r. f_equal. lia.
Qed.

(** What each operation of a section does to its counters. *)

Ltac break_matches :=
  repeat first
    [ progress simplify_option_eq
    | case_match
    | match goal with x : (_ * _)%type |- _ => destruct x end ].

Lemma find_victim_in_set_stats m s i m' s' v :
  CacheSection.find_victim_in_set m s i = Some (m', s', v) ->
  CacheSection.stats s' = CacheSection.stats s.
Proof.
  unfold CacheSection.find_victim_in_set. intros H.
  break_matches; reflexivity.
Qed.

Lemma allocate_page_stats m s pid m' s' r :
  CacheSection.allocate_page m s pid = Some (m', s', r) ->
  CacheSection.stats s' = CacheSection.stats s.
Proof.
  unfold CacheSection.allocate_page. intros H.
  destruct (CacheSection.set_based (CacheSection.structure s)).
  - set (s1 := match CacheSection.sets s with [] => _ | _ => s end) in H.
    assert (Hs1 : CacheSection.stats s1 = CacheSection.stats s).
    { subst s1. destruct (CacheSection.sets s); reflexivity. }
    clearbody s1.
    destruct (CacheSection.sets s1 !! _) as [set|]; [|discriminate]. simpl in H.
    destruct (find_first _ set) as [[j e]|].
    + injection H as _ <- _. exact Hs1.
    + destruct (CacheSection.find_victim_in_set m s1 _) as [[[m1 s2] v]|] eqn:Hv;
        [|discriminate].
      apply find_victim_in_set_stats in Hv. simpl in H.
      destruct (CacheSection.sets s2 !! _) as [set2|]; [|discriminate]. simpl in H.
      destruct (set2 !! v) as [victim|]; [|discriminate]. simpl in H.
      injection H as _ <- _. simpl. congruence.
  - break_matches; reflexivity.
Qed.

Lemma section_new_page_stats m s pid m' s' r :
  CacheSection.new_page m s pid = Some (m', s', r) ->
  CacheSection.stats s' = CacheSectionStats.record_miss (CacheSection.stats s).
Proof. unfold CacheSection.new_page. intros H. apply allocate_page_stats in H. exact H. Qed.

Lemma section_fetch_page_stats s pid s' r :
  CacheSection.fetch_page s pid = Some (s', r) ->
  CacheSection.stats s' = CacheSection.stats s \/
  (CacheSection.stats s' = CacheSectionStats.record_hit (CacheSection.stats s)
   /\ is_Some r) \/
  (CacheSection.stats s' = CacheSectionStats.record_miss (CacheSection.stats s)
   /\ r = None).
Proof.
  unfold CacheSection.fetch_page. intros H.
  break_matches; auto.
  - right. left. split; [reflexivity|].
    match goal with H : find_first _ _ = Some _ |- _ =>
      apply find_first_Some in H as [_ H] end.
    unfold CacheSection.entry_hit in *.
    repeat match goal with H : _ && _ = true |- _ => apply andb_true_iff in H as [? ?] end.
    match goal with H : bool_decide _ = true |- _ => apply bool_decide_eq_true in H end.
    assumption.
  - right. left. split; [reflexivity|].
    repeat match goal with H : _ && _ = true |- _ => apply andb_true_iff in H as [? ?] end.
    match goal with H : bool_decide _ = true |- _ => apply bool_decide_eq_true in H end.
    assumption.
Qed.

Lemma section_prefetch_page_stats m s pid m' s' :
  CacheSection.prefetch_page m s pid = Some (m', s') ->
  CacheSection.stats s' = CacheSection.stats s.
Proof.
  unfold CacheSection.prefetch_page. intros H.
  destruct (CacheSection.set_based (CacheSection.structure s)).
  - destruct (CacheSection.sets s !! _) as [set|]; [|discriminate]. simpl in H.
    destruct (find_first _ set) as [[j e]|]; [injection H as _ <-; reflexivity|].
    destruct (find_first _ set) as [[j e]|]; [injection H as _ <-; reflexivity|].
    destruct (CacheSection.find_victim_in_set m s _) as [[[m1 s2] v]|] eqn:Hv;
      [|discriminate].
    apply find_victim_in_set_stats in Hv. simpl in H.
    destruct (CacheSection.sets s2 !! _) as [set2|]; [|discriminate]. simpl in H.
    destruct (set2 !! v) as [victim|]; [|discriminate]. simpl in H.
    destruct (CacheSection.page victim) as [a0|]; [|discriminate]. simpl in H.
    destruct (heap m1 !! a0) as [p0|]; [|discriminate]. simpl in H.
    injection H as _ <-. simpl. exact Hv.
  - break_matches; reflexivity.
Qed.

Lemma section_prefetch_pages_stats ids m s m' s' :
  CacheSection.prefetch_pages m s ids = Some (m', s') ->
  CacheSection.stats s' = CacheSection.stats s.
Proof.
  revert m s. induction ids as [|pid ids IH]; intros m s; simpl.
  - intros [= _ <-]. reflexivity.
  - destruct (CacheSection.prefetch_page m s pid) as [[m1 s1]|] eqn:H1; [|discriminate].
    simpl. intros H. apply IH in H. apply section_prefetch_page_stats in H1. congruence.
Qed.

Lemma section_resize_stats m s n m' s' :
  CacheSection.resize m s n = Some (m', s') ->
  CacheSection.stats s' = CacheSection.stats s.
Proof. unfold CacheSection.resize. intros H. break_matches; reflexivity. Qed.

Lemma section_new_stats sid sz lsz st assoc s :
  CacheSection.new sid sz lsz st assoc = Some s ->
  CacheSection.stats s = CacheSectionStats.zero.
Proof. unfold CacheSection.new. intros H. break_matches; reflexivity. Qed.

Lemma all_consistent_insert c sid s' :
  all_consistent c -> stats_consistent (CacheSection.stats s') ->
  all_consistent
    (ConfigurableCache.with_sections (<[sid := s']> (ConfigurableCache.sections c)) c).
Proof.
  intros Hc Hs sid0 s0. simpl. rewrite lookup_insert. case_decide.
  - intros [= <-]. exact Hs.
  - apply Hc.
Qed.

Lemma resize_section_consistent m c sid n m' c' :
  ConfigurableCache.resize_section m c sid n = Some (m', c') ->
  all_consistent c -> all_consistent c'.
Proof.
  unfold ConfigurableCache.resize_section. intros H Hc.
  destruct (ConfigurableCache.sections c !! sid) as [s|] eqn:Hs;
    [|injection H as _ <-; exact Hc].
  destruct (if CacheSection.get_size s <? n then _ else _) as [n' av].
  destruct (CacheSection.resize m s n') as [[m1 s1]|] eqn:Hr; [|discriminate].
  injection H as _ <-. apply section_resize_stats in Hr.
  intros sid0 s0. simpl. rewrite lookup_insert. case_decide.
  - intros [= <-]. rewrite Hr. eapply Hc, Hs.
  - apply Hc.
Qed.

Lemma apply_sizes_consistent l m c m' c' :
  ConfigurableCache.apply_sizes m c l = Some (m', c') ->
  all_consistent c -> all_consistent c'.
Proof.
  revert m c. induction l as [|[sid n] l IH]; intros m c; simpl.
  - intros [= _ <-]. auto.
  - destruct (ConfigurableCache.resize_section m c sid n) as [[m1 c1]|] eqn:Hr;
      [|discriminate].
    simpl. intros H Hc. eapply IH; [exact H|].
    eapply resize_section_consistent; eauto.
Qed.

Lemma prefetch_pages_consistent m c ids m' c' :
  ConfigurableCache.prefetch_pages m c ids = Some (m', c') ->
  all_consistent c -> all_consistent c'.
Proof.
  unfold ConfigurableCache.prefetch_pages.
  generalize (map_to_list (ConfigurableCache.group_by_section c ids)).
  intros l. revert m c. induction l as [|[sid g] l IH]; intros m c; simpl.
  - intros [= _ <-]. auto.
  - intros H Hc.
    destruct (ConfigurableCache.sections c !! sid) as [s|] eqn:Hs.
    + destruct (CacheSection.prefetch_pages m s g) as [[m1 s1]|] eqn:Hp.
      * simpl in H. eapply IH; [exact H|].
        apply all_consistent_insert; [exact Hc|].
        apply section_prefetch_pages_stats in Hp. rewrite Hp. eapply Hc, Hs.
      * simpl in H. exfalso. clear -H.
        induction l as [|x l IHl]; simpl in H; [discriminate|]. apply IHl, H.
    + eapply IH; eauto.
Qed.

Lemma cache_step_consistent m c o m' c' :
  cache_step (m, c) o = Some (m', c') ->
  all_consistent c -> all_consistent c'.
Proof.
  intros H Hc. destruct o; simpl in H.
  - (* new_page *)
    discriminate H.
  - (* fetch_page *)
    unfold ConfigurableCache.fetch_page in H.
    destruct (ConfigurableCache.find_section_for_page c pid) as [sid|]; [|discriminate].
    simpl in H.
    destruct (ConfigurableCache.sections c !! sid) as [s|] eqn:Hs; [|discriminate].
    simpl in H.
    destruct (CacheSection.fetch_page s pid) as [[s1 pg]|] eqn:Hf; [|discriminate].
    simpl in H.
    assert (Hs1 : stats_consistent (CacheSection.stats s1)).
    { pose proof (Hc _ _ Hs) as Hcs.
      destruct (section_fetch_page_stats _ _ _ _ Hf) as [->|[[-> _]|[-> _]]];
        [exact Hcs|apply record_hit_consistent, Hcs|apply record_miss_consistent, Hcs]. }
    destruct pg as [a|].
    + injection H as _ <-. apply all_consistent_insert; assumption.
    + destruct (CacheSection.new_page m s1 pid) as [[[m1 s2] pg']|] eqn:Hn;
        [|discriminate].
      simpl in H. injection H as _ <-. apply section_new_page_stats in Hn.
      apply all_consistent_insert; [exact Hc|].
      rewrite Hn. apply record_miss_consistent, Hs1.
  - break_matches; exact Hc.
  - break_matches; exact Hc.
  - break_matches; exact Hc.
  - injection H as _ <-. exact Hc.
  - (* prefetch_page *)
    unfold ConfigurableCache.prefetch_page in H.
    destruct (ConfigurableCache.find_section_for_page c pid) as [sid|]; [|discriminate].
    simpl in H.
    destruct (ConfigurableCache.sections c !! sid) as [s|] eqn:Hs; [|discriminate].
    simpl in H.
    destruct (CacheSection.prefetch_page m s pid) as [[m1 s1]|] eqn:Hp; [|discriminate].
    simpl in H. injection H as _ <-. apply section_prefetch_page_stats in Hp.
    apply all_consistent_insert; [exact Hc|]. rewrite Hp. eapply Hc, Hs.
  - eapply prefetch_pages_consistent; eauto.
  - (* create_section *)
    unfold ConfigurableCache.create_section in H.
    destruct (CacheSection.new _ _ _ _ _) as [s|] eqn:Hn; [|discriminate].
    simpl in H. injection H as _ <-. apply section_new_stats in Hn.
    intros sid0 s0. simpl. rewrite lookup_insert. case_decide.
    + intros [= <-]. rewrite Hn. apply zero_consistent.
    + apply Hc.
  - (* remove_section *)
    unfold ConfigurableCache.remove_section in H.
    destruct (sid =? ConfigurableCache.default_section_id c);
      [injection H as _ <-; exact Hc|].
    destruct (ConfigurableCache.sections c !! sid) as [s|];
      [|injection H as _ <-; exact Hc].
    destruct (ConfigurableCache.erase_section_ranges _ _ _) as [rs ids].
    injection H as _ <-. intros sid0 s0. simpl.
    rewrite lookup_delete. case_decide; [discriminate|apply Hc].
  - eapply resize_section_consistent; eauto.
  - injection H as _ <-. unfold ConfigurableCache.map_page_to_section.
    destruct (ConfigurableCache.sections c !! sid); exact Hc.
  - injection H as _ <-. unfold ConfigurableCache.map_page_range_to_section.
    destruct (ConfigurableCache.sections c !! sid); [|exact Hc].
    destruct (ConfigurableCache.erase_overlapping _ _ _ _). exact Hc.
  - injection H as _ <-. intros sid0 s0. simpl. rewrite lookup_fmap.
    destruct (ConfigurableCache.sections c !! sid0); [|discriminate].
    intros [= <-]. apply zero_consistent.
  - (* optimize_section_sizes *)
    unfold ConfigurableCache.optimize_section_sizes,
      ConfigurableCache.simple_size_optimization,
      ConfigurableCache.optimize_in_order in H.
    destruct (length _ <=? 1)%nat; [injection H as _ <-; exact Hc|].
    destruct (PrimFloat.leb _ _); [injection H as _ <-; exact Hc|].
    destruct (ConfigurableCache.target_sizes c _) as [sizes|]; [|discriminate].
    simpl in H. eapply apply_sizes_consistent; eauto.
Qed.

Lemma cache_run_cons o ops st :
  cache_run (o :: ops) (Some st) = cache_run ops (cache_step st o).
Proof. reflexivity. Qed.

Lemma cache_run_consistent ops m c m' c' :
  cache_run ops (Some (m, c)) = Some (m', c') ->
  all_consistent c -> all_consistent c'.
Proof.
  revert m c. induction ops as [|o ops IH]; intros m c.
  - intros [= _ <-]. auto.
  - rewrite cache_run_cons.
    destruct (cache_step (m, c) o) as [[m1 c1]|] eqn:Hs.
    + intros H Hc. eapply IH; [exact H|]. eapply cache_step_consistent; eauto.
    + rewrite cache_run_None. discriminate.
Qed.

Lemma new_cache_consistent total psz lsz m c :
  ConfigurableCache.new total psz lsz = Some (m, c) -> all_consistent c.
Proof.
  unfold ConfigurableCache.new, ConfigurableCache.create_section.
  destruct (CacheSection.new _ _ _ _ _) as [s|] eqn:Hn; [|discriminate].
  simpl. intros [= _ <-]. apply section_new_stats in Hn.
  intros sid0 s0. simpl. rewrite lookup_insert. case_decide.
  - intros [= <-]. rewrite Hn. apply zero_consistent.
  - rewrite lookup_empty. discriminate.
Qed.

(** C4: [accesses == hits + misses] holds for the counters of every section
    at all times.  A section is born with it; the hit path and the miss
    path of [fetch_page], [new_page] and [reset_stats] each keep it; and
    after any sequence of calls on a router fresh from its constructor it
    holds in every section. *)
Theorem statistics_stay_consistent :
  (forall sid sz lsz st assoc s,
     CacheSection.new sid sz lsz st assoc = Some s ->
     stats_consistent (CacheSection.stats s)) /\
  (forall s pid s' a,
     stats_consistent (CacheSection.stats s) ->
     CacheSection.fetch_page s pid = Some (s', Some a) ->
     stats_consistent (CacheSection.stats s')) /\
  (forall s pid s',
     stats_consistent (CacheSection.stats s) ->
     CacheSection.fetch_page s pid = Some (s', None) ->
     stats_consistent (CacheSection.stats s')) /\
  (forall m s pid m' s' r,
     stats_consistent (CacheSection.stats s) ->
     CacheSection.new_page m s pid = Some (m', s', r) ->
     stats_consistent (CacheSection.stats s')) /\
  (forall s, stats_consistent (CacheSection.stats (CacheSection.reset_stats s))) /\
  (forall total psz lsz ops m c,
     cache_run ops (ConfigurableCache.new total psz lsz) = Some (m, c) ->
     all_consistent c).
Proof.
  assert (Hfetch : forall s pid s' r,
            stats_consistent (CacheSection.stats s) ->
            CacheSection.fetch_page s pid = Some (s', r) ->
            stats_consistent (CacheSection.stats s')).
  { intros s pid s' r Hc Hf.
    destruct (section_fetch_page_stats _ _ _ _ Hf) as [->|[[-> _]|[-> _]]];
      [exact Hc|apply record_hit_consistent, Hc|apply record_miss_consistent, Hc]. }
  repeat split.
  - intros sid sz lsz st assoc s Hn.
    rewrite (section_new_stats _ _ _ _ _ _ Hn). apply zero_consistent.
  - intros s pid s' a. apply Hfetch.
  - intros s pid s'. apply Hfetch.
  - intros m s pid m' s' r Hc Hn.
    rewrite (section_new_page_stats _ _ _ _ _ _ Hn). apply record_miss_consistent, Hc.
  - intros total psz lsz ops m c Hrun.
    destruct (ConfigurableCache.new total psz lsz) as [[m0 c0]|] eqn:Hnew.
    + eapply cache_run_consistent; [exact Hrun|].
      eapply new_cache_consistent, Hnew.
    + rewrite cache_run_None in Hrun. discriminate.
Qed.

Lemma statistics_stay_consistent_witness :
  exists m c s,
    cache_run [PrefetchPage 1; FetchPage 1; PrefetchPage 7; FetchPage 7; FetchPage 1]
              (ConfigurableCache.new 12288 4096 4096) = Some (m, c) /\
    ConfigurableCache.sections c !! 0 = Some s /\
    CacheSection.stats s = CacheSectionStats.mk 3 3 0 /\
    stats_consistent (CacheSection.stats s).
Proof.
  destruct statistics_stay_consistent as (_ & _ & _ & _ & _ & Hrun).
  destruct (cache_run [PrefetchPage 1; FetchPage 1; PrefetchPage 7; FetchPage 7; FetchPage 1]
              (ConfigurableCache.new 12288 4096 4096)) as [[m c]|] eqn:Heq;
    [|vm_compute in Heq; discriminate].
  destruct (ConfigurableCache.sections c !! 0) as [s|] eqn:Hs.
  - exists m, c, s. split; [reflexivity|]. split; [exact Hs|].
    split; [|exact (Hrun _ _ _ _ _ _ Heq 0 s Hs)].
    vm_compute in Heq. injection Heq as <- <-.
    vm_compute in Hs. injection Hs as <-. reflexivity.
  - exfalso. vm_compute in Heq. injection Heq as <- <-.
    vm_compute in Hs. discriminate.
Defined.

(** ** Pin counts in the simplified cache *)

Lemma remove_first_subseteq x l y : y ∈ SimplifiedConfigurableCache.remove_first x l -> y ∈ l.
Proof.
  induction l as [|z l IH]; simpl; [auto|].
  destruct (z =? x).
  - intros H. apply list_elem_of_further, H.
  - intros H. apply list_elem_of_In in H. destruct H as [<-|H].
    + apply list_elem_of_here.
    + apply list_elem_of_further, IH, list_elem_of_In, H.
Qed.

Lemma remove_first_NoDup x l :
  NoDup l ->
  NoDup (SimplifiedConfigurableCache.remove_first x l) /\
  x ∉ SimplifiedConfigurableCache.remove_first x l.
Proof.
  induction 1 as [|z l Hz Hl IH]; simpl.
  - split; [constructor|]. intros H. inversion H.
  - destruct (Z.eqb_spec z x) as [->|Hne].
    + auto.
    + destruct IH as [IH1 IH2]. split.
      * constructor; [|exact IH1]. intros H. apply Hz, (remove_first_subseteq x), H.
      * intros H. apply list_elem_of_In in H. destruct H as [?|H]; [contradiction|].
        apply IH2, list_elem_of_In, H.
Qed.

Lemma updateLRU_NoDup pid c :
  NoDup (SimplifiedConfigurableCache.lru_list c) ->
  NoDup (SimplifiedConfigurableCache.lru_list
           (SimplifiedConfigurableCache.updateLRU pid c)).
Proof.
  intros H. simpl. destruct (remove_first_NoDup pid _ H) as [H1 H2].
  constructor; assumption.
Qed.

























(** ** The size optimizer *)

Lemma double_to_size_t_range d z :
  double_to_size_t d = Some z -> 0 <= z < 2 ^ 64.
Proof.
  unfold double_to_size_t. destruct (Prim2SF d) as [?| | |sgn mant e]; try discriminate.
  - intros [= <-]. lia.
  - set (v := if 0 <=? e then _ else _).
    assert (0 <= v).
    { subst v. destruct (0 <=? e) eqn:He.
      - apply Z.leb_le in He. apply Z.mul_nonneg_nonneg; [lia|]. apply Z.pow_nonneg. lia.
      - apply Z.leb_gt in He. apply Z.div_pos; [lia|]. apply Z.pow_pos_nonneg; lia. }
    destruct (v =? 0); [intros [= <-]; lia|].
    destruct sgn; [discriminate|].
    destruct (Z.ltb_spec v (2 ^ 64)); [|discriminate].
    intros [= <-]. lia.
Qed.

Lemma sum_sizes_app l1 l2 : sum_sizes (l1 ++ l2) = sum_sizes l1 + sum_sizes l2.
Proof. induction l1; simpl; lia. Qed.

Lemma sum_sizes_rev l : sum_sizes (rev l) = sum_sizes l.
Proof. induction l; simpl; [reflexivity|]. rewrite sum_sizes_app. simpl. lia. Qed.

Lemma sum_sizes_nonneg l : Forall (fun x => 0 <= x) l -> 0 <= sum_sizes l.
Proof. induction 1; simpl; lia. Qed.

Lemma sum_sizes_Permutation l1 l2 : l1 ≡ₚ l2 -> sum_sizes l1 = sum_sizes l2.
Proof. induction 1; simpl; lia. Qed.

Lemma accumulate_from acc l :
  0 <= acc -> Forall (fun x => 0 <= x) l -> acc + sum_sizes l < 2 ^ 64 ->
  foldl (fun a x => to_size_t (a + x)) acc l = acc + sum_sizes l.
Proof.
  intros Ha Hl. revert acc Ha. induction Hl as [|x l Hx Hl IH]; intros acc Ha Hlt; simpl in *.
  - lia.
  - pose proof (sum_sizes_nonneg l Hl).
    rewrite to_size_t_small by lia. rewrite IH; lia.
Qed.

Lemma accumulate_sum l :
  Forall (fun x => 0 <= x) l -> sum_sizes l < 2 ^ 64 ->
  ConfigurableCache.accumulate l = sum_sizes l.
Proof. intros. unfold ConfigurableCache.accumulate. rewrite accumulate_from; auto; lia. Qed.

(** The trimming loop never takes a size below its minimum and never trims
    more than the excess. *)
Lemma reduce_sizes_spec l : forall excess,
  Forall (fun p => 0 <= snd p <= fst p /\ fst p < 2 ^ 64) l ->
  0 <= excess < 2 ^ 64 ->
  Forall2 (fun t p => snd p <= t <= fst p)
          (ConfigurableCache.reduce_sizes excess l) l /\
  sum_sizes (map fst l) - excess
    <= sum_sizes (ConfigurableCache.reduce_sizes excess l).
Proof.
  induction l as [|[sz fl] l IH]; intros excess Hl He; simpl.
  - split; [constructor|lia].
  - inversion Hl as [|? ? [H1 H2] Hl']; subst. simpl in H1, H2.
    destruct (Z.ltb_spec 0 excess) as [Hpos|Hnp].
    + rewrite (to_size_t_small (sz - fl)) by lia.
      assert (Hr : 0 <= Z.min excess (sz - fl) <= sz - fl) by lia.
      assert (Hx: 0 <= sz - Z.min excess (sz - fl) < 2^64) by lia. rewrite (to_size_t_small _ Hx).
      destruct (IH (to_size_t (excess - Z.min excess (sz - fl))) Hl') as [IH1 IH2].
      { apply to_size_t_range. }
      split.
      * constructor; [simpl; lia|exact IH1].
      * simpl. rewrite (to_size_t_small (excess - _)) in IH2 |- * by lia. lia.
    + split.
      * constructor; [simpl; lia|].
        clear -Hl'. induction Hl' as [|[a b] l [Ha Hb] Hl' IH]; simpl; constructor; auto.
        simpl in *. lia.
      * simpl. lia.
Qed.

(** The surplus loop only adds, and hands out the whole surplus when it runs
    over all the sections. *)
Lemma add_sizes_spec l : forall extra k,
  0 <= extra -> Z.of_nat (length l) <= k ->
  Forall (fun x => 0 <= x) l -> sum_sizes l + extra < 2 ^ 64 ->
  Forall2 (fun t sz => sz <= t) (ConfigurableCache.add_sizes extra k l) l /\
  sum_sizes (ConfigurableCache.add_sizes extra k l) <= sum_sizes l + extra /\
  (Z.of_nat (length l) = k -> l <> [] ->
   sum_sizes (ConfigurableCache.add_sizes extra k l) = sum_sizes l + extra).
Proof.
  induction l as [|sz l IH]; intros extra k He Hk Hl Hlt; simpl.
  - split; [constructor|]. split; [lia|]. intros _ []; reflexivity.
  - inversion Hl as [|? ? Hsz Hl']; subst. simpl in Hk, Hlt.
    pose proof (sum_sizes_nonneg l Hl') as Hs.
    destruct (Z.ltb_spec 0 extra) as [Hpos|Hnp].
    + assert (Hk1 : 1 <= k) by lia.
      assert (Hq : 0 <= extra / k <= extra).
      { split; [apply Z.div_pos; lia|]. apply Z.div_le_upper_bound; nia. }
      assert (Hm : Z.min extra (extra / k) = extra / k) by lia.
      rewrite Hm.
      rewrite (to_size_t_small (sz + _)) by lia.
      rewrite (to_size_t_small (extra - _)) by lia.
      destruct (IH (extra - extra / k) (k - 1)) as (IH1 & IH2 & IH3); try lia; auto.
      split; [constructor; [lia|exact IH1]|].
      split; [simpl; lia|].
      intros Hlen _. simpl.
      destruct l as [|sz' l'].
      * simpl in *. assert (k = 1) by lia. subst k. rewrite Z.div_1_r.
        replace (extra - extra) with 0 by lia. simpl. lia.
      * rewrite IH3; [lia| |discriminate]. simpl length in *. lia.
    + assert (extra = 0) by lia. subst extra.
      split; [apply Forall2_same_length_lookup_2; [reflexivity|] |].
      { intros i x y Hx Hy. rewrite Hx in Hy. injection Hy as ->. lia. }
      split; simpl; [lia|]. intros; lia.
Qed.

Lemma Forall_rev_list {A} (P : A -> Prop) l : Forall P l -> Forall P (rev l).
Proof.
  induction 1; simpl; [constructor|].
  apply Forall_app. split; [assumption|]. constructor; [assumption|constructor].
Qed.

Lemma Forall2_rev_both {A B} (P : A -> B -> Prop) l k :
  Forall2 P l k -> Forall2 P (rev l) (rev k).
Proof.
  induction 1; simpl; [constructor|].
  apply Forall2_app; [assumption|]. constructor; [assumption|constructor].
Qed.

(** "Adjust sizes to match total": every size stays at or above its minimum,
    the sizes sum to at least the pool, and to exactly the pool when the
    proportional sizes did not exceed it. *)
Lemma adjust_sizes_spec pool new_sizes floors :
  Forall2 (fun sz fl => 0 <= fl <= sz /\ sz < 2 ^ 64) new_sizes floors ->
  sum_sizes new_sizes < 2 ^ 64 -> 0 <= pool < 2 ^ 64 -> new_sizes <> [] ->
  Forall2 (fun t fl => fl <= t)
          (ConfigurableCache.adjust_sizes pool new_sizes floors) floors /\
  pool <= sum_sizes (ConfigurableCache.adjust_sizes pool new_sizes floors) /\
  (sum_sizes new_sizes <= pool ->
   sum_sizes (ConfigurableCache.adjust_sizes pool new_sizes floors) = pool).
Proof.
  intros HF Hsum Hpool Hne.
  assert (Hnn : Forall (fun x => 0 <= x) new_sizes).
  { clear -HF. induction HF; constructor; auto. lia. }
  assert (Hsame : Forall2 (fun t fl => fl <= t) new_sizes floors).
  { eapply Forall2_impl; [exact HF|]. simpl. intros; lia. }
  pose proof (sum_sizes_nonneg _ Hnn) as Hs0.
  unfold ConfigurableCache.adjust_sizes.
  rewrite (accumulate_sum _ Hnn Hsum).
  destruct (Z.ltb_spec pool (sum_sizes new_sizes)) as [Hhigh|Hle].
  - destruct HF as [|sz0 f0 rest floors' H0 HF]; [contradiction|].
    set (l := rev (zip rest floors')).
    assert (Hlen : length rest = length floors') by (eapply Forall2_length; eauto).
    assert (Hl : Forall (fun p => 0 <= snd p <= fst p /\ fst p < 2 ^ 64) l).
    { subst l. apply Forall_rev_list.
      clear -HF. induction HF; simpl; constructor; auto. }
    destruct (reduce_sizes_spec l (to_size_t (sum_sizes (sz0 :: rest) - pool)) Hl)
      as [H1 H2]; [apply to_size_t_range|].
    rewrite (to_size_t_small (sum_sizes (sz0 :: rest) - pool)) in H1, H2 |- *
      by (simpl in *; lia).
    assert (Hfst : sum_sizes (map fst l) = sum_sizes rest).
    { subst l. rewrite map_rev, sum_sizes_rev.
      change (map fst (zip rest floors')) with ((zip rest floors').*1).
      rewrite fst_zip by lia. reflexivity. }
    split; [|split].
    + constructor; [lia|].
      apply Forall2_rev_both in H1. subst l. rewrite rev_involutive in H1.
      rewrite <- (snd_zip rest floors') at 2 by lia.
      apply Forall2_fmap_r. eapply Forall2_impl; [exact H1|].
      simpl. intros t p Hp. lia.
    + change (sum_sizes (sz0 :: rest)) with (sz0 + sum_sizes rest) in *.
      cbn [sum_sizes foldr]. fold (sum_sizes (rev (ConfigurableCache.reduce_sizes (sz0 + sum_sizes rest - pool) l))).
      rewrite sum_sizes_rev. lia.
    + intros. lia.
  - destruct (Z.ltb_spec (sum_sizes new_sizes) pool) as [Hlow|Heq].
    + rewrite (to_size_t_small (pool - sum_sizes new_sizes)) by lia.
      destruct (add_sizes_spec new_sizes (pool - sum_sizes new_sizes)
                  (Z.of_nat (length new_sizes))) as (H1 & H2 & H3);
        [lia|lia|exact Hnn|lia|].
      specialize (H3 eq_refl Hne).
      split; [|split; [lia|intros; lia]].
      clear -H1 Hsame.
      revert H1 Hsame.
      generalize (ConfigurableCache.add_sizes (pool - sum_sizes new_sizes)
                    (Z.of_nat (length new_sizes)) new_sizes).
      intros ts H1. revert floors.
      induction H1; intros floors HF; inversion HF; subst; constructor; auto. lia.
    + split; [exact Hsame|]. split; [lia|intros; lia].
Qed.

(** *** The byte budget under [resize_section] *)

Lemma allocated_sum c :
  allocated c = sum_sizes (section_sizes (ConfigurableCache.sections c)).
Proof.
  unfold allocated, section_sizes.
  induction (map_to_list (ConfigurableCache.sections c)); simpl; [reflexivity|].
  rewrite IHl. reflexivity.
Qed.

Lemma section_sizes_lookup ss sid s :
  ss !! sid = Some s ->
  sum_sizes (section_sizes ss)
  = CacheSection.size s + sum_sizes (section_sizes (delete sid ss)).
Proof.
  intros H. unfold section_sizes.
  rewrite <- (sum_sizes_Permutation _ _
    (Permutation_map _ (map_to_list_delete ss sid s H))).
  reflexivity.
Qed.

Lemma section_sizes_insert ss sid s s' :
  ss !! sid = Some s ->
  sum_sizes (section_sizes (<[sid := s']> ss))
  = sum_sizes (section_sizes ss) - CacheSection.size s + CacheSection.size s'.
Proof.
  intros H. rewrite (section_sizes_lookup ss sid s H).
  rewrite (section_sizes_lookup (<[sid := s']> ss) sid s') by apply lookup_insert_eq.
  rewrite delete_insert_eq. lia.
Qed.

Lemma section_sizes_nonneg ss :
  (forall sid s, ss !! sid = Some s -> 0 <= CacheSection.size s) ->
  0 <= sum_sizes (section_sizes ss).
Proof.
  intros H. apply sum_sizes_nonneg. unfold section_sizes.
  apply Forall_forall. intros x Hx. apply list_elem_of_In, in_map_iff in Hx.
  destruct Hx as ([sid s] & <- & Hin). simpl.
  apply (H sid). apply elem_of_map_to_list. apply list_elem_of_In. exact Hin.
Qed.

Lemma section_size_le_allocated c sid s :
  budget_ok c -> ConfigurableCache.sections c !! sid = Some s ->
  0 <= CacheSection.size s <= allocated c.
Proof.
  intros Hb Hs. split; [eapply budget_sizes; eauto|].
  rewrite allocated_sum, (section_sizes_lookup _ sid s Hs).
  assert (0 <= sum_sizes (section_sizes (delete sid (ConfigurableCache.sections c)))).
  { apply section_sizes_nonneg. intros sid' s' H.
    apply lookup_delete_Some in H as [_ H]. eapply budget_sizes; eauto. }
  lia.
Qed.

(** [CacheSection::resize] always returns on a well-formed section. *)
Lemma section_resize_total m s n :
  section_wf m s -> 0 <= n ->
  exists m' s',
    CacheSection.resize m s n = Some (m', s') /\
    section_wf m' s' /\ next_addr m' = next_addr m /\
    CacheSection.size s' = n /\
    CacheSection.line_size s' = CacheSection.line_size s.
Proof.
  intros Hwf Hn.
  destruct (Z.eq_dec n (CacheSection.size s)) as [->|Hne].
  - exists m, s. unfold CacheSection.resize. rewrite Z.eqb_refl. auto.
  - destruct (resize_spec m s n Hwf Hn Hne) as (m' & s' & H1 & H2 & H3 & H4 & H5 & _).
    exists m', s'. auto.
Qed.

(** [resize_section] moves bytes between the section and [available_size]:
    it shrinks to the requested size, and grows toward it by no more than
    the bytes available. *)
Lemma resize_section_spec m c sid s n :
  cache_wf m c -> budget_ok c ->
  ConfigurableCache.sections c !! sid = Some s -> 0 <= n ->
  exists m' c' s',
    ConfigurableCache.resize_section m c sid n = Some (m', c') /\
    cache_wf m' c' /\ budget_ok c' /\
    ConfigurableCache.sections c' = <[sid := s']> (ConfigurableCache.sections c) /\
    CacheSection.line_size s' = CacheSection.line_size s /\
    Z.min n (CacheSection.size s) <= CacheSection.size s'
      <= Z.max n (CacheSection.size s) /\
    CacheSection.size s'
      <= CacheSection.size s + ConfigurableCache.available_size c /\
    (n <= CacheSection.size s + ConfigurableCache.available_size c ->
     CacheSection.size s' = n) /\
    allocated c' + ConfigurableCache.available_size c'
      = allocated c + ConfigurableCache.available_size c.
Proof.
  intros Hwf Hb Hs Hn.
  pose proof (section_size_le_allocated c sid s Hb Hs) as Hsz.
  pose proof (budget_available _ Hb) as Hav.
  pose proof (budget_total _ Hb) as Htot.
  unfold ConfigurableCache.resize_section. rewrite Hs.
  unfold CacheSection.get_size.
  set (old := CacheSection.size s) in *.
  set (av := ConfigurableCache.available_size c) in *.
  assert (Hres : exists n' av',
    (if old <? n
     then (if av <? n - old then to_size_t (old + av) else n,
           to_size_t (av - to_size_t
              ((if av <? n - old then to_size_t (old + av) else n) - old)))
     else (n, to_size_t (av + (old - n)))) = (n', av') /\
    0 <= n' /\ 0 <= av' /\ n' + av' = old + av /\
    Z.min n old <= n' <= Z.max n old /\ (n <= old + av -> n' = n)).
  { destruct (Z.ltb_spec old n) as [Hgrow|Hshrink].
    - destruct (Z.ltb_spec av (n - old)) as [Hclamp|Hfit].
      + rewrite (to_size_t_small (old + av)) by lia.
        replace (old + av - old) with av by lia.
        rewrite (to_size_t_small av) by lia.
        replace (av - av) with 0 by lia.
        eexists _, _. split; [reflexivity|]. rewrite to_size_t_small by lia. lia.
      + rewrite (to_size_t_small (n - old)) by lia.
        rewrite (to_size_t_small (av - _)) by lia.
        eexists _, _. split; [reflexivity|]. lia.
    - rewrite to_size_t_small by lia.
      eexists _, _. split; [reflexivity|]. lia. }
  destruct Hres as (n' & av' & -> & Hn' & Hav' & Hcons & Hbounds & Hexact).
  destruct (section_resize_total m s n' (wf_sections _ _ Hwf _ _ Hs) Hn')
    as (m' & s' & Hr & Hwf' & Hna & Hsize & Hline).
  rewrite Hr. simpl.
  eexists m', _, s'. split; [reflexivity|].
  assert (Hal : allocated
                  (ConfigurableCache.with_available av'
                     (ConfigurableCache.with_sections
                        (<[sid := s']> (ConfigurableCache.sections c)) c))
                = allocated c - old + n').
  { rewrite !allocated_sum. simpl.
    rewrite (section_sizes_insert _ sid s s' Hs). subst old. lia. }
  split; [|split; [|split; [reflexivity|split; [exact Hline|]]]].
  - assert (Hw := update_section_wf m m' c sid s' Hwf (mk_is_Some _ _ Hs)).
    destruct Hw as [Hd Hss]; [lia|exact Hwf'|].
    split; [exact Hd|exact Hss].
  - split.
    + exact Hav'.
    + simpl. intros sid0 s0. rewrite lookup_insert. case_decide.
      * intros [= <-]. lia.
      * apply (budget_sizes _ Hb).
    + rewrite Hal. simpl. lia.
  - rewrite Hsize. split; [lia|]. split; [lia|]. split; [exact Hexact|].
    rewrite Hal. simpl. lia.
Qed.

Lemma requested_growth_nonneg c l : 0 <= requested_growth c l.
Proof.
  unfold requested_growth. induction l as [|p l IH]; simpl; [lia|].
  destruct (ConfigurableCache.sections c !! p.1); lia.
Qed.

Lemma requested_growth_ext c c' l :
  Forall (fun p => ConfigurableCache.sections c' !! fst p
                   = ConfigurableCache.sections c !! fst p) l ->
  requested_growth c' l = requested_growth c l.
Proof.
  intros H. unfold requested_growth. f_equal.
  induction H as [|p l Hp H IH]; simpl; [reflexivity|].
  rewrite Hp, IH. reflexivity.
Qed.

(** "Apply new sizes" over distinct sections. *)
Lemma apply_sizes_spec l : forall m c,
  cache_wf m c -> budget_ok c -> NoDup (map fst l) ->
  Forall (fun p => is_Some (ConfigurableCache.sections c !! fst p) /\ 0 <= snd p) l ->
  exists m' c',
    ConfigurableCache.apply_sizes m c l = Some (m', c') /\
    cache_wf m' c' /\ budget_ok c' /\
    allocated c' + ConfigurableCache.available_size c'
      = allocated c + ConfigurableCache.available_size c /\
    (forall sid, sid ∉ map fst l ->
       ConfigurableCache.sections c' !! sid = ConfigurableCache.sections c !! sid) /\
    Forall (fun p => exists s s',
              ConfigurableCache.sections c !! fst p = Some s /\
              ConfigurableCache.sections c' !! fst p = Some s' /\
              CacheSection.line_size s' = CacheSection.line_size s /\
              Z.min (snd p) (CacheSection.size s) <= CacheSection.size s'
                <= Z.max (snd p) (CacheSection.size s) /\
              (requested_growth c l <= ConfigurableCache.available_size c ->
               CacheSection.size s' = snd p)) l.
Proof.
  induction l as [|[sid n] l IH]; intros m c Hwf Hb Hnd Hl; simpl.
  - exists m, c. split; [reflexivity|]. split; [exact Hwf|]. split; [exact Hb|].
    split; [reflexivity|]. split; [auto|constructor].
  - inversion Hl as [|? ? [[s Hs] Hn] Hl']; subst. simpl in Hs, Hn.
    apply NoDup_cons in Hnd as [Hnin Hnd]. simpl in Hnin.
    destruct (resize_section_spec m c sid s n Hwf Hb Hs Hn)
      as (m1 & c1 & s1 & Hr & Hwf1 & Hb1 & Hss1 & Hline1 & Hbd1 & _ & Hex1 & Hcons1).
    rewrite Hr. simpl.
    assert (Hother : forall sid', sid' <> sid ->
              ConfigurableCache.sections c1 !! sid' = ConfigurableCache.sections c !! sid').
    { intros sid' Hne. rewrite Hss1. apply lookup_insert_ne. congruence. }
    assert (Hsame : Forall (fun p => ConfigurableCache.sections c1 !! fst p
                                     = ConfigurableCache.sections c !! fst p) l).
    { apply Forall_forall. intros p Hp. apply Hother. intros Heq.
      apply Hnin. rewrite <- Heq.
      apply list_elem_of_In. apply in_map. apply list_elem_of_In. exact Hp. }
    destruct (IH m1 c1 Hwf1 Hb1 Hnd) as (m' & c' & Ha & Hwf' & Hb' & Hcons & Hkeep & Hall).
    { eapply Forall_impl; [apply Forall_and; split; [exact Hl'|exact Hsame]|].
      simpl. intros p [[Hp1 Hp2] Hp3]. rewrite Hp3. auto. }
    exists m', c'. split; [exact Ha|]. split; [exact Hwf'|]. split; [exact Hb'|].
    split; [lia|]. split.
    + intros sid' Hnin'. apply not_elem_of_cons in Hnin' as [Hne Hnin'].
      rewrite Hkeep by exact Hnin'. apply Hother. exact Hne.
    + assert (Hg : requested_growth c ((sid, n) :: l)
                   = Z.max 0 (n - CacheSection.size s) + requested_growth c l).
      { unfold requested_growth. simpl. rewrite Hs. reflexivity. }
      assert (Hal1 : allocated c1 = allocated c - CacheSection.size s + CacheSection.size s1).
      { rewrite !allocated_sum, Hss1. apply section_sizes_insert. exact Hs. }
      pose proof (requested_growth_nonneg c l) as Hg0.
      constructor.
      * exists s, s1. simpl. split; [exact Hs|]. split.
        { rewrite Hkeep by exact Hnin. rewrite Hss1. apply lookup_insert_eq. }
        split; [exact Hline1|]. split; [exact Hbd1|].
        intros Hfit. apply Hex1. lia.
      * eapply Forall_impl; [apply Forall_and; split; [exact Hall|exact Hsame]|].
        simpl. intros p [(s0 & s' & H1 & H2 & H3 & H4 & H5) Hp3].
        exists s0, s'. rewrite <- Hp3. split; [exact H1|]. split; [exact H2|].
        split; [exact H3|]. split; [exact H4|].
        intros Hfit. apply H5.
        rewrite (requested_growth_ext c c1 l) by auto.
        assert (CacheSection.size s1 = n) by (apply Hex1; lia). lia.
Qed.

(** The "Calculate new sizes" loop: each size is a [size_t] at or above the
    minimum of its section. *)
Lemma proportional_sizes_floors c total p order new_sizes :
  mapM (ConfigurableCache.proportional_size c total p) order = Some new_sizes ->
  exists floors,
    mapM (fun x => ConfigurableCache.min_size c (fst x)) order = Some floors /\
    Forall2 (fun sz fl => 0 <= fl <= sz /\ sz < 2 ^ 64) new_sizes floors /\
    Forall2 (fun x fl => exists s,
               ConfigurableCache.sections c !! fst x = Some s /\
               fl = to_size_t (CacheSection.line_size s * 2)) order floors.
Proof.
  intros H. apply mapM_Some_1 in H.
  induction H as [|x sz order new_sizes Hx H (floors & IH1 & IH2 & IH3)].
  - exists []. repeat split; constructor.
  - unfold ConfigurableCache.proportional_size in Hx.
    destruct (double_to_size_t _) as [v|] eqn:Hv; [|discriminate].
    simpl in Hx. unfold ConfigurableCache.min_size in Hx |- *.
    destruct (ConfigurableCache.sections c !! x.1) as [s|] eqn:Hs; [|discriminate].
    simpl in Hx. injection Hx as <-.
    apply double_to_size_t_range in Hv.
    pose proof (to_size_t_range (CacheSection.get_line_size s * 2)) as Hf.
    exists (to_size_t (CacheSection.get_line_size s * 2) :: floors).
    split; [|split].
    + apply mapM_Some_2. constructor.
      * rewrite Hs. reflexivity.
      * apply mapM_Some_1. exact IH1.
    + constructor; [|exact IH2].
      destruct (Z.ltb_spec v (to_size_t (CacheSection.get_line_size s * 2))); lia.
    + constructor; [|exact IH3]. exists s. split; [exact Hs|reflexivity].
Qed.

Lemma collect_stats_ids c :
  map fst (ConfigurableCache.collect_stats c)
  = map fst (map_to_list (ConfigurableCache.sections c)).
Proof.
  unfold ConfigurableCache.collect_stats. rewrite map_map. reflexivity.
Qed.

Lemma pool_budget c :
  budget_ok c ->
  ConfigurableCache.pool c = allocated c + ConfigurableCache.available_size c /\
  0 <= ConfigurableCache.pool c < 2 ^ 64.
Proof.
  intros Hb.
  pose proof (budget_available _ Hb). pose proof (budget_total _ Hb).
  assert (0 <= allocated c).
  { rewrite allocated_sum. apply section_sizes_nonneg. apply (budget_sizes _ Hb). }
  unfold ConfigurableCache.pool, ConfigurableCache.total_allocated.
  fold (allocated c).
  rewrite (to_size_t_small (allocated c)) by lia.
  rewrite to_size_t_small by lia. lia.
Qed.

(** Whenever the optimizer runs with at least two sections and a positive
    total miss rate, every section's target size is at least
    2 x its line_size, the targets sum to at least the pool
    available + sum of the previous section sizes, and to exactly the pool
    when the floored proportional sizes do not exceed it; [resize_section]
    then moves every section from its previous capacity toward its target,
    so that each resulting capacity lies between the two, reaches the target
    when the growth asked for fits in the bytes available beforehand, and
    the resulting capacities together with the bytes left available equal
    the pool. *)
Theorem optimizer_targets_and_budget m c order new_sizes :
  cache_wf m c -> budget_ok c ->
  order ≡ₚ ConfigurableCache.collect_stats c ->
  (2 <= length order)%nat ->
  PrimFloat.leb (ConfigurableCache.total_miss_rate order) PrimFloat.zero = false ->
  ConfigurableCache.proportional_sizes c order = Some new_sizes ->
  sum_sizes new_sizes < 2 ^ 64 ->
  exists targets m' c',
    ConfigurableCache.target_sizes c order = Some targets /\
    ConfigurableCache.optimize_in_order m c order = Some (m', c') /\
    allocated c + ConfigurableCache.available_size c <= sum_sizes targets /\
    (sum_sizes new_sizes <= allocated c + ConfigurableCache.available_size c ->
     sum_sizes targets = allocated c + ConfigurableCache.available_size c) /\
    allocated c' + ConfigurableCache.available_size c'
      = allocated c + ConfigurableCache.available_size c /\
    forall i sid t,
      map fst order !! i = Some sid -> targets !! i = Some t ->
      exists s s',
        ConfigurableCache.sections c !! sid = Some s /\
        ConfigurableCache.sections c' !! sid = Some s' /\
        CacheSection.line_size s' = CacheSection.line_size s /\
        to_size_t (CacheSection.line_size s * 2) <= t /\
        Z.min t (CacheSection.size s) <= CacheSection.size s'
          <= Z.max t (CacheSection.size s) /\
        (requested_growth c (zip (map fst order) targets)
           <= ConfigurableCache.available_size c ->
         CacheSection.size s' = t).
Proof.
  intros Hwf Hb Hperm Hlen Hrate Hprop Hsum.
  destruct (pool_budget c Hb) as [Hpool Hpr].
  unfold ConfigurableCache.proportional_sizes in Hprop.
  destruct (proportional_sizes_floors _ _ _ _ _ Hprop) as (floors & Hfl & HF1 & HF2).
  assert (Hne : new_sizes <> []).
  { intros ->. apply mapM_Some_1, Forall2_length in Hprop. simpl in Hprop. lia. }
  destruct (adjust_sizes_spec (ConfigurableCache.pool c) new_sizes floors
              HF1 Hsum Hpr Hne) as (Ht1 & Ht2 & Ht3).
  set (targets := ConfigurableCache.adjust_sizes (ConfigurableCache.pool c)
                    new_sizes floors) in *.
  assert (Htargets : ConfigurableCache.target_sizes c order = Some targets).
  { unfold ConfigurableCache.target_sizes, ConfigurableCache.proportional_sizes.
    rewrite Hprop. simpl. rewrite Hfl. reflexivity. }
  assert (Hlt : length targets = length (map fst order)).
  { rewrite length_map. apply Forall2_length in Ht1, HF2. lia. }
  assert (Hnd : NoDup (map fst order)).
  { rewrite (Permutation_map fst Hperm), collect_stats_ids.
    apply NoDup_fst_map_to_list. }
  assert (Hfst : map fst (zip (map fst order) targets) = map fst order).
  { apply (fst_zip (map fst order) targets). lia. }
  assert (Hpre : Forall (fun p => is_Some (ConfigurableCache.sections c !! fst p)
                                  /\ 0 <= snd p)
                        (zip (map fst order) targets)).
  { apply Forall_lookup_2. intros i [sid t] Hi.
    apply lookup_zip_with_Some in Hi as (sid' & t' & [= <- <-] & Hi1 & Hi2).
    rewrite list_lookup_fmap in Hi1.
    destruct (order !! i) as [x|] eqn:Hx; [|discriminate]. injection Hi1 as <-.
    destruct (Forall2_lookup_l _ _ _ _ _ HF2 Hx) as (fl & Hfli & s & Hs & ->).
    destruct (Forall2_lookup_r _ _ _ _ _ Ht1 Hfli) as (t' & Ht' & Hle).
    rewrite Hi2 in Ht'. injection Ht' as <-. simpl. split; [eauto|].
    pose proof (to_size_t_range (CacheSection.line_size s * 2)). lia. }
  destruct (apply_sizes_spec (zip (map fst order) targets) m c Hwf Hb)
    as (m' & c' & Ha & _ & _ & Hcons & _ & Hall); [rewrite Hfst; exact Hnd|exact Hpre|].
  exists targets, m', c'.
  split; [exact Htargets|]. split.
  { unfold ConfigurableCache.optimize_in_order.
    destruct (Nat.leb_spec (length order) 1); [lia|].
    rewrite Hrate, Htargets. exact Ha. }
  split; [lia|]. split; [intros; lia|]. split; [exact Hcons|].
  intros i sid t Hi1 Hi2.
  assert (Hz : zip (map fst order) targets !! i = Some (sid, t)).
  { apply lookup_zip_with_Some. eauto. }
  destruct (Forall_lookup_1 _ _ _ _ Hall Hz) as (s & s' & H1 & H2 & H3 & H4 & H5).
  simpl in *. exists s, s'. split; [exact H1|]. split; [exact H2|].
  split; [exact H3|]. split; [|split; [exact H4|exact H5]].
  rewrite list_lookup_fmap in Hi1.
  destruct (order !! i) as [x|] eqn:Hx; [|discriminate]. injection Hi1 as <-.
  destruct (Forall2_lookup_l _ _ _ _ _ HF2 Hx) as (fl & Hfli & s0 & Hs0 & ->).
  destruct (Forall2_lookup_r _ _ _ _ _ Ht1 Hfli) as (t' & Ht' & Hle).
  rewrite Hi2 in Ht'. injection Ht' as <-.
  rewrite H1 in Hs0. injection Hs0 as <-. exact Hle.
Qed.

Lemma budget_okb_ok c : budget_okb c = true -> budget_ok c.
Proof.
  unfold budget_okb. intros H.
  apply andb_true_iff in H as [H H3]. apply andb_true_iff in H as [H1 H2].
  split.
  - apply Z.leb_le. exact H1.
  - intros sid s Hs. rewrite forallb_forall in H2.
    apply Z.leb_le. apply (H2 (sid, s)).
    apply list_elem_of_In, elem_of_map_to_list. exact Hs.
  - apply Z.ltb_lt. exact H3.
Qed.

Lemma insert_by_miss_rate_perm x l :
  ConfigurableCache.insert_by_miss_rate x l ≡ₚ x :: l.
Proof.
  induction l as [|y l IH]; simpl; [reflexivity|].
  destruct (ConfigurableCache.higher_miss_rate y x); [|reflexivity].
  rewrite IH. apply perm_swap.
Qed.

Lemma sort_by_miss_rate_perm l : ConfigurableCache.sort_by_miss_rate l ≡ₚ l.
Proof.
  unfold ConfigurableCache.sort_by_miss_rate.
  induction l as [|x l IH]; simpl; [reflexivity|].
  rewrite insert_by_miss_rate_perm, IH. reflexivity.
Qed.

(** [create_section] under a fresh identifier keeps the router well formed. *)
Lemma create_section_wf m c sz lsz st assoc m' c' sid :
  cache_wf m c -> 0 <= ConfigurableCache.available_size c -> 0 <= sz ->
  0 <= assoc ->
  ConfigurableCache.sections c !! ConfigurableCache.next_section_id c = None ->
  ConfigurableCache.create_section m c sz lsz st assoc = Some (m', c', sid) ->
  cache_wf m' c'.
Proof.
  intros [Hd Hs] Hav Hsz Hassoc Hfresh. unfold ConfigurableCache.create_section.
  destruct (CacheSection.new _ _ lsz st assoc) as [s|] eqn:Hnew; [|discriminate].
  simpl. rewrite Hfresh. intros [= <- <- <-].
  assert (Hwf : section_wf m s).
  { eapply new_section_wf; [| |exact Hnew]; [|exact Hassoc].
    destruct (ConfigurableCache.available_size c <? sz); lia. }
  split; simpl.
  - rewrite lookup_insert. case_decide; [eauto|exact Hd].
  - intros sid' s'. rewrite lookup_insert. case_decide.
    + intros [= <-]. exact Hwf.
    + apply Hs.
Qed.

Lemma map_page_range_to_section_wf m c lo hi sid :
  cache_wf m c ->
  cache_wf m (ConfigurableCache.map_page_range_to_section c lo hi sid).
Proof.
  intros Hwf. unfold ConfigurableCache.map_page_range_to_section.
  destruct (ConfigurableCache.sections c !! sid); [|exact Hwf].
  destruct (ConfigurableCache.erase_overlapping _ _ _ _) as [rs ids].
  destruct Hwf as [Hd Hs]. split; [exact Hd|exact Hs].
Qed.


(** ** Routing *)

Lemma first_live_range_all_live ss pid rs ids :
  Forall (fun sid => is_Some (ss !! sid)) ids ->
  ConfigurableCache.first_live_range ss pid rs ids
  = ConfigurableCache.first_range pid rs ids.
Proof.
  intros H. revert rs. induction H as [|sid ids Hsid H IH]; intros [|[lo hi] rs]; simpl; auto.
  rewrite (bool_decide_eq_true_2 _ Hsid), andb_true_r.
  destruct ((lo <=? pid) && (pid <=? hi)); [reflexivity|apply IH].
Qed.

Lemma first_range_live (P : Z -> Prop) pid rs ids sid :
  Forall P ids ->
  ConfigurableCache.first_range pid rs ids = Some sid -> P sid.
Proof.
  intros H. revert rs. induction H as [|sid' ids Hsid H IH]; intros [|[lo hi] rs]; simpl;
    try discriminate.
  destruct ((lo <=? pid) && (pid <=? hi)); [intros [= <-]; exact Hsid|apply IH].
Qed.

(** When every mapping names an existing section, the section a page is
    served from is the one [get_section_for_page] reports. *)
Lemma find_section_is_get_section c pid :
  routes_live c ->
  ConfigurableCache.find_section_for_page c pid
  = Some (ConfigurableCache.get_section_for_page c pid).
Proof.
  intros [Hd Hp Hr Hl].
  unfold ConfigurableCache.find_section_for_page, ConfigurableCache.get_section_for_page.
  rewrite (first_live_range_all_live _ _ _ _ Hr).
  destruct (ConfigurableCache.page_to_section_map c !! pid) as [sid|] eqn:Hpm.
  - destruct (Hp _ _ Hpm) as [s ->]. reflexivity.
  - destruct (ConfigurableCache.first_range pid _ _) as [sid|]; [reflexivity|].
    destruct Hd as [s ->]. reflexivity.
Qed.

(** X1: [map_page_to_section(id, section)] on an existing section makes
    [get_section_for_page(id)] and the section lookup of the cache operations
    answer that section, whatever ranges cover [id]; every other identifier keeps its
    section.  On a section that does not exist the call changes nothing. *)
Theorem map_page_to_section_routes c pid sid :
  (is_Some (ConfigurableCache.sections c !! sid) ->
   let c' := ConfigurableCache.map_page_to_section c pid sid in
   ConfigurableCache.get_section_for_page c' pid = sid /\
   ConfigurableCache.find_section_for_page c' pid = Some sid /\
   forall pid', pid' <> pid ->
     ConfigurableCache.get_section_for_page c' pid'
       = ConfigurableCache.get_section_for_page c pid' /\
     ConfigurableCache.find_section_for_page c' pid'
       = ConfigurableCache.find_section_for_page c pid') /\
  (ConfigurableCache.sections c !! sid = None ->
   ConfigurableCache.map_page_to_section c pid sid = c).
Proof.
  unfold ConfigurableCache.map_page_to_section. split.
  - intros [s Hs]. rewrite Hs.
    unfold ConfigurableCache.get_section_for_page, ConfigurableCache.find_section_for_page.
    simpl. rewrite lookup_insert_eq, Hs. split; [reflexivity|]. split; [reflexivity|].
    intros pid' Hne. rewrite lookup_insert_ne by congruence. split; reflexivity.
  - intros ->. reflexivity.
Qed.

(** ** The calls of the router, taken apart *)

Lemma with_sections_twice ss1 ss2 c :
  ConfigurableCache.with_sections ss2 (ConfigurableCache.with_sections ss1 c)
  = ConfigurableCache.with_sections ss2 c.
Proof. reflexivity. Qed.

Lemma section_prefetch_pages_calls ids : forall m c sid s m' s',
  ConfigurableCache.sections c !! sid = Some s ->
  CacheSection.prefetch_pages m s ids = Some (m', s') ->
  rtc router_step (m, c)
    (m', ConfigurableCache.with_sections
           (<[sid := s']> (ConfigurableCache.sections c)) c).
Proof.
  induction ids as [|pid ids IH]; intros m c sid s m' s' Hs; simpl.
  - intros [= <- <-]. rewrite insert_id by exact Hs.
    destruct c; apply rtc_refl.
  - destruct (CacheSection.prefetch_page m s pid) as [[m1 s1]|] eqn:Hp; [|discriminate].
    simpl. intros H.
    eapply rtc_l.
    + eapply step_section; [exact Hs|]. eapply via_prefetch_page, Hp.
    + specialize (IH m1 (ConfigurableCache.with_sections
                           (<[sid := s1]> (ConfigurableCache.sections c)) c)
                     sid s1 m' s').
      simpl in IH. rewrite insert_insert_eq in IH.
      apply IH; [apply lookup_insert_eq|exact H].
Qed.

Lemma reduce_sizes_nonneg l : forall excess,
  Forall (fun p => 0 <= fst p) l ->
  Forall (fun x => 0 <= x) (ConfigurableCache.reduce_sizes excess l).
Proof.
  induction l as [|[sz fl] l IH]; intros excess Hl; simpl; [constructor|].
  inversion Hl as [|? ? H1 Hl']; subst.
  destruct (0 <? excess).
  - constructor; [apply to_size_t_range|apply IH, Hl'].
  - constructor; [exact H1|]. clear -Hl'.
    induction Hl'; simpl; constructor; auto.
Qed.

Lemma add_sizes_nonneg l : forall extra k,
  Forall (fun x => 0 <= x) l ->
  Forall (fun x => 0 <= x) (ConfigurableCache.add_sizes extra k l).
Proof.
  induction l as [|sz l IH]; intros extra k Hl; simpl; [constructor|].
  inversion Hl as [|? ? H1 Hl']; subst.
  destruct (0 <? extra); [|exact Hl].
  constructor; [apply to_size_t_range|apply IH, Hl'].
Qed.

Lemma Forall_rev_nonneg (l : list Z) :
  Forall (fun x => 0 <= x) l -> Forall (fun x => 0 <= x) (rev l).
Proof. apply Forall_rev_list. Qed.

Lemma adjust_sizes_nonneg p new_sizes floors :
  Forall (fun x => 0 <= x) new_sizes ->
  Forall (fun x => 0 <= x) (ConfigurableCache.adjust_sizes p new_sizes floors).
Proof.
  intros H. unfold ConfigurableCache.adjust_sizes.
  destruct (p <? _).
  - destruct new_sizes as [|sz0 rest]; [constructor|].
    destruct floors as [|f0 floors']; [exact H|].
    inversion H as [|? ? H0 Hrest]; subst.
    constructor; [exact H0|]. apply Forall_rev_list, reduce_sizes_nonneg.
    apply Forall_rev_list.
    clear -Hrest. revert floors'.
    induction Hrest as [|x l Hx Hl IH]; intros [|f floors']; simpl; constructor; auto.
  - destruct (_ <? p); [apply add_sizes_nonneg, H|exact H].
Qed.

Lemma target_sizes_nonneg c order targets :
  ConfigurableCache.target_sizes c order = Some targets ->
  Forall (fun x => 0 <= x) targets.
Proof.
  unfold ConfigurableCache.target_sizes, ConfigurableCache.proportional_sizes.
  destruct (mapM (ConfigurableCache.proportional_size c _ _) order)
    as [new_sizes|] eqn:Hn; [|discriminate].
  cbn [mbind option_bind].
  destruct (mapM (fun x => ConfigurableCache.min_size c (fst x)) order)
    as [floors|] eqn:Hf; [|discriminate].
  cbn [mbind option_bind].
  intros [= <-]. apply adjust_sizes_nonneg.
  destruct (proportional_sizes_floors _ _ _ _ _ Hn) as (fl & _ & HF & _).
  clear -HF. induction HF; constructor; auto. lia.
Qed.

Lemma apply_sizes_calls l : forall m c m' c',
  Forall (fun p => 0 <= snd p) l ->
  ConfigurableCache.apply_sizes m c l = Some (m', c') ->
  rtc router_step (m, c) (m', c').
Proof.
  induction l as [|[sid n] l IH]; intros m c m' c' Hl; simpl.
  - intros [= <- <-]. apply rtc_refl.
  - inversion Hl as [|? ? Hn Hl']; subst. simpl in Hn.
    destruct (ConfigurableCache.resize_section m c sid n) as [[m1 c1]|] eqn:Hr;
      [|discriminate].
    simpl. intros H. eapply rtc_l; [eapply step_resize; eauto|].
    apply IH; assumption.
Qed.

(** Every call of the router is a sequence of the steps above. *)
Lemma cache_step_decompose m c o m' c' :
  op_typed o ->
  cache_step (m, c) o = Some (m', c') ->
  rtc router_step (m, c) (m', c') \/ create_step (m, c) (m', c').
Proof.
  intros Hty H.
  destruct (match o with CreateSection _ _ _ _ => true | _ => false end) eqn:Hk;
    [destruct o; try discriminate; right|left; destruct o; try discriminate];
    simpl in H.
  - (* create_section *)
    destruct Hty as [Hsz Hassoc].
    destruct (ConfigurableCache.create_section m c sz lsz st assoc)
      as [[[m1 c1] sid]|] eqn:Hc; [|discriminate].
    simpl in H. injection H as <- <-.
    exact (step_create m c sz lsz st assoc m1 c1 sid Hsz Hassoc Hc).
  - (* fetch_page *)
    unfold ConfigurableCache.fetch_page in H.
    destruct (ConfigurableCache.find_section_for_page c pid) as [sid|]; [|discriminate].
    simpl in H.
    destruct (ConfigurableCache.sections c !! sid) as [s|] eqn:Hs; [|discriminate].
    simpl in H.
    destruct (CacheSection.fetch_page s pid) as [[s1 pg]|] eqn:Hf; [|discriminate].
    simpl in H.
    eapply rtc_l; [eapply step_section; [exact Hs|eapply via_fetch_page, Hf]|].
    destruct pg as [a|].
    + injection H as <- <-. apply rtc_refl.
    + destruct (CacheSection.new_page m s1 pid) as [[[m1 s2] pg']|] eqn:Hn;
        [|discriminate].
      simpl in H. injection H as <- <-.
      eapply rtc_once.
      pose proof (step_section m
                    (ConfigurableCache.with_sections
                       (<[sid := s1]> (ConfigurableCache.sections c)) c)
                    sid s1 m1 s2) as Hstep.
      simpl in Hstep. rewrite insert_insert_eq in Hstep.
      destruct (fetch_page_null _ _ _ Hf) as (-> & Hsb & Hempty).
      apply Hstep; [apply lookup_insert_eq|].
      eapply via_new_page; [exact Hsb|exact Hempty|exact Hn].
  - (* pin_page *)
    unfold ConfigurableCache.pin_page, CacheSection.pin_page in H.
    destruct pg as [a|]; break_matches; try apply rtc_refl.
    eapply rtc_once, step_pin; eassumption.
  - (* unpin_page *)
    unfold ConfigurableCache.unpin_page, CacheSection.unpin_page in H.
    destruct pg as [a|]; [|injection H as <- <-; apply rtc_refl].
    destruct (heap m !! a) as [p|]; [|discriminate]. simpl in H.
    destruct (ConfigurableCache.find_section_for_page c _); [|discriminate].
    simpl in H. destruct is_dirty.
    + destruct (mem_set_dirty a true m) as [m1|] eqn:Hd; [|discriminate].
      simpl in H. destruct (mem_unpin a m1) as [m2|] eqn:Hu; [|discriminate].
      injection H as <- <-.
      eapply rtc_l; [eapply step_set_dirty, Hd|eapply rtc_once, step_unpin, Hu].
    + simpl in H. destruct (mem_unpin a m) as [m2|] eqn:Hu; [|discriminate].
      injection H as <- <-. eapply rtc_once, step_unpin, Hu.
  - (* flush_page *)
    unfold ConfigurableCache.flush_page, CacheSection.flush_page in H.
    destruct pg as [a|]; [|injection H as <- <-; apply rtc_refl].
    destruct (heap m !! a) as [p|]; [|discriminate]. simpl in H.
    destruct (ConfigurableCache.find_section_for_page c _); [|discriminate].
    simpl in H. destruct (mem_set_dirty a false m) as [m1|] eqn:Hd; [|discriminate].
    injection H as <- <-. eapply rtc_once, step_set_dirty, Hd.
  - (* flush_all_pages *)
    injection H as <- <-. apply rtc_once, step_flush_all.
  - (* prefetch_page *)
    unfold ConfigurableCache.prefetch_page in H.
    destruct (ConfigurableCache.find_section_for_page c pid) as [sid|]; [|discriminate].
    simpl in H.
    destruct (ConfigurableCache.sections c !! sid) as [s|] eqn:Hs; [|discriminate].
    simpl in H.
    destruct (CacheSection.prefetch_page m s pid) as [[m1 s1]|] eqn:Hp; [|discriminate].
    simpl in H. injection H as <- <-.
    eapply rtc_once, step_section; [exact Hs|eapply via_prefetch_page, Hp].
  - (* prefetch_pages *)
    unfold ConfigurableCache.prefetch_pages in H.
    revert H. generalize (map_to_list (ConfigurableCache.group_by_section c ids)).
    intros l. revert m c. induction l as [|[sid g] l IH]; intros m c; simpl.
    + intros [= <- <-]. apply rtc_refl.
    + intros H.
      destruct (ConfigurableCache.sections c !! sid) as [s|] eqn:Hs.
      * destruct (CacheSection.prefetch_pages m s g) as [[m1 s1]|] eqn:Hp.
        -- simpl in H. eapply rtc_trans; [|eapply IH, H].
           eapply section_prefetch_pages_calls; eauto.
        -- simpl in H. exfalso. clear -H.
           induction l as [|x l IHl]; simpl in H; [discriminate|]. apply IHl, H.
      * apply IH, H.
  - injection H as H. rewrite <- H. apply rtc_once.
    destruct (ConfigurableCache.remove_section m c sid) eqn:E. rewrite <- E.
    apply step_remove.
  - eapply rtc_once, step_resize; [exact Hty|exact H].
  - injection H as <- <-. apply rtc_once, step_map_page.
  - injection H as <- <-. apply rtc_once, step_map_range.
  - injection H as <- <-. apply rtc_once, step_reset.
  - (* optimize_section_sizes *)
    unfold ConfigurableCache.optimize_section_sizes,
      ConfigurableCache.simple_size_optimization,
      ConfigurableCache.optimize_in_order in H.
    destruct (length _ <=? 1)%nat; [injection H as <- <-; apply rtc_refl|].
    destruct (PrimFloat.leb _ _); [injection H as <- <-; apply rtc_refl|].
    destruct (ConfigurableCache.target_sizes c _) as [sizes|] eqn:Ht; [|discriminate].
    simpl in H. eapply apply_sizes_calls; [|exact H].
    apply target_sizes_nonneg in Ht.
    clear -Ht. revert Ht. generalize (map fst (ConfigurableCache.sort_by_miss_rate
                                                 (ConfigurableCache.collect_stats c))).
    intros ids Ht. revert ids. induction Ht as [|x l Hx Hl IH]; intros [|i ids]; simpl;
      constructor; auto.
Qed.

(** An invariant that may count the calls: it is kept by the steps, may be
    weakened from one count to the next, and [create_section] takes it from
    one count to the next. *)
Lemma cache_run_invariant_counted (I : nat -> Mem * ConfigurableCache.t -> Prop) ops :
  (forall k st st', router_step st st' -> I k st -> I k st') ->
  (forall k st st', (k < length ops)%nat -> create_step st st' -> I k st -> I (S k) st') ->
  (forall k st, I k st -> I (S k) st) ->
  Forall op_typed ops ->
  forall st st', cache_run ops (Some st) = Some st' -> I O st -> I (length ops) st'.
Proof.
  intros Hstep Hcreate Hweak Hty.
  assert (Hgen : forall l k0 st st',
            (k0 + length l <= length ops)%nat -> Forall op_typed l ->
            cache_run l (Some st) = Some st' -> I k0 st -> I (k0 + length l)%nat st').
  { induction l as [|o l IH]; intros k0 st st' Hle Hl.
    - intros [= <-]. rewrite Nat.add_0_r. auto.
    - inversion Hl as [|? ? Ho Hl']; subst. rewrite cache_run_cons.
      destruct st as [m c].
      destruct (cache_step (m, c) o) as [[m1 c1]|] eqn:Hs;
        [|rewrite cache_run_None; discriminate].
      intros Hrun HI. simpl length in *.
      replace (k0 + S (length l))%nat with (S k0 + length l)%nat by lia.
      apply (IH (S k0) (m1, c1)); [lia|exact Hl'|exact Hrun|].
      destruct (cache_step_decompose _ _ _ _ _ Ho Hs) as [Hr|Hc].
      + apply Hweak. clear -Hr HI Hstep.
        induction Hr as [|x y z Hxy _ IHr]; [exact HI|].
        apply IHr. eapply Hstep; eauto.
      + eapply Hcreate; [|exact Hc|exact HI]. lia. }
  intros st st' Hrun HI. apply (Hgen ops O st st'); auto.
Qed.

(** An invariant of the steps and of [create_section] holds after every run of
    calls. *)
Lemma cache_run_invariant (I : Mem * ConfigurableCache.t -> Prop) ops m c m' c' :
  (forall st st', router_step st st' -> I st -> I st') ->
  (forall st st', create_step st st' -> I st -> I st') ->
  Forall op_typed ops ->
  cache_run ops (Some (m, c)) = Some (m', c') ->
  I (m, c) -> I (m', c').
Proof.
  intros Hstep Hcreate Hty Hrun HI.
  apply (cache_run_invariant_counted (fun _ => I) ops) with (st := (m, c)); eauto.
Qed.

(** ** Routing along runs *)

Lemma routes_live_grow c c' :
  ConfigurableCache.default_section_id c' = ConfigurableCache.default_section_id c ->
  ConfigurableCache.page_to_section_map c' = ConfigurableCache.page_to_section_map c ->
  ConfigurableCache.page_ranges c' = ConfigurableCache.page_ranges c ->
  ConfigurableCache.range_section_ids c' = ConfigurableCache.range_section_ids c ->
  (forall sid, is_Some (ConfigurableCache.sections c !! sid) ->
               is_Some (ConfigurableCache.sections c' !! sid)) ->
  routes_live c -> routes_live c'.
Proof.
  intros E1 E2 E3 E4 Hdom [Hd Hp Hr Hl]. split.
  - rewrite E1. apply Hdom, Hd.
  - rewrite E2. intros pid sid H. eapply Hdom, Hp, H.
  - rewrite E4. eapply Forall_impl; [exact Hr|]. exact Hdom.
  - rewrite E3, E4. exact Hl.
Qed.

Lemma insert_keeps_live {A} (ss : gmap Z A) sid x sid' :
  is_Some (ss !! sid') -> is_Some (<[sid := x]> ss !! sid').
Proof. intros H. rewrite lookup_insert. case_decide; [eauto|exact H]. Qed.

Lemma erase_overlapping_spec lo hi rs : forall ids rs2 ids2 (P : Z -> Prop),
  ConfigurableCache.erase_overlapping lo hi rs ids = (rs2, ids2) ->
  length rs = length ids -> Forall P ids ->
  length rs2 = length ids2 /\ Forall P ids2 /\
  Forall (fun r => snd r < lo \/ hi < fst r) rs2.
Proof.
  induction rs as [|[f s] rs IH]; intros ids rs2 ids2 P; simpl.
  - intros [= <- <-] Hl _. destruct ids; [|discriminate]. repeat split; constructor.
  - destruct ids as [|sid ids]; [discriminate|].
    destruct (ConfigurableCache.erase_overlapping lo hi rs ids) as [rs3 ids3] eqn:E.
    intros H Hl HP. simpl in Hl. inversion HP as [|? ? Hsid HP']; subst.
    destruct (IH ids rs3 ids3 P E) as (H1 & H2 & H3); [lia|exact HP'|].
    destruct (negb _) eqn:Hov.
    + injection H as <- <-. auto.
    + injection H as <- <-. simpl. split; [lia|]. split; [constructor; auto|].
      constructor; [|exact H3]. simpl.
      apply negb_false_iff, orb_true_iff in Hov. destruct Hov as [Hov|Hov].
      * apply Z.ltb_lt in Hov. lia.
      * apply Z.ltb_lt in Hov. lia.
Qed.

Lemma erase_section_ranges_spec sid rs : forall ids rs2 ids2 (P : Z -> Prop),
  ConfigurableCache.erase_section_ranges sid rs ids = (rs2, ids2) ->
  length rs = length ids -> Forall P ids ->
  length rs2 = length ids2 /\ Forall (fun x => P x /\ x <> sid) ids2.
Proof.
  induction rs as [|r rs IH]; intros ids rs2 ids2 P; simpl.
  - intros [= <- <-] Hl _. destruct ids; [|discriminate]. split; constructor.
  - destruct ids as [|sid' ids]; [discriminate|].
    destruct (ConfigurableCache.erase_section_ranges sid rs ids) as [rs3 ids3] eqn:E.
    intros H Hl HP. simpl in Hl. inversion HP as [|? ? Hsid HP']; subst.
    destruct (IH ids rs3 ids3 P E) as (H1 & H2); [lia|exact HP'|].
    destruct (Z.eqb_spec sid' sid) as [->|Hne].
    + injection H as <- <-. auto.
    + injection H as <- <-. simpl. split; [lia|]. constructor; auto.
Qed.

Lemma first_range_app pid rs ids rs' ids' :
  length rs = length ids ->
  ConfigurableCache.first_range pid (rs ++ rs') (ids ++ ids')
  = match ConfigurableCache.first_range pid rs ids with
    | Some sid => Some sid
    | None => ConfigurableCache.first_range pid rs' ids'
    end.
Proof.
  revert ids. induction rs as [|[f s] rs IH]; intros [|sid ids] Hl; try discriminate.
  - reflexivity.
  - simpl. destruct ((f <=? pid) && (pid <=? s)); [reflexivity|].
    apply IH. simpl in Hl. lia.
Qed.

Lemma first_live_range_app ss pid rs ids rs' ids' :
  length rs = length ids ->
  ConfigurableCache.first_live_range ss pid (rs ++ rs') (ids ++ ids')
  = match ConfigurableCache.first_live_range ss pid rs ids with
    | Some sid => Some sid
    | None => ConfigurableCache.first_live_range ss pid rs' ids'
    end.
Proof.
  revert ids. induction rs as [|[f s] rs IH]; intros [|sid ids] Hl; try discriminate.
  - reflexivity.
  - simpl. destruct ((f <=? pid) && (pid <=? s) && _); [reflexivity|].
    apply IH. simpl in Hl. lia.
Qed.

Lemma first_range_outside pid rs : forall ids,
  Forall (fun r => pid < fst r \/ snd r < pid) rs ->
  ConfigurableCache.first_range pid rs ids = None /\
  forall ss, ConfigurableCache.first_live_range ss pid rs ids = None.
Proof.
  induction rs as [|[f s] rs IH]; intros ids H; [split; reflexivity|].
  inversion H as [|? ? Hr H']; subst. simpl in Hr.
  destruct ids as [|sid ids]; [split; reflexivity|]. simpl.
  assert (E : (f <=? pid) && (pid <=? s) = false).
  { apply andb_false_iff. destruct Hr; [left; apply Z.leb_gt|right; apply Z.leb_gt]; lia. }
  rewrite E. simpl. apply IH, H'.
Qed.

(** X2: [map_page_range_to_section(start, end, section)] on an existing
    section routes every identifier of [start..end] that has no page-level
    mapping to that section, in [get_section_for_page] and in the section
    lookup of the cache operations alike, whatever ranges covered it before;
    the two range vectors keep one length.  On a section that does not exist
    the call changes nothing. *)
Theorem map_page_range_to_section_routes c lo hi sid :
  (is_Some (ConfigurableCache.sections c !! sid) ->
   length (ConfigurableCache.page_ranges c)
     = length (ConfigurableCache.range_section_ids c) ->
   let c' := ConfigurableCache.map_page_range_to_section c lo hi sid in
   length (ConfigurableCache.page_ranges c')
     = length (ConfigurableCache.range_section_ids c') /\
   forall pid,
     lo <= pid <= hi ->
     ConfigurableCache.page_to_section_map c !! pid = None ->
     ConfigurableCache.get_section_for_page c' pid = sid /\
     ConfigurableCache.find_section_for_page c' pid = Some sid) /\
  (ConfigurableCache.sections c !! sid = None ->
   ConfigurableCache.map_page_range_to_section c lo hi sid = c).
Proof.
  unfold ConfigurableCache.map_page_range_to_section. split.
  - intros [s Hs] Hlen. rewrite Hs.
    destruct (ConfigurableCache.erase_overlapping lo hi _ _) as [rs ids] eqn:E.
    destruct (erase_overlapping_spec _ _ _ _ _ _ (fun _ => True) E Hlen)
      as (Hl & _ & Hout).
    { apply Forall_forall. auto. }
    simpl. split; [rewrite !length_app; simpl; lia|].
    intros pid Hpid Hpm.
    assert (Hno : Forall (fun r => pid < fst r \/ snd r < pid) rs).
    { eapply Forall_impl; [exact Hout|]. simpl. intros r Hr. lia. }
    destruct (first_range_outside pid rs ids Hno) as [H1 H2].
    assert (Hin : (lo <=? pid) && (pid <=? hi) = true).
    { apply andb_true_iff. split; apply Z.leb_le; lia. }
    unfold ConfigurableCache.get_section_for_page,
      ConfigurableCache.find_section_for_page. simpl.
    rewrite Hpm, first_range_app, first_live_range_app, H1, H2 by exact Hl.
    simpl. rewrite Hin. simpl.
    rewrite bool_decide_eq_true_2 by eauto. split; reflexivity.
  - intros ->. reflexivity.
Qed.

Lemma new_routes_live total psz lsz m c :
  ConfigurableCache.new total psz lsz = Some (m, c) -> routes_live c.
Proof.
  unfold ConfigurableCache.new, ConfigurableCache.create_section. simpl.
  destruct (CacheSection.new _ _ _ _ _) as [s|]; [|discriminate]. simpl.
  intros [= _ <-]. split; simpl.
  - rewrite lookup_insert_eq. eauto.
  - intros pid sid. rewrite lookup_empty. discriminate.
  - constructor.
  - reflexivity.
Qed.

Lemma router_step_routes_live st st' :
  router_step st st' -> routes_live (snd st) -> routes_live (snd st').
Proof.
  intros H. destruct H; simpl; intros Hrl; try exact Hrl.
  - eapply routes_live_grow; [..|exact Hrl]; try reflexivity.
    intros sid'. apply insert_keeps_live.
  - (* remove_section *)
    unfold ConfigurableCache.remove_section.
    destruct (Z.eqb_spec sid (ConfigurableCache.default_section_id c)) as [|Hne];
      [exact Hrl|].
    destruct (ConfigurableCache.sections c !! sid) as [s|] eqn:Hs; [|exact Hrl].
    destruct (ConfigurableCache.erase_section_ranges _ _ _) as [rs ids] eqn:E.
    destruct Hrl as [Hd Hp Hr Hl].
    destruct (erase_section_ranges_spec _ _ _ _ _ _ E Hl Hr) as [Hl2 Hr2].
    split; simpl.
    + rewrite lookup_delete_ne by congruence. exact Hd.
    + intros pid sid'. rewrite map_lookup_filter_Some. simpl. intros [Hpm Hne'].
      rewrite lookup_delete_ne by congruence. eapply Hp, Hpm.
    + eapply Forall_impl; [exact Hr2|]. simpl. intros x [Hx Hxne].
      rewrite lookup_delete_ne by congruence. exact Hx.
    + exact Hl2.
  - (* resize_section *)
    unfold ConfigurableCache.resize_section in H0.
    destruct (ConfigurableCache.sections c !! sid) as [s|] eqn:Hs;
      [|injection H0 as _ <-; exact Hrl].
    destruct (if CacheSection.get_size s <? n then _ else _) as [n' av].
    destruct (CacheSection.resize m s n') as [[m1 s1]|]; [|discriminate].
    injection H0 as _ <-.
    eapply routes_live_grow; [..|exact Hrl]; try reflexivity.
    intros sid'. apply insert_keeps_live.
  - (* map_page_to_section *)
    unfold ConfigurableCache.map_page_to_section.
    destruct (ConfigurableCache.sections c !! sid) as [s|] eqn:Hs; [|exact Hrl].
    destruct Hrl as [Hd Hp Hr Hl]. split; simpl; auto.
    intros pid' sid'. rewrite lookup_insert. case_decide.
    + intros [= <-]. eauto.
    + apply Hp.
  - (* map_page_range_to_section *)
    unfold ConfigurableCache.map_page_range_to_section.
    destruct (ConfigurableCache.sections c !! sid) as [s|] eqn:Hs; [|exact Hrl].
    destruct (ConfigurableCache.erase_overlapping lo hi _ _) as [rs ids] eqn:E.
    destruct Hrl as [Hd Hp Hr Hl].
    destruct (erase_overlapping_spec _ _ _ _ _ _ _ E Hl Hr) as (Hl2 & Hr2 & _).
    split; simpl; auto.
    + apply Forall_app. split; [exact Hr2|]. constructor; [eauto|constructor].
    + rewrite !length_app. simpl. lia.
  - (* reset_all_stats *)
    eapply routes_live_grow; [..|exact Hrl]; try reflexivity.
    intros sid'. simpl. rewrite lookup_fmap. intros [s ->]. simpl. eauto.
Qed.

Lemma create_step_routes_live st st' :
  create_step st st' -> routes_live (snd st) -> routes_live (snd st').
Proof.
  intros H. destruct H as [m c sz lsz st assoc m' c' sid _ _ H1]. simpl. intros Hrl.
  unfold ConfigurableCache.create_section in H1.
  destruct (CacheSection.new _ _ _ _ _) as [s|]; [|discriminate].
  simpl in H1. injection H1 as _ <- _.
  eapply routes_live_grow; [..|exact Hrl]; try reflexivity.
  intros sid'. apply insert_keeps_live.
Qed.

(** X3: in every state the router reaches from its constructor, the section
    that serves a page in [fetch_page], [new_page], [pin_page] and the other
    page operations is the one [get_section_for_page] reports: no mapping is
    left that names a removed section, [remove_section] having purged them. *)
Theorem served_by_reported_section total psz lsz ops m c pid :
  Forall op_typed ops ->
  cache_run ops (ConfigurableCache.new total psz lsz) = Some (m, c) ->
  ConfigurableCache.find_section_for_page c pid
  = Some (ConfigurableCache.get_section_for_page c pid).
Proof.
  intros Hty Hrun.
  destruct (ConfigurableCache.new total psz lsz) as [[m0 c0]|] eqn:Hnew;
    [|rewrite cache_run_None in Hrun; discriminate].
  apply find_section_is_get_section.
  apply (cache_run_invariant (fun st => routes_live (snd st)) ops m0 c0 m c);
    [| |exact Hty|exact Hrun|eapply new_routes_live, Hnew].
  - intros st st'. apply router_step_routes_live.
  - intros st st'. apply create_step_routes_live.
Qed.

Lemma served_by_reported_section_witness :
  exists m c,
    cache_run [CreateSection 0 4096 CacheSection.SetAssociative 8;
               MapPageRangeToSection 10 20 1; MapPageToSection 5 1;
               PrefetchPage 15; FetchPage 15; RemoveSection 1;
               PrefetchPage 15; FetchPage 15]
              (ConfigurableCache.new 12288 4096 4096) = Some (m, c) /\
    ConfigurableCache.find_section_for_page c 15
      = Some (ConfigurableCache.get_section_for_page c 15) /\
    ConfigurableCache.get_section_for_page c 15 = 0.
Proof.
  destruct (cache_run _ (ConfigurableCache.new 12288 4096 4096)) as [[m c]|] eqn:H;
    [|vm_compute in H; discriminate].
  exists m, c. split; [reflexivity|]. split.
  - apply (served_by_reported_section 12288 4096 4096 _ m c 15) in H; [exact H|].
    repeat (constructor; simpl; try lia).
  - vm_compute in H. injection H as <- <-. reflexivity.
Defined.

(** ** The configuration of a section *)

Lemma same_config_refl s : same_config s s.
Proof. split; reflexivity. Qed.

Lemma same_config_trans s1 s2 s3 :
  same_config s1 s2 -> same_config s2 s3 -> same_config s1 s3.
Proof. intros [] []. split; congruence. Qed.

Lemma find_victim_in_set_config m s i m' s' v :
  CacheSection.find_victim_in_set m s i = Some (m', s', v) -> same_config s s'.
Proof.
  unfold CacheSection.find_victim_in_set. intros H.
  break_matches; split; reflexivity.
Qed.

Lemma fetch_page_config s pid s' r :
  CacheSection.fetch_page s pid = Some (s', r) -> same_config s s'.
Proof.
  unfold CacheSection.fetch_page. intros H.
  break_matches; split; reflexivity.
Qed.

Lemma allocate_page_config m s pid m' s' r :
  CacheSection.allocate_page m s pid = Some (m', s', r) -> same_config s s'.
Proof.
  unfold CacheSection.allocate_page. intros H.
  destruct (CacheSection.set_based (CacheSection.structure s)).
  - set (s1 := match CacheSection.sets s with [] => _ | _ => s end) in H.
    assert (Hs1 : same_config s s1).
    { subst s1. destruct (CacheSection.sets s); split; reflexivity. }
    clearbody s1.
    destruct (CacheSection.sets s1 !! _) as [set|]; [|discriminate]. simpl in H.
    destruct (find_first _ set) as [[j e]|].
    + injection H as _ <- _. eapply same_config_trans; [exact Hs1|split; reflexivity].
    + destruct (CacheSection.find_victim_in_set m s1 _) as [[[m1 s2] v]|] eqn:Hv;
        [|discriminate].
      apply find_victim_in_set_config in Hv. simpl in H.
      destruct (CacheSection.sets s2 !! _) as [set2|]; [|discriminate]. simpl in H.
      destruct (set2 !! v) as [victim|]; [|discriminate]. simpl in H.
      injection H as _ <- _.
      eapply same_config_trans; [exact Hs1|].
      eapply same_config_trans; [exact Hv|split; reflexivity].
  - break_matches; split; reflexivity.
Qed.

Lemma new_page_config m s pid m' s' r :
  CacheSection.new_page m s pid = Some (m', s', r) -> same_config s s'.
Proof.
  unfold CacheSection.new_page. intros H. apply allocate_page_config in H.
  destruct H. split; assumption.
Qed.

Lemma prefetch_page_config m s pid m' s' :
  CacheSection.prefetch_page m s pid = Some (m', s') -> same_config s s'.
Proof.
  unfold CacheSection.prefetch_page. intros H.
  destruct (CacheSection.set_based (CacheSection.structure s)).
  - destruct (CacheSection.sets s !! _) as [set|]; [|discriminate]. simpl in H.
    destruct (find_first _ set) as [[j e]|];
      [injection H as _ <-; apply same_config_refl|].
    destruct (find_first _ set) as [[j e]|];
      [injection H as _ <-; split; reflexivity|].
    destruct (CacheSection.find_victim_in_set m s _) as [[[m1 s2] v]|] eqn:Hv;
      [|discriminate].
    apply find_victim_in_set_config in Hv. simpl in H.
    destruct (CacheSection.sets s2 !! _) as [set2|]; [|discriminate]. simpl in H.
    destruct (set2 !! v) as [victim|]; [|discriminate]. simpl in H.
    destruct (CacheSection.page victim) as [a0|]; [|discriminate]. simpl in H.
    destruct (heap m1 !! a0) as [p0|]; [|discriminate]. simpl in H.
    injection H as _ <-.
    eapply same_config_trans; [exact Hv|split; reflexivity].
  - break_matches; split; reflexivity.
Qed.

(** The page operations never change the configuration of a section. *)
Lemma section_call_config m s m' s' :
  section_call m s m' s' -> same_config s s'.
Proof.
  intros [? ? ? ? ? H|? ? ? ? ? ? _ _ H|? ? ? ? ? H].
  - eapply fetch_page_config, H.
  - eapply new_page_config, H.
  - eapply prefetch_page_config, H.
Qed.

(** ** The byte budget along runs *)

Lemma allocated_insert_same_size c sid s s' :
  ConfigurableCache.sections c !! sid = Some s ->
  CacheSection.size s' = CacheSection.size s ->
  sum_sizes (section_sizes (<[sid := s']> (ConfigurableCache.sections c)))
  = sum_sizes (section_sizes (ConfigurableCache.sections c)).
Proof. intros Hs E. rewrite (section_sizes_insert _ sid s s' Hs). lia. Qed.

Lemma section_sizes_insert_fresh (ss : gmap Z CacheSection.t) sid s :
  ss !! sid = None ->
  sum_sizes (section_sizes (<[sid := s]> ss))
  = CacheSection.size s + sum_sizes (section_sizes ss).
Proof.
  intros H. rewrite (section_sizes_lookup (<[sid := s]> ss) sid s)
    by apply lookup_insert_eq.
  rewrite delete_insert_eq, delete_id by exact H. reflexivity.
Qed.

Lemma section_sizes_reset (ss : gmap Z CacheSection.t) :
  sum_sizes (section_sizes (CacheSection.reset_stats <$> ss))
  = sum_sizes (section_sizes ss).
Proof.
  unfold section_sizes. rewrite map_to_list_fmap.
  change (prod_map id CacheSection.reset_stats <$> map_to_list ss)
    with (map (prod_map id CacheSection.reset_stats) (map_to_list ss)).
  rewrite map_map. reflexivity.
Qed.

Lemma section_resize_size m s n m' s' :
  CacheSection.resize m s n = Some (m', s') -> CacheSection.size s' = n.
Proof.
  unfold CacheSection.resize.
  destruct (Z.eqb_spec n (CacheSection.size s)) as [->|_].
  - intros [= _ <-]. reflexivity.
  - intros H. break_matches; reflexivity.
Qed.

Lemma budget_inv_frame k c c' :
  ConfigurableCache.total_size c' = ConfigurableCache.total_size c ->
  ConfigurableCache.available_size c' = ConfigurableCache.available_size c ->
  ConfigurableCache.next_section_id c' = ConfigurableCache.next_section_id c ->
  ConfigurableCache.sections c' = ConfigurableCache.sections c ->
  budget_inv k c -> budget_inv k c'.
Proof.
  intros E1 E2 E3 E4 [[B1 B2 B3] Ht Hk Hc].
  assert (Ea : allocated c' = allocated c) by (unfold allocated; rewrite E4; reflexivity).
  split; [split|..]; rewrite ?E1, ?E2, ?E3, ?E4, ?Ea; auto.
Qed.

Lemma router_step_budget k st st' :
  router_step st st' -> budget_inv k (snd st) -> budget_inv k (snd st').
Proof.
  intros H. destruct H; simpl; intros Hb; try exact Hb.
  - (* a call on one section *)
    apply section_call_config in H0. destruct H0 as [_ Hsz _ _ _ _ _].
    destruct Hb as [[B1 B2 B3] Ht Hk Hc].
    assert (Ea : allocated (ConfigurableCache.with_sections
                              (<[sid := s']> (ConfigurableCache.sections c)) c)
                 = allocated c).
    { rewrite !allocated_sum. simpl. eapply allocated_insert_same_size; eauto. }
    split; [split|..]; rewrite ?Ea; simpl; auto.
    + intros sid0 s0. rewrite lookup_insert. case_decide.
      * intros [= <-]. rewrite Hsz. eapply B2, H.
      * apply B2.
    + intros sid0. rewrite lookup_insert. case_decide; [subst; intros _; eauto|auto].
  - (* remove_section *)
    unfold ConfigurableCache.remove_section.
    destruct (sid =? ConfigurableCache.default_section_id c); [exact Hb|].
    destruct (ConfigurableCache.sections c !! sid) as [s|] eqn:Hs; [|exact Hb].
    destruct (ConfigurableCache.erase_section_ranges _ _ _) as [rs ids].
    pose proof (section_size_le_allocated c sid s (bi_budget _ _ Hb) Hs) as Hle.
    destruct Hb as [[B1 B2 B3] Ht Hk Hc]. simpl.
    set (c' := ConfigurableCache.mk _ _ _ _ _ _ _ _ _ _).
    assert (Ea : allocated c' = allocated c - CacheSection.size s).
    { rewrite !allocated_sum. subst c'. simpl.
      rewrite (section_sizes_lookup _ sid s Hs). lia. }
    assert (Eav : ConfigurableCache.available_size c'
                  = ConfigurableCache.available_size c + CacheSection.size s).
    { subst c'. simpl. unfold CacheSection.get_size. apply to_size_t_small. lia. }
    split; [split|..]; rewrite ?Ea, ?Eav; try (subst c'; simpl); try lia.
    + intros sid0 s0 H0. apply lookup_delete_Some in H0 as [_ H0]. eapply B2, H0.
    + intros sid0 [s0 H0]. apply lookup_delete_Some in H0 as [_ H0]. apply Hk. eauto.
  - (* resize_section *)
    unfold ConfigurableCache.resize_section in H0.
    destruct (ConfigurableCache.sections c !! sid) as [s|] eqn:Hs;
      [|injection H0 as _ <-; exact Hb].
    pose proof (section_size_le_allocated c sid s (bi_budget _ _ Hb) Hs) as Hle.
    destruct Hb as [[B1 B2 B3] Ht Hk Hc].
    unfold CacheSection.get_size in H0.
    set (old := CacheSection.size s) in *.
    set (av := ConfigurableCache.available_size c) in *.
    assert (Hres : exists n' av',
      (if old <? n
       then (if av <? n - old then to_size_t (old + av) else n,
             to_size_t (av - to_size_t
                ((if av <? n - old then to_size_t (old + av) else n) - old)))
       else (n, to_size_t (av + (old - n)))) = (n', av') /\
      0 <= n' /\ 0 <= av' /\ n' + av' = old + av).
    { destruct (Z.ltb_spec old n) as [Hgrow|Hshrink].
      - destruct (Z.ltb_spec av (n - old)) as [Hclamp|Hfit].
        + rewrite (to_size_t_small (old + av)) by lia.
          replace (old + av - old) with av by lia.
          rewrite (to_size_t_small av) by lia.
          replace (av - av) with 0 by lia.
          eexists _, _. split; [reflexivity|]. rewrite to_size_t_small by lia. lia.
        + rewrite (to_size_t_small (n - old)) by lia.
          rewrite (to_size_t_small (av - _)) by lia.
          eexists _, _. split; [reflexivity|]. lia.
      - rewrite to_size_t_small by lia.
        eexists _, _. split; [reflexivity|]. lia. }
    destruct Hres as (n' & av' & Hres & Hn' & Hav' & Hcons). rewrite Hres in H0.
    destruct (CacheSection.resize m s n') as [[m1 s1]|] eqn:Hr; [|discriminate].
    injection H0 as _ <-. apply section_resize_size in Hr.
    set (c' := ConfigurableCache.with_available _ _).
    assert (Ea : allocated c' = allocated c - old + n').
    { rewrite !allocated_sum. subst c'. simpl.
      rewrite (section_sizes_insert _ sid s s1 Hs). subst old. lia. }
    split; [split|..]; rewrite ?Ea; subst c'; simpl; try lia.
    + intros sid0 s0. rewrite lookup_insert. case_decide.
      * intros [= <-]. lia.
      * apply B2.
    + intros sid0. rewrite lookup_insert. case_decide; [subst; intros _; eauto|auto].
  - (* map_page_to_section *)
    unfold ConfigurableCache.map_page_to_section.
    destruct (ConfigurableCache.sections c !! sid); [|exact Hb].
    eapply budget_inv_frame; [..|exact Hb]; reflexivity.
  - (* map_page_range_to_section *)
    unfold ConfigurableCache.map_page_range_to_section.
    destruct (ConfigurableCache.sections c !! sid); [|exact Hb].
    destruct (ConfigurableCache.erase_overlapping _ _ _ _).
    eapply budget_inv_frame; [..|exact Hb]; reflexivity.
  - (* reset_all_stats *)
    destruct Hb as [[B1 B2 B3] Ht Hk Hc].
    assert (Ea : allocated (ConfigurableCache.reset_all_stats c) = allocated c).
    { rewrite !allocated_sum. simpl. apply section_sizes_reset. }
    split; [split|..]; rewrite ?Ea; simpl; auto.
    + intros sid0 s0. rewrite lookup_fmap.
      destruct (ConfigurableCache.sections c !! sid0) as [s1|] eqn:E; [|discriminate].
      intros [= <-]. simpl. eapply B2, E.
    + intros sid0. rewrite lookup_fmap. intros [s0 H0].
      apply Hk. destruct (ConfigurableCache.sections c !! sid0); [eauto|discriminate].
Qed.

Lemma create_step_budget k st st' :
  Z.of_nat k + 2 < 2 ^ 64 ->
  create_step st st' -> budget_inv k (snd st) -> budget_inv (S k) (snd st').
Proof.
  intros Hk2 H. destruct H as [m c sz lsz st assoc m' c' sid Hsz _ H1]. simpl.
  intros [[B1 B2 B3] Ht Hk Hc].
  unfold ConfigurableCache.create_section in H1.
  set (sz' := if ConfigurableCache.available_size c <? sz
              then ConfigurableCache.available_size c else sz) in H1.
  assert (Hsz' : 0 <= sz' <= ConfigurableCache.available_size c).
  { subst sz'. destruct (Z.ltb_spec (ConfigurableCache.available_size c) sz); lia. }
  destruct (CacheSection.new _ sz' lsz st assoc) as [s|] eqn:Hnew; [|discriminate].
  simpl in H1.
  assert (Hfresh : ConfigurableCache.sections c !! ConfigurableCache.next_section_id c
                   = None).
  { destruct (ConfigurableCache.sections c !! _) eqn:E; [|reflexivity].
    assert (Hx := Hk _ (mk_is_Some _ _ E)). lia. }
  rewrite Hfresh in H1. injection H1 as _ <- _.
  assert (Hs : CacheSection.size s = sz').
  { unfold CacheSection.new in Hnew. destruct (_ || _); [discriminate|].
    injection Hnew as <-. reflexivity. }
  assert (Hal0 : 0 <= allocated c).
  { rewrite allocated_sum. apply section_sizes_nonneg, B2. }
  set (c' := ConfigurableCache.mk _ _ _ _ _ _ _ _ _ _).
  assert (Ea : allocated c' = sz' + allocated c).
  { rewrite !allocated_sum. subst c'. simpl.
    rewrite (section_sizes_insert_fresh _ _ _ Hfresh), Hs. reflexivity. }
  assert (Eav : ConfigurableCache.available_size c'
                = ConfigurableCache.available_size c - sz').
  { subst c'. simpl. apply to_size_t_small. lia. }
  assert (Enext : ConfigurableCache.next_section_id c'
                  = ConfigurableCache.next_section_id c + 1).
  { subst c'. simpl. apply to_size_t_small. lia. }
  split; [split|..]; rewrite ?Ea, ?Eav, ?Enext; try (subst c'; simpl); try lia.
  - intros sid0 s0. rewrite lookup_insert. case_decide.
    + intros [= <-]. lia.
    + apply B2.
  - intros sid0. rewrite lookup_insert. case_decide; [subst; lia|].
    intros H0. apply Hk in H0. lia.
Qed.

Lemma router_step_total_size st st' :
  router_step st st' ->
  ConfigurableCache.total_size (snd st') = ConfigurableCache.total_size (snd st).
Proof.
  intros H. destruct H; simpl; try reflexivity.
  - unfold ConfigurableCache.remove_section. break_matches; reflexivity.
  - unfold ConfigurableCache.resize_section in H0.
    destruct (ConfigurableCache.sections c !! sid); [|injection H0 as _ <-; reflexivity].
    destruct (if _ <? n then _ else _) as [n' av].
    destruct (CacheSection.resize m _ n') as [[m1 s1]|]; [|discriminate].
    injection H0 as _ <-. reflexivity.
  - unfold ConfigurableCache.map_page_to_section. break_matches; reflexivity.
  - unfold ConfigurableCache.map_page_range_to_section. break_matches; reflexivity.
Qed.

Lemma create_step_total_size st st' :
  create_step st st' ->
  ConfigurableCache.total_size (snd st') = ConfigurableCache.total_size (snd st).
Proof.
  intros H. destruct H as [m c sz lsz st assoc m' c' sid _ _ H1]. simpl.
  unfold ConfigurableCache.create_section in H1.
  destruct (CacheSection.new _ _ _ _ _); [|discriminate].
  simpl in H1. injection H1 as _ <- _. reflexivity.
Qed.

Lemma new_budget_inv total psz lsz m c :
  0 <= total < 2 ^ 64 ->
  ConfigurableCache.new total psz lsz = Some (m, c) ->
  budget_inv O c /\ ConfigurableCache.total_size c = total.
Proof.
  intros Ht. unfold ConfigurableCache.new, ConfigurableCache.create_section.
  simpl. rewrite Z.ltb_irrefl.
  destruct (CacheSection.new 0 total lsz _ _) as [s|] eqn:Hnew; [|discriminate].
  simpl. rewrite lookup_empty. intros [= _ <-].
  assert (Hs : CacheSection.size s = total).
  { unfold CacheSection.new in Hnew. destruct (_ || _); [discriminate|].
    injection Hnew as <-. reflexivity. }
  set (c := ConfigurableCache.mk _ _ _ _ _ _ _ _ _ _).
  assert (Ea : allocated c = total).
  { rewrite allocated_sum. subst c. simpl.
    rewrite section_sizes_insert_fresh by apply lookup_empty.
    unfold section_sizes. rewrite map_to_list_empty. simpl. lia. }
  assert (Eav : ConfigurableCache.available_size c = 0).
  { subst c. simpl. rewrite Z.sub_diag. reflexivity. }
  split; [|reflexivity].
  split; [split|..]; rewrite ?Ea, ?Eav; try (subst c; simpl); try lia.
  - intros sid s0. rewrite lookup_insert. case_decide; [|rewrite lookup_empty; discriminate].
    intros [= <-]. lia.
  - intros sid. rewrite lookup_insert. case_decide.
    + subst. intros _. vm_compute. split; [discriminate|reflexivity].
    + rewrite lookup_empty. intros [? ?]. discriminate.
  - vm_compute. split; discriminate.
Qed.

(** X4: the byte budget is conserved.  In every state the router reaches
    from its constructor, whatever sections are created, removed, resized or
    optimized on the way, the sizes of the sections and [available_size] add
    up to [total_size]; no section is larger than [total_size]. *)
Theorem byte_budget_conserved total psz lsz ops m c :
  0 <= total < 2 ^ 64 ->
  Z.of_nat (length ops) + 1 < 2 ^ 64 ->
  Forall op_typed ops ->
  cache_run ops (ConfigurableCache.new total psz lsz) = Some (m, c) ->
  ConfigurableCache.total_size c = total /\
  allocated c + ConfigurableCache.available_size c = total /\
  0 <= ConfigurableCache.available_size c /\
  forall sid s, ConfigurableCache.sections c !! sid = Some s ->
                0 <= CacheSection.size s <= total.
Proof.
  intros Ht Hlen Hty Hrun.
  destruct (ConfigurableCache.new total psz lsz) as [[m0 c0]|] eqn:Hnew;
    [|rewrite cache_run_None in Hrun; discriminate].
  assert (HI : budget_inv (length ops) c /\ ConfigurableCache.total_size c = total).
  { apply (cache_run_invariant_counted
             (fun k st => budget_inv k (snd st) /\
                          ConfigurableCache.total_size (snd st) = total) ops)
      with (st := (m0, c0)) (st' := (m, c)); auto.
    - intros k st st' Hs [Hb Htot]. split; [eapply router_step_budget; eauto|].
      rewrite (router_step_total_size _ _ Hs). exact Htot.
    - intros k st st' Hk Hs [Hb Htot]. split; [eapply create_step_budget; eauto; lia|].
      rewrite (create_step_total_size _ _ Hs). exact Htot.
    - intros k st [[B Htt Hk Hc] Htot]. split; [|exact Htot].
      split; auto. lia.
    - simpl. eapply new_budget_inv; eauto. }
  destruct HI as [Hb Htot]. pose proof (bi_budget _ _ Hb) as Hbo.
  split; [exact Htot|]. split; [rewrite <- Htot; apply (bi_total _ _ Hb)|].
  split; [apply (budget_available _ Hbo)|].
  intros sid s Hs. pose proof (section_size_le_allocated c sid s Hbo Hs).
  pose proof (bi_total _ _ Hb). pose proof (budget_available _ Hbo). lia.
Qed.

Lemma byte_budget_conserved_witness :
  exists m c,
    cache_run [ResizeSection 0 8192; CreateSection 16384 4096 CacheSection.SetAssociative 2;
               PrefetchPage 1; FetchPage 1; PrefetchPage 2; FetchPage 2;
               RemoveSection 1;
               CreateSection 2048 1024 CacheSection.DirectMapped 1;
               ResizeSection 2 4096; FetchPage 1; OptimizeSectionSizes]
              (ConfigurableCache.new 16384 4096 4096) = Some (m, c) /\
    ConfigurableCache.total_size c = 16384 /\
    allocated c + ConfigurableCache.available_size c = 16384.
Proof.
  destruct (cache_run _ (ConfigurableCache.new 16384 4096 4096)) as [[m c]|] eqn:H;
    [|vm_compute in H; discriminate].
  exists m, c. split; [reflexivity|].
  match type of H with
  | cache_run ?ops _ = _ =>
      destruct (byte_budget_conserved 16384 4096 4096 ops m c) as (H1 & H2 & _)
  end.
  - lia.
  - simpl. lia.
  - repeat (constructor; simpl; try lia).
  - exact H.
  - auto.
Defined.

(** ** A page that was fetched is found again *)

Lemma bit_cleared_refl e : bit_cleared e e.
Proof. repeat split; auto. Qed.

Lemma bit_cleared_trans e1 e2 e3 :
  bit_cleared e1 e2 -> bit_cleared e2 e3 -> bit_cleared e1 e3.
Proof.
  intros (A1 & A2 & A3 & A4) (B1 & B2 & B3 & B4).
  split; [congruence|]. split; [congruence|]. split; [congruence|].
  destruct B4 as [B4|B4]; [|right; exact B4].
  destruct A4 as [A4|A4]; [left|right]; congruence.
Qed.

Lemma Forall2_bit_cleared_refl l : Forall2 bit_cleared l l.
Proof. induction l; constructor; auto using bit_cleared_refl. Qed.

Lemma Forall2_bit_cleared_insert l i e :
  l !! i = Some e ->
  Forall2 bit_cleared l (<[i := CacheSection.set_referenced false e]> l).
Proof.
  revert i. induction l as [|x l IH]; intros [|i] H; simpl in *; try discriminate.
  - injection H as ->. constructor; [|apply Forall2_bit_cleared_refl].
    repeat split; auto.
  - constructor; [apply bit_cleared_refl|apply IH, H].
Qed.

Lemma Forall2_bit_cleared_trans l1 l2 l3 :
  Forall2 bit_cleared l1 l2 -> Forall2 bit_cleared l2 l3 -> Forall2 bit_cleared l1 l3.
Proof.
  intros H. revert l3. induction H; intros l3 H3; inversion H3; subst; constructor.
  - eapply bit_cleared_trans; eauto.
  - auto.
Qed.

(** The clock sweep only clears reference bits. *)
Lemma clock_sweep_bits fuel : forall assoc start pos set set' v hand,
  CacheSection.clock_sweep fuel assoc start pos set = Some (set', v, hand) ->
  Forall2 bit_cleared set set'.
Proof.
  induction fuel as [|fuel IH]; intros assoc start pos set set' v hand; simpl.
  - intros [= <- _ _]. apply Forall2_bit_cleared_refl.
  - destruct (set !! Z.to_nat pos) as [e|] eqn:He; [|discriminate]. simpl.
    destruct (negb (CacheSection.referenced e)).
    + intros [= <- _ _]. apply Forall2_bit_cleared_refl.
    + destruct (_ =? start).
      * intros [= <- _ _]. apply Forall2_bit_cleared_insert, He.
      * intros H. eapply Forall2_bit_cleared_trans;
          [apply Forall2_bit_cleared_insert, He|eapply IH, H].
Qed.

Lemma find_victim_in_set_bits m s i m' s' v :
  CacheSection.find_victim_in_set m s i = Some (m', s', v) ->
  exists set set',
    CacheSection.sets s !! i = Some set /\
    CacheSection.sets s' = <[i := set']> (CacheSection.sets s) /\
    Forall2 bit_cleared set set' /\ same_config s s' /\
    heap m' = heap m /\ next_addr m' = next_addr m.
Proof.
  unfold CacheSection.find_victim_in_set.
  destruct (CacheSection.associativity s =? 0); [discriminate|].
  destruct (CacheSection.sets s !! i) as [set|] eqn:Hi; [|discriminate]. simpl.
  destruct (CacheSection.clock_sweep _ _ _ _ set) as [[[set' pos] hand]|] eqn:Hc;
    [|discriminate].
  simpl. intros [= <- <- _]. exists set, set'.
  split; [reflexivity|]. split; [reflexivity|].
  split; [eapply clock_sweep_bits, Hc|]. split; [split; reflexivity|].
  split; reflexivity.
Qed.

Lemma entry_hit_bit_cleared pid e e' :
  bit_cleared e e' -> CacheSection.entry_hit pid e' = CacheSection.entry_hit pid e.
Proof.
  intros (H1 & H2 & H3 & _). unfold CacheSection.entry_hit. rewrite H1, H2, H3.
  reflexivity.
Qed.

Lemma find_first_insert_hit {A} (f : A -> bool) l j x y :
  find_first f l = Some (j, x) -> f y = true ->
  find_first f (<[j := y]> l) = Some (j, y).
Proof.
  revert j. induction l as [|z l IH]; intros j; simpl; [discriminate|].
  destruct (f z) eqn:Hz.
  - intros [= <- <-] Hy. simpl. rewrite Hy. reflexivity.
  - destruct (find_first f l) as [[i w]|] eqn:Hl; [|discriminate].
    intros [= <- <-] Hy. simpl. rewrite Hz. rewrite (IH i eq_refl Hy). reflexivity.
Qed.

Lemma find_first_insert_only {A} (f : A -> bool) (l : list A) j y :
  (forall x, x ∈ l -> f x = false) -> (j < length l)%nat -> f y = true ->
  find_first f (<[j := y]> l) = Some (j, y).
Proof.
  revert j. induction l as [|z l IH]; intros j Hall Hj Hy; simpl in *; [lia|].
  destruct j as [|j]; simpl.
  - rewrite Hy. reflexivity.
  - rewrite (Hall z) by apply list_elem_of_here.
    rewrite IH; auto; [|lia].
    intros x Hx. apply Hall. apply list_elem_of_further, Hx.
Qed.

Lemma insert_not_nil {A} (l : list A) i x : l <> [] -> <[i := x]> l <> [].
Proof. destruct l as [|y l]; [congruence|]. destruct i; discriminate. Qed.

(** What the hit path of the set lookup needs. *)
Lemma set_fetch_hit s pid idx set j e a :
  CacheSection.set_based (CacheSection.structure s) = true ->
  idx = Z.to_nat (CacheSection.get_set_index s pid) ->
  CacheSection.sets s !! idx = Some set ->
  find_first (CacheSection.entry_hit pid) set = Some (j, e) ->
  CacheSection.page e = Some a ->
  exists s',
    CacheSection.fetch_page s pid = Some (s', Some a) /\
    CacheSection.stats s' = CacheSectionStats.record_hit (CacheSection.stats s).
Proof.
  intros Hsb -> Hset Hfind Hpage. unfold CacheSection.fetch_page. rewrite Hsb.
  destruct (CacheSection.sets s) as [|x l] eqn:E; [rewrite lookup_nil in Hset; discriminate|].
  rewrite Hset. simpl. rewrite Hfind. rewrite Hpage. eexists. split; reflexivity.
Qed.

Lemma fa_fetch_hit s pid a e ps :
  CacheSection.set_based (CacheSection.structure s) = false ->
  CacheSection.page_map s !! pid = Some a ->
  CacheSection.pages s = e :: ps ->
  CacheSection.page e = Some a -> CacheSection.valid e = true ->
  exists s',
    CacheSection.fetch_page s pid = Some (s', Some a) /\
    CacheSection.stats s' = CacheSectionStats.record_hit (CacheSection.stats s).
Proof.
  intros Hsb Hpm Hps Hpage Hvalid. unfold CacheSection.fetch_page.
  rewrite Hsb, Hpm. unfold CacheSection.node_at. rewrite Hps. simpl.
  rewrite bool_decide_eq_true_2 by exact Hpage.
  rewrite Hvalid, Hpage. simpl. eexists. split; reflexivity.
Qed.

(** A hit is followed by a hit on the same page. *)
Lemma section_fetch_hit_again s pid s1 a :
  CacheSection.fetch_page s pid = Some (s1, Some a) ->
  exists s2,
    CacheSection.fetch_page s1 pid = Some (s2, Some a) /\
    CacheSection.stats s2 = CacheSectionStats.record_hit (CacheSection.stats s1).
Proof.
  unfold CacheSection.fetch_page at 1.
  destruct (CacheSection.set_based (CacheSection.structure s)) eqn:Hsb.
  - destruct (CacheSection.sets s) as [|x l] eqn:E; [discriminate|].
    rewrite <- E.
    destruct (CacheSection.sets s !! _) as [set|] eqn:Hset; [|discriminate]. simpl.
    destruct (find_first _ set) as [[j e]|] eqn:Hfind; [|discriminate].
    intros [= <- Hpage].
    pose proof (find_first_Some _ _ _ _ Hfind) as [Hj Hhit].
    eapply set_fetch_hit with (e := CacheSection.set_referenced true e); eauto.
    + simpl. apply list_lookup_insert_eq. eapply lookup_lt_Some, Hset.
    + eapply find_first_insert_hit; [exact Hfind|exact Hhit].
  - destruct (CacheSection.page_map s !! pid) as [a0|] eqn:Hpm; [|discriminate].
    destruct (CacheSection.node_at a0 (CacheSection.pages s)) as [[i e]|] eqn:Hn;
      [|discriminate].
    destruct (CacheSection.valid e && _) eqn:Hv; [|discriminate].
    intros [= <- Hpage].
    apply find_first_Some in Hn as [Hi Hb]. apply bool_decide_eq_true in Hb.
    apply andb_true_iff in Hv as [Hv _].
    assert (a0 = a) by congruence. subst a0.
    eapply fa_fetch_hit with (e := e); eauto.
    simpl. unfold CacheSection.splice_front. rewrite Hi. reflexivity.
Qed.

Lemma fresh_set_no_hit n a idx set pid :
  CacheSection.fresh_sets n a !! idx = Some set ->
  forall e, e ∈ set -> CacheSection.entry_hit pid e = false.
Proof.
  unfold CacheSection.fresh_sets. intros H.
  apply lookup_replicate in H as [-> _].
  intros e He. apply elem_of_replicate in He as [-> _]. reflexivity.
Qed.

(** When [fetch_page] returns the null pointer and [new_page] then allocates
    the page, the next [fetch_page] is a hit on that page. *)
Lemma section_miss_then_hit m s pid s1 m' s2 a :
  CacheSection.fetch_page s pid = Some (s1, None) ->
  CacheSection.new_page m s1 pid = Some (m', s2, Some a) ->
  exists s3,
    CacheSection.fetch_page s2 pid = Some (s3, Some a) /\
    CacheSection.stats s3 = CacheSectionStats.record_hit (CacheSection.stats s2).
Proof.
  intros Hmiss Hnew. unfold CacheSection.new_page, CacheSection.allocate_page in Hnew.
  set (s1' := CacheSection.with_stats _ s1) in Hnew.
  assert (Hsb1 : CacheSection.structure s1 = CacheSection.structure s).
  { apply fetch_page_config in Hmiss. apply Hmiss. }
  change (CacheSection.structure s1') with (CacheSection.structure s1) in Hnew.
  rewrite Hsb1 in Hnew.
  destruct (CacheSection.set_based (CacheSection.structure s)) eqn:Hsb.
  - (* set-based *)
    set (si := match CacheSection.sets s1' with [] => _ | _ => s1' end) in Hnew.
    destruct (CacheSection.sets si !! Z.to_nat (CacheSection.get_set_index si pid))
      as [set0|] eqn:Hset0; [|discriminate].
    simpl in Hnew.
    assert (Hno : forall e, e ∈ set0 -> CacheSection.entry_hit pid e = false).
    { unfold CacheSection.fetch_page in Hmiss. rewrite Hsb in Hmiss.
      destruct (CacheSection.sets s) as [|x l] eqn:E.
      - injection Hmiss as <-.
        assert (Hf : CacheSection.fresh_sets (CacheSection.num_sets s)
                       (CacheSection.associativity s)
                     !! Z.to_nat (CacheSection.get_set_index s pid) = Some set0).
        { subst si s1'. revert Hset0.
          change (CacheSection.sets (CacheSection.with_stats
                    (CacheSectionStats.record_miss (CacheSection.stats s)) s))
            with (CacheSection.sets s).
          rewrite E. intros H; exact H. }
        eapply fresh_set_no_hit, Hf.
      - destruct ((x :: l) !! _) as [set|] eqn:Hset; [|discriminate].
        simpl in Hmiss.
        destruct (find_first _ set) as [[j e]|] eqn:Hfind.
        { exfalso. apply find_first_Some in Hfind as [_ Hh].
          unfold CacheSection.entry_hit in Hh.
          apply andb_true_iff in Hh as [_ Hh]. apply bool_decide_eq_true in Hh.
          destruct Hh as [a0 Ha0]. rewrite Ha0 in Hmiss. discriminate. }
        rewrite fetch_miss_undefined in Hmiss. discriminate. }
    assert (Hsbi : CacheSection.set_based (CacheSection.structure si) = true).
    { subst si s1'. destruct (CacheSection.sets _); simpl; congruence. }
    destruct (find_first (fun e => negb (CacheSection.valid e)) set0)
      as [[j e]|] eqn:Hfree.
    + injection Hnew as _ <- <-.
      apply find_first_Some in Hfree as [Hj _].
      eapply set_fetch_hit
        with (e := CacheSection.mkEntry (Some (next_addr m)) pid true true);
        [exact Hsbi|reflexivity| | |reflexivity].
      * simpl. apply list_lookup_insert_eq. eapply lookup_lt_Some, Hset0.
      * apply find_first_insert_only; [exact Hno|eapply lookup_lt_Some, Hj|].
        unfold CacheSection.entry_hit. simpl. rewrite Z.eqb_refl. reflexivity.
    + destruct (CacheSection.find_victim_in_set m si _) as [[[m1 sv] v]|] eqn:Hv;
        [|discriminate].
      simpl in Hnew.
      destruct (find_victim_in_set_bits _ _ _ _ _ _ Hv)
        as (set & set' & Hs & Hsv & Hbits & Hcfg & _).
      rewrite Hset0 in Hs. injection Hs as <-.
      assert (Hidx : CacheSection.get_set_index sv pid = CacheSection.get_set_index si pid).
      { unfold CacheSection.get_set_index. rewrite (cfg_num_sets _ _ Hcfg). reflexivity. }
      assert (Hset' : CacheSection.sets sv !! Z.to_nat (CacheSection.get_set_index si pid)
                      = Some set').
      { rewrite Hsv. apply list_lookup_insert_eq. eapply lookup_lt_Some, Hset0. }
      rewrite Hset' in Hnew. simpl in Hnew.
      destruct (set' !! v) as [victim|] eqn:Hvictim; [|discriminate].
      simpl in Hnew. injection Hnew as _ <- <-.
      eapply set_fetch_hit
        with (e := CacheSection.mkEntry
                     (Some (next_addr
                              (if CacheSection.valid victim
                                  && owned_dirty (CacheSection.page victim) m1
                               then owned_clean (CacheSection.page victim) m1 else m1)))
                     pid true true)
             (idx := Z.to_nat (CacheSection.get_set_index si pid));
        [simpl; rewrite (cfg_structure _ _ Hcfg); exact Hsbi| | | |reflexivity].
      * unfold CacheSection.get_set_index. simpl.
        rewrite (cfg_num_sets _ _ Hcfg). reflexivity.
      * simpl. apply list_lookup_insert_eq. eapply lookup_lt_Some, Hset'.
      * apply find_first_insert_only; [|eapply lookup_lt_Some, Hvictim|].
        -- intros e' He'. apply list_elem_of_lookup in He' as [k Hk].
           destruct (Forall2_lookup_r _ _ _ _ _ Hbits Hk) as (e0 & He0 & Hb).
           rewrite (entry_hit_bit_cleared _ _ _ Hb). apply Hno.
           eapply list_elem_of_lookup_2, He0.
        -- unfold CacheSection.entry_hit. simpl. rewrite Z.eqb_refl. reflexivity.
  - (* fully associative *)
    change (CacheSection.pages s1') with (CacheSection.pages s1) in Hnew.
    change (CacheSection.pages_capacity s1') with (CacheSection.pages_capacity s1) in Hnew.
    assert (Hfa : forall ps pm e,
              CacheSection.page e = Some a -> CacheSection.valid e = true ->
              exists s3,
                CacheSection.fetch_page
                  (CacheSection.with_pages (e :: ps) (<[pid := a]> pm) s1') pid
                = Some (s3, Some a) /\
                CacheSection.stats s3
                = CacheSectionStats.record_hit
                    (CacheSection.stats
                       (CacheSection.with_pages (e :: ps) (<[pid := a]> pm) s1'))).
    { intros ps pm e He Hval. eapply fa_fetch_hit with (e := e); eauto.
      - simpl. congruence.
      - simpl. apply lookup_insert_eq. }
    destruct (Z.of_nat (length (CacheSection.pages s1)) <? _).
    + injection Hnew as _ <- <-. apply Hfa; reflexivity.
    + destruct (CacheSection.pages s1) as [|e0 ps0] eqn:Eps.
      * injection Hnew as _ <- <-. apply Hfa; reflexivity.
      * unfold CacheSection.find_victim_in_fully_associative in Hnew.
        change (CacheSection.pages s1') with (CacheSection.pages s1) in Hnew.
        rewrite ?Eps in Hnew.
        destruct (last (e0 :: ps0)) as [victim|] eqn:Hlast; [|discriminate].
        cbn [mbind option_bind] in Hnew.
        change (CacheSection.pages s1') with (CacheSection.pages s1) in Hnew.
        rewrite ?Eps in Hnew.
        unfold CacheSection.create_page, alloc in Hnew.
        cbv beta iota zeta in Hnew.
        injection Hnew as _ <- <-.
        unfold CacheSection.splice_front.
        rewrite list_lookup_insert_eq by (simpl; lia).
        apply Hfa; reflexivity.
Qed.

Lemma first_live_range_ext (ss ss' : gmap Z CacheSection.t) pid rs ids :
  (forall x, is_Some (ss' !! x) <-> is_Some (ss !! x)) ->
  ConfigurableCache.first_live_range ss' pid rs ids
  = ConfigurableCache.first_live_range ss pid rs ids.
Proof.
  intros Hdom. revert ids. induction rs as [|[lo hi] rs IH]; intros [|sid ids]; simpl;
    try reflexivity.
  rewrite (bool_decide_ext _ _ (Hdom sid)), IH. reflexivity.
Qed.

(** Updating a section in place does not change where pages are served. *)
Lemma find_section_insert c sid s' pid :
  is_Some (ConfigurableCache.sections c !! sid) ->
  is_Some (ConfigurableCache.sections c !! ConfigurableCache.default_section_id c) ->
  ConfigurableCache.find_section_for_page
    (ConfigurableCache.with_sections (<[sid := s']> (ConfigurableCache.sections c)) c)
    pid
  = ConfigurableCache.find_section_for_page c pid.
Proof.
  intros Hsid Hd.
  assert (Hdom : forall x, is_Some (<[sid := s']> (ConfigurableCache.sections c) !! x)
                           <-> is_Some (ConfigurableCache.sections c !! x)).
  { intros x. rewrite lookup_insert. case_decide; [subst; split; eauto|reflexivity]. }
  unfold ConfigurableCache.find_section_for_page. simpl.
  rewrite (first_live_range_ext _ _ _ _ _ Hdom).
  destruct (proj2 (Hdom _) Hd) as [sd' Hd']. destruct Hd as [sd Hd].
  rewrite Hd, Hd'.
  destruct (ConfigurableCache.page_to_section_map c !! pid) as [sid1|]; [|reflexivity].
  destruct (ConfigurableCache.sections c !! sid1) as [s1|] eqn:E1.
  - destruct (proj2 (Hdom sid1) (mk_is_Some _ _ E1)) as [s1' ->]. reflexivity.
  - destruct (<[sid := s']> (ConfigurableCache.sections c) !! sid1) eqn:E2; [|reflexivity].
    apply mk_is_Some, Hdom in E2. rewrite E1 in E2. destruct E2. discriminate.
Qed.

(** X5: a page that [fetch_page] has returned is found again.  When the
    default section exists and [fetch_page(id)] returns a page, an
    immediate second [fetch_page(id)] returns the same page: it
    allocates nothing, leaves the pages untouched and counts one hit in the
    section that serves [id]. *)
Theorem fetch_page_again_hits m c pid m1 c1 a :
  is_Some (ConfigurableCache.sections c !! ConfigurableCache.default_section_id c) ->
  ConfigurableCache.fetch_page m c pid = Some (m1, c1, Some a) ->
  exists c2 sid s1 s2,
    ConfigurableCache.fetch_page m1 c1 pid = Some (m1, c2, Some a) /\
    ConfigurableCache.find_section_for_page c pid = Some sid /\
    ConfigurableCache.sections c1 !! sid = Some s1 /\
    ConfigurableCache.sections c2 !! sid = Some s2 /\
    CacheSection.stats s2 = CacheSectionStats.record_hit (CacheSection.stats s1).
Proof.
  intros Hd H. unfold ConfigurableCache.fetch_page in H.
  destruct (ConfigurableCache.find_section_for_page c pid) as [sid|] eqn:Hfind;
    [|discriminate].
  simpl in H.
  destruct (ConfigurableCache.sections c !! sid) as [s|] eqn:Hs; [|discriminate].
  simpl in H.
  destruct (CacheSection.fetch_page s pid) as [[s1 pg]|] eqn:Hf; [|discriminate].
  simpl in H.
  assert (Hgen : forall s',
    (exists s2, CacheSection.fetch_page s' pid = Some (s2, Some a) /\
                CacheSection.stats s2 = CacheSectionStats.record_hit (CacheSection.stats s')) ->
    exists c2 s1 s2,
      ConfigurableCache.fetch_page m1
        (ConfigurableCache.with_sections (<[sid := s']> (ConfigurableCache.sections c)) c)
        pid = Some (m1, c2, Some a) /\
      <[sid := s']> (ConfigurableCache.sections c) !! sid = Some s1 /\
      ConfigurableCache.sections c2 !! sid = Some s2 /\
      CacheSection.stats s2 = CacheSectionStats.record_hit (CacheSection.stats s1)).
  { intros s' (s2 & Hf2 & Hst).
    unfold ConfigurableCache.fetch_page.
    rewrite (find_section_insert c sid s' pid (mk_is_Some _ _ Hs) Hd), Hfind.
    simpl. rewrite lookup_insert_eq. simpl. rewrite Hf2. simpl.
    eexists _, s', s2. split; [reflexivity|]. split; [reflexivity|].
    split; [simpl; apply lookup_insert_eq|exact Hst]. }
  destruct pg as [a'|].
  - injection H as <- <- <-.
    destruct (Hgen s1 (section_fetch_hit_again _ _ _ _ Hf)) as (c2 & s1' & s2 & H1 & H2 & H3 & H4).
    exists c2, sid, s1', s2. auto.
  - destruct (CacheSection.new_page m s1 pid) as [[[m2 s2] pg']|] eqn:Hn; [|discriminate].
    simpl in H. injection H as <- <- ->.
    destruct (Hgen s2 (section_miss_then_hit _ _ _ _ _ _ _ Hf Hn))
      as (c2 & s1' & s3 & H1 & H2 & H3 & H4).
    exists c2, sid, s1', s3. auto.
Qed.

Lemma fetch_page_again_hits_witness :
  exists m c m1 c1 a c2,
    cache_run [PrefetchPage 7] (ConfigurableCache.new 12288 4096 4096)
      = Some (m, c) /\
    ConfigurableCache.fetch_page m c 7 = Some (m1, c1, Some a) /\
    ConfigurableCache.fetch_page m1 c1 7 = Some (m1, c2, Some a).
Proof.
  destruct (cache_run _ (ConfigurableCache.new 12288 4096 4096)) as [[m c]|] eqn:Hnew;
    [|vm_compute in Hnew; discriminate].
  destruct (ConfigurableCache.fetch_page m c 7) as [[[m1 c1] [a|]]|] eqn:Hf;
    [|vm_compute in Hnew; injection Hnew as <- <-; vm_compute in Hf; discriminate..].
  destruct (fetch_page_again_hits m c 7 m1 c1 a) as (c2 & _ & _ & _ & H2 & _).
  - vm_compute in Hnew. injection Hnew as <- <-. vm_compute. eauto.
  - exact Hf.
  - exists m, c, m1, c1, a, c2. auto.
Defined.

(** ** Well-formedness along runs *)

Lemma set_replace_wf m m' s i set j pid r :
  section_wf m s ->
  CacheSection.sets s !! i = Some set -> (j < length set)%nat ->
  next_addr m' = N.succ (next_addr m) ->
  section_wf m'
    (CacheSection.with_sets
       (<[i := <[j := CacheSection.mkEntry (Some (next_addr m)) pid true r]> set]>
          (CacheSection.sets s)) s).
Proof.
  intros Hwf Hset Hj Hn.
  assert (Hle : (next_addr m <= next_addr m')%N) by lia.
  eapply with_sets_insert_wf; [eapply section_wf_mono; eauto|exact Hset| |].
  - apply length_insert.
  - pose proof (wf_sets_below _ _ Hwf) as Hall.
    eapply Forall_lookup_1 in Hall; [|exact Hset].
    apply Forall_insert.
    + eapply Forall_impl; [exact Hall|]. intros x. apply entry_below_mono. exact Hle.
    + intros a [= <-]. lia.
Qed.

Lemma fa_push_wf m m' s pid r :
  section_wf m s ->
  CacheSection.set_based (CacheSection.structure s) = false ->
  next_addr m' = N.succ (next_addr m) ->
  section_wf m'
    (CacheSection.with_pages
       (CacheSection.mkEntry (Some (next_addr m)) pid true r :: CacheSection.pages s)
       (<[pid := next_addr m]> (CacheSection.page_map s)) s).
Proof.
  intros Hwf Hsb Hn. apply with_pages_wf.
  - eapply section_wf_mono; [|exact Hwf]. lia.
  - exact Hsb.
  - constructor.
    + intros a [= <-]. lia.
    + eapply Forall_impl; [apply (wf_pages_below _ _ Hwf)|].
      intros x. apply entry_below_mono. lia.
  - constructor; [reflexivity|apply (wf_pages_valid _ _ Hwf)].
  - intros pid' a'. rewrite lookup_insert. case_decide as Hd.
    + intros [= <-]. eexists. split; [apply list_elem_of_here|]. auto.
    + intros H'. destruct (wf_page_map _ _ Hwf _ _ H') as (e' & He' & Hp').
      exists e'. split; [apply list_elem_of_further, He'|exact Hp'].
Qed.

Lemma fa_replace_wf m m' s pid r victim :
  section_wf m s ->
  CacheSection.set_based (CacheSection.structure s) = false ->
  last (CacheSection.pages s) = Some victim ->
  next_addr m' = N.succ (next_addr m) ->
  section_wf m'
    (CacheSection.with_pages
       (CacheSection.splice_front (pred (length (CacheSection.pages s)))
          (<[pred (length (CacheSection.pages s))
             := CacheSection.mkEntry (Some (next_addr m)) pid true r]>
             (CacheSection.pages s)))
       (<[pid := next_addr m]>
          (delete (CacheSection.id victim) (CacheSection.page_map s))) s).
Proof.
  intros Hwf Hsb Hlast Hn.
  set (i := pred (length (CacheSection.pages s))).
  assert (Hi : CacheSection.pages s !! i = Some victim).
  { rewrite <- Hlast. subst i. symmetry. apply last_lookup. }
  unfold CacheSection.splice_front.
  rewrite list_lookup_insert_eq by (eapply lookup_lt_Some; eauto).
  apply with_pages_wf.
  - eapply section_wf_mono; [|exact Hwf]. lia.
  - exact Hsb.
  - constructor.
    + intros a [= <-]. lia.
    + apply Forall_delete, Forall_insert.
      * eapply Forall_impl; [apply (wf_pages_below _ _ Hwf)|].
        intros x. apply entry_below_mono. lia.
      * intros a [= <-]. lia.
  - constructor; [reflexivity|].
    apply Forall_delete, Forall_insert; [apply (wf_pages_valid _ _ Hwf)|reflexivity].
  - intros pid' a'. rewrite lookup_insert. case_decide as Hd.
    + intros [= <-]. eexists. split; [apply list_elem_of_here|]. auto.
    + rewrite lookup_delete. case_decide as Hd'; [discriminate|].
      intros H'. destruct (wf_page_map _ _ Hwf _ _ H') as (e' & He' & Hp' & Hid').
      exists e'. split; [|auto]. apply list_elem_of_further.
      apply list_elem_of_lookup in He' as [j Hj].
      destruct (decide (j = i)) as [->|Hne].
      * rewrite Hi in Hj. injection Hj as ->. congruence.
      * apply list_elem_of_lookup.
        destruct (decide (j < i)%nat).
        -- exists j. rewrite list_lookup_delete_lt by assumption.
           rewrite list_lookup_insert_ne by lia. exact Hj.
        -- exfalso. apply lookup_lt_Some in Hj. subst i. lia.
Qed.

Lemma next_addr_clean_if (b : bool) o m :
  next_addr (if b then owned_clean o m else m) = next_addr m.
Proof. destruct b; [apply next_addr_owned_clean|reflexivity]. Qed.

Lemma prefetch_page_wf m s pid m' s' :
  section_wf m s ->
  CacheSection.prefetch_page m s pid = Some (m', s') ->
  section_wf m' s' /\ (next_addr m <= next_addr m')%N.
Proof.
  intros Hwf. unfold CacheSection.prefetch_page.
  destruct (CacheSection.set_based (CacheSection.structure s)) eqn:Hsb.
  - destruct (CacheSection.sets s !! _) as [set|] eqn:Hset; [|discriminate]. simpl.
    destruct (find_first _ set) as [[j0 e0]|];
      [intros [= <- <-]; split; [exact Hwf|lia]|].
    destruct (find_first (fun e => negb (CacheSection.valid e)) set)
      as [[j e]|] eqn:Hfree.
    + apply find_first_Some in Hfree as [Hj _].
      unfold CacheSection.create_page, alloc. simpl. intros [= <- <-].
      split; [|rewrite next_addr_free; simpl; lia].
      eapply set_replace_wf; eauto; [eapply lookup_lt_Some, Hj|].
      rewrite next_addr_free. reflexivity.
    + destruct (find_victim_in_set_total m s _ set Hwf Hset)
        as (m1 & s2 & v & set2 & Hfv & Hheap & Hnext & Hwf2 & Hls2 & Hset2 & Hv).
      rewrite Hfv. simpl. rewrite Hset2. simpl.
      destruct (set2 !! v) as [victim|] eqn:Hvictim; [|discriminate]. simpl.
      destruct (CacheSection.page victim) as [a0|] eqn:Hpv; [|discriminate]. simpl.
      destruct (heap m1 !! a0) as [p0|]; [|discriminate]. simpl.
      set (m2 := if Page.is_dirty p0 then _ else m1).
      assert (Hn2 : next_addr m2 = next_addr m).
      { subst m2. destruct (Page.is_dirty p0); exact Hnext. }
      clearbody m2.
      unfold CacheSection.create_page, alloc. simpl. rewrite Hn2. intros [= <- <-].
      split; [|simpl; lia].
      eapply section_wf_mono with (m := mkMem (heap m1) (N.succ (next_addr m1)) 0).
      { simpl. lia. }
      rewrite <- Hnext.
      eapply (set_replace_wf m1); eauto.
  - (* fully associative *)
    destruct (CacheSection.page_map s !! pid) as [a0|];
      [intros [= <- <-]; split; [exact Hwf|lia]|].
    destruct (Z.of_nat (length (CacheSection.pages s)) <? CacheSection.pages_capacity s).
    + unfold CacheSection.create_page, alloc. simpl. intros [= <- <-].
      split; [|simpl; lia]. apply fa_push_wf; auto.
    + unfold CacheSection.find_victim_in_fully_associative.
      destruct (CacheSection.pages s) as [|e0 ps0] eqn:Hps; [discriminate|].
      rewrite <- Hps.
      destruct (last (CacheSection.pages s)) as [victim|] eqn:Hlast; [|discriminate].
      cbn [mbind option_bind].
      set (m1 := if owned_dirty _ m then _ else m).
      assert (Hn1 : next_addr m1 = next_addr m).
      { subst m1. apply next_addr_clean_if. }
      clearbody m1.
      unfold CacheSection.create_page, alloc. simpl. rewrite Hn1. intros [= <- <-].
      split; [|rewrite next_addr_free; simpl; lia].
      apply fa_replace_wf; auto. rewrite next_addr_free. reflexivity.
Qed.

Lemma section_call_wf m s m' s' :
  section_call m s m' s' -> section_wf m s ->
  section_wf m' s' /\ (next_addr m <= next_addr m')%N.
Proof.
  intros [m0 s0 pid s1 r H|m0 s0 pid m1 s1 r _ _ H|m0 s0 pid m1 s1 H] Hwf.
  - destruct (fetch_page_wf m0 s0 pid s1 r Hwf H) as [Hwf2 _].
    split; [exact Hwf2|lia].
  - destruct (section_new_page_spec m0 s0 pid Hwf) as (m2 & s2 & H2 & Hwf2 & Hn & _).
    rewrite H in H2. injection H2 as <- <- _. split; [exact Hwf2|lia].
  - eapply prefetch_page_wf; eauto.
Qed.

Lemma next_addr_update_page a f m : next_addr (update_page a f m) = next_addr m.
Proof. reflexivity. Qed.

Lemma next_addr_flush_entries es : forall m,
  next_addr (CacheSection.flush_entries es m) = next_addr m.
Proof.
  unfold CacheSection.flush_entries.
  induction es as [|e es IH]; intros m; simpl; [reflexivity|].
  rewrite IH. apply next_addr_clean_if.
Qed.

Lemma next_addr_flush_all_pages m c :
  next_addr (ConfigurableCache.flush_all_pages m c) = next_addr m.
Proof.
  unfold ConfigurableCache.flush_all_pages.
  generalize (map_to_list (ConfigurableCache.sections c)). intros l. revert m.
  induction l as [|kv l IH]; intros m; simpl; [reflexivity|].
  rewrite IH. unfold CacheSection.flush_all_pages.
  destruct (CacheSection.set_based _); apply next_addr_flush_entries.
Qed.

Lemma next_addr_free_section s m :
  next_addr (ConfigurableCache.free_section s m) = next_addr m.
Proof.
  unfold ConfigurableCache.free_section. rewrite !next_addr_free_entries. reflexivity.
Qed.

Lemma router_step_wf st st' :
  router_step st st' ->
  cache_wf (fst st) (snd st) /\ 0 <= ConfigurableCache.available_size (snd st) ->
  cache_wf (fst st') (snd st') /\ 0 <= ConfigurableCache.available_size (snd st').
Proof.
  intros H. destruct H; simpl; intros [Hwf Hav].
  - destruct (section_call_wf _ _ _ _ H0 (wf_sections _ _ Hwf _ _ H)) as [Hs' Hle].
    split; [|exact Hav].
    eapply update_section_wf; eauto.
  - split; [|exact Hav]. eapply cache_wf_mono; [|exact Hwf].
    unfold mem_pin in H. destruct (heap m !! a); [|discriminate].
    injection H as <-. simpl. lia.
  - split; [|exact Hav]. eapply cache_wf_mono; [|exact Hwf].
    unfold mem_unpin in H. destruct (heap m !! a); [|discriminate].
    injection H as <-. simpl. lia.
  - split; [|exact Hav]. eapply cache_wf_mono; [|exact Hwf].
    unfold mem_set_dirty in H. destruct (heap m !! a); [|discriminate].
    injection H as <-. simpl. lia.
  - split; [|exact Hav]. eapply cache_wf_mono; [|exact Hwf].
    rewrite next_addr_flush_all_pages. lia.
  - (* remove_section *)
    unfold ConfigurableCache.remove_section.
    destruct (Z.eqb_spec sid (ConfigurableCache.default_section_id c)) as [|Hne];
      [split; assumption|].
    destruct (ConfigurableCache.sections c !! sid) as [s|] eqn:Hs; [|split; assumption].
    destruct (ConfigurableCache.erase_section_ranges _ _ _) as [rs ids].
    simpl. split; [|apply to_size_t_range].
    destruct Hwf as [Hd Hss]. split; simpl.
    + rewrite lookup_delete_ne by congruence. exact Hd.
    + intros sid0 s0 H0. apply lookup_delete_Some in H0 as [_ H0].
      eapply section_wf_mono; [|eapply Hss, H0].
      rewrite next_addr_free_section. lia.
  - (* resize_section *)
    unfold ConfigurableCache.resize_section in H0.
    destruct (ConfigurableCache.sections c !! sid) as [s|] eqn:Hs;
      [|injection H0 as <- <-; split; assumption].
    set (r := if CacheSection.get_size s <? n then _ else _) in H0.
    assert (Hr : 0 <= fst r /\ 0 <= snd r).
    { subst r. destruct (_ <? n); simpl.
      - split; [|apply to_size_t_range].
        destruct (_ <? _); [apply to_size_t_range|exact H].
      - split; [exact H|apply to_size_t_range]. }
    destruct r as [n' av]. simpl in Hr. destruct Hr as [Hn' Hav'].
    destruct (section_resize_total m s n' (wf_sections _ _ Hwf _ _ Hs) Hn')
      as (m1 & s1 & Hres & Hwf1 & Hna & _).
    rewrite Hres in H0. injection H0 as <- <-. simpl. split; [|exact Hav'].
    pose proof (update_section_wf m m1 c sid s1 Hwf (mk_is_Some _ _ Hs)) as Hu.
    destruct Hu as [Hd Hss]; [lia|exact Hwf1|]. split; assumption.
  - unfold ConfigurableCache.map_page_to_section.
    destruct (ConfigurableCache.sections c !! sid); [|split; assumption].
    split; [|exact Hav]. destruct Hwf as [Hd Hs]. split; assumption.
  - split; [apply map_page_range_to_section_wf, Hwf|].
    unfold ConfigurableCache.map_page_range_to_section.
    destruct (ConfigurableCache.sections c !! sid); [|exact Hav].
    destruct (ConfigurableCache.erase_overlapping _ _ _ _). exact Hav.
  - split; [|exact Hav]. destruct Hwf as [Hd Hs]. split; simpl.
    + rewrite lookup_fmap. destruct Hd as [s ->]. simpl. eauto.
    + intros sid0 s0. rewrite lookup_fmap.
      destruct (ConfigurableCache.sections c !! sid0) as [s1|] eqn:E; [|discriminate].
      intros [= <-]. apply with_stats_wf. eapply Hs, E.
Qed.

Lemma create_step_wf st st' :
  create_step st st' ->
  cache_wf (fst st) (snd st) /\ 0 <= ConfigurableCache.available_size (snd st) ->
  cache_wf (fst st') (snd st') /\ 0 <= ConfigurableCache.available_size (snd st').
Proof.
  intros H. destruct H as [m c sz lsz st assoc m' c' sid Hsz Hassoc H1]. simpl.
  intros [[Hd Hs] Hav]. unfold ConfigurableCache.create_section in H1.
  destruct (CacheSection.new _ _ lsz st assoc) as [s|] eqn:Hnew; [|discriminate].
  simpl in H1. injection H1 as <- <- _. simpl. split; [|apply to_size_t_range].
  assert (Hwf : forall m0, section_wf m0 s).
  { intros m0. eapply new_section_wf; [| |exact Hnew]; [|exact Hassoc].
    destruct (ConfigurableCache.available_size c <? sz); lia. }
  assert (Hna : next_addr (match ConfigurableCache.sections c
                                   !! ConfigurableCache.next_section_id c with
                           | Some old => ConfigurableCache.free_section old m
                           | None => m
                           end) = next_addr m).
  { destruct (ConfigurableCache.sections c !! ConfigurableCache.next_section_id c);
      [apply next_addr_free_section|reflexivity]. }
  split; simpl.
  - rewrite lookup_insert. case_decide; [eauto|exact Hd].
  - intros sid' s'. rewrite lookup_insert. case_decide.
    + intros [= <-]. apply Hwf.
    + intros H'. eapply section_wf_mono; [|eapply Hs, H']. lia.
Qed.

(** X6: no call of the router leaves it in an ill-formed state.  In every
    state reached from the constructor every section has non-zero divisors
    and set vectors of its declared shape and the default section exists;
    [fetch_page(id)], when it returns, returns a page, never the null
    pointer, and leaves the router well formed; [new_page()] does not
    return. *)
Theorem reachable_states_are_well_formed total psz lsz ops m c :
  0 <= total ->
  Forall op_typed ops ->
  cache_run ops (ConfigurableCache.new total psz lsz) = Some (m, c) ->
  cache_wf m c /\
  (forall pid m' c' r,
      ConfigurableCache.fetch_page m c pid = Some (m', c', r) ->
      is_Some r /\ cache_wf m' c') /\
  ConfigurableCache.new_page m c = None.
Proof.
  intros Ht Hty Hrun.
  destruct (ConfigurableCache.new total psz lsz) as [[m0 c0]|] eqn:Hnew;
    [|rewrite cache_run_None in Hrun; discriminate].
  assert (Hwf : cache_wf m c /\ 0 <= ConfigurableCache.available_size c).
  { apply (cache_run_invariant
             (fun st => cache_wf (fst st) (snd st) /\
                        0 <= ConfigurableCache.available_size (snd st))
             ops m0 c0 m c); auto.
    - intros st st'. apply router_step_wf.
    - intros st st'. apply create_step_wf.
    - simpl. split; [eapply new_cache_wf; eauto|].
      unfold ConfigurableCache.new, ConfigurableCache.create_section in Hnew.
      destruct (CacheSection.new _ _ _ _ _); [|discriminate].
      simpl in Hnew. injection Hnew as _ <-. simpl. apply to_size_t_range. }
  destruct Hwf as [Hwf _]. split; [exact Hwf|]. split.
  - intros pid m' c' r Hf.
    destruct (fetch_page_spec m c pid m' c' r Hwf Hf)
      as (sid & s & a & _ & _ & -> & Hwf' & _).
    split; [eauto|exact Hwf'].
  - apply new_page_undefined.
Qed.

Lemma reachable_states_are_well_formed_witness :
  exists m c m' c' a,
    cache_run [CreateSection 8192 4096 CacheSection.DirectMapped 2;
               MapPageRangeToSection 100 199 1; PrefetchPage 100; FetchPage 100;
               PrefetchPages [102; 104; 1; 2; 3; 4]; ResizeSection 1 4096;
               PrefetchPage 100; RemoveSection 1; OptimizeSectionSizes;
               PrefetchPage 100]
              (ConfigurableCache.new 12288 4096 4096) = Some (m, c) /\
    cache_wf m c /\
    ConfigurableCache.fetch_page m c 100 = Some (m', c', Some a) /\
    cache_wf m' c'.
Proof.
  destruct (cache_run _ (ConfigurableCache.new 12288 4096 4096)) as [[m c]|] eqn:H;
    [|vm_compute in H; discriminate].
  destruct (ConfigurableCache.fetch_page m c 100) as [[[m' c'] [a|]]|] eqn:Hf;
    [|vm_compute in H; injection H as <- <-; vm_compute in Hf; discriminate..].
  match type of H with
  | cache_run ?ops _ = _ =>
      destruct (reachable_states_are_well_formed 12288 4096 4096 ops m c)
        as (Hwf & Hfetch & _)
  end.
  - lia.
  - repeat (constructor; simpl; try lia).
  - exact H.
  - exists m, c, m', c', a. split; [reflexivity|]. split; [exact Hwf|].
    split; [exact Hf|]. apply (Hfetch 100 m' c' (Some a) Hf).
Defined.

(** ** Ownership of pages along runs *)

Lemma footprint_of_app l1 l2 :
  footprint_of (l1 ++ l2) = footprint_of l1 ++ footprint_of l2.
Proof. apply omap_app. Qed.

Lemma footprint_of_cons e l :
  footprint_of (e :: l) = footprint_of [e] ++ footprint_of l.
Proof. apply (footprint_of_app [e] l). Qed.

Lemma footprint_of_Permutation l1 l2 :
  l1 ≡ₚ l2 -> footprint_of l1 ≡ₚ footprint_of l2.
Proof. intros H. unfold footprint_of. rewrite H. reflexivity. Qed.

Lemma footprint_of_bit_cleared l l' :
  Forall2 bit_cleared l l' -> footprint_of l' = footprint_of l.
Proof.
  induction 1 as [|e e' l l' (Hp & Hi & _) _ IH]; [reflexivity|].
  unfold footprint_of in *. simpl. rewrite Hp, Hi.
  destruct (CacheSection.page e); simpl; [f_equal|]; exact IH.
Qed.

Lemma insert_Permutation {A} (l : list A) j e e' :
  l !! j = Some e ->
  exists R, l ≡ₚ e :: R /\ <[j := e']> l ≡ₚ e' :: R.
Proof.
  revert j. induction l as [|x l IH]; intros [|j]; simpl; try discriminate.
  - intros [= ->]. exists l. split; reflexivity.
  - intros H. destruct (IH j H) as (R & H1 & H2). exists (x :: R). split.
    + rewrite H1. apply perm_swap.
    + rewrite H2. apply perm_swap.
Qed.

Lemma concat_insert_Permutation {A} (ls : list (list A)) i l l' :
  ls !! i = Some l ->
  exists R, concat ls ≡ₚ l ++ R /\ concat (<[i := l']> ls) ≡ₚ l' ++ R.
Proof.
  revert i. induction ls as [|x ls IH]; intros [|i]; simpl; try discriminate.
  - intros [= ->]. exists (concat ls). split; reflexivity.
  - intros H. destruct (IH i H) as (R & H1 & H2). exists (x ++ R). split.
    + rewrite H1. rewrite !app_assoc. apply Permutation_app_tail, Permutation_app_comm.
    + rewrite H2. rewrite !app_assoc. apply Permutation_app_tail, Permutation_app_comm.
Qed.

Lemma entries_replace_in_set s i set j e e' s' :
  CacheSection.sets s !! i = Some set -> set !! j = Some e ->
  CacheSection.sets s' = <[i := <[j := e']> set]> (CacheSection.sets s) ->
  CacheSection.pages s' = CacheSection.pages s ->
  exists R, entries s ≡ₚ e :: R /\ entries s' ≡ₚ e' :: R.
Proof.
  intros Hi Hj Hs Hp. unfold entries. rewrite Hs, Hp.
  destruct (concat_insert_Permutation (CacheSection.sets s) i set (<[j := e']> set) Hi)
    as (R & H1 & H2).
  destruct (insert_Permutation set j e e' Hj) as (R' & H3 & H4).
  exists (R' ++ R ++ CacheSection.pages s). split.
  - rewrite H1, H3. simpl. rewrite <- !app_assoc. reflexivity.
  - rewrite H2, H4. simpl. rewrite <- !app_assoc. reflexivity.
Qed.

Lemma footprint_sets_bit_cleared s s' i set set' :
  CacheSection.sets s !! i = Some set ->
  CacheSection.sets s' = <[i := set']> (CacheSection.sets s) ->
  CacheSection.pages s' = CacheSection.pages s ->
  Forall2 bit_cleared set set' ->
  footprint s' ≡ₚ footprint s.
Proof.
  intros Hi Hs Hp Hb. unfold footprint, entries. rewrite Hs, Hp.
  destruct (concat_insert_Permutation (CacheSection.sets s) i set set' Hi)
    as (R & H1 & H2).
  rewrite !footprint_of_app.
  rewrite (footprint_of_Permutation _ _ H1), (footprint_of_Permutation _ _ H2).
  rewrite !footprint_of_app, (footprint_of_bit_cleared _ _ Hb). reflexivity.
Qed.

Lemma footprint_of_fresh_sets n a :
  footprint_of (concat (CacheSection.fresh_sets n a)) = [].
Proof.
  unfold CacheSection.fresh_sets.
  assert (Hrow : forall j, footprint_of (replicate j CacheSection.empty_entry) = []).
  { induction j as [|j IHj]; simpl; [reflexivity|exact IHj]. }
  induction (Z.to_nat n) as [|k IH]; simpl; [reflexivity|].
  rewrite footprint_of_app, IH, app_nil_r. apply Hrow.
Qed.

Lemma footprint_with_stats st s :
  footprint (CacheSection.with_stats st s) = footprint s.
Proof. reflexivity. Qed.

Lemma set_replace_footprint s i set j e a pid r :
  CacheSection.sets s !! i = Some set -> set !! j = Some e ->
  exists X,
    footprint s ≡ₚ footprint_of [e] ++ X /\
    footprint
      (CacheSection.with_sets
         (<[i := <[j := CacheSection.mkEntry (Some a) pid true r]> set]>
            (CacheSection.sets s)) s) ≡ₚ (a, pid) :: X.
Proof.
  intros Hi Hj.
  destruct (entries_replace_in_set s i set j e
              (CacheSection.mkEntry (Some a) pid true r)
              (CacheSection.with_sets
                 (<[i := <[j := CacheSection.mkEntry (Some a) pid true r]> set]>
                    (CacheSection.sets s)) s) Hi Hj eq_refl eq_refl)
    as (R & H1 & H2).
  exists (footprint_of R). unfold footprint. split.
  - rewrite (footprint_of_Permutation _ _ H1). apply reflexive_eq, footprint_of_cons.
  - rewrite (footprint_of_Permutation _ _ H2). reflexivity.
Qed.

Lemma fa_replace_footprint s i victim a pid r pm :
  CacheSection.pages s !! i = Some victim ->
  exists X,
    footprint s ≡ₚ footprint_of [victim] ++ X /\
    footprint
      (CacheSection.with_pages
         (CacheSection.splice_front i
            (<[i := CacheSection.mkEntry (Some a) pid true r]> (CacheSection.pages s)))
         pm s) ≡ₚ (a, pid) :: X.
Proof.
  intros Hi.
  destruct (insert_Permutation (CacheSection.pages s) i victim
              (CacheSection.mkEntry (Some a) pid true r) Hi) as (R & H1 & H2).
  exists (footprint_of (concat (CacheSection.sets s)) ++ footprint_of R).
  unfold footprint, entries. simpl. rewrite !footprint_of_app. split.
  - rewrite (footprint_of_Permutation _ _ H1).
    rewrite footprint_of_cons.
    rewrite !app_assoc. apply Permutation_app_tail, Permutation_app_comm.
  - rewrite (footprint_of_Permutation _ _ (splice_front_perm _ _)).
    rewrite (footprint_of_Permutation _ _ H2).
    change (footprint_of (CacheSection.mkEntry (Some a) pid true r :: R))
      with ((a, pid) :: footprint_of R).
    symmetry. apply Permutation_middle.
Qed.

Lemma fa_push_footprint s a pid r pm :
  footprint
    (CacheSection.with_pages
       (CacheSection.mkEntry (Some a) pid true r :: CacheSection.pages s) pm s)
  ≡ₚ (a, pid) :: footprint s.
Proof.
  unfold footprint, entries. simpl. rewrite !footprint_of_app.
  change (footprint_of (CacheSection.mkEntry (Some a) pid true r :: CacheSection.pages s))
    with ((a, pid) :: footprint_of (CacheSection.pages s)).
  symmetry. apply Permutation_middle.
Qed.

Lemma heap_replace m m2 o P :
  (forall a, o = Some a -> (a < next_addr m)%N) ->
  next_addr m2 = next_addr m ->
  heap m2 = heap m \/ heap m2 = heap (owned_clean o m) ->
  heap (free o (snd (alloc P m2))) = <[next_addr m := P]> (heap (free o m)).
Proof.
  intros Hb Hn Hh. unfold alloc. simpl. rewrite Hn.
  destruct o as [a|]; simpl.
  - assert (a <> next_addr m) by (specialize (Hb a eq_refl); lia).
    rewrite delete_insert_ne by congruence. f_equal.
    destruct Hh as [->| ->]; [reflexivity|]. simpl. rewrite delete_alter.
    rewrite decide_True by reflexivity. reflexivity.
  - destruct Hh as [->| ->]; reflexivity.
Qed.

Lemma entry_in_set_below m s i set j e :
  section_wf m s ->
  CacheSection.sets s !! i = Some set -> set !! j = Some e -> entry_below m e.
Proof.
  intros Hwf Hi Hj.
  pose proof (Forall_lookup_1 _ _ _ _ (wf_sets_below _ _ Hwf) Hi) as Hset.
  exact (Forall_lookup_1 _ _ _ _ Hset Hj).
Qed.

Lemma find_victim_in_set_pages m s i m' s' v :
  CacheSection.find_victim_in_set m s i = Some (m', s', v) ->
  CacheSection.pages s' = CacheSection.pages s.
Proof.
  unfold CacheSection.find_victim_in_set.
  destruct (CacheSection.associativity s =? 0); [discriminate|].
  destruct (CacheSection.sets s !! i) as [set|]; [|discriminate]. simpl.
  destruct (CacheSection.clock_sweep _ _ _ _ set) as [[[set' pos] hand]|];
    [|discriminate].
  simpl. intros [= _ <- _]. reflexivity.
Qed.

Lemma fetch_page_footprint s pid s' r :
  CacheSection.fetch_page s pid = Some (s', r) ->
  footprint s' ≡ₚ footprint s.
Proof.
  unfold CacheSection.fetch_page. rewrite fetch_miss_undefined.
  destruct (CacheSection.set_based (CacheSection.structure s)).
  - destruct (CacheSection.sets s) as [|x l] eqn:E; [intros [= <- _]; reflexivity|].
    rewrite <- E.
    destruct (CacheSection.sets s !! _) as [set|] eqn:Hset; [|discriminate]. simpl.
    destruct (find_first _ set) as [[j e]|] eqn:Hf; [|discriminate].
    apply find_first_Some in Hf as [Hj _]. intros [= <- _].
    rewrite footprint_with_stats.
    destruct (entries_replace_in_set s _ set j e (CacheSection.set_referenced true e)
                (CacheSection.with_sets
                   (<[Z.to_nat (CacheSection.get_set_index s pid)
                      := <[j := CacheSection.set_referenced true e]> set]>
                      (CacheSection.sets s)) s) Hset Hj eq_refl eq_refl)
      as (R & H1 & H2).
    unfold footprint.
    rewrite (footprint_of_Permutation _ _ H1), (footprint_of_Permutation _ _ H2).
    rewrite !(footprint_of_cons _ R). reflexivity.
  - destruct (CacheSection.page_map s !! pid) as [a|]; [|discriminate].
    destruct (CacheSection.node_at a _) as [[i e]|]; [|discriminate].
    destruct (_ && _); [|discriminate]. intros [= <- _].
    rewrite footprint_with_stats. unfold footprint, entries. simpl.
    rewrite !footprint_of_app.
    rewrite (footprint_of_Permutation _ _ (splice_front_perm _ _)). reflexivity.
Qed.

Lemma allocate_page_footprint m s pid m' s' r :
  section_wf m s ->
  CacheSection.allocate_page m s pid = Some (m', s', r) ->
  exists e X,
    footprint s ≡ₚ footprint_of [e] ++ X /\
    footprint s' ≡ₚ (next_addr m, pid) :: X /\
    heap m' = <[next_addr m := Page.new pid (CacheSection.line_size s)]>
                (heap (free (CacheSection.page e) m)).
Proof.
  intros Hwf. unfold CacheSection.allocate_page.
  destruct (CacheSection.set_based (CacheSection.structure s)) eqn:Hsb.
  - set (s1 := match CacheSection.sets s with
               | [] => CacheSection.with_sets _ s
               | _ => s
               end).
    assert (Hwf1 : section_wf m s1).
    { subst s1. destruct (CacheSection.sets s); [apply init_sets_wf|]; assumption. }
    assert (Hfp1 : footprint s1 = footprint s).
    { subst s1. destruct (CacheSection.sets s) eqn:E; [|reflexivity].
      unfold footprint, entries. simpl. rewrite E. simpl.
      rewrite footprint_of_app, footprint_of_fresh_sets. reflexivity. }
    assert (Hls1 : CacheSection.line_size s1 = CacheSection.line_size s).
    { subst s1. destruct (CacheSection.sets s); reflexivity. }
    clearbody s1. rewrite <- Hfp1, <- Hls1.
    destruct (CacheSection.sets s1 !! _) as [set|] eqn:Hset; [|discriminate]. simpl.
    destruct (find_first _ set) as [[j e]|] eqn:Hfree.
    + apply find_first_Some in Hfree as [Hj _].
      intros [= <- <- _].
      destruct (set_replace_footprint s1 _ set j e (next_addr m) pid true Hset Hj)
        as (X & H1 & H2).
      exists e, X. split; [exact H1|]. split; [exact H2|].
      apply (heap_replace m m); auto.
      intros a Ha. eapply entry_in_set_below; eauto.
    + destruct (find_victim_in_set_total m s1 _ set Hwf1 Hset)
        as (m1 & s2 & v & set2 & Hfv & Hheap & Hnext & Hwf2 & Hls2 & Hset2 & Hv).
      rewrite Hfv. simpl. rewrite Hset2. simpl.
      destruct (set2 !! v) as [victim|] eqn:Hvictim; [|discriminate]. simpl.
      destruct (find_victim_in_set_bits _ _ _ _ _ _ Hfv)
        as (set0 & set2' & Hset0 & Hsets2 & Hbits & Hcfg & _).
      rewrite Hset in Hset0. injection Hset0 as <-.
      assert (Hfp2 : footprint s2 ≡ₚ footprint s1).
      { eapply footprint_sets_bit_cleared; eauto.
        eapply find_victim_in_set_pages, Hfv. }
      unfold CacheSection.create_page. rewrite Hls2.
      set (m2 := if _ && _ then _ else m1).
      assert (Hn2 : next_addr m2 = next_addr m).
      { subst m2. rewrite next_addr_clean_if. exact Hnext. }
      assert (Hh2 : heap m2 = heap m \/
                    heap m2 = heap (owned_clean (CacheSection.page victim) m)).
      { subst m2. destruct (_ && _); [right|left; exact Hheap].
        destruct (CacheSection.page victim); simpl; rewrite Hheap; reflexivity. }
      clearbody m2. unfold alloc. simpl. intros [= <- <- _].
      destruct (set_replace_footprint s2 _ set2 v victim (next_addr m2) pid true
                  Hset2 Hvictim) as (X & H1 & H2).
      exists victim, X. rewrite <- Hfp2.
      split; [exact H1|]. split; [rewrite H2, Hn2; reflexivity|].
      apply (heap_replace m m2); auto.
      intros a Ha. rewrite <- Hnext. eapply (entry_in_set_below m1 s2); eauto.
  - (* fully associative *)
    assert (Hpush : forall m1 s1 r1,
      (let '(a, m1) := CacheSection.create_page m s pid in
       Some (m1,
             CacheSection.with_pages
               (CacheSection.mkEntry (Some a) pid true false :: CacheSection.pages s)
               (<[pid := a]> (CacheSection.page_map s)) s,
             Some a)) = Some (m1, s1, r1) ->
      exists e X,
        footprint s ≡ₚ footprint_of [e] ++ X /\
        footprint s1 ≡ₚ (next_addr m, pid) :: X /\
        heap m1 = <[next_addr m := Page.new pid (CacheSection.line_size s)]>
                    (heap (free (CacheSection.page e) m))).
    { intros m1 s1 r1. unfold CacheSection.create_page, alloc. intros [= <- <- _].
      exists CacheSection.empty_entry, (footprint s).
      split; [reflexivity|]. split; [apply fa_push_footprint|reflexivity]. }
    destruct (Z.of_nat (length (CacheSection.pages s)) <? CacheSection.pages_capacity s);
      [apply Hpush|].
    destruct (CacheSection.pages s) as [|e0 ps0] eqn:Hps; [apply Hpush|].
    rewrite <- Hps. clear Hpush.
    assert (Hfv : CacheSection.find_victim_in_fully_associative s
                  = (e ← last (CacheSection.pages s);
                     Some (pred (length (CacheSection.pages s)), e))).
    { unfold CacheSection.find_victim_in_fully_associative. rewrite Hps. reflexivity. }
    rewrite Hfv.
    destruct (last (CacheSection.pages s)) as [victim|] eqn:Hlast; [|discriminate].
    cbn [mbind option_bind].
    set (m1 := if _ && _ then _ else m).
    assert (Hn1 : next_addr m1 = next_addr m).
    { subst m1. apply next_addr_clean_if. }
    assert (Hh1 : heap m1 = heap m \/
                  heap m1 = heap (owned_clean (CacheSection.page victim) m)).
    { subst m1. destruct (_ && _); [right|left]; reflexivity. }
    clearbody m1. unfold CacheSection.create_page, alloc. simpl. intros [= <- <- _].
    assert (Hi : CacheSection.pages s !! pred (length (CacheSection.pages s))
                 = Some victim).
    { rewrite <- last_lookup. exact Hlast. }
    destruct (fa_replace_footprint s _ victim (next_addr m1) pid
                (CacheSection.referenced victim)
                (<[pid := next_addr m1]>
                   (if CacheSection.valid victim
                    then delete (CacheSection.id victim) (CacheSection.page_map s)
                    else CacheSection.page_map s)) Hi) as (X & H1 & H2).
    exists victim, X. split; [exact H1|]. split; [rewrite H2, Hn1; reflexivity|].
    apply (heap_replace m m1); auto.
    intros a Ha. 
    apply list_elem_of_lookup_2 in Hi.
    pose proof (wf_pages_below _ _ Hwf) as Hb.
    rewrite Forall_forall in Hb. apply (Hb _ Hi a Ha).
Qed.

Lemma prefetch_page_footprint m s pid m' s' :
  section_wf m s ->
  CacheSection.prefetch_page m s pid = Some (m', s') ->
  (footprint s' ≡ₚ footprint s /\ heap m' = heap m) \/
  exists e X,
    footprint s ≡ₚ footprint_of [e] ++ X /\
    footprint s' ≡ₚ (next_addr m, pid) :: X /\
    heap m' = <[next_addr m := Page.new pid (CacheSection.line_size s)]>
                (heap (free (CacheSection.page e) m)).
Proof.
  intros Hwf. unfold CacheSection.prefetch_page.
  destruct (CacheSection.set_based (CacheSection.structure s)) eqn:Hsb.
  - destruct (CacheSection.sets s !! _) as [set|] eqn:Hset; [|discriminate]. simpl.
    destruct (find_first _ set) as [[j0 e0]|];
      [intros [= <- <-]; left; split; reflexivity|].
    right.
    destruct (find_first (fun e => negb (CacheSection.valid e)) set)
      as [[j e]|] eqn:Hfree.
    + apply find_first_Some in Hfree as [Hj _].
      revert H. unfold CacheSection.create_page, alloc. simpl. intros [= <- <-].
      destruct (set_replace_footprint s _ set j e (next_addr m) pid
                  (CacheSection.referenced e) Hset Hj) as (X & H1 & H2).
      exists e, X. split; [exact H1|]. split; [exact H2|].
      apply (heap_replace m m); auto.
      intros a Ha. eapply entry_in_set_below; eauto.
    + revert H.
      destruct (find_victim_in_set_total m s _ set Hwf Hset)
        as (m1 & s2 & v & set2 & Hfv & Hheap & Hnext & Hwf2 & Hls2 & Hset2 & Hv).
      rewrite Hfv. simpl. rewrite Hset2. simpl.
      destruct (set2 !! v) as [victim|] eqn:Hvictim; [|discriminate]. simpl.
      destruct (CacheSection.page victim) as [a0|] eqn:Hpv; [|discriminate]. simpl.
      destruct (heap m1 !! a0) as [p0|]; [|discriminate]. simpl.
      destruct (find_victim_in_set_bits _ _ _ _ _ _ Hfv)
        as (set0 & set2' & Hset0 & Hsets2 & Hbits & Hcfg & _).
      rewrite Hset in Hset0. injection Hset0 as <-.
      assert (Hfp2 : footprint s2 ≡ₚ footprint s).
      { eapply footprint_sets_bit_cleared; eauto.
        eapply find_victim_in_set_pages, Hfv. }
      unfold CacheSection.create_page. rewrite Hls2.
      set (m2 := if Page.is_dirty p0 then _ else m1).
      assert (Hn2 : next_addr m2 = next_addr m).
      { subst m2. destruct (Page.is_dirty p0); exact Hnext. }
      assert (Hh2 : heap m2 = heap m \/
                    heap m2 = heap (owned_clean (CacheSection.page victim) m)).
      { subst m2. rewrite Hpv. destruct (Page.is_dirty p0); [right|left; exact Hheap].
        simpl. rewrite Hheap. reflexivity. }
      clearbody m2. unfold alloc. simpl. intros [= <- <-].
      destruct (set_replace_footprint s2 _ set2 v victim (next_addr m2) pid false
                  Hset2 Hvictim) as (X & H1 & H2).
      exists victim, X. rewrite <- Hfp2.
      split; [exact H1|]. split; [rewrite H2, Hn2; reflexivity|].
      rewrite Hpv in Hh2 |- *.
      apply (heap_replace m m2 (Some a0) (Page.new pid (CacheSection.line_size s)));
        auto.
      intros a [= <-]. rewrite <- Hnext. eapply (entry_in_set_below m1 s2); eauto.
  - destruct (CacheSection.page_map s !! pid) as [a0|];
      [intros [= <- <-]; left; split; reflexivity|].
    right. revert H.
    destruct (Z.of_nat (length (CacheSection.pages s)) <? CacheSection.pages_capacity s).
    + unfold CacheSection.create_page, alloc. simpl. intros [= <- <-].
      exists CacheSection.empty_entry, (footprint s).
      split; [reflexivity|]. split; [apply fa_push_footprint|reflexivity].
    + unfold CacheSection.find_victim_in_fully_associative.
      destruct (CacheSection.pages s) as [|e0 ps0] eqn:Hps; [discriminate|].
      rewrite <- Hps.
      destruct (last (CacheSection.pages s)) as [victim|] eqn:Hlast; [|discriminate].
      cbn [mbind option_bind].
      set (m1 := if owned_dirty _ m then _ else m).
      assert (Hn1 : next_addr m1 = next_addr m).
      { subst m1. apply next_addr_clean_if. }
      assert (Hh1 : heap m1 = heap m \/
                    heap m1 = heap (owned_clean (CacheSection.page victim) m)).
      { subst m1. destruct (owned_dirty _ m); [right|left]; reflexivity. }
      clearbody m1. unfold CacheSection.create_page, alloc. simpl. intros [= <- <-].
      assert (Hi : CacheSection.pages s !! pred (length (CacheSection.pages s))
                   = Some victim).
      { rewrite <- last_lookup. exact Hlast. }
      destruct (fa_replace_footprint s _ victim (next_addr m1) pid
                  (CacheSection.referenced victim)
                  (<[pid := next_addr m1]>
                     (delete (CacheSection.id victim) (CacheSection.page_map s))) Hi)
        as (X & H1 & H2).
      exists victim, X. split; [exact H1|]. split; [rewrite H2, Hn1; reflexivity|].
      apply (heap_replace m m1); auto.
      intros a Ha.
      apply list_elem_of_lookup_2 in Hi.
      pose proof (wf_pages_below _ _ Hwf) as Hb.
      rewrite Forall_forall in Hb. apply (Hb _ Hi a Ha).
Qed.

Lemma elem_of_footprint_of a pid es :
  (a, pid) ∈ footprint_of es <->
  exists e, e ∈ es /\ CacheSection.page e = Some a /\ CacheSection.id e = pid.
Proof.
  unfold footprint_of. rewrite list_elem_of_omap. split.
  - intros (e & He & H). exists e. split; [exact He|].
    destruct (CacheSection.page e); simpl in H; [|discriminate].
    injection H as <- <-. auto.
  - intros (e & He & Hp & Hi). exists e. split; [exact He|].
    rewrite Hp. simpl. rewrite Hi. reflexivity.
Qed.

Lemma elem_of_entries e s :
  e ∈ entries s <->
  (exists set, set ∈ CacheSection.sets s /\ e ∈ set) \/ e ∈ CacheSection.pages s.
Proof.
  unfold entries. rewrite elem_of_app. split; intros [H|H]; auto; left.
  - apply list_elem_of_In, in_concat in H as (set & H1 & H2).
    exists set. split; apply list_elem_of_In; assumption.
  - destruct H as (set & H1 & H2). apply list_elem_of_In, in_concat.
    exists set. split; apply list_elem_of_In; assumption.
Qed.

Lemma footprint_below m s a :
  section_wf m s -> a ∈ (footprint s).*1 -> (a < next_addr m)%N.
Proof.
  intros Hwf Ha. apply list_elem_of_fmap in Ha as ([a' pid] & -> & Ha). simpl.
  apply elem_of_footprint_of in Ha as (e & He & Hp & _).
  apply elem_of_entries in He as [(set & Hs & He)|He].
  - pose proof (wf_sets_below _ _ Hwf) as Hb. rewrite Forall_forall in Hb.
    specialize (Hb _ Hs). rewrite Forall_forall in Hb. exact (Hb _ He _ Hp).
  - pose proof (wf_pages_below _ _ Hwf) as Hb. rewrite Forall_forall in Hb.
    exact (Hb _ He _ Hp).
Qed.

(** The footprint of a section that may not exist. *)
Lemma heap_owned_update m c m' ss' sid s' F G K :
  cache_wf m c -> heap_owned m c ->
  ss' !! sid = s' ->
  (forall sid0, sid0 <> sid -> ss' !! sid0 = ConfigurableCache.sections c !! sid0) ->
  from_option footprint [] (ConfigurableCache.sections c !! sid) ≡ₚ F ++ K ->
  from_option footprint [] s' ≡ₚ G ++ K ->
  NoDup G.*1 ->
  (forall a pid, (a, pid) ∈ G ->
     (next_addr m <= a)%N /\ exists p, heap m' !! a = Some p /\ Page.get_id p = pid) ->
  (forall a, a ∉ G.*1 ->
     Page.get_id <$> heap m' !! a
     = if decide (a ∈ F.*1) then None else Page.get_id <$> heap m !! a) ->
  forall c', ConfigurableCache.sections c' = ss' -> heap_owned m' c'.
Proof.
  intros Hwf Ho Hs' Hother Hold Hnew HG HGheap Hheap c' Hc'.
  set (old := from_option footprint [] (ConfigurableCache.sections c !! sid)) in *.
  assert (Hold_nodup : NoDup old.*1).
  { subst old. destruct (ConfigurableCache.sections c !! sid) as [s|] eqn:E; simpl.
    - eapply ho_unique; eauto.
    - constructor. }
  assert (Hold_below : forall a, a ∈ old.*1 -> (a < next_addr m)%N).
  { subst old. destruct (ConfigurableCache.sections c !! sid) as [s|] eqn:E; simpl.
    - intros a. apply footprint_below. eapply wf_sections; eauto.
    - intros a Ha. inversion Ha. }
  assert (Hother_below : forall sid0 s0 a,
            ConfigurableCache.sections c !! sid0 = Some s0 ->
            a ∈ (footprint s0).*1 -> (a < next_addr m)%N).
  { intros sid0 s0 a H0. apply footprint_below. eapply wf_sections; eauto. }
  assert (Hold_other : forall sid0 s0 a, sid0 <> sid ->
            ConfigurableCache.sections c !! sid0 = Some s0 ->
            a ∈ (footprint s0).*1 -> a ∉ old.*1).
  { intros sid0 s0 a Hne H0 Ha. subst old.
    destruct (ConfigurableCache.sections c !! sid) as [s|] eqn:E; simpl.
    - eapply ho_disjoint; eauto.
    - intros Hin. inversion Hin. }
  assert (HFK : NoDup (F ++ K).*1) by (rewrite <- Hold; exact Hold_nodup).
  rewrite fmap_app in HFK. apply NoDup_app in HFK as (HF & HFK & HK).
  assert (HK_old : forall a, a ∈ K.*1 -> a ∈ old.*1).
  { intros a Ha. rewrite Hold, fmap_app, elem_of_app. auto. }
  assert (HF_old : forall a, a ∈ F.*1 -> a ∈ old.*1).
  { intros a Ha. rewrite Hold, fmap_app, elem_of_app. auto. }
  assert (HG_fresh : forall a, a ∈ G.*1 -> (next_addr m <= a)%N).
  { intros a Ha. apply list_elem_of_fmap in Ha as ([a' pid] & -> & Ha).
    apply HGheap in Ha as [Ha _]. exact Ha. }
  assert (Hnew_elem : forall a, a ∈ (from_option footprint [] s').*1 <->
                                a ∈ G.*1 \/ a ∈ K.*1).
  { intros a. rewrite Hnew, fmap_app, elem_of_app. reflexivity. }
  split.
  - (* one owner within a section *)
    intros sid0 s0. rewrite Hc'. destruct (decide (sid0 = sid)) as [->|Hne].
    + rewrite Hs'. intros ->. simpl in Hnew. rewrite Hnew, fmap_app.
      apply NoDup_app. split; [exact HG|]. split; [|exact HK].
      intros a Ha Hk. apply HG_fresh in Ha. apply HK_old, Hold_below in Hk. lia.
    + rewrite Hother by exact Hne. eapply ho_unique; eauto.
  - (* one owning section *)
    intros sid1 sid2 s1 s2 a Hne. rewrite Hc'.
    destruct (decide (sid1 = sid)) as [->|Hne1];
      [|destruct (decide (sid2 = sid)) as [->|Hne2]].
    + rewrite Hs', Hother by congruence. intros -> H2 Ha Ha2.
      apply (Hnew_elem a) in Ha as [Ha|Ha].
      * apply HG_fresh in Ha. apply (Hother_below _ _ _ H2) in Ha2. lia.
      * apply HK_old in Ha. eapply Hold_other; eauto.
    + rewrite Hs', Hother by congruence. intros H1 -> Ha Ha2.
      apply (Hnew_elem a) in Ha2 as [Ha2|Ha2].
      * apply HG_fresh in Ha2. apply (Hother_below _ _ _ H1) in Ha. lia.
      * apply HK_old in Ha2. eapply Hold_other; eauto.
    + rewrite !Hother by congruence. eapply ho_disjoint; eauto.
  - (* no dangling pointer *)
    intros sid0 s0 a pid. rewrite Hc'. destruct (decide (sid0 = sid)) as [->|Hne].
    + rewrite Hs'. intros ->. simpl in Hnew. rewrite Hnew, elem_of_app.
      intros [Ha|Ha]; [apply HGheap in Ha as [_ Ha]; exact Ha|].
      assert (Hak : a ∈ K.*1).
      { apply list_elem_of_fmap. exists (a, pid). auto. }
      assert (HaG : a ∉ G.*1).
      { intros Hg. apply HG_fresh in Hg. apply HK_old, Hold_below in Hak. lia. }
      assert (Hao : (a, pid) ∈ old).
      { rewrite Hold, elem_of_app. auto. }
      specialize (Hheap a HaG). rewrite decide_False in Hheap by (intros Hf; exact (HFK _ Hf Hak)).
      subst old. destruct (ConfigurableCache.sections c !! sid) as [s|] eqn:E;
        simpl in Hao; [|inversion Hao].
      destruct (ho_live _ _ Ho _ _ _ _ E Hao) as (p & Hp & Hid).
      rewrite Hp in Hheap. simpl in Hheap.
      destruct (heap m' !! a) as [p'|]; [|discriminate].
      injection Hheap as Hheap. exists p'. split; [reflexivity|congruence].
    + rewrite Hother by exact Hne. intros H0 Ha.
      assert (Hak : a ∈ (footprint s0).*1).
      { apply list_elem_of_fmap. exists (a, pid). auto. }
      assert (HaG : a ∉ G.*1).
      { intros Hg. apply HG_fresh in Hg. apply (Hother_below _ _ _ H0) in Hak. lia. }
      specialize (Hheap a HaG).
      rewrite decide_False in Hheap
        by (intros Hf; apply HF_old in Hf; eapply Hold_other; eauto).
      destruct (ho_live _ _ Ho _ _ _ _ H0 Ha) as (p & Hp & Hid).
      rewrite Hp in Hheap. simpl in Hheap.
      destruct (heap m' !! a) as [p'|]; [|discriminate].
      injection Hheap as Hheap. exists p'. split; [reflexivity|congruence].
  - (* no leak *)
    intros a Ha. rewrite Hc'.
    destruct (decide (a ∈ G.*1)) as [Hg|Hg].
    + destruct s' as [s0|]; simpl in Hnew.
      * exists sid, s0. split; [exact Hs'|]. rewrite Hnew, fmap_app, elem_of_app. auto.
      * symmetry in Hnew. apply Permutation_nil_r, app_eq_nil in Hnew as [-> _].
        inversion Hg.
    + specialize (Hheap a Hg). destruct (decide (a ∈ F.*1)) as [Hf|Hf].
      { destruct Ha as [p Hp]. rewrite Hp in Hheap. discriminate. }
      assert (Hm : is_Some (heap m !! a)).
      { destruct Ha as [p Hp]. rewrite Hp in Hheap. simpl in Hheap.
        destruct (heap m !! a); [eauto|discriminate]. }
      destruct (ho_no_leak _ _ Ho a Hm) as (sid0 & s0 & H0 & Ha0).
      destruct (decide (sid0 = sid)) as [->|Hne].
      * assert (Hao : a ∈ old.*1) by (subst old; rewrite H0; exact Ha0).
        rewrite Hold, fmap_app, elem_of_app in Hao. destruct Hao as [Hao|Hao];
          [contradiction|].
        destruct s' as [s1|]; simpl in Hnew.
        -- exists sid, s1. split; [exact Hs'|].
           rewrite Hnew, fmap_app, elem_of_app. auto.
        -- symmetry in Hnew. apply Permutation_nil_r, app_eq_nil in Hnew as [_ ->].
           inversion Hao.
      * exists sid0, s0. rewrite Hother by exact Hne. auto.
Qed.

Lemma heap_owned_ext m c m' c' :
  (forall sid, footprint <$> ConfigurableCache.sections c' !! sid
               = footprint <$> ConfigurableCache.sections c !! sid) ->
  (forall a, Page.get_id <$> heap m' !! a = Page.get_id <$> heap m !! a) ->
  heap_owned m c -> heap_owned m' c'.
Proof.
  intros Hs Hh Ho.
  assert (Hsec : forall sid s', ConfigurableCache.sections c' !! sid = Some s' ->
            exists s, ConfigurableCache.sections c !! sid = Some s /\
                      footprint s = footprint s').
  { intros sid s' H. specialize (Hs sid). rewrite H in Hs. simpl in Hs.
    destruct (ConfigurableCache.sections c !! sid) as [s|]; [|discriminate].
    injection Hs as Hs. eauto. }
  split.
  - intros sid s' H. destruct (Hsec _ _ H) as (s & H0 & <-). eapply ho_unique; eauto.
  - intros sid1 sid2 s1 s2 a Hne H1 H2.
    destruct (Hsec _ _ H1) as (s1' & H1' & <-).
    destruct (Hsec _ _ H2) as (s2' & H2' & <-). eapply ho_disjoint; eauto.
  - intros sid s' a pid H Ha. destruct (Hsec _ _ H) as (s & H0 & Hf).
    rewrite <- Hf in Ha. destruct (ho_live _ _ Ho _ _ _ _ H0 Ha) as (p & Hp & Hid).
    specialize (Hh a). rewrite Hp in Hh. simpl in Hh.
    destruct (heap m' !! a) as [p'|]; [|discriminate].
    injection Hh as Hh. exists p'. split; [reflexivity|congruence].
  - intros a Ha. specialize (Hh a).
    assert (Hm : is_Some (heap m !! a)).
    { destruct Ha as [p Hp]. rewrite Hp in Hh. simpl in Hh.
      destruct (heap m !! a); [eauto|discriminate]. }
    destruct (ho_no_leak _ _ Ho a Hm) as (sid & s & H0 & Ha0).
    specialize (Hs sid). rewrite H0 in Hs. simpl in Hs.
    destruct (ConfigurableCache.sections c' !! sid) as [s'|] eqn:E; [|discriminate].
    injection Hs as Hs. exists sid, s'. rewrite Hs. auto.
Qed.

Lemma heap_update_page_id a f m b :
  (forall p, Page.get_id (f p) = Page.get_id p) ->
  Page.get_id <$> heap (update_page a f m) !! b = Page.get_id <$> heap m !! b.
Proof.
  intros Hf. unfold update_page. simpl.
  destruct (decide (a = b)) as [->|Hne].
  - rewrite lookup_alter_eq. destruct (heap m !! b); simpl; [rewrite Hf|]; reflexivity.
  - rewrite lookup_alter_ne by exact Hne. reflexivity.
Qed.

Lemma heap_clean_if_id (b : bool) o m a :
  Page.get_id <$> heap (if b then owned_clean o m else m) !! a
  = Page.get_id <$> heap m !! a.
Proof.
  destruct b; [|reflexivity]. destruct o; [|reflexivity].
  apply heap_update_page_id. reflexivity.
Qed.

Lemma heap_flush_entries_id es a : forall m,
  Page.get_id <$> heap (CacheSection.flush_entries es m) !! a
  = Page.get_id <$> heap m !! a.
Proof.
  unfold CacheSection.flush_entries.
  induction es as [|e es IH]; intros m; simpl; [reflexivity|].
  rewrite IH. apply heap_clean_if_id.
Qed.

Lemma heap_flush_all_pages_id m c a :
  Page.get_id <$> heap (ConfigurableCache.flush_all_pages m c) !! a
  = Page.get_id <$> heap m !! a.
Proof.
  unfold ConfigurableCache.flush_all_pages.
  generalize (map_to_list (ConfigurableCache.sections c)). intros l. revert m.
  induction l as [|kv l IH]; intros m; simpl; [reflexivity|].
  rewrite IH. unfold CacheSection.flush_all_pages.
  destruct (CacheSection.set_based _); apply heap_flush_entries_id.
Qed.

Lemma footprint_of_cons_fst e es a :
  a ∈ (footprint_of (e :: es)).*1 <->
  CacheSection.page e = Some a \/ a ∈ (footprint_of es).*1.
Proof.
  rewrite footprint_of_cons, fmap_app, elem_of_app.
  unfold footprint_of at 1. simpl.
  destruct (CacheSection.page e) as [b|]; simpl.
  - rewrite list_elem_of_singleton. split; (intros [H|H]; [left; congruence|auto]).
  - split; [intros [H|H]; [inversion H|auto]|intros [H|H]; [discriminate|auto]].
Qed.

Lemma heap_free_entries es a : forall m,
  heap (CacheSection.free_entries es m) !! a
  = if decide (a ∈ (footprint_of es).*1) then None else heap m !! a.
Proof.
  unfold CacheSection.free_entries.
  induction es as [|e es IH]; intros m.
  - destruct (decide _) as [H|]; [inversion H|reflexivity].
  - cbn [foldr]. pose proof (footprint_of_cons_fst e es a) as Hc.
    specialize (IH m).
    destruct (CacheSection.page e) as [b|] eqn:Hp; simpl.
    + destruct (decide (b = a)) as [->|Hne].
      * rewrite lookup_delete_eq. rewrite decide_True; [reflexivity|].
        apply Hc. auto.
      * rewrite lookup_delete_ne by exact Hne. rewrite IH.
        apply decide_ext. rewrite Hc. intuition congruence.
    + rewrite IH. apply decide_ext. rewrite Hc. intuition congruence.
Qed.

Lemma heap_free_section s m a :
  heap (ConfigurableCache.free_section s m) !! a
  = if decide (a ∈ (footprint s).*1) then None else heap m !! a.
Proof.
  unfold ConfigurableCache.free_section, footprint, entries.
  rewrite !heap_free_entries, footprint_of_app, fmap_app.
  destruct (decide (a ∈ (footprint_of (CacheSection.pages s)).*1)) as [H1|H1].
  - rewrite decide_True; [reflexivity|]. rewrite elem_of_app. auto.
  - apply decide_ext. rewrite elem_of_app. split; [auto|].
    intros [H|H]; [exact H|contradiction].
Qed.

Lemma section_call_footprint m s m' s' :
  section_call m s m' s' -> section_wf m s ->
  (footprint s' ≡ₚ footprint s /\ heap m' = heap m) \/
  exists e X pid,
    footprint s ≡ₚ footprint_of [e] ++ X /\
    footprint s' ≡ₚ (next_addr m, pid) :: X /\
    heap m' = <[next_addr m := Page.new pid (CacheSection.line_size s)]>
                (heap (free (CacheSection.page e) m)).
Proof.
  intros [m0 s0 pid s1 r H|m0 s0 pid m1 s1 r Hsb0 Hempty0 H|m0 s0 pid m1 s1 H] Hwf.
  - left. split; [eapply fetch_page_footprint, H|reflexivity].
  - right. unfold CacheSection.new_page in H.
    apply allocate_page_footprint in H as (e & X & H1 & H2 & H3);
      [|apply with_stats_wf, Hwf].
    exists e, X, pid. auto.
  - destruct (prefetch_page_footprint _ _ _ _ _ Hwf H) as [H1|(e & X & H1)];
      [left; exact H1|right; exists e, X, pid; exact H1].
Qed.

Lemma resize_footprint m s n m1 s1 :
  CacheSection.resize m s n = Some (m1, s1) ->
  exists F K,
    footprint s ≡ₚ F ++ K /\ footprint s1 ≡ₚ K /\
    forall a, heap m1 !! a = if decide (a ∈ F.*1) then None else heap m !! a.
Proof.
  unfold CacheSection.resize.
  destruct (n =? CacheSection.size s).
  { intros [= <- <-]. exists [], (footprint s). split; [reflexivity|].
    split; [reflexivity|]. intros a.
    destruct (decide _) as [H|]; [inversion H|reflexivity]. }
  destruct (_ || _); [discriminate|].
  destruct (CacheSection.set_based (CacheSection.structure s)); intros [= <- <-].
  - exists (footprint_of (concat (CacheSection.sets s))),
           (footprint_of (CacheSection.pages s)).
    split; [unfold footprint, entries; rewrite footprint_of_app; reflexivity|].
    split; [|intros a; apply heap_free_entries].
    unfold footprint, entries. simpl.
    rewrite footprint_of_app, footprint_of_fresh_sets. reflexivity.
  - exists (footprint_of (CacheSection.pages s)),
           (footprint_of (concat (CacheSection.sets s))).
    split; [unfold footprint, entries; rewrite footprint_of_app;
            apply Permutation_app_comm|].
    split; [|intros a; apply heap_free_entries].
    unfold footprint, entries. simpl. rewrite app_nil_r. reflexivity.
Qed.

Lemma footprint_new sid sz lsz st assoc s :
  CacheSection.new sid sz lsz st assoc = Some s -> footprint s = [].
Proof.
  unfold CacheSection.new. destruct (_ || _); [discriminate|].
  intros [= <-]. unfold footprint, entries. simpl. rewrite app_nil_r.
  destruct (CacheSection.set_based st); [apply footprint_of_fresh_sets|reflexivity].
Qed.

Lemma router_step_owned st st' :
  router_step st st' ->
  cache_wf (fst st) (snd st) -> heap_owned (fst st) (snd st) ->
  heap_owned (fst st') (snd st').
Proof.
  intros H. destruct H; simpl; intros Hwf Ho.
  - (* a call on one section *)
    pose proof (wf_sections _ _ Hwf _ _ H) as Hwfs.
    destruct (section_call_footprint _ _ _ _ H0 Hwfs)
      as [[Hf Hh]|(e & X & pid & H1 & H2 & H3)].
    + refine (heap_owned_update m c m' _ sid (Some s') [] [] (footprint s)
                Hwf Ho _ _ _ _ _ _ _ _ eq_refl).
      * apply lookup_insert_eq.
      * intros sid0 Hne. apply lookup_insert_ne. congruence.
      * rewrite H. reflexivity.
      * exact Hf.
      * constructor.
      * intros a pid Ha. inversion Ha.
      * intros a _. rewrite Hh. destruct (decide _) as [Hin|]; [inversion Hin|reflexivity].
    + refine (heap_owned_update m c m' _ sid (Some s') (footprint_of [e])
                [(next_addr m, pid)] X Hwf Ho _ _ _ _ _ _ _ _ eq_refl).
      * apply lookup_insert_eq.
      * intros sid0 Hne. apply lookup_insert_ne. congruence.
      * rewrite H. exact H1.
      * exact H2.
      * apply NoDup_singleton.
      * intros a pid0 Ha. apply list_elem_of_singleton in Ha. injection Ha as -> ->.
        split; [lia|]. rewrite H3, lookup_insert_eq. eauto.
      * intros a Ha. simpl in Ha. rewrite list_elem_of_singleton in Ha.
        rewrite H3, lookup_insert_ne by congruence.
        change (free (CacheSection.page e) m)
          with (CacheSection.free_entries [e] m).
        rewrite heap_free_entries. destruct (decide _); reflexivity.
  - eapply heap_owned_ext; [| |exact Ho]; [reflexivity|]. intros b.
    unfold mem_pin in H. destruct (heap m !! a); [|discriminate]. injection H as <-.
    apply heap_update_page_id. reflexivity.
  - eapply heap_owned_ext; [| |exact Ho]; [reflexivity|]. intros b.
    unfold mem_unpin in H. destruct (heap m !! a); [|discriminate]. injection H as <-.
    apply heap_update_page_id. reflexivity.
  - eapply heap_owned_ext; [| |exact Ho]; [reflexivity|]. intros b.
    unfold mem_set_dirty in H. destruct (heap m !! a); [|discriminate]. injection H as <-.
    apply heap_update_page_id. reflexivity.
  - eapply heap_owned_ext; [| |exact Ho]; [reflexivity|].
    apply heap_flush_all_pages_id.
  - (* remove_section *)
    unfold ConfigurableCache.remove_section.
    destruct (Z.eqb_spec sid (ConfigurableCache.default_section_id c)) as [|Hne];
      [exact Ho|].
    destruct (ConfigurableCache.sections c !! sid) as [s|] eqn:Hs; [|exact Ho].
    destruct (ConfigurableCache.erase_section_ranges _ _ _) as [rs ids]. simpl.
    refine (heap_owned_update m c _ (delete sid (ConfigurableCache.sections c))
              sid None (footprint s) [] [] Hwf Ho _ _ _ _ _ _ _ _ eq_refl).
    + apply lookup_delete_eq.
    + intros sid0 Hne0. apply lookup_delete_ne. congruence.
    + rewrite Hs. simpl. rewrite app_nil_r. reflexivity.
    + reflexivity.
    + constructor.
    + intros a pid Ha. inversion Ha.
    + intros a _. rewrite heap_free_section. destruct (decide _); reflexivity.
  - (* resize_section *)
    unfold ConfigurableCache.resize_section in H0.
    destruct (ConfigurableCache.sections c !! sid) as [s|] eqn:Hs;
      [|injection H0 as <- <-; exact Ho].
    destruct (if CacheSection.get_size s <? n then _ else _) as [n' av].
    destruct (CacheSection.resize m s n') as [[m1 s1]|] eqn:Hres; [|discriminate].
    simpl in H0. injection H0 as <- <-.
    destruct (resize_footprint _ _ _ _ _ Hres) as (F & K & H1 & H2 & H3).
    refine (heap_owned_update m c m1 _ sid (Some s1) F [] K
              Hwf Ho _ _ _ _ _ _ _ _ eq_refl).
    + apply lookup_insert_eq.
    + intros sid0 Hne. apply lookup_insert_ne. congruence.
    + rewrite Hs. exact H1.
    + exact H2.
    + constructor.
    + intros a pid Ha. inversion Ha.
    + intros a _. rewrite H3. destruct (decide _); reflexivity.
  - unfold ConfigurableCache.map_page_to_section.
    destruct (ConfigurableCache.sections c !! sid); [|exact Ho].
    eapply heap_owned_ext; [| |exact Ho]; reflexivity.
  - unfold ConfigurableCache.map_page_range_to_section.
    destruct (ConfigurableCache.sections c !! sid); [|exact Ho].
    destruct (ConfigurableCache.erase_overlapping _ _ _ _).
    eapply heap_owned_ext; [| |exact Ho]; reflexivity.
  - eapply heap_owned_ext; [| |exact Ho]; [|reflexivity].
    intros sid. simpl. rewrite lookup_fmap.
    destruct (ConfigurableCache.sections c !! sid); reflexivity.
Qed.

Lemma create_step_owned st st' :
  create_step st st' ->
  cache_wf (fst st) (snd st) -> heap_owned (fst st) (snd st) ->
  heap_owned (fst st') (snd st').
Proof.
  intros H. destruct H as [m c sz lsz st assoc m' c' sid Hsz Hassoc H1]. simpl.
  intros Hwf Ho. unfold ConfigurableCache.create_section in H1.
  destruct (CacheSection.new _ _ lsz st assoc) as [s|] eqn:Hnew; [|discriminate].
  simpl in H1. injection H1 as <- <- _.
  refine (heap_owned_update m c _ _ (ConfigurableCache.next_section_id c) (Some s)
            (from_option footprint []
               (ConfigurableCache.sections c !! ConfigurableCache.next_section_id c))
            [] [] Hwf Ho _ _ _ _ _ _ _ _ eq_refl).
  - apply lookup_insert_eq.
  - intros sid0 Hne. apply lookup_insert_ne. congruence.
  - rewrite app_nil_r. reflexivity.
  - simpl. rewrite (footprint_new _ _ _ _ _ _ Hnew). reflexivity.
  - constructor.
  - intros a pid Ha. inversion Ha.
  - intros a _.
    destruct (ConfigurableCache.sections c !! ConfigurableCache.next_section_id c);
      cbn [from_option].
    + rewrite heap_free_section. destruct (decide _); reflexivity.
    + destruct (decide _) as [Hin|]; [inversion Hin|reflexivity].
Qed.

Lemma new_cache_owned total psz lsz m c :
  ConfigurableCache.new total psz lsz = Some (m, c) -> heap_owned m c.
Proof.
  unfold ConfigurableCache.new, ConfigurableCache.create_section. simpl.
  destruct (CacheSection.new 0 _ lsz _ _) as [s|] eqn:Hs; [|discriminate].
  simpl. rewrite lookup_empty. intros [= <- <-].
  pose proof (footprint_new _ _ _ _ _ _ Hs) as Hf.
  assert (Hsec : forall sid s0, (<[0 := s]> (∅ : gmap Z CacheSection.t)) !! sid = Some s0 ->
                                footprint s0 = []).
  { intros sid s0. rewrite lookup_insert. case_decide; [|rewrite lookup_empty; discriminate].
    intros [= <-]. exact Hf. }
  split; simpl.
  - intros sid s0 H. rewrite (Hsec _ _ H). constructor.
  - intros sid1 sid2 s1 s2 a _ H1 _. rewrite (Hsec _ _ H1). intros Ha. inversion Ha.
  - intros sid s0 a pid H. rewrite (Hsec _ _ H). intros Ha. inversion Ha.
  - intros a [p Hp]. rewrite lookup_empty in Hp. discriminate.
Qed.

Lemma cache_run_owned total psz lsz ops m c :
  0 <= total ->
  Forall op_typed ops ->
  cache_run ops (ConfigurableCache.new total psz lsz) = Some (m, c) ->
  cache_wf m c /\ heap_owned m c.
Proof.
  intros Ht Hty Hrun.
  destruct (ConfigurableCache.new total psz lsz) as [[m0 c0]|] eqn:Hnew;
    [|rewrite cache_run_None in Hrun; discriminate].
  assert (H : (cache_wf m c /\ 0 <= ConfigurableCache.available_size c) /\
              heap_owned m c).
  { apply (cache_run_invariant
             (fun st => (cache_wf (fst st) (snd st) /\
                         0 <= ConfigurableCache.available_size (snd st)) /\
                        heap_owned (fst st) (snd st))
             ops m0 c0 m c); auto.
    - intros st st' Hstep [Hwf Ho]. split; [eapply router_step_wf; eauto|].
      eapply router_step_owned; eauto. apply Hwf.
    - intros st st' Hstep [Hwf Ho]. split; [eapply create_step_wf; eauto|].
      eapply create_step_owned; eauto. apply Hwf.
    - simpl. split; [split; [eapply new_cache_wf; eauto|]|eapply new_cache_owned; eauto].
      unfold ConfigurableCache.new, ConfigurableCache.create_section in Hnew.
      destruct (CacheSection.new _ _ _ _ _); [|discriminate].
      simpl in Hnew. injection Hnew as _ <-. simpl. apply to_size_t_range. }
  destruct H as [[Hwf _] Ho]. auto.
Qed.

Lemma footprint_of_fst es :
  (footprint_of es).*1 = omap CacheSection.page es.
Proof.
  induction es as [|e es IH]; [reflexivity|].
  rewrite footprint_of_cons, fmap_app, IH. unfold footprint_of. simpl.
  destruct (CacheSection.page e); reflexivity.
Qed.

Lemma omap_NoDup_index {A B} (f : A -> option B) (l : list A) :
  NoDup (omap f l) ->
  forall i j x y v, l !! i = Some x -> l !! j = Some y ->
                    f x = Some v -> f y = Some v -> i = j.
Proof.
  induction l as [|z l IH]; intros Hnd i j x y v Hi Hj Hx Hy; [discriminate|].
  simpl in Hnd.
  assert (Hin : forall k w, l !! k = Some w -> f w = Some v -> v ∈ omap f l).
  { intros k w Hk Hw. apply list_elem_of_omap. exists w. split; [|exact Hw].
    eapply list_elem_of_lookup_2, Hk. }
  assert (Hnd' : NoDup (omap f l)).
  { destruct (f z); [apply NoDup_cons in Hnd as [_ Hnd]|]; exact Hnd. }
  destruct i as [|i], j as [|j]; simpl in Hi, Hj.
  - reflexivity.
  - injection Hi as ->. rewrite Hx in Hnd. apply NoDup_cons in Hnd as [Hn _].
    exfalso. apply Hn. eapply Hin; eauto.
  - injection Hj as ->. rewrite Hy in Hnd. apply NoDup_cons in Hnd as [Hn _].
    exfalso. apply Hn. eapply Hin; eauto.
  - f_equal. exact (IH Hnd' i j x y v Hi Hj Hx Hy).
Qed.

(** [resize] on the default section of a router that holds two prefetched
    pages. *)
Lemma resize_discards_every_page_witness :
  exists m c s m' s',
    cache_run [PrefetchPage 1; PrefetchPage 2]
              (ConfigurableCache.new 12288 4096 4096) = Some (m, c) /\
    ConfigurableCache.sections c !! 0 = Some s /\
    CacheSection.page_count s = 2 /\
    CacheSection.resize m s 12288 = Some (m, s) /\
    CacheSection.resize m s 8192 = Some (m', s') /\
    CacheSection.page_count s' = 0.
Proof.
  destruct (cache_run _ (ConfigurableCache.new 12288 4096 4096)) as [[m c]|] eqn:H;
    [|vm_compute in H; discriminate].
  destruct (ConfigurableCache.sections c !! 0) as [s|] eqn:Hs;
    [|vm_compute in H; injection H as <- <-; vm_compute in Hs; discriminate].
  assert (Hwf : cache_wf m c).
  { match type of H with
    | cache_run ?ops _ = _ =>
        apply (cache_run_owned 12288 4096 4096 ops m c); [lia| |exact H]
    end.
    repeat (constructor; simpl; try lia). }
  assert (Hsz : CacheSection.size s = 12288).
  { vm_compute in H. injection H as <- <-. vm_compute in Hs. injection Hs as <-.
    reflexivity. }
  assert (Hcount : CacheSection.page_count s = 2).
  { vm_compute in H. injection H as <- <-. vm_compute in Hs. injection Hs as <-.
    reflexivity. }
  assert (Hpos : 0 <= 8192) by lia.
  destruct (resize_discards_every_page m s 8192 (wf_sections _ _ Hwf _ _ Hs) Hpos)
    as [Hsame Hother].
  rewrite Hsz in Hsame.
  destruct Hother as (m' & s' & Hr & _ & _ & _ & H0 & _); [rewrite Hsz; lia|].
  exists m, c, s, m', s'. split; [reflexivity|]. split; [exact Hs|].
  split; [exact Hcount|]. split; [exact Hsame|]. split; [exact Hr|exact H0].
Defined.

(** X7: the cache neither leaks pages nor keeps pointers to destroyed ones.
    In every state reached from the constructor, every page pointer held by
    an entry points to a live page object whose identifier is the one the
    entry records; every live page object is owned by an entry of a section;
    and no page is owned by two entries, of one section or of two. *)
Theorem pages_have_exactly_one_owner total psz lsz ops m c :
  0 <= total ->
  Forall op_typed ops ->
  cache_run ops (ConfigurableCache.new total psz lsz) = Some (m, c) ->
  (forall sid s e a,
     ConfigurableCache.sections c !! sid = Some s ->
     e ∈ entries s -> CacheSection.page e = Some a ->
     exists p, heap m !! a = Some p /\ Page.get_id p = CacheSection.id e) /\
  (forall a, is_Some (heap m !! a) ->
     exists sid s e, ConfigurableCache.sections c !! sid = Some s /\
                     e ∈ entries s /\ CacheSection.page e = Some a) /\
  (forall sid1 s1 i1 e1 sid2 s2 i2 e2 a,
     ConfigurableCache.sections c !! sid1 = Some s1 ->
     entries s1 !! i1 = Some e1 -> CacheSection.page e1 = Some a ->
     ConfigurableCache.sections c !! sid2 = Some s2 ->
     entries s2 !! i2 = Some e2 -> CacheSection.page e2 = Some a ->
     sid1 = sid2 /\ i1 = i2).
Proof.
  intros Ht Hty Hrun.
  destruct (cache_run_owned _ _ _ _ _ _ Ht Hty Hrun) as [_ [Hu Hd Hl Hn]].
  split; [|split].
  - intros sid s e a Hs He Hp. apply (Hl sid s a (CacheSection.id e) Hs).
    apply elem_of_footprint_of. eauto.
  - intros a Ha. destruct (Hn a Ha) as (sid & s & Hs & Hin).
    apply list_elem_of_fmap in Hin as ([a' pid] & -> & Hin).
    apply elem_of_footprint_of in Hin as (e & He & Hp & _). eauto 6.
  - intros sid1 s1 i1 e1 sid2 s2 i2 e2 a H1 Hi1 Hp1 H2 Hi2 Hp2.
    assert (Hown : forall s i e, entries s !! i = Some e ->
              CacheSection.page e = Some a -> a ∈ (footprint s).*1).
    { intros s i e Hi Hp. apply list_elem_of_fmap.
      exists (a, CacheSection.id e). split; [reflexivity|].
      apply elem_of_footprint_of. exists e.
      split; [eapply list_elem_of_lookup_2, Hi|auto]. }
    destruct (decide (sid1 = sid2)) as [->|Hne].
    + split; [reflexivity|]. rewrite H1 in H2. injection H2 as <-.
      specialize (Hu _ _ H1). unfold footprint in Hu. rewrite footprint_of_fst in Hu.
      exact (omap_NoDup_index _ _ Hu i1 i2 e1 e2 a Hi1 Hi2 Hp1 Hp2).
    + exfalso. apply (Hd sid1 sid2 s1 s2 a Hne H1 H2); eauto.
Qed.

Lemma pages_have_exactly_one_owner_witness :
  exists m c,
    cache_run [CreateSection 8192 4096 CacheSection.DirectMapped 1;
               MapPageRangeToSection 100 199 1; PrefetchPage 100; FetchPage 100;
               PrefetchPages [102; 104; 1; 2; 3; 4]; FetchPage 2;
               ResizeSection 1 4096; PrefetchPage 100; FetchPage 100;
               RemoveSection 1; FlushAllPages]
              (ConfigurableCache.new 12288 4096 4096) = Some (m, c) /\
    forall a, is_Some (heap m !! a) ->
      exists sid s e, ConfigurableCache.sections c !! sid = Some s /\
                      e ∈ entries s /\ CacheSection.page e = Some a.
Proof.
  destruct (cache_run _ (ConfigurableCache.new 12288 4096 4096)) as [[m c]|] eqn:H;
    [|vm_compute in H; discriminate].
  exists m, c. split; [reflexivity|].
  match type of H with
  | cache_run ?ops _ = _ =>
      apply (pages_have_exactly_one_owner 12288 4096 4096 ops m c)
  end.
  - lia.
  - repeat (constructor; simpl; try lia).
  - exact H.
Defined.

Lemma resident_footprint s pid a : resident s pid a -> (a, pid) ∈ footprint s.
Proof.
  intros (e & He & Hp & Hi & _). apply elem_of_footprint_of. exists e.
  split; [|auto]. apply elem_of_entries. tauto.
Qed.

(** X8: [fetch_page(id)], when it returns, returns the page with identifier
    [id].  In every state reached from the constructor, a call that returns
    gives a pointer to a live page object whose [get_id()] is [id]. *)
Theorem fetch_page_returns_the_requested_page total psz lsz ops m c pid m' c' r :
  0 <= total ->
  Forall op_typed ops ->
  cache_run ops (ConfigurableCache.new total psz lsz) = Some (m, c) ->
  ConfigurableCache.fetch_page m c pid = Some (m', c', r) ->
  exists a p, r = Some a /\ heap m' !! a = Some p /\ Page.get_id p = pid.
Proof.
  intros Ht Hty Hrun Hf.
  destruct (cache_run_owned _ _ _ _ _ _ Ht Hty Hrun) as [Hwf Ho].
  destruct (fetch_page_spec m c pid m' c' r Hwf Hf)
    as (sid & s & a & _ & Hs & -> & _ & Hcase).
  destruct Hcase as [(s1 & _ & -> & Hres & _)|(s1 & s2 & _ & _ & Hheap & _)].
  - destruct (ho_live _ _ Ho _ _ _ _ Hs (resident_footprint _ _ _ Hres))
      as (p & Hp & Hid).
    exists a, p. auto.
  - exists a, (Page.new pid (CacheSection.line_size s)). auto.
Qed.

Lemma fetch_page_returns_the_requested_page_witness :
  exists m c m' c' a p,
    cache_run [CreateSection 8192 4096 CacheSection.SetAssociative 2;
               MapPageRangeToSection 100 199 1; PrefetchPage 100;
               PrefetchPage 102; FetchPage 102; PrefetchPage 104;
               PrefetchPage 1; FetchPage 1; ResizeSection 0 4096; FetchPage 102]
              (ConfigurableCache.new 12288 4096 4096) = Some (m, c) /\
    ConfigurableCache.fetch_page m c 102 = Some (m', c', Some a) /\
    heap m' !! a = Some p /\ Page.get_id p = 102.
Proof.
  destruct (cache_run _ (ConfigurableCache.new 12288 4096 4096)) as [[m c]|] eqn:H;
    [|vm_compute in H; discriminate].
  destruct (ConfigurableCache.fetch_page m c 102) as [[[m' c'] r]|] eqn:Hf;
    [|vm_compute in H; injection H as <- <-; vm_compute in Hf; discriminate].
  match type of H with
  | cache_run ?ops _ = _ =>
      destruct (fetch_page_returns_the_requested_page
                  12288 4096 4096 ops m c 102 m' c' r)
        as (a & p & -> & H2 & H3)
  end.
  - lia.
  - repeat (constructor; simpl; try lia).
  - exact H.
  - exact Hf.
  - exists m, c, m', c', a, p. auto.
Defined.

(** ** [flush_all_pages] *)

Lemma set_dirty_false_twice p :
  Page.set_dirty false (Page.set_dirty false p) = Page.set_dirty false p.
Proof. reflexivity. Qed.

Lemma set_dirty_false_clean p :
  Page.is_dirty p = false -> Page.set_dirty false p = p.
Proof. destruct p. simpl. intros ->. reflexivity. Qed.

Lemma flush_entry_kept (e : CacheSection.CacheEntry) m a :
  kept_or_cleaned m
    (if CacheSection.valid e && owned_dirty (CacheSection.page e) m
     then owned_clean (CacheSection.page e) m else m) a.
Proof.
  destruct (_ && _); [|left; reflexivity].
  destruct (CacheSection.page e) as [b|]; [|left; reflexivity]. simpl.
  destruct (decide (b = a)) as [->|Hne].
  - right. apply lookup_alter_eq.
  - left. apply lookup_alter_ne. exact Hne.
Qed.

Lemma flush_entry_cleaned (e : CacheSection.CacheEntry) m a :
  CacheSection.valid e = true -> CacheSection.page e = Some a ->
  heap (if CacheSection.valid e && owned_dirty (CacheSection.page e) m
        then owned_clean (CacheSection.page e) m else m) !! a
  = Page.set_dirty false <$> heap m !! a.
Proof.
  intros -> ->. simpl. destruct (heap m !! a) as [p|] eqn:Hp.
  - destruct (Page.is_dirty p) eqn:Hd; simpl.
    + rewrite lookup_alter_eq, Hp. reflexivity.
    + rewrite Hp. simpl. rewrite set_dirty_false_clean by exact Hd. reflexivity.
  - rewrite Hp. reflexivity.
Qed.

Lemma kept_or_cleaned_trans m1 m2 m3 a :
  kept_or_cleaned m1 m2 a -> kept_or_cleaned m2 m3 a -> kept_or_cleaned m1 m3 a.
Proof.
  unfold kept_or_cleaned. intros [H1|H1] [H2|H2]; rewrite H2, H1; auto.
  right. destruct (heap m1 !! a); reflexivity.
Qed.

Lemma cleaned_then_kept m1 m2 m3 a :
  heap m2 !! a = Page.set_dirty false <$> heap m1 !! a ->
  kept_or_cleaned m2 m3 a ->
  heap m3 !! a = Page.set_dirty false <$> heap m1 !! a.
Proof.
  intros H1 [H2|H2]; rewrite H2, H1; [reflexivity|].
  destruct (heap m1 !! a); reflexivity.
Qed.

Lemma kept_then_cleaned m1 m2 m3 a :
  kept_or_cleaned m1 m2 a ->
  heap m3 !! a = Page.set_dirty false <$> heap m2 !! a ->
  heap m3 !! a = Page.set_dirty false <$> heap m1 !! a.
Proof.
  intros [H1|H1] H2; rewrite H2, H1; [reflexivity|].
  destruct (heap m1 !! a); reflexivity.
Qed.

Lemma flush_entries_kept es a : forall m,
  kept_or_cleaned m (CacheSection.flush_entries es m) a.
Proof.
  unfold CacheSection.flush_entries.
  induction es as [|e es IH]; intros m; simpl; [left; reflexivity|].
  eapply kept_or_cleaned_trans; [apply flush_entry_kept|apply IH].
Qed.

Lemma flush_entries_cleaned es e a : forall m,
  e ∈ es -> CacheSection.valid e = true -> CacheSection.page e = Some a ->
  heap (CacheSection.flush_entries es m) !! a = Page.set_dirty false <$> heap m !! a.
Proof.
  induction es as [|e0 es IH]; intros m He Hv Hp; [inversion He|].
  change (CacheSection.flush_entries (e0 :: es) m)
    with (CacheSection.flush_entries es
            (if CacheSection.valid e0 && owned_dirty (CacheSection.page e0) m
             then owned_clean (CacheSection.page e0) m else m)).
  apply elem_of_cons in He as [->|He].
  - eapply cleaned_then_kept; [exact (flush_entry_cleaned _ m a Hv Hp)|].
    apply flush_entries_kept.
  - eapply kept_then_cleaned; [apply flush_entry_kept|]. apply IH; assumption.
Qed.

Lemma section_flush_all_pages_kept m s a :
  kept_or_cleaned m (CacheSection.flush_all_pages m s) a.
Proof.
  unfold CacheSection.flush_all_pages.
  destruct (CacheSection.set_based _); apply flush_entries_kept.
Qed.

Lemma flush_sections_kept l a : forall m,
  kept_or_cleaned m
    (foldl (fun acc (kv : Z * CacheSection.t) =>
              CacheSection.flush_all_pages acc (snd kv)) m l) a.
Proof.
  induction l as [|kv l IH]; intros m; simpl; [left; reflexivity|].
  eapply kept_or_cleaned_trans; [apply section_flush_all_pages_kept|apply IH].
Qed.

Lemma flush_sections_cleaned l kv e a : forall m,
  kv ∈ l -> e ∈ active_entries (snd kv) ->
  CacheSection.valid e = true -> CacheSection.page e = Some a ->
  heap (foldl (fun acc (kv : Z * CacheSection.t) =>
                 CacheSection.flush_all_pages acc (snd kv)) m l) !! a
  = Page.set_dirty false <$> heap m !! a.
Proof.
  induction l as [|kv0 l IH]; intros m Hkv He Hv Hp; [inversion Hkv|]. simpl.
  apply elem_of_cons in Hkv as [->|Hkv].
  - eapply cleaned_then_kept; [|apply flush_sections_kept].
    unfold CacheSection.flush_all_pages, active_entries in *.
    destruct (CacheSection.set_based _); eapply flush_entries_cleaned; eauto.
  - eapply kept_then_cleaned; [apply section_flush_all_pages_kept|].
    apply IH; assumption.
Qed.

(** X9: [flush_all_pages] marks every page held by the cache clean and does
    nothing else.  After the call, the page of every valid entry of every
    section is what it was with its dirty flag cleared; any other page is
    untouched or has only its dirty flag cleared; no page is created,
    destroyed or evicted, and pin counts and buffers are kept. *)
Theorem flush_all_pages_cleans_every_page m c :
  let m' := ConfigurableCache.flush_all_pages m c in
  (forall sid s e a,
     ConfigurableCache.sections c !! sid = Some s ->
     e ∈ active_entries s ->
     CacheSection.valid e = true -> CacheSection.page e = Some a ->
     heap m' !! a = Page.set_dirty false <$> heap m !! a) /\
  (forall a, kept_or_cleaned m m' a) /\
  next_addr m' = next_addr m /\ clock_hand m' = clock_hand m.
Proof.
  simpl. split; [|split; [|split]].
  - intros sid s e a Hs He Hv Hp. unfold ConfigurableCache.flush_all_pages.
    eapply (flush_sections_cleaned _ (sid, s)); eauto.
    apply elem_of_map_to_list. exact Hs.
  - intros a. apply flush_sections_kept.
  - apply next_addr_flush_all_pages.
  - unfold ConfigurableCache.flush_all_pages.
    generalize (map_to_list (ConfigurableCache.sections c)). intros l.
    revert m. induction l as [|kv l IH]; intros m; simpl; [reflexivity|].
    rewrite IH. unfold CacheSection.flush_all_pages.
    assert (Hes : forall es m0,
              clock_hand (CacheSection.flush_entries es m0) = clock_hand m0).
    { unfold CacheSection.flush_entries.
      induction es as [|e es IHes]; intros m0; simpl; [reflexivity|].
      rewrite IHes. destruct (_ && _); [|reflexivity].
      destruct (CacheSection.page e); reflexivity. }
    destruct (CacheSection.set_based _); apply Hes.
Qed.

(** ** The clock sweep *)

Lemma clock_sweep_second_chance (orig : list CacheSection.CacheEntry) a start :
  0 < a -> 0 <= start < a ->
  forall fuel set pos set' v hand,
    0 <= a - Z.of_nat fuel ->
    pos = (start + (a - Z.of_nat fuel)) mod a ->
    (forall j, 0 <= j < a - Z.of_nat fuel ->
       (exists e, orig !! Z.to_nat ((start + j) mod a) = Some e /\
                  CacheSection.referenced e = true) /\
       (exists e, set !! Z.to_nat ((start + j) mod a) = Some e /\
                  CacheSection.referenced e = false)) ->
    (forall p, (forall j, 0 <= j < a - Z.of_nat fuel ->
                          p <> Z.to_nat ((start + j) mod a)) ->
               set !! p = orig !! p) ->
    CacheSection.clock_sweep fuel a start pos set = Some (set', v, hand) ->
    (exists e', set' !! Z.to_nat v = Some e' /\ CacheSection.referenced e' = false) /\
    (forall e, orig !! Z.to_nat v = Some e -> CacheSection.referenced e = true ->
               forall j, 0 <= j < a ->
                 exists e0, orig !! Z.to_nat ((start + j) mod a) = Some e0 /\
                            CacheSection.referenced e0 = true) /\
    hand = (v + 1) mod a /\ 0 <= v < a.
Proof.
  intros Ha Hstart. induction fuel as [|fuel IH];
    intros set pos set' v hand Hj Hpos Hvis Hrest.
  - (* the loop cannot run longer than [a] rounds *)
    simpl. intros [= <- <- <-].
    replace (a - Z.of_nat 0) with a in * by lia.
    assert (Hp : pos = (start + 0) mod a).
    { rewrite Hpos. rewrite Z.add_mod, Z_mod_same_full, Z.add_0_r, Z.mod_mod by lia.
      rewrite Z.add_0_r. reflexivity. }
    split; [|split; [|split; [reflexivity|rewrite Hpos; apply Z.mod_pos_bound; lia]]].
    + rewrite Hp. apply (Hvis 0). lia.
    + intros e _ _ j Hj'. apply (Hvis j Hj').
  - cbn [CacheSection.clock_sweep].
    set (j := a - Z.of_nat (S fuel)) in *.
    assert (Hjlt : j < a) by lia.
    assert (Hfresh : forall j', 0 <= j' < j ->
              Z.to_nat pos <> Z.to_nat ((start + j') mod a)).
    { intros j' Hj' Heq. apply Z2Nat.inj in Heq;
        [|subst pos; apply Z.mod_pos_bound; lia|apply Z.mod_pos_bound; lia].
      subst pos.
      assert (Hd : (j - j') mod a = 0).
      { replace (j - j') with ((start + j) - (start + j')) by lia.
        rewrite Zminus_mod, Heq, Z.sub_diag. apply Z.mod_0_l. lia. }
      rewrite Z.mod_small in Hd by lia. lia. }
    destruct (set !! Z.to_nat pos) as [e|] eqn:He; [|discriminate]. simpl.
    assert (Horig : orig !! Z.to_nat pos = Some e).
    { rewrite <- (Hrest _ Hfresh). exact He. }
    destruct (CacheSection.referenced e) eqn:Hr; simpl.
    + assert (Hpos' : (pos + 1) mod a = (start + (j + 1)) mod a).
      { subst pos. rewrite Z.add_mod_idemp_l by lia. f_equal. lia. }
      assert (Hvis' : forall j', 0 <= j' < j + 1 ->
                (exists e0, orig !! Z.to_nat ((start + j') mod a) = Some e0 /\
                            CacheSection.referenced e0 = true) /\
                (exists e0, <[Z.to_nat pos := CacheSection.set_referenced false e]> set
                              !! Z.to_nat ((start + j') mod a) = Some e0 /\
                            CacheSection.referenced e0 = false)).
      { intros j' Hj'. destruct (decide (j' = j)) as [->|Hne].
        - rewrite <- Hpos. split; [eauto|].
          exists (CacheSection.set_referenced false e). split; [|reflexivity].
          apply list_lookup_insert_eq. eapply lookup_lt_Some, He.
        - destruct (Hvis j') as [H1 (e0 & H2 & H3)]; [lia|]. split; [exact H1|].
          destruct (decide (Z.to_nat pos = Z.to_nat ((start + j') mod a))) as [Heq|Hneq].
          + exists (CacheSection.set_referenced false e). split; [|reflexivity].
            rewrite <- Heq. apply list_lookup_insert_eq. eapply lookup_lt_Some, He.
          + exists e0. rewrite list_lookup_insert_ne by exact Hneq. auto. }
      destruct ((pos + 1) mod a =? start) eqn:Hw.
      * (* back at the start: every entry was referenced *)
        apply Z.eqb_eq in Hw. intros [= <- <- <-].
        assert (Hja : j + 1 = a).
        { destruct (decide (j + 1 = a)) as [|Hne]; [assumption|].
          rewrite Hpos' in Hw.
          assert (Hd : (j + 1) mod a = 0).
          { replace (j + 1) with ((start + (j + 1)) - start) by lia.
            rewrite Zminus_mod, Hw, (Z.mod_small start) by lia.
            rewrite Z.sub_diag. apply Z.mod_0_l. lia. }
          rewrite Z.mod_small in Hd by lia. lia. }
        split; [|split; [|split; [reflexivity|apply Z.mod_pos_bound; lia]]].
        -- rewrite Hw. destruct (Hvis' 0) as [_ H0]; [lia|].
           rewrite Z.add_0_r, Z.mod_small in H0 by lia. exact H0.
        -- intros e0 _ _ j' Hj'. apply (Hvis' j'). lia.
      * intros Hsweep.
        apply (IH (<[Z.to_nat pos := CacheSection.set_referenced false e]> set)
                 ((pos + 1) mod a) set' v hand); try assumption.
        -- lia.
        -- rewrite Hpos'. f_equal. lia.
        -- intros j' Hj'. apply Hvis'. lia.
        -- intros p Hp. rewrite list_lookup_insert_ne.
           ++ apply Hrest. intros j' Hj'. apply Hp. lia.
           ++ intros Heq. apply (Hp j); [lia|]. rewrite <- Hpos. auto.
    + (* an entry whose bit is clear: the victim *)
      intros [= <- <- <-]. split; [eauto|].
      split; [|split; [reflexivity|rewrite Hpos; apply Z.mod_pos_bound; lia]].
      intros e0 He0 Hr0. rewrite Horig in He0. injection He0 as <-. congruence.
Qed.

(** X10: the clock sweep gives every touched entry a second chance.  The
    victim [find_victim_in_set] returns is a position of the set whose
    reference bit is clear after the call; a position whose reference bit was
    set is returned only when every entry of the set had its bit set.  The
    sweep changes nothing in the set but reference bits, which it only
    clears, and leaves the clock hand one past the victim. *)
Theorem clock_gives_a_second_chance m s i set m' s' v :
  section_wf m s ->
  CacheSection.sets s !! i = Some set ->
  CacheSection.find_victim_in_set m s i = Some (m', s', v) ->
  exists set',
    CacheSection.sets s' = <[i := set']> (CacheSection.sets s) /\
    Forall2 bit_cleared set set' /\
    (v < length set)%nat /\
    (exists e', set' !! v = Some e' /\ CacheSection.referenced e' = false) /\
    (forall e, set !! v = Some e -> CacheSection.referenced e = true ->
               Forall (fun e0 => CacheSection.referenced e0 = true) set) /\
    clock_hand m' = (Z.of_nat v + 1) mod CacheSection.associativity s /\
    heap m' = heap m.
Proof.
  intros Hwf Hi Hfv.
  pose proof (wf_associativity _ _ Hwf) as Ha.
  assert (Hlen : length set = Z.to_nat (CacheSection.associativity s)).
  { destruct (wf_sets _ _ Hwf) as [He|[_ Hall]].
    - rewrite He in Hi. discriminate.
    - exact (Forall_lookup_1 _ _ _ _ Hall Hi). }
  destruct (find_victim_in_set_bits _ _ _ _ _ _ Hfv)
    as (set0 & set' & Hset0 & Hsets & Hbits & _ & Hheap & _).
  rewrite Hi in Hset0. injection Hset0 as <-.
  revert Hfv Hsets. unfold CacheSection.find_victim_in_set.
  destruct (CacheSection.associativity s =? 0); [discriminate|].
  rewrite Hi. simpl.
  destruct (CacheSection.clock_sweep _ _ _ _ set) as [[[set2 pos] hand]|] eqn:Hc;
    [|discriminate].
  simpl. intros [= <- <- <-] Hsets. simpl in Hsets.
  assert (Hset2 : set2 = set').
  { assert (Hlt : (i < length (CacheSection.sets s))%nat) by (eapply lookup_lt_Some, Hi).
    pose proof (list_lookup_insert_eq (CacheSection.sets s) i set2 Hlt) as H1.
    rewrite Hsets, list_lookup_insert_eq in H1 by exact Hlt. congruence. }
  subst set2.
  assert (Hstart : 0 <= clock_hand m mod CacheSection.associativity s
                   < CacheSection.associativity s) by (apply Z.mod_pos_bound; lia).
  destruct (clock_sweep_second_chance set (CacheSection.associativity s)
              (clock_hand m mod CacheSection.associativity s) Ha Hstart
              (Z.to_nat (CacheSection.associativity s)) set
              (clock_hand m mod CacheSection.associativity s) set' pos hand)
    as (Hclear & Hall & Hhand & Hpos); try exact Hc.
  - lia.
  - rewrite Z2Nat.id, Z.sub_diag, Z.add_0_r, Z.mod_mod by lia. reflexivity.
  - intros j Hj. lia.
  - reflexivity.
  - exists set'. split; [reflexivity|]. split; [exact Hbits|].
    split; [rewrite Hlen; lia|]. split; [exact Hclear|].
    split; [|split; [simpl; rewrite Z2Nat.id by lia; exact Hhand|exact Hheap]].
    intros e He Hr. apply Forall_lookup_2. intros p e0 Hp.
    assert (Hplt : (p < length set)%nat) by (eapply lookup_lt_Some, Hp).
    destruct (Hall e He Hr ((Z.of_nat p - clock_hand m mod CacheSection.associativity s)
                              mod CacheSection.associativity s)) as (e1 & H1 & H2).
    { apply Z.mod_pos_bound. lia. }
    rewrite Z.add_mod_idemp_r in H1 by lia.
    replace (clock_hand m mod CacheSection.associativity s
             + (Z.of_nat p - clock_hand m mod CacheSection.associativity s))
      with (Z.of_nat p) in H1 by lia.
    rewrite Z.mod_small, Nat2Z.id in H1 by lia. congruence.
Qed.

(** The sweep on a set of two entries: page 100 was fetched after it was
    prefetched, so its reference bit is set; page 101 was only prefetched.
    The sweep clears the bit of page 100 and takes the entry of page 101. *)
Lemma clock_gives_a_second_chance_witness :
  exists m c s set m' s' v set' e0 e0',
    cache_run [ResizeSection 0 8192;
               CreateSection 8192 4096 CacheSection.SetAssociative 2;
               MapPageRangeToSection 100 199 1;
               PrefetchPage 100; FetchPage 100; PrefetchPage 101]
              (ConfigurableCache.new 16384 4096 4096) = Some (m, c) /\
    ConfigurableCache.sections c !! 1 = Some s /\
    CacheSection.sets s !! 0%nat = Some set /\
    CacheSection.find_victim_in_set m s 0 = Some (m', s', v) /\
    CacheSection.sets s' = <[0%nat := set']> (CacheSection.sets s) /\
    set !! 0%nat = Some e0 /\ CacheSection.referenced e0 = true /\
    set' !! 0%nat = Some e0' /\ CacheSection.referenced e0' = false /\
    v = 1%nat /\
    (exists e', set' !! v = Some e' /\ CacheSection.referenced e' = false).
Proof.
  destruct (cache_run _ (ConfigurableCache.new 16384 4096 4096)) as [[m c]|] eqn:H;
    [|vm_compute in H; discriminate].
  destruct (ConfigurableCache.sections c !! 1) as [s|] eqn:Hs;
    [|vm_compute in H; injection H as <- <-; vm_compute in Hs; discriminate].
  destruct (CacheSection.sets s !! 0%nat) as [set|] eqn:Hset;
    [|vm_compute in H; injection H as <- <-; vm_compute in Hs; injection Hs as <-;
      vm_compute in Hset; discriminate].
  destruct (CacheSection.find_victim_in_set m s 0) as [[[m' s'] v]|] eqn:Hfv;
    [|vm_compute in H; injection H as <- <-; vm_compute in Hs; injection Hs as <-;
      vm_compute in Hfv; discriminate].
  assert (Hwf : cache_wf m c).
  { match type of H with
    | cache_run ?ops _ = _ =>
        apply (cache_run_owned 16384 4096 4096 ops m c); [lia| |exact H]
    end.
    repeat (constructor; simpl; try lia). }
  destruct (clock_gives_a_second_chance m s 0 set m' s' v)
    as (set' & H1 & _ & _ & H2 & _).
  - exact (wf_sections _ _ Hwf _ _ Hs).
  - exact Hset.
  - exact Hfv.
  - vm_compute in H. injection H as <- <-. vm_compute in Hs. injection Hs as <-.
    vm_compute in Hset. injection Hset as <-.
    vm_compute in Hfv. injection Hfv as <- <- <-.
    vm_compute in H1. injection H1 as <-.
    eexists _, _, _, _, _, _, _, _, _, _.
    repeat (split; [reflexivity|]). exact H2.
Defined.

(** ** Capacity along runs *)

Lemma section_sized_config s s' :
  same_config s s' -> section_sized s ->
  Z.of_nat (length (CacheSection.pages s')) <= Z.max 1 (CacheSection.pages_capacity s) ->
  section_sized s'.
Proof.
  intros [H1 H2 H3 H4 H5 H6 H7] [Hc Hn Hp] Hlen. split.
  - rewrite H7, H2, H3. exact Hc.
  - unfold sets_for_size. rewrite H4, H6, H2, H3, H5. exact Hn.
  - rewrite H7. exact Hlen.
Qed.

Lemma length_splice_front i (l : list CacheSection.CacheEntry) :
  length (CacheSection.splice_front i l) = length l.
Proof. apply Permutation_length, splice_front_perm. Qed.

Lemma fetch_page_length s pid s' r :
  CacheSection.fetch_page s pid = Some (s', r) ->
  length (CacheSection.pages s') = length (CacheSection.pages s).
Proof.
  unfold CacheSection.fetch_page. intros H.
  break_matches; simpl; try reflexivity. apply length_splice_front.
Qed.

Lemma find_victim_in_set_length m s i m' s' v :
  CacheSection.find_victim_in_set m s i = Some (m', s', v) ->
  CacheSection.pages s' = CacheSection.pages s.
Proof.
  unfold CacheSection.find_victim_in_set. intros H.
  break_matches; reflexivity.
Qed.

Lemma allocate_page_length m s pid m' s' r :
  CacheSection.allocate_page m s pid = Some (m', s', r) ->
  Z.of_nat (length (CacheSection.pages s)) <= Z.max 1 (CacheSection.pages_capacity s) ->
  Z.of_nat (length (CacheSection.pages s')) <= Z.max 1 (CacheSection.pages_capacity s).
Proof.
  unfold CacheSection.allocate_page. intros H Hlen.
  destruct (CacheSection.set_based (CacheSection.structure s)).
  - set (s1 := match CacheSection.sets s with [] => _ | _ => s end) in H.
    assert (Hs1 : CacheSection.pages s1 = CacheSection.pages s).
    { subst s1. destruct (CacheSection.sets s); reflexivity. }
    clearbody s1. rewrite <- Hs1 in Hlen.
    destruct (CacheSection.sets s1 !! _) as [set|]; [|discriminate]. simpl in H.
    destruct (find_first _ set) as [[j e]|].
    + injection H as _ <- _. exact Hlen.
    + destruct (CacheSection.find_victim_in_set m s1 _) as [[[m1 s2] v]|] eqn:Hv;
        [|discriminate].
      apply find_victim_in_set_length in Hv. simpl in H. rewrite <- Hv in Hlen.
      break_matches; exact Hlen.
  - revert H.
    destruct (Z.ltb_spec (Z.of_nat (length (CacheSection.pages s)))
                (CacheSection.pages_capacity s)) as [Hlt|Hge].
    + unfold CacheSection.create_page, alloc. intros [= _ <- _]. simpl. lia.
    + destruct (CacheSection.pages s) as [|e0 ps0] eqn:Hps.
      * unfold CacheSection.create_page, alloc. intros [= _ <- _]. simpl. lia.
      * rewrite <- Hps in *. intros H.
        break_matches; simpl; rewrite length_splice_front, length_insert; exact Hlen.
Qed.

Lemma prefetch_page_length m s pid m' s' :
  CacheSection.prefetch_page m s pid = Some (m', s') ->
  Z.of_nat (length (CacheSection.pages s)) <= Z.max 1 (CacheSection.pages_capacity s) ->
  Z.of_nat (length (CacheSection.pages s')) <= Z.max 1 (CacheSection.pages_capacity s).
Proof.
  unfold CacheSection.prefetch_page. intros H Hlen.
  destruct (CacheSection.set_based (CacheSection.structure s)).
  - destruct (CacheSection.sets s !! _) as [set|]; [|discriminate]. simpl in H.
    destruct (find_first _ set) as [[j0 e0]|]; [injection H as _ <-; exact Hlen|].
    destruct (find_first _ set) as [[j e]|].
    + unfold CacheSection.create_page, alloc in H. injection H as _ <-. exact Hlen.
    + destruct (CacheSection.find_victim_in_set m s _) as [[[m1 s2] v]|] eqn:Hv;
        [|discriminate].
      apply find_victim_in_set_length in Hv. simpl in H. rewrite <- Hv in Hlen.
      destruct (CacheSection.sets s2 !! _) as [set2|]; [|discriminate]. simpl in H.
      destruct (set2 !! v) as [victim|]; [|discriminate]. simpl in H.
      destruct (CacheSection.page victim) as [a0|]; [|discriminate]. simpl in H.
      destruct (heap m1 !! a0) as [p0|]; [|discriminate]. simpl in H.
      injection H as _ <-. exact Hlen.
  - destruct (CacheSection.page_map s !! pid); [injection H as _ <-; exact Hlen|].
    revert H.
    destruct (Z.ltb_spec (Z.of_nat (length (CacheSection.pages s)))
                (CacheSection.pages_capacity s)) as [Hlt|Hge].
    + unfold CacheSection.create_page, alloc. intros [= _ <-]. simpl. lia.
    + intros H.
      break_matches; simpl; rewrite length_splice_front, length_insert; exact Hlen.
Qed.

Lemma section_call_sized m s m' s' :
  section_call m s m' s' -> section_sized s -> section_sized s'.
Proof.
  intros Hcall Hs. apply (section_sized_config s s'); [|exact Hs|].
  - eapply section_call_config, Hcall.
  - pose proof (sz_pages _ Hs) as Hlen.
    destruct Hcall as [m0 s0 pid s1 r H|m0 s0 pid m1 s1 r Hsb0 Hempty0 H|m0 s0 pid m1 s1 H].
    + rewrite (fetch_page_length _ _ _ _ H). exact Hlen.
    + unfold CacheSection.new_page in H.
      apply allocate_page_length in H; assumption.
    + eapply prefetch_page_length; eauto.
Qed.

Lemma new_section_sized sid sz lsz st assoc s :
  CacheSection.new sid sz lsz st assoc = Some s -> section_sized s.
Proof.
  unfold CacheSection.new. destruct (_ || _); [discriminate|].
  intros [= <-]. split; simpl; try reflexivity.
  - lia.
Qed.

Lemma resize_sized m s n m' s' :
  section_wf m s -> section_sized s ->
  CacheSection.resize m s n = Some (m', s') -> section_sized s'.
Proof.
  intros Hwf Hs. unfold CacheSection.resize.
  destruct (n =? CacheSection.size s); [intros [= _ <-]; exact Hs|].
  destruct (_ || _); [discriminate|].
  pose proof (wf_shape _ _ Hwf) as Hshape.
  destruct (CacheSection.set_based (CacheSection.structure s)) eqn:Hsb;
    intros [= _ <-]; split; simpl; try reflexivity.
  - rewrite Hshape. simpl. lia.
  - rewrite Hsb. discriminate.
  - lia.
Qed.

Lemma router_step_sized st st' :
  router_step st st' ->
  cache_wf (fst st) (snd st) ->
  (forall sid s, ConfigurableCache.sections (snd st) !! sid = Some s -> section_sized s) ->
  forall sid s, ConfigurableCache.sections (snd st') !! sid = Some s -> section_sized s.
Proof.
  intros H. destruct H; simpl; intros Hwf Hall sid0 s0; try apply Hall.
  - rewrite lookup_insert. case_decide; [|apply Hall].
    intros [= <-]. eapply section_call_sized; eauto.
  - unfold ConfigurableCache.remove_section.
    destruct (_ =? _); [apply Hall|].
    destruct (ConfigurableCache.sections c !! sid) as [s|]; [|apply Hall].
    destruct (ConfigurableCache.erase_section_ranges _ _ _). simpl.
    intros H0. apply lookup_delete_Some in H0 as [_ H0]. eapply Hall, H0.
  - unfold ConfigurableCache.resize_section in H0.
    destruct (ConfigurableCache.sections c !! sid) as [s|] eqn:Hs;
      [|injection H0 as <- <-; apply Hall].
    destruct (if CacheSection.get_size s <? n then _ else _) as [n' av].
    destruct (CacheSection.resize m s n') as [[m1 s1]|] eqn:Hres; [|discriminate].
    simpl in H0. injection H0 as <- <-. simpl.
    rewrite lookup_insert. case_decide; [|apply Hall].
    intros [= <-]. eapply resize_sized; eauto. eapply wf_sections; eauto.
  - unfold ConfigurableCache.map_page_to_section.
    destruct (ConfigurableCache.sections c !! sid); apply Hall.
  - unfold ConfigurableCache.map_page_range_to_section.
    destruct (ConfigurableCache.sections c !! sid); [|apply Hall].
    destruct (ConfigurableCache.erase_overlapping _ _ _ _). apply Hall.
  - simpl. rewrite lookup_fmap.
    destruct (ConfigurableCache.sections c !! sid0) as [s1|] eqn:E; [|discriminate].
    intros [= <-]. destruct (Hall _ _ E) as [H1 H2 H3]. split; assumption.
Qed.

Lemma create_step_sized st st' :
  create_step st st' ->
  (forall sid s, ConfigurableCache.sections (snd st) !! sid = Some s -> section_sized s) ->
  forall sid s, ConfigurableCache.sections (snd st') !! sid = Some s -> section_sized s.
Proof.
  intros H. destruct H as [m c sz lsz st assoc m' c' sid Hsz Hassoc H1]. simpl.
  intros Hall sid0 s0. unfold ConfigurableCache.create_section in H1.
  destruct (CacheSection.new _ _ lsz st assoc) as [s|] eqn:Hnew; [|discriminate].
  simpl in H1. injection H1 as _ <- _. simpl.
  rewrite lookup_insert. case_decide; [|apply Hall].
  intros [= <-]. eapply new_section_sized, Hnew.
Qed.

Lemma length_concat_uniform {A} (ls : list (list A)) k :
  Forall (fun l => length l = k) ls -> length (concat ls) = (length ls * k)%nat.
Proof.
  induction 1 as [|l ls Hl _ IH]; simpl; [reflexivity|].
  rewrite length_app, IH, Hl. reflexivity.
Qed.

Lemma page_count_sets_bound m s :
  section_wf m s ->
  Z.of_nat (length (filter (fun e => CacheSection.valid e = true)
                           (concat (CacheSection.sets s))))
  <= CacheSection.num_sets s * CacheSection.associativity s.
Proof.
  intros Hwf.
  pose proof (wf_associativity _ _ Hwf). pose proof (wf_num_sets _ _ Hwf).
  pose proof (length_filter (fun e => CacheSection.valid e = true)
                (concat (CacheSection.sets s))) as Hf.
  destruct (wf_sets _ _ Hwf) as [He|[Hlen Hall]].
  - rewrite He in *. simpl in *. nia.
  - rewrite (length_concat_uniform _ _ Hall), Hlen in Hf. nia.
Qed.

(** X11: a section never holds more pages than its containers were sized
    for.  In every state reached from the constructor, [pages_capacity] is
    [size / line_size]; a fully associative section holds at most that many
    pages (one, when the quotient is zero); a direct-mapped or
    set-associative section has [size / (line_size * associativity)] sets
    (one, when the quotient is zero) and holds at most [num_sets *
    associativity] pages. *)
Theorem sections_stay_within_capacity total psz lsz ops m c sid s :
  0 <= total ->
  Forall op_typed ops ->
  cache_run ops (ConfigurableCache.new total psz lsz) = Some (m, c) ->
  ConfigurableCache.sections c !! sid = Some s ->
  CacheSection.pages_capacity s = CacheSection.size s / CacheSection.line_size s /\
  if CacheSection.set_based (CacheSection.structure s)
  then CacheSection.num_sets s = sets_for_size s /\
       CacheSection.page_count s
       <= CacheSection.num_sets s * CacheSection.associativity s
  else CacheSection.page_count s
       <= Z.max 1 (CacheSection.size s / CacheSection.line_size s).
Proof.
  intros Ht Hty Hrun Hs.
  destruct (ConfigurableCache.new total psz lsz) as [[m0 c0]|] eqn:Hnew;
    [|rewrite cache_run_None in Hrun; discriminate].
  assert (H : (cache_wf m c /\ 0 <= ConfigurableCache.available_size c) /\
              forall sid s, ConfigurableCache.sections c !! sid = Some s ->
                            section_sized s).
  { apply (cache_run_invariant
             (fun st => (cache_wf (fst st) (snd st) /\
                         0 <= ConfigurableCache.available_size (snd st)) /\
                        forall sid s,
                          ConfigurableCache.sections (snd st) !! sid = Some s ->
                          section_sized s)
             ops m0 c0 m c); auto.
    - intros st st' Hstep [Hwf Hall]. split; [eapply router_step_wf; eauto|].
      eapply router_step_sized; eauto. apply Hwf.
    - intros st st' Hstep [Hwf Hall]. split; [eapply create_step_wf; eauto|].
      eapply create_step_sized; eauto.
    - simpl. split; [split; [eapply new_cache_wf; eauto|]|].
      + unfold ConfigurableCache.new, ConfigurableCache.create_section in Hnew.
        destruct (CacheSection.new _ _ _ _ _); [|discriminate].
        simpl in Hnew. injection Hnew as _ <-. simpl. apply to_size_t_range.
      + unfold ConfigurableCache.new, ConfigurableCache.create_section in Hnew.
        destruct (CacheSection.new _ _ _ _ _) as [s0|] eqn:Hs0; [|discriminate].
        simpl in Hnew. injection Hnew as _ <-. simpl.
        intros sid1 s1. rewrite lookup_insert.
        case_decide; [|rewrite lookup_empty; discriminate].
        intros [= <-]. eapply new_section_sized, Hs0. }
  destruct H as [[Hwf _] Hall].
  pose proof (wf_sections _ _ Hwf _ _ Hs) as Hwfs.
  destruct (Hall _ _ Hs) as [Hcap Hsets Hpages].
  split; [exact Hcap|]. unfold CacheSection.page_count.
  destruct (CacheSection.set_based (CacheSection.structure s)).
  - split; [apply Hsets; reflexivity|]. eapply page_count_sets_bound, Hwfs.
  - rewrite <- Hcap. exact Hpages.
Qed.

Lemma sections_stay_within_capacity_witness :
  exists m c s,
    cache_run [CreateSection 8192 4096 CacheSection.DirectMapped 1;
               MapPageRangeToSection 100 199 1; PrefetchPage 100; FetchPage 100;
               PrefetchPage 101; PrefetchPage 102; PrefetchPage 103;
               FetchPage 103; PrefetchPage 1; PrefetchPage 2; FetchPage 1;
               PrefetchPage 3]
              (ConfigurableCache.new 12288 4096 4096) = Some (m, c) /\
    ConfigurableCache.sections c !! 1 = Some s /\
    CacheSection.page_count s
    <= CacheSection.num_sets s * CacheSection.associativity s.
Proof.
  destruct (cache_run _ (ConfigurableCache.new 12288 4096 4096)) as [[m c]|] eqn:H;
    [|vm_compute in H; discriminate].
  destruct (ConfigurableCache.sections c !! 1) as [s|] eqn:Hs;
    [|vm_compute in H; injection H as <- <-; vm_compute in Hs; discriminate].
  assert (Hsb : CacheSection.set_based (CacheSection.structure s) = true).
  { vm_compute in H. injection H as <- <-. vm_compute in Hs. injection Hs as <-.
    reflexivity. }
  match type of H with
  | cache_run ?ops _ = _ =>
      pose proof (sections_stay_within_capacity 12288 4096 4096 ops m c 1 s) as Hb
  end.
  rewrite Hsb in Hb. destruct Hb as (_ & _ & Hb).
  - lia.
  - repeat (constructor; simpl; try lia).
  - exact H.
  - exact Hs.
  - exists m, c, s. auto.
Defined.

(** ** The optimizer without statistics *)

Lemma length_insert_by_miss_rate x l :
  length (ConfigurableCache.insert_by_miss_rate x l) = S (length l).
Proof.
  induction l as [|y l IH]; simpl; [reflexivity|].
  destruct (ConfigurableCache.higher_miss_rate y x); simpl; [rewrite IH|]; reflexivity.
Qed.

Lemma length_sort_by_miss_rate l :
  length (ConfigurableCache.sort_by_miss_rate l) = length l.
Proof.
  unfold ConfigurableCache.sort_by_miss_rate.
  induction l as [|x l IH]; simpl; [reflexivity|].
  rewrite length_insert_by_miss_rate, IH. reflexivity.
Qed.

Lemma insert_by_miss_rate_Forall (P : Z * CacheSectionStats.t -> Prop) x l :
  P x -> Forall P l -> Forall P (ConfigurableCache.insert_by_miss_rate x l).
Proof.
  intros Hx. induction 1 as [|y l Hy Hl IH]; simpl; [repeat constructor; exact Hx|].
  destruct (ConfigurableCache.higher_miss_rate y x); repeat constructor; auto.
Qed.

Lemma sort_by_miss_rate_Forall (P : Z * CacheSectionStats.t -> Prop) l :
  Forall P l -> Forall P (ConfigurableCache.sort_by_miss_rate l).
Proof.
  unfold ConfigurableCache.sort_by_miss_rate.
  induction 1 as [|x l Hx Hl IH]; simpl; [constructor|].
  apply insert_by_miss_rate_Forall; assumption.
Qed.

Lemma total_miss_rate_zero order :
  Forall (fun x => CacheSectionStats.accesses (snd x) = 0) order ->
  ConfigurableCache.total_miss_rate order = PrimFloat.zero.
Proof.
  unfold ConfigurableCache.total_miss_rate.
  induction 1 as [|x l Hx Hl IH]; simpl; [reflexivity|].
  unfold CacheSectionStats.miss_rate at 2. rewrite Hx. simpl. exact IH.
Qed.

(** X12: without statistics the optimizer changes nothing.  When the cache
    has a single section, or when no section has recorded an access, as
    after [reset_all_stats], [optimize_section_sizes] returns with the cache
    and every page as they were. *)
Theorem optimizer_idle_without_statistics m c :
  (size (ConfigurableCache.sections c) <= 1)%nat \/
  (forall sid s, ConfigurableCache.sections c !! sid = Some s ->
                 CacheSectionStats.accesses (CacheSection.stats s) = 0) ->
  ConfigurableCache.optimize_section_sizes m c = Some (m, c).
Proof.
  intros H.
  unfold ConfigurableCache.optimize_section_sizes,
    ConfigurableCache.simple_size_optimization, ConfigurableCache.optimize_in_order.
  destruct (Nat.leb_spec (length (ConfigurableCache.sort_by_miss_rate
                                    (ConfigurableCache.collect_stats c))) 1)
    as [|Hlen]; [reflexivity|].
  destruct H as [H|H].
  - rewrite length_sort_by_miss_rate in Hlen.
    unfold ConfigurableCache.collect_stats in Hlen.
    rewrite length_map, length_map_to_list in Hlen. lia.
  - rewrite total_miss_rate_zero; [reflexivity|].
    apply sort_by_miss_rate_Forall. unfold ConfigurableCache.collect_stats.
    apply Forall_forall. intros x Hx.
    apply list_elem_of_In, in_map_iff in Hx as ([sid s] & <- & Hin).
    apply list_elem_of_In, elem_of_map_to_list in Hin. simpl.
    eapply H, Hin.
Qed.

Lemma optimizer_idle_without_statistics_witness :
  exists m c,
    cache_run [CreateSection 4096 4096 CacheSection.SetAssociative 2;
               MapPageRangeToSection 100 199 1; PrefetchPage 100; FetchPage 100;
               PrefetchPage 1; FetchPage 1]
              (ConfigurableCache.new 12288 4096 4096) = Some (m, c) /\
    size (ConfigurableCache.sections c) = 2%nat /\
    ConfigurableCache.optimize_section_sizes m (ConfigurableCache.reset_all_stats c)
    = Some (m, ConfigurableCache.reset_all_stats c).
Proof.
  destruct (cache_run _ (ConfigurableCache.new 12288 4096 4096)) as [[m c]|] eqn:H;
    [|vm_compute in H; discriminate].
  exists m, c. split; [reflexivity|].
  split; [vm_compute in H; injection H as <- <-; reflexivity|].
  apply optimizer_idle_without_statistics. right.
  intros sid s. unfold ConfigurableCache.reset_all_stats. simpl.
  rewrite lookup_fmap.
  destruct (ConfigurableCache.sections c !! sid); [|discriminate].
  intros [= <-]. reflexivity.
Defined.

(** ** [remove_section] *)

Lemma first_range_erase_section sid pid rs : forall ids rs2 ids2,
  ConfigurableCache.erase_section_ranges sid rs ids = (rs2, ids2) ->
  length rs = length ids ->
  (forall x, ConfigurableCache.first_range pid rs2 ids2 = Some x -> x <> sid) /\
  (ConfigurableCache.first_range pid rs ids <> Some sid ->
   ConfigurableCache.first_range pid rs2 ids2
   = ConfigurableCache.first_range pid rs ids).
Proof.
  induction rs as [|[lo hi] rs IH]; intros ids rs2 ids2; simpl.
  - intros [= <- <-] Hl. destruct ids; [|discriminate]. simpl.
    split; [discriminate|reflexivity].
  - destruct ids as [|sid' ids]; [discriminate|].
    destruct (ConfigurableCache.erase_section_ranges sid rs ids) as [rs3 ids3] eqn:E.
    intros H Hl. simpl in Hl.
    destruct (IH ids rs3 ids3 E) as [H1 H2]; [lia|].
    destruct (Z.eqb_spec sid' sid) as [->|Hne]; injection H as <- <-.
    + split; [exact H1|].
      destruct ((lo <=? pid) && (pid <=? hi)); [congruence|exact H2].
    + simpl. destruct ((lo <=? pid) && (pid <=? hi)).
      * split; [intros x [= <-]; exact Hne|reflexivity].
      * split; [exact H1|exact H2].
Qed.

(** X13: [remove_section] forgets the section.  Removing an existing section
    other than the default one erases it from [sections], returns its bytes
    to [available_size], destroys the pages it held and no others, and leaves
    no mapping to it: afterwards [get_section_for_page] never answers the
    removed identifier, and answers as before for every page that was not
    routed to it. *)
Theorem remove_section_forgets_the_section m c sid s :
  length (ConfigurableCache.page_ranges c)
  = length (ConfigurableCache.range_section_ids c) ->
  sid <> ConfigurableCache.default_section_id c ->
  ConfigurableCache.sections c !! sid = Some s ->
  let m' := fst (ConfigurableCache.remove_section m c sid) in
  let c' := snd (ConfigurableCache.remove_section m c sid) in
  ConfigurableCache.sections c' = delete sid (ConfigurableCache.sections c) /\
  ConfigurableCache.available_size c'
  = to_size_t (ConfigurableCache.available_size c + CacheSection.size s) /\
  (forall a, heap m' !! a
             = if decide (a ∈ (footprint s).*1) then None else heap m !! a) /\
  (forall pid, ConfigurableCache.get_section_for_page c' pid <> sid) /\
  (forall pid, ConfigurableCache.get_section_for_page c pid <> sid ->
               ConfigurableCache.get_section_for_page c' pid
               = ConfigurableCache.get_section_for_page c pid).
Proof.
  intros Hl Hne Hs. unfold ConfigurableCache.remove_section.
  destruct (Z.eqb_spec sid (ConfigurableCache.default_section_id c)) as [|_];
    [contradiction|].
  rewrite Hs.
  destruct (ConfigurableCache.erase_section_ranges sid _ _) as [rs ids] eqn:E.
  simpl. split; [reflexivity|]. split; [reflexivity|].
  split; [intros a; apply heap_free_section|].
  unfold ConfigurableCache.get_section_for_page. simpl. split.
  - intros pid.
    destruct (filter _ (ConfigurableCache.page_to_section_map c) !! pid) as [x|] eqn:Hx.
    + apply map_lookup_filter_Some in Hx as [_ Hx]. exact Hx.
    + destruct (first_range_erase_section sid pid _ _ _ _ E Hl) as [H1 _].
      destruct (ConfigurableCache.first_range pid rs ids) as [x|]; [|congruence].
      apply H1. reflexivity.
  - intros pid Hold.
    destruct (ConfigurableCache.page_to_section_map c !! pid) as [x|] eqn:Hx.
    + assert (Hf : filter (fun kv : Z * Z => snd kv <> sid)
                     (ConfigurableCache.page_to_section_map c) !! pid = Some x).
      { apply map_lookup_filter_Some. split; [exact Hx|exact Hold]. }
      rewrite Hf. reflexivity.
    + assert (Hf : filter (fun kv : Z * Z => snd kv <> sid)
                     (ConfigurableCache.page_to_section_map c) !! pid = None).
      { apply map_lookup_filter_None. left. exact Hx. }
      rewrite Hf.
      destruct (first_range_erase_section sid pid _ _ _ _ E Hl) as [_ H2].
      rewrite H2; [reflexivity|].
      intros Hr. rewrite Hr in Hold. apply Hold. reflexivity.
Qed.

Lemma remove_section_forgets_the_section_witness :
  exists m c s,
    cache_run [CreateSection 8192 4096 CacheSection.SetAssociative 2;
               MapPageRangeToSection 100 199 1; MapPageToSection 7 1;
               PrefetchPage 100; FetchPage 100; PrefetchPage 7; FetchPage 7;
               PrefetchPage 3]
              (ConfigurableCache.new 12288 4096 4096) = Some (m, c) /\
    ConfigurableCache.sections c !! 1 = Some s /\
    ConfigurableCache.get_section_for_page c 100 = 1 /\
    forall pid,
      ConfigurableCache.get_section_for_page
        (snd (ConfigurableCache.remove_section m c 1)) pid <> 1.
Proof.
  destruct (cache_run _ (ConfigurableCache.new 12288 4096 4096)) as [[m c]|] eqn:H;
    [|vm_compute in H; discriminate].
  destruct (ConfigurableCache.sections c !! 1) as [s|] eqn:Hs;
    [|vm_compute in H; injection H as <- <-; vm_compute in Hs; discriminate].
  exists m, c, s. split; [reflexivity|]. split; [exact Hs|].
  split; [vm_compute in H; injection H as <- <-; reflexivity|].
  apply (remove_section_forgets_the_section m c 1 s).
  - vm_compute in H. injection H as <- <-. reflexivity.
  - vm_compute in H. injection H as <- <-. discriminate.
  - exact Hs.
Defined.

(** ** The fully associative list is kept in order of use *)

Lemma map_delete {A B} (f : A -> B) i (l : list A) :
  map f (delete i l) = delete i (map f l).
Proof.
  revert i. induction l as [|x l IH]; intros [|i]; simpl; try reflexivity.
  f_equal. apply IH.
Qed.

Lemma delete_last_take {A} (l : list A) :
  delete (pred (length l)) l = take (pred (length l)) l.
Proof.
  induction l as [|x l IH]; [reflexivity|].
  destruct l as [|y l]; [reflexivity|].
  change (pred (length (x :: y :: l))) with (S (pred (length (y :: l)))).
  simpl in *. f_equal. exact IH.
Qed.

Lemma delete_insert_same {A} i (x : A) (l : list A) :
  delete i (<[i := x]> l) = delete i l.
Proof.
  revert i. induction l as [|y l IH]; intros [|i]; simpl; try reflexivity.
  f_equal. apply IH.
Qed.

Lemma fa_entries s :
  CacheSection.sets s = [] -> entries s = CacheSection.pages s.
Proof. unfold entries. intros ->. reflexivity. Qed.

Lemma fa_fetch_lru m s pid s1 r :
  section_wf m s -> NoDup (footprint s).*1 ->
  CacheSection.set_based (CacheSection.structure s) = false ->
  CacheSection.fetch_page s pid = Some (s1, r) ->
  exists a i,
    CacheSection.page_map s !! pid = Some a /\ r = Some a /\
    CacheSection.lru_order s !! i = Some pid /\
    CacheSection.lru_order s1 = lru_after s pid (Some i).
Proof.
  intros Hwf Hnd Hsb. unfold CacheSection.fetch_page. rewrite Hsb.
  destruct (CacheSection.page_map s !! pid) as [a|] eqn:Hpm;
    [|rewrite fetch_miss_undefined; discriminate].
  destruct (wf_page_map _ _ Hwf _ _ Hpm) as (e' & He' & Hp' & Hid').
  destruct (page_map_node _ _ _ _ Hwf Hpm) as [[i e] Hnode]. rewrite Hnode.
  pose proof Hnode as Hn. unfold CacheSection.node_at in Hn.
  apply find_first_Some in Hn as [Hi Hp]. apply bool_decide_eq_true in Hp.
  assert (Hv : CacheSection.valid e = true).
  { pose proof (wf_pages_valid _ _ Hwf) as Hall.
    exact (Forall_lookup_1 _ _ _ _ Hall Hi). }
  rewrite Hv, Hp. simpl. intros [= <- <-]. exists a, i.
  split; [reflexivity|]. split; [reflexivity|].
  assert (He : e = e').
  { apply list_elem_of_lookup in He' as [j Hj].
    pose proof (wf_shape _ _ Hwf) as Hshape. rewrite Hsb in Hshape.
    unfold footprint in Hnd. rewrite footprint_of_fst, (fa_entries _ Hshape) in Hnd.
    pose proof (omap_NoDup_index _ _ Hnd i j e e' a Hi Hj Hp Hp') as ->.
    congruence. }
  subst e'. unfold CacheSection.lru_order, lru_after. simpl. split.
  - rewrite list_lookup_fmap, Hi. simpl. rewrite Hid'. reflexivity.
  - unfold CacheSection.splice_front. rewrite Hi. simpl.
    rewrite Hid', map_delete. reflexivity.
Qed.

Lemma fa_allocate_lru m s pid m1 s1 r :
  CacheSection.set_based (CacheSection.structure s) = false ->
  CacheSection.allocate_page m s pid = Some (m1, s1, r) ->
  CacheSection.lru_order s1 = lru_after s pid None.
Proof.
  intros Hsb. unfold CacheSection.allocate_page, lru_after, CacheSection.lru_order.
  rewrite Hsb, length_map.
  destruct (Z.ltb_spec (Z.of_nat (length (CacheSection.pages s)))
              (CacheSection.pages_capacity s)) as [Hlt|Hge].
  - unfold CacheSection.create_page, alloc. intros [= _ <- _]. simpl.
    destruct (Z.ltb_spec (Z.of_nat (length (CacheSection.pages s)))
                (Z.max 1 (CacheSection.pages_capacity s))); [reflexivity|lia].
  - destruct (CacheSection.pages s) as [|e0 ps0] eqn:Hps.
    + unfold CacheSection.create_page, alloc. intros [= _ <- _]. simpl.
      destruct (_ <? _); reflexivity.
    + rewrite <- Hps in *.
      assert (Hfv : CacheSection.find_victim_in_fully_associative s
                    = (e ← last (CacheSection.pages s);
                       Some (pred (length (CacheSection.pages s)), e))).
      { unfold CacheSection.find_victim_in_fully_associative. rewrite Hps. reflexivity. }
      rewrite Hfv.
      destruct (last (CacheSection.pages s)) as [victim|] eqn:Hlast; [|discriminate].
      cbn [mbind option_bind]. unfold CacheSection.create_page, alloc.
      intros [= _ <- _]. simpl.
      destruct (Z.ltb_spec (Z.of_nat (length (CacheSection.pages s)))
                  (Z.max 1 (CacheSection.pages_capacity s))) as [Hlt|_].
      { rewrite Hps in Hlt, Hge. simpl length in *. lia. }
      unfold CacheSection.splice_front.
      rewrite list_lookup_insert_eq
        by (rewrite Hps; simpl; lia).
      simpl. f_equal.
      rewrite delete_insert_same, map_delete, <- (length_map CacheSection.id).
      apply delete_last_take.
Qed.

Lemma fa_prefetch_lru m s pid m1 s1 :
  CacheSection.set_based (CacheSection.structure s) = false ->
  CacheSection.prefetch_page m s pid = Some (m1, s1) ->
  CacheSection.lru_order s1
  = match CacheSection.page_map s !! pid with
    | Some _ => CacheSection.lru_order s
    | None => lru_after s pid None
    end.
Proof.
  intros Hsb. unfold CacheSection.prefetch_page, lru_after, CacheSection.lru_order.
  rewrite Hsb, length_map.
  destruct (CacheSection.page_map s !! pid) as [a|]; [intros [= _ <-]; reflexivity|].
  destruct (Z.ltb_spec (Z.of_nat (length (CacheSection.pages s)))
              (CacheSection.pages_capacity s)) as [Hlt|Hge].
  - unfold CacheSection.create_page, alloc. intros [= _ <-]. simpl.
    destruct (Z.ltb_spec (Z.of_nat (length (CacheSection.pages s)))
                (Z.max 1 (CacheSection.pages_capacity s))); [reflexivity|lia].
  - destruct (CacheSection.pages s) as [|e0 ps0] eqn:Hps.
    { unfold CacheSection.find_victim_in_fully_associative. rewrite Hps.
      discriminate. }
    rewrite <- Hps in *.
    assert (Hfv : CacheSection.find_victim_in_fully_associative s
                  = (e ← last (CacheSection.pages s);
                     Some (pred (length (CacheSection.pages s)), e))).
    { unfold CacheSection.find_victim_in_fully_associative. rewrite Hps. reflexivity. }
    rewrite Hfv.
    destruct (last (CacheSection.pages s)) as [victim|] eqn:Hlast; [|discriminate].
    cbn [mbind option_bind]. unfold CacheSection.create_page, alloc.
    intros [= _ <-]. simpl.
    destruct (Z.ltb_spec (Z.of_nat (length (CacheSection.pages s)))
                (Z.max 1 (CacheSection.pages_capacity s))) as [Hlt|_].
    { rewrite Hps in Hlt, Hge. simpl length in *. lia. }
    unfold CacheSection.splice_front.
    rewrite list_lookup_insert_eq
      by (rewrite Hps; simpl; lia).
    simpl. f_equal.
    rewrite delete_insert_same, map_delete, <- (length_map CacheSection.id).
    apply delete_last_take.
Qed.

(** X14: a fully associative section is kept in order of use.  In every
    state reached from the constructor, when [fetch_page(id)] is served by a
    fully associative section and returns, [id] was in the section's list
    and is at its front afterwards: the page is moved there from its
    position and the order of the other pages is kept.  When
    [prefetch_page(id)] brings a page into the section, the page is put at
    the front, and when the section is full the page at the back - the
    least recently used - is the one that is dropped; a prefetch of a page
    already held leaves the order as it is. *)
Theorem fully_associative_sections_are_lru total psz lsz ops m c pid sid s :
  0 <= total ->
  Forall op_typed ops ->
  cache_run ops (ConfigurableCache.new total psz lsz) = Some (m, c) ->
  ConfigurableCache.find_section_for_page c pid = Some sid ->
  ConfigurableCache.sections c !! sid = Some s ->
  CacheSection.structure s = CacheSection.FullyAssociative ->
  (forall m' c' r,
      ConfigurableCache.fetch_page m c pid = Some (m', c', r) ->
      exists s' i,
        ConfigurableCache.sections c' !! sid = Some s' /\
        CacheSection.lru_order s !! i = Some pid /\
        CacheSection.lru_order s' = lru_after s pid (Some i)) /\
  (forall m' c',
      ConfigurableCache.prefetch_page m c pid = Some (m', c') ->
      exists s',
        ConfigurableCache.sections c' !! sid = Some s' /\
        CacheSection.lru_order s'
        = match CacheSection.page_map s !! pid with
          | Some _ => CacheSection.lru_order s
          | None => lru_after s pid None
          end).
Proof.
  intros Ht Hty Hrun Hfind Hs Hst.
  destruct (cache_run_owned _ _ _ _ _ _ Ht Hty Hrun) as [Hwf Ho].
  pose proof (wf_sections _ _ Hwf _ _ Hs) as Hwfs.
  pose proof (ho_unique _ _ Ho _ _ Hs) as Hnd.
  assert (Hsb : CacheSection.set_based (CacheSection.structure s) = false)
    by (rewrite Hst; reflexivity).
  split.
  - intros m' c' r.
    unfold ConfigurableCache.fetch_page. rewrite Hfind. simpl. rewrite Hs. simpl.
    destruct (CacheSection.fetch_page s pid) as [[s1 pg]|] eqn:Hf; [|discriminate].
    simpl.
    destruct (fa_fetch_lru _ _ _ _ _ Hwfs Hnd Hsb Hf) as (a & i & _ & -> & Hi & Hl).
    intros [= <- <- <-]. exists s1, i. simpl. rewrite lookup_insert_eq. auto.
  - intros m' c'.
    unfold ConfigurableCache.prefetch_page. rewrite Hfind. simpl. rewrite Hs. simpl.
    destruct (CacheSection.prefetch_page m s pid) as [[m1 s1]|] eqn:Hp; [|discriminate].
    simpl. intros [= <- <-]. exists s1. simpl. rewrite lookup_insert_eq.
    split; [reflexivity|]. eapply fa_prefetch_lru; eauto.
Qed.

Lemma fully_associative_sections_are_lru_witness :
  exists m c m1 c1 r m2 c2 s s1 s2,
    cache_run [PrefetchPage 1; PrefetchPage 2; PrefetchPage 3; FetchPage 1]
              (ConfigurableCache.new 12288 4096 4096) = Some (m, c) /\
    ConfigurableCache.fetch_page m c 3 = Some (m1, c1, r) /\
    ConfigurableCache.prefetch_page m c 4 = Some (m2, c2) /\
    ConfigurableCache.sections c !! 0 = Some s /\
    ConfigurableCache.sections c1 !! 0 = Some s1 /\
    ConfigurableCache.sections c2 !! 0 = Some s2 /\
    CacheSection.lru_order s = [1; 3; 2] /\
    CacheSection.lru_order s1 = [3; 1; 2] /\
    CacheSection.lru_order s2 = [4; 1; 3].
Proof.
  destruct (cache_run _ (ConfigurableCache.new 12288 4096 4096)) as [[m c]|] eqn:H;
    [|vm_compute in H; discriminate].
  destruct (ConfigurableCache.fetch_page m c 3) as [[[m1 c1] r]|] eqn:Hf;
    [|vm_compute in H; injection H as <- <-; vm_compute in Hf; discriminate].
  destruct (ConfigurableCache.prefetch_page m c 4) as [[m2 c2]|] eqn:Hp;
    [|vm_compute in H; injection H as <- <-; vm_compute in Hp; discriminate].
  destruct (ConfigurableCache.sections c !! 0) as [s|] eqn:Hs;
    [|vm_compute in H; injection H as <- <-; vm_compute in Hs; discriminate].
  assert (Hlru : CacheSection.lru_order s = [1; 3; 2]).
  { vm_compute in H. injection H as <- <-. vm_compute in Hs. injection Hs as <-.
    reflexivity. }
  assert (Hcap : CacheSection.pages_capacity s = 3).
  { vm_compute in H. injection H as <- <-. vm_compute in Hs. injection Hs as <-.
    reflexivity. }
  assert (Hpm : CacheSection.page_map s !! 4 = None).
  { vm_compute in H. injection H as <- <-. vm_compute in Hs. injection Hs as <-.
    reflexivity. }
  match type of H with
  | cache_run ?ops _ = _ =>
      destruct (fully_associative_sections_are_lru 12288 4096 4096 ops m c 3 0 s)
        as [Hfetch _];
      [| | | | | |
       destruct (fully_associative_sections_are_lru 12288 4096 4096 ops m c 4 0 s)
         as [_ Hprefetch]]
  end.
  1, 7: lia.
  1, 6: repeat (constructor; simpl; try lia).
  1, 5: exact H.
  1, 4: vm_compute in H; injection H as <- <-; reflexivity.
  1, 3: exact Hs.
  1, 2: vm_compute in H; injection H as <- <-; vm_compute in Hs; injection Hs as <-;
        reflexivity.
  destruct (Hfetch m1 c1 r Hf) as (s1 & i & Hs1 & Hi & Hl1).
  destruct (Hprefetch m2 c2 Hp) as (s2 & Hs2 & Hl2).
  exists m, c, m1, c1, r, m2, c2, s, s1, s2.
  do 4 (split; [first [assumption|reflexivity]|]).
  split; [exact Hs1|]. split; [exact Hs2|].
  split; [exact Hlru|]. split.
  - rewrite Hl1. unfold lru_after. rewrite Hlru in Hi |- *.
    destruct i as [|[|[|i]]]; try discriminate. reflexivity.
  - rewrite Hl2, Hpm. unfold lru_after. rewrite Hlru, Hcap. reflexivity.
Defined.

(** ** Prefetching *)

Lemma backed_fresh_sets n a : Forall (Forall backed_entry) (CacheSection.fresh_sets n a).
Proof.
  unfold CacheSection.fresh_sets. apply Forall_forall. intros set Hset.
  apply elem_of_replicate in Hset as [-> _]. apply Forall_forall. intros e He.
  apply elem_of_replicate in He as [-> _]. intros Hv. discriminate.
Qed.

Lemma backed_insert (sets : list (list CacheSection.CacheEntry)) i set j e :
  Forall (Forall backed_entry) sets -> sets !! i = Some set -> backed_entry e ->
  Forall (Forall backed_entry) (<[i := <[j := e]> set]> sets).
Proof.
  intros Hall Hi He. apply Forall_insert; [exact Hall|].
  apply Forall_insert; [|exact He]. exact (Forall_lookup_1 _ _ _ _ Hall Hi).
Qed.

Lemma backed_bit_cleared set set' :
  Forall2 bit_cleared set set' -> Forall backed_entry set -> Forall backed_entry set'.
Proof.
  induction 1 as [|e e' l l' (Hp & _ & Hv & _) _ IH]; intros H; [constructor|].
  inversion H as [|? ? He Hl]; subst. constructor; [|apply IH, Hl].
  unfold backed_entry. rewrite Hp, Hv. exact He.
Qed.

Lemma find_victim_in_set_backed m s i m' s' v :
  CacheSection.find_victim_in_set m s i = Some (m', s', v) ->
  backed s -> backed s'.
Proof.
  intros H Hb.
  destruct (find_victim_in_set_bits _ _ _ _ _ _ H)
    as (set & set' & Hset & Hsets & Hbits & _).
  unfold backed. rewrite Hsets. apply Forall_insert; [exact Hb|].
  eapply backed_bit_cleared; [exact Hbits|].
  exact (Forall_lookup_1 _ _ _ _ Hb Hset).
Qed.

Lemma backed_new_entry a pid r :
  backed_entry (CacheSection.mkEntry (Some a) pid true r).
Proof. intros _. simpl. eauto. Qed.

Lemma fetch_page_backed s pid s' r :
  CacheSection.fetch_page s pid = Some (s', r) -> backed s -> backed s'.
Proof.
  unfold CacheSection.fetch_page, backed. intros H Hb.
  destruct (CacheSection.set_based (CacheSection.structure s)).
  - destruct (CacheSection.sets s) as [|x l] eqn:E; [injection H as <- _; rewrite E; exact Hb|].
    rewrite <- E in *.
    destruct (CacheSection.sets s !! _) as [set|] eqn:Hset; [|discriminate]. simpl in H.
    destruct (find_first _ set) as [[j e]|] eqn:Hf;
      [|rewrite fetch_miss_undefined in H; discriminate].
    injection H as <- _. simpl. apply backed_insert; [exact Hb|exact Hset|].
    apply find_first_Some in Hf as [Hj _].
    pose proof (Forall_lookup_1 _ _ _ _ (Forall_lookup_1 _ _ _ _ Hb Hset) Hj) as He.
    exact He.
  - break_matches; exact Hb.
Qed.

Lemma allocate_page_backed m s pid m' s' r :
  CacheSection.allocate_page m s pid = Some (m', s', r) -> backed s -> backed s'.
Proof.
  unfold CacheSection.allocate_page. intros H Hb.
  destruct (CacheSection.set_based (CacheSection.structure s)).
  - set (s1 := match CacheSection.sets s with [] => _ | _ => s end) in H.
    assert (Hb1 : backed s1).
    { subst s1. destruct (CacheSection.sets s) eqn:E; [apply backed_fresh_sets|exact Hb]. }
    clearbody s1.
    destruct (CacheSection.sets s1 !! _) as [set|] eqn:Hset; [|discriminate]. simpl in H.
    destruct (find_first _ set) as [[j e]|].
    + injection H as _ <- _. apply backed_insert; auto using backed_new_entry.
    + destruct (CacheSection.find_victim_in_set m s1 _) as [[[m1 s2] v]|] eqn:Hv;
        [|discriminate].
      apply find_victim_in_set_backed in Hv; [|exact Hb1]. simpl in H.
      destruct (CacheSection.sets s2 !! _) as [set2|] eqn:Hset2; [|discriminate].
      simpl in H. destruct (set2 !! v) as [victim|]; [|discriminate]. simpl in H.
      injection H as _ <- _. apply backed_insert; auto using backed_new_entry.
  - break_matches; exact Hb.
Qed.

Lemma prefetch_page_backed m s pid m' s' :
  CacheSection.prefetch_page m s pid = Some (m', s') -> backed s -> backed s'.
Proof.
  unfold CacheSection.prefetch_page. intros H Hb.
  destruct (CacheSection.set_based (CacheSection.structure s)).
  - destruct (CacheSection.sets s !! _) as [set|] eqn:Hset; [|discriminate]. simpl in H.
    destruct (find_first _ set) as [[j0 e0]|]; [injection H as _ <-; exact Hb|].
    destruct (find_first _ set) as [[j e]|].
    + injection H as _ <-. apply backed_insert; auto using backed_new_entry.
    + destruct (CacheSection.find_victim_in_set m s _) as [[[m1 s2] v]|] eqn:Hv;
        [|discriminate].
      apply find_victim_in_set_backed in Hv; [|exact Hb]. simpl in H.
      destruct (CacheSection.sets s2 !! _) as [set2|] eqn:Hset2; [|discriminate].
      simpl in H. destruct (set2 !! v) as [victim|]; [|discriminate]. simpl in H.
      destruct (CacheSection.page victim) as [a0|]; [|discriminate]. simpl in H.
      destruct (heap m1 !! a0) as [p0|]; [|discriminate]. simpl in H.
      injection H as _ <-. apply backed_insert; auto using backed_new_entry.
  - break_matches; exact Hb.
Qed.

Lemma section_call_backed m s m' s' :
  section_call m s m' s' -> backed s -> backed s'.
Proof.
  intros [m0 s0 pid s1 r H|m0 s0 pid m1 s1 r Hsb0 Hempty0 H|m0 s0 pid m1 s1 H].
  - eapply fetch_page_backed, H.
  - unfold CacheSection.new_page in H. intros Hb.
    eapply allocate_page_backed; [exact H|exact Hb].
  - eapply prefetch_page_backed, H.
Qed.

Lemma resize_backed m s n m' s' :
  CacheSection.resize m s n = Some (m', s') -> backed s -> backed s'.
Proof.
  unfold CacheSection.resize. intros H Hb.
  destruct (n =? CacheSection.size s); [injection H as _ <-; exact Hb|].
  destruct (_ || _); [discriminate|].
  destruct (CacheSection.set_based (CacheSection.structure s)); injection H as _ <-.
  - apply backed_fresh_sets.
  - exact Hb.
Qed.

Lemma new_backed sid sz lsz st assoc s :
  CacheSection.new sid sz lsz st assoc = Some s -> backed s.
Proof.
  unfold CacheSection.new. destruct (_ || _); [discriminate|].
  intros [= <-]. unfold backed. simpl.
  destruct (CacheSection.set_based st); [apply backed_fresh_sets|constructor].
Qed.

Lemma router_step_backed st st' :
  router_step st st' ->
  (forall sid s, ConfigurableCache.sections (snd st) !! sid = Some s -> backed s) ->
  forall sid s, ConfigurableCache.sections (snd st') !! sid = Some s -> backed s.
Proof.
  intros H. destruct H; simpl; intros Hall sid0 s0; try apply Hall.
  - rewrite lookup_insert. case_decide; [|apply Hall].
    intros [= <-]. eapply section_call_backed; eauto.
  - unfold ConfigurableCache.remove_section.
    destruct (_ =? _); [apply Hall|].
    destruct (ConfigurableCache.sections c !! sid) as [s|]; [|apply Hall].
    destruct (ConfigurableCache.erase_section_ranges _ _ _). simpl.
    intros H0. apply lookup_delete_Some in H0 as [_ H0]. eapply Hall, H0.
  - unfold ConfigurableCache.resize_section in H0.
    destruct (ConfigurableCache.sections c !! sid) as [s|] eqn:Hs;
      [|injection H0 as <- <-; apply Hall].
    destruct (if CacheSection.get_size s <? n then _ else _) as [n' av].
    destruct (CacheSection.resize m s n') as [[m1 s1]|] eqn:Hres; [|discriminate].
    simpl in H0. injection H0 as <- <-. simpl.
    rewrite lookup_insert. case_decide; [|apply Hall].
    intros [= <-]. eapply resize_backed; eauto.
  - unfold ConfigurableCache.map_page_to_section.
    destruct (ConfigurableCache.sections c !! sid); apply Hall.
  - unfold ConfigurableCache.map_page_range_to_section.
    destruct (ConfigurableCache.sections c !! sid); [|apply Hall].
    destruct (ConfigurableCache.erase_overlapping _ _ _ _). apply Hall.
  - simpl. rewrite lookup_fmap.
    destruct (ConfigurableCache.sections c !! sid0) as [s1|] eqn:E; [|discriminate].
    intros [= <-]. exact (Hall _ _ E).
Qed.

Lemma create_step_backed st st' :
  create_step st st' ->
  (forall sid s, ConfigurableCache.sections (snd st) !! sid = Some s -> backed s) ->
  forall sid s, ConfigurableCache.sections (snd st') !! sid = Some s -> backed s.
Proof.
  intros H. destruct H as [m c sz lsz st assoc m' c' sid Hsz Hassoc H1]. simpl.
  intros Hall sid0 s0. unfold ConfigurableCache.create_section in H1.
  destruct (CacheSection.new _ _ lsz st assoc) as [s|] eqn:Hnew; [|discriminate].
  simpl in H1. injection H1 as _ <- _. simpl.
  rewrite lookup_insert. case_decide; [|apply Hall].
  intros [= <-]. eapply new_backed, Hnew.
Qed.

Lemma cache_run_backed total psz lsz ops m c :
  0 <= total ->
  Forall op_typed ops ->
  cache_run ops (ConfigurableCache.new total psz lsz) = Some (m, c) ->
  cache_wf m c /\
  forall sid s, ConfigurableCache.sections c !! sid = Some s -> backed s.
Proof.
  intros Ht Hty Hrun.
  destruct (ConfigurableCache.new total psz lsz) as [[m0 c0]|] eqn:Hnew;
    [|rewrite cache_run_None in Hrun; discriminate].
  assert (H : (cache_wf m c /\ 0 <= ConfigurableCache.available_size c) /\
              forall sid s, ConfigurableCache.sections c !! sid = Some s -> backed s).
  { apply (cache_run_invariant
             (fun st => (cache_wf (fst st) (snd st) /\
                         0 <= ConfigurableCache.available_size (snd st)) /\
                        forall sid s,
                          ConfigurableCache.sections (snd st) !! sid = Some s ->
                          backed s)
             ops m0 c0 m c); auto.
    - intros st st' Hstep [Hwf Hall]. split; [eapply router_step_wf; eauto|].
      eapply router_step_backed; eauto.
    - intros st st' Hstep [Hwf Hall]. split; [eapply create_step_wf; eauto|].
      eapply create_step_backed; eauto.
    - simpl. split; [split; [eapply new_cache_wf; eauto|]|].
      + unfold ConfigurableCache.new, ConfigurableCache.create_section in Hnew.
        destruct (CacheSection.new _ _ _ _ _); [|discriminate].
        simpl in Hnew. injection Hnew as _ <-. simpl. apply to_size_t_range.
      + unfold ConfigurableCache.new, ConfigurableCache.create_section in Hnew.
        destruct (CacheSection.new _ _ _ _ _) as [s0|] eqn:Hs0; [|discriminate].
        simpl in Hnew. injection Hnew as _ <-. simpl.
        intros sid1 s1. rewrite lookup_insert.
        case_decide; [|rewrite lookup_empty; discriminate].
        intros [= <-]. eapply new_backed, Hs0. }
  destruct H as [[Hwf _] Hall]. auto.
Qed.

Lemma prefetch_then_hit m s pid m1 s1 :
  section_wf m s -> backed s ->
  CacheSection.prefetch_page m s pid = Some (m1, s1) ->
  CacheSection.stats s1 = CacheSection.stats s /\
  exists s2 a,
    CacheSection.fetch_page s1 pid = Some (s2, Some a) /\
    CacheSection.stats s2 = CacheSectionStats.record_hit (CacheSection.stats s1).
Proof.
  intros Hwf Hb Hpre.
  split; [eapply section_prefetch_page_stats, Hpre|].
  revert Hpre. unfold CacheSection.prefetch_page.
  destruct (CacheSection.set_based (CacheSection.structure s)) eqn:Hsb.
  - destruct (CacheSection.sets s !! Z.to_nat (CacheSection.get_set_index s pid))
      as [set|] eqn:Hset; [|discriminate]. simpl.
    assert (Hhit : forall s' set' e',
              CacheSection.set_based (CacheSection.structure s') = true ->
              CacheSection.get_set_index s' pid = CacheSection.get_set_index s pid ->
              CacheSection.sets s' !! Z.to_nat (CacheSection.get_set_index s pid)
              = Some set' ->
              e' ∈ set' -> CacheSection.entry_hit pid e' = true ->
              exists s2 a,
                CacheSection.fetch_page s' pid = Some (s2, Some a) /\
                CacheSection.stats s2
                = CacheSectionStats.record_hit (CacheSection.stats s')).
    { intros s' set' e' Hsb' Hidx Hset' He' Hh.
      destruct (find_first_is_Some _ _ _ He' Hh) as [[j e] Hf].
      pose proof (find_first_Some _ _ _ _ Hf) as [_ Hhe].
      unfold CacheSection.entry_hit in Hhe.
      apply andb_true_iff in Hhe as [_ Hpg]. apply bool_decide_eq_true in Hpg.
      destruct Hpg as [a Ha].
      destruct (set_fetch_hit s' pid _ set' j e a Hsb' eq_refl) as (s2 & H1 & H2);
        [rewrite Hidx; exact Hset'|exact Hf|exact Ha|].
      eauto. }
    destruct (find_first (fun e => CacheSection.valid e && (CacheSection.id e =? pid)) set)
      as [[j0 e0]|] eqn:Hpresent.
    + intros [= <- <-]. apply find_first_Some in Hpresent as [Hj0 Hp0].
      apply andb_true_iff in Hp0 as [Hv0 Hid0].
      apply (Hhit s set e0); auto.
      * eapply list_elem_of_lookup_2, Hj0.
      * unfold CacheSection.entry_hit. rewrite Hv0, Hid0. simpl.
        apply bool_decide_eq_true.
        exact (Forall_lookup_1 _ _ _ _ (Forall_lookup_1 _ _ _ _ Hb Hset) Hj0 Hv0).
    + destruct (find_first (fun e => negb (CacheSection.valid e)) set)
        as [[j e]|] eqn:Hfree.
      * apply find_first_Some in Hfree as [Hj _].
        unfold CacheSection.create_page, alloc. simpl. intros [= <- <-].
        eapply (Hhit _ _ (CacheSection.mkEntry (Some (next_addr m)) pid true
                            (CacheSection.referenced e))); try reflexivity.
        -- exact Hsb.
        -- simpl. apply list_lookup_insert_eq. eapply lookup_lt_Some, Hset.
        -- eapply list_elem_of_lookup_2, list_lookup_insert_eq, lookup_lt_Some, Hj.
        -- unfold CacheSection.entry_hit. simpl. rewrite Z.eqb_refl. reflexivity.
      * destruct (find_victim_in_set_total m s _ set Hwf Hset)
          as (m2 & s2 & v & set2 & Hfv & Hheap & Hnext & Hwf2 & Hls2 & Hset2 & Hv).
        rewrite Hfv. simpl. rewrite Hset2. simpl.
        destruct (set2 !! v) as [victim|] eqn:Hvictim; [|discriminate]. simpl.
        destruct (CacheSection.page victim) as [a0|] eqn:Hpv; [|discriminate]. simpl.
        destruct (heap m2 !! a0) as [p0|]; [|discriminate]. simpl.
        pose proof (find_victim_in_set_config _ _ _ _ _ _ Hfv) as Hcfg.
        unfold CacheSection.create_page, alloc. simpl. intros [= <- <-].
        eapply (Hhit _ _ (CacheSection.mkEntry _ pid true false)).
        -- simpl. rewrite (cfg_structure _ _ Hcfg). exact Hsb.
        -- unfold CacheSection.get_set_index. simpl.
           rewrite (cfg_num_sets _ _ Hcfg). reflexivity.
        -- simpl. apply list_lookup_insert_eq. eapply lookup_lt_Some, Hset2.
        -- eapply list_elem_of_lookup_2, list_lookup_insert_eq. exact Hv.
        -- unfold CacheSection.entry_hit. simpl. rewrite Z.eqb_refl. reflexivity.
  - destruct (CacheSection.page_map s !! pid) as [a0|] eqn:Hpm.
    + intros [= <- <-].
      destruct (page_map_node _ _ _ _ Hwf Hpm) as [[i e] Hnode].
      pose proof Hnode as Hn. unfold CacheSection.node_at in Hn.
      apply find_first_Some in Hn as [Hi Hp]. apply bool_decide_eq_true in Hp.
      assert (Hv : CacheSection.valid e = true).
      { exact (Forall_lookup_1 _ _ _ _ (wf_pages_valid _ _ Hwf) Hi). }
      unfold CacheSection.fetch_page. rewrite Hsb, Hpm, Hnode, Hv, Hp. simpl.
      eexists _, a0. split; reflexivity.
    + destruct (Z.of_nat (length (CacheSection.pages s)) <? CacheSection.pages_capacity s).
      * unfold CacheSection.create_page, alloc. simpl. intros [= <- <-].
        destruct (fa_fetch_hit
                    (CacheSection.with_pages
                       (CacheSection.mkEntry (Some (next_addr m)) pid true false
                          :: CacheSection.pages s)
                       (<[pid := next_addr m]> (CacheSection.page_map s)) s)
                    pid (next_addr m) _ _ Hsb (lookup_insert_eq _ _ _) eq_refl
                    eq_refl eq_refl) as (s2 & H1 & H2).
        eauto.
      * unfold CacheSection.find_victim_in_fully_associative.
        destruct (CacheSection.pages s) as [|e0 ps0] eqn:Hps; [discriminate|].
        rewrite <- Hps.
        destruct (last (CacheSection.pages s)) as [victim|] eqn:Hlast; [|discriminate].
        cbn [mbind option_bind].
        unfold CacheSection.create_page, alloc. simpl. intros [= <- <-].
        set (n1 := next_addr (if owned_dirty (CacheSection.page victim) m
                              then owned_clean (CacheSection.page victim) m else m)).
        assert (Hlt : (pred (length (CacheSection.pages s))
                       < length (CacheSection.pages s))%nat)
          by (rewrite Hps; simpl; lia).
        destruct (fa_fetch_hit
                    (CacheSection.with_pages
                       (CacheSection.splice_front (pred (length (CacheSection.pages s)))
                          (<[pred (length (CacheSection.pages s))
                             := CacheSection.mkEntry (Some n1) pid true
                                  (CacheSection.referenced victim)]>
                             (CacheSection.pages s)))
                       (<[pid := n1]>
                          (delete (CacheSection.id victim) (CacheSection.page_map s))) s)
                    pid n1
                    (CacheSection.mkEntry (Some n1) pid true
                       (CacheSection.referenced victim))
                    (delete (pred (length (CacheSection.pages s)))
                       (<[pred (length (CacheSection.pages s))
                          := CacheSection.mkEntry (Some n1) pid true
                               (CacheSection.referenced victim)]>
                          (CacheSection.pages s)))
                    Hsb (lookup_insert_eq _ _ _)) as (s2 & H1 & H2);
          [|reflexivity|reflexivity|eauto].
        simpl. unfold CacheSection.splice_front.
        rewrite list_lookup_insert_eq by exact Hlt. reflexivity.
Qed.

(** X15: a prefetched page is a hit.  In every state reached from the
    constructor, when [prefetch_page(id)] returns, it has left the
    statistics of the section that serves [id] as they were, and the next
    [fetch_page(id)] finds the page there: it returns a page without creating
    one and the section records a hit. *)
Theorem prefetched_page_is_a_hit total psz lsz ops m c pid m1 c1 :
  0 <= total ->
  Forall op_typed ops ->
  cache_run ops (ConfigurableCache.new total psz lsz) = Some (m, c) ->
  ConfigurableCache.prefetch_page m c pid = Some (m1, c1) ->
  exists sid s s1 c2 s2 a,
    ConfigurableCache.find_section_for_page c pid = Some sid /\
    ConfigurableCache.sections c !! sid = Some s /\
    ConfigurableCache.sections c1 !! sid = Some s1 /\
    CacheSection.stats s1 = CacheSection.stats s /\
    ConfigurableCache.fetch_page m1 c1 pid = Some (m1, c2, Some a) /\
    ConfigurableCache.sections c2 !! sid = Some s2 /\
    CacheSection.stats s2 = CacheSectionStats.record_hit (CacheSection.stats s1).
Proof.
  intros Ht Hty Hrun.
  destruct (cache_run_backed _ _ _ _ _ _ Ht Hty Hrun) as [Hwf Hb].
  unfold ConfigurableCache.prefetch_page.
  destruct (ConfigurableCache.find_section_for_page c pid) as [sid|] eqn:Hfind;
    [|discriminate].
  simpl. destruct (ConfigurableCache.sections c !! sid) as [s|] eqn:Hs; [|discriminate].
  simpl. destruct (CacheSection.prefetch_page m s pid) as [[m2 s1]|] eqn:Hpre;
    [|discriminate].
  simpl. intros [= <- <-].
  destruct (prefetch_then_hit _ _ _ _ _ (wf_sections _ _ Hwf _ _ Hs) (Hb _ _ Hs) Hpre)
    as (Hst & s2 & a & Hfetch & Hst2).
  set (c1 := ConfigurableCache.with_sections
               (<[sid := s1]> (ConfigurableCache.sections c)) c).
  exists sid, s, s1,
    (ConfigurableCache.with_sections
       (<[sid := s2]> (ConfigurableCache.sections c1)) c1), s2, a.
  split; [reflexivity|]. split; [exact Hs|].
  split; [simpl; apply lookup_insert_eq|]. split; [exact Hst|].
  unfold ConfigurableCache.fetch_page. subst c1.
  rewrite find_section_insert, Hfind by (eauto using wf_default).
  simpl. rewrite lookup_insert_eq. simpl. rewrite Hfetch. simpl.
  split; [reflexivity|]. split; [apply lookup_insert_eq|exact Hst2].
Qed.

Lemma prefetched_page_is_a_hit_witness :
  exists m c m1 c1 c2 a,
    cache_run [CreateSection 8192 4096 CacheSection.SetAssociative 2;
               MapPageRangeToSection 100 199 1; PrefetchPage 100; FetchPage 100;
               PrefetchPage 102; PrefetchPage 104; PrefetchPage 1; FetchPage 1]
              (ConfigurableCache.new 12288 4096 4096) = Some (m, c) /\
    ConfigurableCache.prefetch_page m c 106 = Some (m1, c1) /\
    ConfigurableCache.fetch_page m1 c1 106 = Some (m1, c2, Some a).
Proof.
  destruct (cache_run _ (ConfigurableCache.new 12288 4096 4096)) as [[m c]|] eqn:H;
    [|vm_compute in H; discriminate].
  destruct (ConfigurableCache.prefetch_page m c 106) as [[m1 c1]|] eqn:Hp;
    [|vm_compute in H; injection H as <- <-; vm_compute in Hp; discriminate].
  match type of H with
  | cache_run ?ops _ = _ =>
      destruct (prefetched_page_is_a_hit 12288 4096 4096 ops m c 106 m1 c1)
        as (sid & s & s1 & c2 & s2 & a & _ & _ & _ & _ & Hf & _)
  end.
  - lia.
  - repeat (constructor; simpl; try lia).
  - exact H.
  - exact Hp.
  - exists m, c, m1, c1, c2, a. auto.
Defined.

(** ** Fresh section identifiers *)

Lemma cache_run_budget total psz lsz ops m c :
  0 <= total < 2 ^ 64 ->
  Z.of_nat (length ops) + 1 < 2 ^ 64 ->
  Forall op_typed ops ->
  cache_run ops (ConfigurableCache.new total psz lsz) = Some (m, c) ->
  budget_inv (length ops) c.
Proof.
  intros Ht Hlen Hty Hrun.
  destruct (ConfigurableCache.new total psz lsz) as [[m0 c0]|] eqn:Hnew;
    [|rewrite cache_run_None in Hrun; discriminate].
  apply (cache_run_invariant_counted (fun k st => budget_inv k (snd st)) ops)
    with (st := (m0, c0)) (st' := (m, c)); auto.
  - intros k st st' Hs Hb. eapply router_step_budget; eauto.
  - intros k st st' Hk Hs Hb. eapply create_step_budget; eauto. lia.
  - intros k st [B Htt Hk Hc]. split; auto. lia.
  - simpl. eapply new_budget_inv; eauto.
Qed.

(** X16: [create_section] never replaces a section.  In every state reached
    from the constructor (with fewer than 2^64 calls) the identifier it
    returns is not in use; the call destroys no page, leaves every other
    section and the routing of every page as they were, and the new section
    is empty, with no statistics, and has the requested size or, when fewer
    bytes are available, all the available bytes. *)
Theorem create_section_never_replaces_a_section
    total psz lsz ops m c sz line st assoc m' c' sid :
  0 <= total < 2 ^ 64 ->
  Z.of_nat (length ops) + 1 < 2 ^ 64 ->
  Forall op_typed ops ->
  cache_run ops (ConfigurableCache.new total psz lsz) = Some (m, c) ->
  ConfigurableCache.create_section m c sz line st assoc = Some (m', c', sid) ->
  ConfigurableCache.sections c !! sid = None /\
  m' = m /\
  (forall sid', sid' <> sid ->
     ConfigurableCache.sections c' !! sid' = ConfigurableCache.sections c !! sid') /\
  (forall pid, ConfigurableCache.get_section_for_page c' pid
               = ConfigurableCache.get_section_for_page c pid) /\
  exists s,
    ConfigurableCache.sections c' !! sid = Some s /\
    CacheSection.size s = Z.min sz (ConfigurableCache.available_size c) /\
    CacheSection.page_count s = 0 /\
    CacheSection.stats s = CacheSectionStats.zero.
Proof.
  intros Ht Hlen Hty Hrun Hcreate.
  pose proof (cache_run_budget _ _ _ _ _ _ Ht Hlen Hty Hrun) as Hb.
  assert (Hfresh : ConfigurableCache.sections c !! ConfigurableCache.next_section_id c
                   = None).
  { destruct (ConfigurableCache.sections c !! ConfigurableCache.next_section_id c)
      as [s|] eqn:E; [|reflexivity].
    pose proof (bi_keys _ _ Hb _ (mk_is_Some _ _ E)). lia. }
  unfold ConfigurableCache.create_section in Hcreate.
  destruct (CacheSection.new _ _ line st assoc) as [s|] eqn:Hnew; [|discriminate].
  simpl in Hcreate. rewrite Hfresh in Hcreate. injection Hcreate as <- <- <-.
  split; [exact Hfresh|]. split; [reflexivity|]. simpl.
  split; [intros sid' Hne; apply lookup_insert_ne; congruence|].
  split; [reflexivity|].
  exists s. split; [apply lookup_insert_eq|].
  unfold CacheSection.new in Hnew. destruct (_ || _); [discriminate|].
  injection Hnew as <-. simpl. split; [|split; [|reflexivity]].
  - destruct (Z.ltb_spec (ConfigurableCache.available_size c) sz); lia.
  - unfold CacheSection.page_count. simpl.
    destruct (CacheSection.set_based st); [|reflexivity].
    rewrite fresh_sets_count. reflexivity.
Qed.

Lemma create_section_never_replaces_a_section_witness :
  exists m c m' c' sid s,
    cache_run [CreateSection 4096 4096 CacheSection.SetAssociative 2;
               PrefetchPage 1; FetchPage 1; RemoveSection 1;
               ResizeSection 0 4096]
              (ConfigurableCache.new 12288 4096 4096) = Some (m, c) /\
    ConfigurableCache.create_section m c 16384 4096 CacheSection.DirectMapped 1
    = Some (m', c', sid) /\
    ConfigurableCache.sections c !! sid = None /\
    ConfigurableCache.sections c' !! sid = Some s /\
    CacheSection.size s = Z.min 16384 (ConfigurableCache.available_size c).
Proof.
  destruct (cache_run _ (ConfigurableCache.new 12288 4096 4096)) as [[m c]|] eqn:H;
    [|vm_compute in H; discriminate].
  destruct (ConfigurableCache.create_section m c 16384 4096 CacheSection.DirectMapped 1)
    as [[[m' c'] sid]|] eqn:Hc;
    [|vm_compute in H; injection H as <- <-; vm_compute in Hc; discriminate].
  match type of H with
  | cache_run ?ops _ = _ =>
      destruct (create_section_never_replaces_a_section 12288 4096 4096 ops m c
                  16384 4096 CacheSection.DirectMapped 1 m' c' sid)
        as (H1 & _ & _ & _ & s & H2 & H3 & _)
  end.
  - lia.
  - simpl. lia.
  - repeat (constructor; simpl; try lia).
  - exact H.
  - exact Hc.
  - exists m, c, m', c', sid, s. auto.
Defined.

(** ** Only hits are counted *)

Lemma fetch_page_ready s pid s' r :
  CacheSection.fetch_page s pid = Some (s', r) -> sets_ready s -> sets_ready s'.
Proof.
  unfold CacheSection.fetch_page, sets_ready. intros H Hr.
  destruct (CacheSection.set_based (CacheSection.structure s)) eqn:Hsb.
  - specialize (Hr eq_refl).
    destruct (CacheSection.sets s) as [|x l] eqn:E; [congruence|]. rewrite <- E in *.
    destruct (CacheSection.sets s !! _) as [set|]; [|discriminate]. simpl in H.
    destruct (find_first _ set) as [[j e]|];
      [|rewrite fetch_miss_undefined in H; discriminate].
    injection H as <- _. simpl. intros _. apply insert_not_nil. exact Hr.
  - break_matches; simpl; rewrite Hsb; discriminate.
Qed.

Lemma find_victim_in_set_ready m s i m' s' v :
  CacheSection.find_victim_in_set m s i = Some (m', s', v) ->
  CacheSection.sets s <> [] -> CacheSection.sets s' <> [].
Proof.
  intros H Hr. destruct (find_victim_in_set_bits _ _ _ _ _ _ H) as (set & set' & _ & -> & _).
  apply insert_not_nil, Hr.
Qed.

Lemma allocate_page_ready m s pid m' s' r :
  section_wf m s ->
  CacheSection.allocate_page m s pid = Some (m', s', r) -> sets_ready s'.
Proof.
  intros Hwf H. unfold sets_ready.
  rewrite (cfg_structure _ _ (allocate_page_config _ _ _ _ _ _ H)).
  revert H. unfold CacheSection.allocate_page.
  destruct (CacheSection.set_based (CacheSection.structure s)) eqn:Hsb;
    [|intros; discriminate].
  set (s1 := match CacheSection.sets s with [] => _ | _ => s end).
  assert (Hr1 : CacheSection.sets s1 <> []).
  { subst s1. destruct (CacheSection.sets s) eqn:E; [|congruence].
    simpl. apply fresh_sets_nonempty, (wf_num_sets _ _ Hwf). }
  clearbody s1.
  destruct (CacheSection.sets s1 !! _) as [set|]; [|discriminate]. simpl.
  destruct (find_first _ set) as [[j e]|].
  - intros [= _ <- _] _. simpl. apply insert_not_nil, Hr1.
  - destruct (CacheSection.find_victim_in_set m s1 _) as [[[m1 s2] v]|] eqn:Hv;
      [|discriminate].
    apply find_victim_in_set_ready in Hv; [|exact Hr1]. simpl.
    destruct (CacheSection.sets s2 !! _) as [set2|]; [|discriminate]. simpl.
    destruct (set2 !! v) as [victim|]; [|discriminate]. simpl.
    intros [= _ <- _] _. simpl. apply insert_not_nil, Hv.
Qed.

Lemma prefetch_page_ready m s pid m' s' :
  CacheSection.prefetch_page m s pid = Some (m', s') -> sets_ready s -> sets_ready s'.
Proof.
  intros H Hr. unfold sets_ready.
  rewrite (cfg_structure _ _ (prefetch_page_config _ _ _ _ _ H)).
  revert H. unfold CacheSection.prefetch_page.
  destruct (CacheSection.set_based (CacheSection.structure s)) eqn:Hsb;
    [|intros; discriminate].
  specialize (Hr Hsb).
  destruct (CacheSection.sets s !! _) as [set|]; [|discriminate]. simpl.
  destruct (find_first _ set) as [[j0 e0]|]; [intros [= _ <-] _; exact Hr|].
  destruct (find_first _ set) as [[j e]|].
  - intros [= _ <-] _. simpl. apply insert_not_nil, Hr.
  - destruct (CacheSection.find_victim_in_set m s _) as [[[m1 s2] v]|] eqn:Hv;
      [|discriminate].
    apply find_victim_in_set_ready in Hv; [|exact Hr]. simpl.
    destruct (CacheSection.sets s2 !! _) as [set2|]; [|discriminate]. simpl.
    destruct (set2 !! v) as [victim|]; [|discriminate]. simpl.
    destruct (CacheSection.page victim) as [a0|]; [|discriminate]. simpl.
    destruct (heap m1 !! a0) as [p0|]; [|discriminate]. simpl.
    intros [= _ <-] _. simpl. apply insert_not_nil, Hv.
Qed.

Lemma section_call_ready m s m' s' :
  section_wf m s -> section_call m s m' s' -> sets_ready s -> sets_ready s'.
Proof.
  intros Hwf Hcall. revert Hwf.
  destruct Hcall as [m0 s0 pid s1 r H|m0 s0 pid m1 s1 r Hsb0 Hempty0 H|m0 s0 pid m1 s1 H];
    intros Hwf Hr.
  - eapply fetch_page_ready; eauto.
  - unfold CacheSection.new_page in H.
    eapply allocate_page_ready; [|exact H]. apply with_stats_wf, Hwf.
  - eapply prefetch_page_ready; eauto.
Qed.

Lemma resize_ready m s n m' s' :
  section_wf m s -> 0 <= n ->
  CacheSection.resize m s n = Some (m', s') -> sets_ready s -> sets_ready s'.
Proof.
  unfold CacheSection.resize, sets_ready. intros Hwf Hn H Hr.
  destruct (n =? CacheSection.size s); [injection H as _ <-; exact Hr|].
  destruct (_ || _); [discriminate|].
  destruct (CacheSection.set_based (CacheSection.structure s)) eqn:Hsb;
    injection H as _ <-; simpl; [|rewrite Hsb; discriminate].
  intros _. apply fresh_sets_nonempty.
  pose proof (wf_divisor _ _ Hwf) as Hd.
  pose proof (to_size_t_range (CacheSection.line_size s * CacheSection.associativity s)).
  destruct (_ =? 0) eqn:E; [lia|].
  apply Z.eqb_neq in E.
  pose proof (Z.div_pos n (to_size_t (CacheSection.line_size s
                                      * CacheSection.associativity s))).
  lia.
Qed.

Lemma new_ready sid sz lsz st assoc s :
  0 <= sz -> CacheSection.new sid sz lsz st assoc = Some s -> sets_ready s.
Proof.
  unfold CacheSection.new, sets_ready. intros Hsz.
  destruct (to_size_t (lsz * assoc) =? 0) eqn:Hd; [discriminate|].
  destruct (lsz =? 0); [discriminate|]. simpl.
  intros [= <-]. simpl. intros ->. apply fresh_sets_nonempty.
  apply Z.eqb_neq in Hd. pose proof (to_size_t_range (lsz * assoc)).
  destruct (_ =? 0) eqn:E; [lia|].
  apply Z.eqb_neq in E. pose proof (Z.div_pos sz (to_size_t (lsz * assoc))). lia.
Qed.

Lemma router_step_ready st st' :
  router_step st st' ->
  cache_wf (fst st) (snd st) ->
  (forall sid s, ConfigurableCache.sections (snd st) !! sid = Some s -> sets_ready s) ->
  forall sid s, ConfigurableCache.sections (snd st') !! sid = Some s -> sets_ready s.
Proof.
  intros H. destruct H; simpl; intros Hwf Hall sid0 s0; try apply Hall.
  - rewrite lookup_insert. case_decide; [|apply Hall].
    intros [= <-]. eapply section_call_ready; eauto. eapply wf_sections; eauto.
  - unfold ConfigurableCache.remove_section.
    destruct (_ =? _); [apply Hall|].
    destruct (ConfigurableCache.sections c !! sid) as [s|]; [|apply Hall].
    destruct (ConfigurableCache.erase_section_ranges _ _ _). simpl.
    intros H0. apply lookup_delete_Some in H0 as [_ H0]. eapply Hall, H0.
  - unfold ConfigurableCache.resize_section in H0.
    destruct (ConfigurableCache.sections c !! sid) as [s|] eqn:Hs;
      [|injection H0 as <- <-; apply Hall].
    set (r := if CacheSection.get_size s <? n then _ else _) in H0.
    assert (Hr : 0 <= fst r).
    { subst r. destruct (_ <? n); simpl; [|exact H].
      destruct (_ <? _); [apply to_size_t_range|exact H]. }
    destruct r as [n' av]. simpl in Hr.
    destruct (CacheSection.resize m s n') as [[m1 s1]|] eqn:Hres; [|discriminate].
    simpl in H0. injection H0 as <- <-. simpl.
    rewrite lookup_insert. case_decide; [|apply Hall].
    intros [= <-]. eapply resize_ready; eauto. eapply wf_sections; eauto.
  - unfold ConfigurableCache.map_page_to_section.
    destruct (ConfigurableCache.sections c !! sid); apply Hall.
  - unfold ConfigurableCache.map_page_range_to_section.
    destruct (ConfigurableCache.sections c !! sid); [|apply Hall].
    destruct (ConfigurableCache.erase_overlapping _ _ _ _). apply Hall.
  - simpl. rewrite lookup_fmap.
    destruct (ConfigurableCache.sections c !! sid0) as [s1|] eqn:E; [|discriminate].
    intros [= <-]. exact (Hall _ _ E).
Qed.

Lemma create_step_ready st st' :
  create_step st st' ->
  0 <= ConfigurableCache.available_size (snd st) ->
  (forall sid s, ConfigurableCache.sections (snd st) !! sid = Some s -> sets_ready s) ->
  forall sid s, ConfigurableCache.sections (snd st') !! sid = Some s -> sets_ready s.
Proof.
  intros H. destruct H as [m c sz lsz st assoc m' c' sid Hsz Hassoc H1]. simpl.
  intros Hav Hall sid0 s0. unfold ConfigurableCache.create_section in H1.
  destruct (CacheSection.new _ _ lsz st assoc) as [s|] eqn:Hnew; [|discriminate].
  simpl in H1. injection H1 as _ <- _. simpl.
  rewrite lookup_insert. case_decide; [|apply Hall].
  intros [= <-]. eapply new_ready; [|exact Hnew].
  destruct (_ <? sz); lia.
Qed.

Lemma cache_run_ready total psz lsz ops m c :
  0 <= total ->
  Forall op_typed ops ->
  cache_run ops (ConfigurableCache.new total psz lsz) = Some (m, c) ->
  cache_wf m c /\
  forall sid s, ConfigurableCache.sections c !! sid = Some s -> sets_ready s.
Proof.
  intros Ht Hty Hrun.
  destruct (ConfigurableCache.new total psz lsz) as [[m0 c0]|] eqn:Hnew;
    [|rewrite cache_run_None in Hrun; discriminate].
  assert (H : (cache_wf m c /\ 0 <= ConfigurableCache.available_size c) /\
              forall sid s, ConfigurableCache.sections c !! sid = Some s ->
                            sets_ready s).
  { apply (cache_run_invariant
             (fun st => (cache_wf (fst st) (snd st) /\
                         0 <= ConfigurableCache.available_size (snd st)) /\
                        forall sid s,
                          ConfigurableCache.sections (snd st) !! sid = Some s ->
                          sets_ready s)
             ops m0 c0 m c); auto.
    - intros st st' Hstep [Hwf Hall]. split; [eapply router_step_wf; eauto|].
      eapply router_step_ready; eauto. apply Hwf.
    - intros st st' Hstep [Hwf Hall]. split; [eapply create_step_wf; eauto|].
      eapply create_step_ready; eauto. apply Hwf.
    - simpl. split; [split; [eapply new_cache_wf; eauto|]|].
      + unfold ConfigurableCache.new, ConfigurableCache.create_section in Hnew.
        destruct (CacheSection.new _ _ _ _ _); [|discriminate].
        simpl in Hnew. injection Hnew as _ <-. simpl. apply to_size_t_range.
      + unfold ConfigurableCache.new, ConfigurableCache.create_section in Hnew.
        destruct (CacheSection.new _ _ _ _ _) as [s0|] eqn:Hs0; [|discriminate].
        simpl in Hnew. injection Hnew as _ <-. simpl.
        intros sid1 s1. rewrite lookup_insert.
        case_decide; [|rewrite lookup_empty; discriminate].
        intros [= <-]. unfold CacheSection.new in Hs0.
        destruct (_ || _); [discriminate|]. injection Hs0 as <-.
        intros Hsb. discriminate. }
  destruct H as [[Hwf _] Hall]. auto.
Qed.

(** Where the sets are in place, a [fetch_page] that returns has found the
    page and counted a hit. *)
Lemma fetch_page_counts_a_hit s pid s' r :
  sets_ready s ->
  CacheSection.fetch_page s pid = Some (s', r) ->
  is_Some r /\
  CacheSection.stats s' = CacheSectionStats.record_hit (CacheSection.stats s).
Proof.
  intros Hr. unfold CacheSection.fetch_page. rewrite fetch_miss_undefined.
  destruct (CacheSection.set_based (CacheSection.structure s)) eqn:Hsb.
  - specialize (Hr Hsb).
    destruct (CacheSection.sets s) as [|x l] eqn:E; [congruence|]. rewrite <- E.
    destruct (CacheSection.sets s !! _) as [set|]; [|discriminate]. simpl.
    destruct (find_first _ set) as [[j e]|] eqn:Hf; [|discriminate].
    intros [= <- <-]. split; [|reflexivity].
    apply find_first_Some in Hf as [_ Hh]. unfold CacheSection.entry_hit in Hh.
    apply andb_true_iff in Hh as [_ Hp]. apply bool_decide_eq_true in Hp. exact Hp.
  - destruct (CacheSection.page_map s !! pid) as [a|]; [|discriminate].
    destruct (CacheSection.node_at a _) as [[i e]|]; [|discriminate].
    destruct (CacheSection.valid e && _) eqn:Hv; [|discriminate].
    intros [= <- <-]. split; [|reflexivity].
    apply andb_true_iff in Hv as [_ Hp]. apply bool_decide_eq_true in Hp. exact Hp.
Qed.

Lemma section_call_no_miss m s m' s' :
  section_call m s m' s' -> sets_ready s -> no_miss s -> no_miss s'.
Proof.
  intros [m0 s0 pid s1 r H|m0 s0 pid m1 s1 r Hsb0 Hempty0 H|m0 s0 pid m1 s1 H] Hr Hn.
  - destruct (fetch_page_counts_a_hit _ _ _ _ Hr H) as [_ Hst].
    unfold no_miss. rewrite Hst. exact Hn.
  - exfalso. exact (Hr Hsb0 Hempty0).
  - unfold no_miss. rewrite (section_prefetch_page_stats _ _ _ _ _ H). exact Hn.
Qed.

Lemma router_step_no_miss st st' :
  router_step st st' ->
  (forall sid s, ConfigurableCache.sections (snd st) !! sid = Some s -> sets_ready s) ->
  (forall sid s, ConfigurableCache.sections (snd st) !! sid = Some s -> no_miss s) ->
  forall sid s, ConfigurableCache.sections (snd st') !! sid = Some s -> no_miss s.
Proof.
  intros H. destruct H; simpl; intros Hready Hall sid0 s0; try apply Hall.
  - rewrite lookup_insert. case_decide; [|apply Hall].
    intros [= <-]. eapply section_call_no_miss; eauto.
  - unfold ConfigurableCache.remove_section.
    destruct (_ =? _); [apply Hall|].
    destruct (ConfigurableCache.sections c !! sid) as [s|]; [|apply Hall].
    destruct (ConfigurableCache.erase_section_ranges _ _ _). simpl.
    intros H0. apply lookup_delete_Some in H0 as [_ H0]. eapply Hall, H0.
  - unfold ConfigurableCache.resize_section in H0.
    destruct (ConfigurableCache.sections c !! sid) as [s|] eqn:Hs;
      [|injection H0 as <- <-; apply Hall].
    destruct (if CacheSection.get_size s <? n then _ else _) as [n' av].
    destruct (CacheSection.resize m s n') as [[m1 s1]|] eqn:Hres; [|discriminate].
    simpl in H0. injection H0 as <- <-. simpl.
    rewrite lookup_insert. case_decide; [|apply Hall].
    intros [= <-]. unfold no_miss.
    rewrite (section_resize_stats _ _ _ _ _ Hres). eapply Hall, Hs.
  - unfold ConfigurableCache.map_page_to_section.
    destruct (ConfigurableCache.sections c !! sid); apply Hall.
  - unfold ConfigurableCache.map_page_range_to_section.
    destruct (ConfigurableCache.sections c !! sid); [|apply Hall].
    destruct (ConfigurableCache.erase_overlapping _ _ _ _). apply Hall.
  - simpl. rewrite lookup_fmap.
    destruct (ConfigurableCache.sections c !! sid0) as [s1|] eqn:E; [|discriminate].
    intros [= <-]. reflexivity.
Qed.

Lemma create_step_no_miss st st' :
  create_step st st' ->
  (forall sid s, ConfigurableCache.sections (snd st) !! sid = Some s -> no_miss s) ->
  forall sid s, ConfigurableCache.sections (snd st') !! sid = Some s -> no_miss s.
Proof.
  intros H. destruct H as [m c sz lsz st assoc m' c' sid Hsz Hassoc H1]. simpl.
  intros Hall sid0 s0. unfold ConfigurableCache.create_section in H1.
  destruct (CacheSection.new _ _ lsz st assoc) as [s|] eqn:Hnew; [|discriminate].
  simpl in H1. injection H1 as _ <- _. simpl.
  rewrite lookup_insert. case_decide; [|apply Hall].
  intros [= <-]. unfold no_miss. rewrite (section_new_stats _ _ _ _ _ _ Hnew).
  reflexivity.
Qed.

(** X17: no miss is counted through the router.  In every state reached
    from the constructor the [misses] counter of every section is 0; a
    [fetch_page(id)] that returns has found the page: it returns a pointer,
    touches no memory, and adds one access and one hit to the statistics of
    the section that serves [id]. *)
Theorem router_counts_no_miss total psz lsz ops m c :
  0 <= total ->
  Forall op_typed ops ->
  cache_run ops (ConfigurableCache.new total psz lsz) = Some (m, c) ->
  (forall sid s, ConfigurableCache.sections c !! sid = Some s ->
     CacheSectionStats.misses (CacheSection.stats s) = 0) /\
  (forall pid m' c' r,
     ConfigurableCache.fetch_page m c pid = Some (m', c', r) ->
     exists sid s s',
       ConfigurableCache.find_section_for_page c pid = Some sid /\
       ConfigurableCache.sections c !! sid = Some s /\
       ConfigurableCache.sections c' !! sid = Some s' /\
       is_Some r /\ m' = m /\
       CacheSection.stats s' = CacheSectionStats.record_hit (CacheSection.stats s)).
Proof.
  intros Ht Hty Hrun.
  destruct (cache_run_ready _ _ _ _ _ _ Ht Hty Hrun) as [Hwf Hready].
  split.
  - destruct (ConfigurableCache.new total psz lsz) as [[m0 c0]|] eqn:Hnew;
      [|rewrite cache_run_None in Hrun; discriminate].
    assert (H : ((cache_wf m c /\ 0 <= ConfigurableCache.available_size c) /\
                 forall sid s, ConfigurableCache.sections c !! sid = Some s ->
                               sets_ready s) /\
                forall sid s, ConfigurableCache.sections c !! sid = Some s ->
                              no_miss s).
    { apply (cache_run_invariant
               (fun st => ((cache_wf (fst st) (snd st) /\
                            0 <= ConfigurableCache.available_size (snd st)) /\
                           forall sid s,
                             ConfigurableCache.sections (snd st) !! sid = Some s ->
                             sets_ready s) /\
                          forall sid s,
                            ConfigurableCache.sections (snd st) !! sid = Some s ->
                            no_miss s)
               ops m0 c0 m c); auto.
      - intros st st' Hstep [[Hw Hr] Hall].
        split; [split; [eapply router_step_wf; eauto|]|].
        + eapply router_step_ready; eauto. apply Hw.
        + eapply router_step_no_miss; eauto.
      - intros st st' Hstep [[Hw Hr] Hall].
        split; [split; [eapply create_step_wf; eauto|]|].
        + eapply create_step_ready; eauto. apply Hw.
        + eapply create_step_no_miss; eauto.
      - simpl. split; [split; [split; [eapply new_cache_wf; eauto|]|]|].
        + unfold ConfigurableCache.new, ConfigurableCache.create_section in Hnew.
          destruct (CacheSection.new _ _ _ _ _); [|discriminate].
          simpl in Hnew. injection Hnew as _ <-. simpl. apply to_size_t_range.
        + unfold ConfigurableCache.new, ConfigurableCache.create_section in Hnew.
          destruct (CacheSection.new _ _ _ _ _) as [s0|] eqn:Hs0; [|discriminate].
          simpl in Hnew. injection Hnew as _ <-. simpl.
          intros sid1 s1. rewrite lookup_insert.
          case_decide; [|rewrite lookup_empty; discriminate].
          intros [= <-]. unfold CacheSection.new in Hs0.
          destruct (_ || _); [discriminate|]. injection Hs0 as <-.
          intros Hsb. discriminate.
        + unfold ConfigurableCache.new, ConfigurableCache.create_section in Hnew.
          destruct (CacheSection.new _ _ _ _ _) as [s0|] eqn:Hs0; [|discriminate].
          simpl in Hnew. injection Hnew as _ <-. simpl.
          intros sid1 s1. rewrite lookup_insert.
          case_decide; [|rewrite lookup_empty; discriminate].
          intros [= <-]. unfold no_miss.
          rewrite (section_new_stats _ _ _ _ _ _ Hs0). reflexivity. }
    destruct H as [_ Hall]. exact Hall.
  - intros pid m' c' r. unfold ConfigurableCache.fetch_page.
    destruct (ConfigurableCache.find_section_for_page c pid) as [sid|] eqn:Hfind;
      [|discriminate].
    simpl.
    destruct (ConfigurableCache.sections c !! sid) as [s|] eqn:Hs; [|discriminate].
    simpl.
    destruct (CacheSection.fetch_page s pid) as [[s1 pg]|] eqn:Hf; [|discriminate].
    simpl.
    destruct (fetch_page_counts_a_hit _ _ _ _ (Hready _ _ Hs) Hf) as [[a ->] Hst].
    intros [= <- <- <-]. exists sid, s, s1.
    split; [reflexivity|]. split; [exact Hs|].
    split; [apply lookup_insert_eq|]. eauto.
Qed.

Lemma router_counts_no_miss_witness :
  exists m c m' c' a s',
    cache_run [PrefetchPage 1; FetchPage 1; FetchPage 1; PrefetchPage 2]
              (ConfigurableCache.new 12288 4096 4096) = Some (m, c) /\
    ConfigurableCache.fetch_page m c 2 = Some (m', c', Some a) /\
    m' = m /\
    ConfigurableCache.sections c' !! 0 = Some s' /\
    CacheSection.stats s' = CacheSectionStats.mk 3 3 0.
Proof.
  destruct (cache_run _ (ConfigurableCache.new 12288 4096 4096)) as [[m c]|] eqn:H;
    [|vm_compute in H; discriminate].
  destruct (ConfigurableCache.fetch_page m c 2) as [[[m' c'] r]|] eqn:Hf;
    [|vm_compute in H; injection H as <- <-; vm_compute in Hf; discriminate].
  match type of H with
  | cache_run ?ops _ = _ =>
      destruct (router_counts_no_miss 12288 4096 4096 ops m c) as [_ Hfetch]
  end.
  - lia.
  - repeat (constructor; simpl; try lia).
  - exact H.
  - destruct (Hfetch 2 m' c' r Hf) as (sid & s & s' & H1 & H2 & H3 & [a ->] & -> & H4).
    assert (Hsid : sid = 0).
    { vm_compute in H. injection H as <- <-. vm_compute in H1. congruence. }
    subst sid.
    assert (Hst : CacheSection.stats s = CacheSectionStats.mk 2 2 0).
    { vm_compute in H. injection H as <- <-. vm_compute in H2.
      injection H2 as <-. reflexivity. }
    exists m, c, m, c', a, s'. split; [reflexivity|]. split; [exact Hf|].
    split; [reflexivity|]. split; [exact H3|]. rewrite H4, Hst. reflexivity.
Defined.

(** ** [fetch_page] returns what the section holds *)

Lemma section_fetch_page_returns m s pid :
  section_wf m s -> sets_ready s ->
  (holds s pid = true ->
   exists s' a, CacheSection.fetch_page s pid = Some (s', Some a)) /\
  (holds s pid = false -> CacheSection.fetch_page s pid = None).
Proof.
  intros Hwf Hr. unfold holds, CacheSection.fetch_page.
  rewrite fetch_miss_undefined.
  destruct (CacheSection.set_based (CacheSection.structure s)) eqn:Hsb.
  - specialize (Hr Hsb).
    destruct (CacheSection.sets s) as [|x l] eqn:E; [congruence|]. rewrite <- E.
    destruct (CacheSection.sets s !! _) as [set|]; simpl;
      [|split; [discriminate|reflexivity]].
    destruct (find_first _ set) as [[j e]|] eqn:Hf;
      [|split; [discriminate|reflexivity]].
    split; [|discriminate]. intros _.
    apply find_first_Some in Hf as [_ Hh]. unfold CacheSection.entry_hit in Hh.
    apply andb_true_iff in Hh as [_ Hp]. apply bool_decide_eq_true in Hp.
    destruct Hp as [a Ha]. rewrite Ha. eauto.
  - destruct (CacheSection.page_map s !! pid) as [a|] eqn:Hpm;
      [|split; [discriminate|reflexivity]].
    split; [|discriminate]. intros _.
    destruct (page_map_node _ _ _ _ Hwf Hpm) as [[i e] Hnode]. rewrite Hnode.
    unfold CacheSection.node_at in Hnode.
    apply find_first_Some in Hnode as [Hi Hp]. apply bool_decide_eq_true in Hp.
    pose proof (Forall_lookup_1 _ _ _ _ (wf_pages_valid _ _ Hwf) Hi) as Hv.
    simpl in Hv. rewrite Hv, Hp. simpl. eauto.
Qed.

(** X25: [fetch_page(id)] returns exactly when the section that serves [id]
    holds the page.  In every state reached from the constructor, when the
    lookup of the serving section finds [id], the call returns a page and
    leaves the memory as it is; when it does not, the call does not return:
    the miss path locks the section's mutex a second time. *)
Theorem fetch_page_returns_what_is_held total psz lsz ops m c pid :
  0 <= total ->
  Forall op_typed ops ->
  cache_run ops (ConfigurableCache.new total psz lsz) = Some (m, c) ->
  exists sid s,
    ConfigurableCache.find_section_for_page c pid = Some sid /\
    ConfigurableCache.sections c !! sid = Some s /\
    (holds s pid = true ->
     exists c' a, ConfigurableCache.fetch_page m c pid = Some (m, c', Some a)) /\
    (holds s pid = false -> ConfigurableCache.fetch_page m c pid = None).
Proof.
  intros Ht Hty Hrun.
  destruct (cache_run_ready _ _ _ _ _ _ Ht Hty Hrun) as [Hwf Hready].
  destruct (find_section_live m c pid Hwf) as (sid & s & Hfind & Hs).
  exists sid, s. split; [exact Hfind|]. split; [exact Hs|].
  destruct (section_fetch_page_returns m s pid (wf_sections _ _ Hwf _ _ Hs)
              (Hready _ _ Hs)) as [Hyes Hno].
  unfold ConfigurableCache.fetch_page. rewrite Hfind. simpl. rewrite Hs. simpl.
  split.
  - intros Hh. destruct (Hyes Hh) as (s' & a & ->). simpl. eauto.
  - intros Hh. rewrite (Hno Hh). reflexivity.
Qed.

Lemma fetch_page_returns_what_is_held_witness :
  exists m c c' a,
    cache_run [CreateSection 0 4096 CacheSection.SetAssociative 2;
               MapPageRangeToSection 100 199 1;
               PrefetchPage 1; PrefetchPage 2; PrefetchPage 100]
              (ConfigurableCache.new 12288 4096 4096) = Some (m, c) /\
    ConfigurableCache.fetch_page m c 2 = Some (m, c', Some a) /\
    ConfigurableCache.fetch_page m c 3 = None /\
    ConfigurableCache.fetch_page m c 101 = None.
Proof.
  destruct (cache_run _ (ConfigurableCache.new 12288 4096 4096)) as [[m c]|] eqn:H;
    [|vm_compute in H; discriminate].
  assert (Hgen : forall pid, exists sid s,
             ConfigurableCache.find_section_for_page c pid = Some sid /\
             ConfigurableCache.sections c !! sid = Some s /\
             (holds s pid = true ->
              exists c' a, ConfigurableCache.fetch_page m c pid = Some (m, c', Some a)) /\
             (holds s pid = false -> ConfigurableCache.fetch_page m c pid = None)).
  { intros pid.
    match type of H with
    | cache_run ?ops _ = _ =>
        apply (fetch_page_returns_what_is_held 12288 4096 4096 ops m c pid);
          [lia| |exact H]
    end.
    repeat (constructor; simpl; try lia). }
  destruct (Hgen 2) as (sid2 & s2 & Hf2 & Hs2 & Hyes & _).
  destruct (Hgen 3) as (sid3 & s3 & Hf3 & Hs3 & _ & Hno3).
  destruct (Hgen 101) as (sid4 & s4 & Hf4 & Hs4 & _ & Hno4).
  destruct Hyes as (c' & a & Hfetch).
  { vm_compute in H. injection H as <- <-. vm_compute in Hf2. injection Hf2 as <-.
    vm_compute in Hs2. injection Hs2 as <-. reflexivity. }
  exists m, c, c', a. split; [reflexivity|]. split; [exact Hfetch|]. split.
  - apply Hno3.
    vm_compute in H. injection H as <- <-. vm_compute in Hf3. injection Hf3 as <-.
    vm_compute in Hs3. injection Hs3 as <-. reflexivity.
  - apply Hno4.
    vm_compute in H. injection H as <- <-. vm_compute in Hf4. injection Hf4 as <-.
    vm_compute in Hs4. injection Hs4 as <-. reflexivity.
Defined.

(** ** The simplified cache: eviction order *)

Lemma mapped_ids_cons_mapped pm q l :
  is_Some (pm !! q) -> mapped_ids pm (q :: l) = q :: mapped_ids pm l.
Proof. intros H. unfold mapped_ids. rewrite filter_cons_True by exact H. reflexivity. Qed.

Lemma mapped_ids_cons_unmapped pm q l :
  pm !! q = None -> mapped_ids pm (q :: l) = mapped_ids pm l.
Proof.
  intros H. unfold mapped_ids. rewrite filter_cons_False; [reflexivity|].
  rewrite H. intros [x Hx]. discriminate.
Qed.

Lemma evict_scan_order r : forall m pm m' pm' r' ev,
  SimplifiedConfigurableCache.evict_scan m pm r = Some (m', pm', r', ev) ->
  if (ev : bool) then
    exists skipped pid rest a p,
      r = skipped ++ pid :: rest /\
      pm !! pid = Some a /\ heap m !! a = Some p /\ Page.pin_count p <= 1 /\
      all_pinned m pm skipped /\
      m' = free (Some a) m /\ pm' = delete pid pm /\
      r' = mapped_ids pm skipped ++ rest
  else
    all_pinned m pm r /\ m' = m /\ pm' = pm /\ r' = mapped_ids pm r.
Proof.
  induction r as [|q r IH]; intros m pm m' pm' r' ev; simpl.
  - intros [= <- <- <- <-]. split; [|auto]. intros q b Hq. inversion Hq.
  - destruct (pm !! q) as [a|] eqn:Hq.
    + destruct (heap m !! a) as [p|] eqn:Hp; [|discriminate]. simpl.
      destruct (Page.pin_count p =? - 2 ^ 31); [discriminate|].
      destruct (Z.leb_spec (Page.pin_count p - 1) 0) as [Hle|Hgt].
      * intros [= <- <- <- <-]. exists [], q, r, a, p. simpl.
        repeat split; auto; try lia. intros q' b Hq'. inversion Hq'.
      * destruct (SimplifiedConfigurableCache.evict_scan m pm r)
          as [[[[m1 pm1] r1] ev1]|] eqn:Hscan; [|discriminate].
        simpl. intros [= <- <- <- <-]. specialize (IH _ _ _ _ _ _ Hscan).
        assert (Hhead : forall q' b, q' = q -> pm !! q' = Some b ->
                  exists pb, heap m !! b = Some pb /\ 1 < Page.pin_count pb).
        { intros q' b -> Hb. rewrite Hq in Hb. injection Hb as <-.
          exists p. split; [exact Hp|lia]. }
        destruct ev1.
        -- destruct IH as (skipped & pid & rest & a1 & p1 & -> & H1 & H2 & H3 & H4
                           & -> & -> & ->).
           exists (q :: skipped), pid, rest, a1, p1. simpl.
           repeat split; auto.
           ++ intros q' b Hq' Hb. apply elem_of_cons in Hq' as [Heq|Hin]; eauto.
           ++ rewrite mapped_ids_cons_mapped by eauto. reflexivity.
        -- destruct IH as (H1 & -> & -> & ->). split; [|split; [|split]]; auto.
           ++ intros q' b Hq' Hb. apply elem_of_cons in Hq' as [Heq|Hin]; eauto.
           ++ rewrite mapped_ids_cons_mapped by eauto. reflexivity.
    + intros Hscan. specialize (IH _ _ _ _ _ _ Hscan). destruct ev.
      * destruct IH as (skipped & pid & rest & a1 & p1 & -> & H1 & H2 & H3 & H4
                        & -> & -> & ->).
        exists (q :: skipped), pid, rest, a1, p1. simpl.
        repeat split; auto.
        -- intros q' b Hq' Hb. apply elem_of_cons in Hq' as [->|Hin]; eauto.
           congruence.
        -- rewrite mapped_ids_cons_unmapped by exact Hq. reflexivity.
      * destruct IH as (H1 & -> & -> & ->). split; [|split; [|split]]; auto.
        -- intros q' b Hq' Hb. apply elem_of_cons in Hq' as [->|Hin]; eauto.
           congruence.
        -- rewrite mapped_ids_cons_unmapped by exact Hq. reflexivity.
Qed.

Lemma mapped_ids_rev pm l : rev (mapped_ids pm l) = mapped_ids pm (rev l).
Proof.
  unfold mapped_ids. induction l as [|q l IH]; [reflexivity|].
  simpl. rewrite filter_app, <- IH.
  destruct (decide (is_Some (pm !! q))) as [H|H].
  - rewrite filter_cons_True by exact H. rewrite (filter_cons_True _ _ []) by exact H.
    reflexivity.
  - rewrite filter_cons_False by exact H. rewrite (filter_cons_False _ _ []) by exact H.
    rewrite app_nil_r. reflexivity.
Qed.

Lemma all_pinned_rev m pm l : all_pinned m pm (rev l) -> all_pinned m pm l.
Proof.
  intros H q b Hq. apply H. apply list_elem_of_In, in_rev. rewrite rev_involutive.
  apply list_elem_of_In. exact Hq.
Qed.

(** X18: the simplified cache evicts the least recently used page that is
    pinned at most once.  When [evictPage] returns, either it destroyed one
    page: the page of the identifier closest to the back of [lru_list] whose
    pin count is at most 1, every page behind it being pinned more than once;
    that identifier and the identifiers behind it that had no page left
    [lru_list]; the capacity is unchanged.  Or every page named in
    [lru_list] was pinned more than once: nothing is destroyed, the
    identifiers without a page leave the list and the capacity grows by
    one. *)
Theorem evictPage_takes_the_least_recently_used m c m' c' :
  SimplifiedConfigurableCache.evictPage m c = Some (m', c') ->
  (exists newer pid older a p,
     SimplifiedConfigurableCache.lru_list c = newer ++ pid :: older /\
     SimplifiedConfigurableCache.page_map c !! pid = Some a /\
     heap m !! a = Some p /\ Page.pin_count p <= 1 /\
     all_pinned m (SimplifiedConfigurableCache.page_map c) older /\
     heap m' = delete a (heap m) /\
     SimplifiedConfigurableCache.page_map c'
     = delete pid (SimplifiedConfigurableCache.page_map c) /\
     SimplifiedConfigurableCache.lru_list c'
     = newer ++ mapped_ids (SimplifiedConfigurableCache.page_map c) older /\
     SimplifiedConfigurableCache.capacity c' = SimplifiedConfigurableCache.capacity c) \/
  (all_pinned m (SimplifiedConfigurableCache.page_map c)
     (SimplifiedConfigurableCache.lru_list c) /\
   m' = m /\
   SimplifiedConfigurableCache.page_map c' = SimplifiedConfigurableCache.page_map c /\
   SimplifiedConfigurableCache.lru_list c'
   = mapped_ids (SimplifiedConfigurableCache.page_map c)
       (SimplifiedConfigurableCache.lru_list c) /\
   SimplifiedConfigurableCache.capacity c'
   = to_size_t (SimplifiedConfigurableCache.capacity c + 1)).
Proof.
  unfold SimplifiedConfigurableCache.evictPage.
  destruct (SimplifiedConfigurableCache.evict_scan m _ _)
    as [[[[m1 pm1] r1] ev]|] eqn:Hscan; [|discriminate].
  simpl. intros [= <- <-]. apply evict_scan_order in Hscan. destruct ev.
  - left. destruct Hscan as (skipped & pid & rest & a & p & Hr & H1 & H2 & H3 & H4
                             & -> & -> & ->).
    exists (rev rest), pid, (rev skipped), a, p. simpl.
    split; [|repeat split; auto].
    + rewrite <- (rev_involutive (SimplifiedConfigurableCache.lru_list c)), Hr.
      rewrite rev_app_distr. simpl. rewrite <- app_assoc. reflexivity.
    + apply all_pinned_rev. rewrite rev_involutive. exact H4.
    + rewrite rev_app_distr, mapped_ids_rev. reflexivity.
  - right. destruct Hscan as (H1 & -> & -> & ->). simpl.
    split; [apply all_pinned_rev, H1|]. repeat split; auto.
    rewrite mapped_ids_rev, rev_involutive. reflexivity.
Qed.

Lemma evictPage_takes_the_least_recently_used_witness :
  exists c0 m1 c1 a1 m2 c2 a2 m3 m' c',
    SimplifiedConfigurableCache.new 8 4 4 CacheSection.FullyAssociative 8
    = Some c0 /\
    SimplifiedConfigurableCache.fetch_page empty_mem c0 7 = Some (m1, c1, a1) /\
    SimplifiedConfigurableCache.fetch_page m1 c1 9 = Some (m2, c2, a2) /\
    SimplifiedConfigurableCache.pin_page m2 (Some a1) = Some m3 /\
    SimplifiedConfigurableCache.evictPage m3 c2 = Some (m', c') /\
    SimplifiedConfigurableCache.lru_list c2 = [9; 7] /\
    SimplifiedConfigurableCache.lru_list c' = [7] /\
    SimplifiedConfigurableCache.capacity c' = SimplifiedConfigurableCache.capacity c2.
Proof.
  destruct (SimplifiedConfigurableCache.new 8 4 4
              CacheSection.FullyAssociative 8) as [c0|] eqn:H0;
    [|vm_compute in H0; discriminate].
  destruct (SimplifiedConfigurableCache.fetch_page empty_mem c0 7)
    as [[[m1 c1] a1]|] eqn:H1;
    [|vm_compute in H0; injection H0 as <-; vm_compute in H1; discriminate].
  destruct (SimplifiedConfigurableCache.fetch_page m1 c1 9)
    as [[[m2 c2] a2]|] eqn:H2;
    [|vm_compute in H0; injection H0 as <-; vm_compute in H1;
      injection H1 as <- <- <-; vm_compute in H2; discriminate].
  destruct (SimplifiedConfigurableCache.pin_page m2 (Some a1)) as [m3|] eqn:H3;
    [|vm_compute in H0; injection H0 as <-; vm_compute in H1;
      injection H1 as <- <- <-; vm_compute in H2; injection H2 as <- <- <-;
      vm_compute in H3; discriminate].
  destruct (SimplifiedConfigurableCache.evictPage m3 c2) as [[m' c']|] eqn:H4;
    [|vm_compute in H0; injection H0 as <-; vm_compute in H1;
      injection H1 as <- <- <-; vm_compute in H2; injection H2 as <- <- <-;
      vm_compute in H3; injection H3 as <-; vm_compute in H4; discriminate].
  pose proof (evictPage_takes_the_least_recently_used m3 c2 m' c' H4) as Hspec.
  exists c0, m1, c1, a1, m2, c2, a2, m3, m', c'.
  split; [first [exact H0|reflexivity]|]. split; [exact H1|]. split; [exact H2|].
  split; [exact H3|]. split; [exact H4|].
  vm_compute in H0; injection H0 as <-; vm_compute in H1;
    injection H1 as <- <- <-; vm_compute in H2; injection H2 as <- <- <-;
    vm_compute in H3; injection H3 as <-.
  split; [reflexivity|].
  destruct Hspec as [(newer & pid & older & a & p & _ & _ & _ & _ & _ & _ & _ & _ & Hcap)
                    |(_ & _ & _ & _ & Hcap)].
  - split; [|exact Hcap]. vm_compute in H4. injection H4 as _ <-. reflexivity.
  - exfalso. vm_compute in H4. injection H4 as _ <-. vm_compute in Hcap. discriminate.
Defined.

(** ** The simplified cache along runs *)

Lemma pages_owned_update_page pend m c a f :
  (forall p, Page.get_id (f p) = Page.get_id p) ->
  (forall p, - 2 ^ 31 <= Page.pin_count p < 2 ^ 31 ->
             - 2 ^ 31 <= Page.pin_count (f p) < 2 ^ 31) ->
  pages_owned pend m c -> pages_owned pend (update_page a f m) c.
Proof.
  intros Hid Hpin [H1 H2 H3 H4 H5 H6].
  assert (Hsome : forall b, is_Some (heap (update_page a f m) !! b)
                            <-> is_Some (heap m !! b)).
  { intros b. unfold update_page. simpl. destruct (decide (a = b)) as [->|Hne].
    - rewrite lookup_alter_eq. destruct (heap m !! b); simpl; split; intros [x Hx];
        eauto; discriminate.
    - rewrite lookup_alter_ne by exact Hne. reflexivity. }
  split; auto.
  - intros pid b Hb. destruct (H1 _ _ Hb) as (p & Hp & Hpid).
    unfold update_page. simpl. destruct (decide (a = b)) as [->|Hne].
    + rewrite lookup_alter_eq, Hp. simpl. eexists. split; [reflexivity|].
      rewrite Hid. exact Hpid.
    + rewrite lookup_alter_ne by exact Hne. eauto.
  - intros b Hb. apply H3, Hsome, Hb.
  - intros b Hb. apply H5, Hsome, Hb.
  - intros b p. unfold update_page. simpl. destruct (decide (a = b)) as [->|Hne].
    + rewrite lookup_alter_eq. destruct (heap m !! b) as [q|] eqn:Hq; [|discriminate].
      simpl. intros [= <-]. apply Hpin. eapply H6, Hq.
    + rewrite lookup_alter_ne by exact Hne. apply H6.
Qed.

Lemma pages_owned_pin pend m c a m' :
  mem_pin a m = Some m' -> pages_owned pend m c -> pages_owned pend m' c.
Proof.
  unfold mem_pin. destruct (heap m !! a); [|discriminate]. intros [= <-].
  apply pages_owned_update_page; [reflexivity|].
  intros p _. simpl. apply to_int32_t_range.
Qed.

Lemma pages_owned_unpin pend m c a m' :
  mem_unpin a m = Some m' -> pages_owned pend m c -> pages_owned pend m' c.
Proof.
  unfold mem_unpin. destruct (heap m !! a); [|discriminate]. intros [= <-].
  apply pages_owned_update_page; [reflexivity|].
  intros p _. simpl. apply to_int32_t_range.
Qed.

Lemma pages_owned_set_dirty pend m c a d m' :
  mem_set_dirty a d m = Some m' -> pages_owned pend m c -> pages_owned pend m' c.
Proof.
  unfold mem_set_dirty. destruct (heap m !! a); [|discriminate]. intros [= <-].
  apply pages_owned_update_page; [reflexivity|]. intros p Hp. exact Hp.
Qed.

Lemma pages_owned_frame pend m c c' :
  SimplifiedConfigurableCache.page_map c' = SimplifiedConfigurableCache.page_map c ->
  pages_owned pend m c -> pages_owned pend m c'.
Proof. intros E [H1 H2 H3 H4 H5 H6]. split; rewrite ?E; auto. Qed.

Lemma pages_owned_flush_all pend m c :
  pages_owned pend m c ->
  pages_owned pend (SimplifiedConfigurableCache.flush_all_pages m c) c.
Proof.
  unfold SimplifiedConfigurableCache.flush_all_pages.
  generalize (map_to_list (SimplifiedConfigurableCache.page_map c)).
  intros l. revert m. induction l as [|kv l IH]; intros m H; [exact H|].
  simpl. apply IH. destruct (match heap m !! snd kv with Some p => _ | None => _ end);
    [|exact H].
  apply pages_owned_update_page; [reflexivity| |exact H]. intros p Hp. exact Hp.
Qed.

Lemma pages_owned_alloc m c P :
  - 2 ^ 31 <= Page.pin_count P < 2 ^ 31 ->
  pages_owned None m c ->
  pages_owned (Some (next_addr m)) (snd (alloc P m)) c.
Proof.
  intros HP [H1 H2 H3 H4 H5 H6]. unfold alloc. simpl.
  assert (Hfresh : heap m !! next_addr m = None).
  { destruct (heap m !! next_addr m) eqn:E; [|reflexivity].
    pose proof (H5 _ (mk_is_Some _ _ E)). lia. }
  split; simpl.
  - intros pid a Ha. destruct (H1 _ _ Ha) as (p & Hp & Hid).
    rewrite lookup_insert_ne by congruence. eauto.
  - exact H2.
  - intros a. rewrite lookup_insert. case_decide as E; [subst; auto|].
    intros Ha. destruct (H3 _ Ha) as [Hx|Hx]; [discriminate|auto].
  - intros pid a Ha [= ->]. destruct (H1 _ _ Ha) as (p & Hp & _). congruence.
  - intros a. rewrite lookup_insert. case_decide as E; [subst; lia|].
    intros Ha. specialize (H5 _ Ha). lia.
  - intros a p. rewrite lookup_insert. case_decide as E; [intros [= <-]; exact HP|].
    apply H6.
Qed.

Lemma pages_owned_store pid a m c :
  (exists p, heap m !! a = Some p /\ Page.get_id p = pid) ->
  pages_owned (Some a) m c ->
  pages_owned None (fst (SimplifiedConfigurableCache.store_page pid a m c))
                   (snd (SimplifiedConfigurableCache.store_page pid a m c)).
Proof.
  intros (P & HP & HPid) [H1 H2 H3 H4 H5 H6].
  unfold SimplifiedConfigurableCache.store_page. simpl.
  assert (Hold : forall b, SimplifiedConfigurableCache.page_map c !! pid = Some b ->
                           b <> a).
  { intros b Hb ->. exact (H4 _ _ Hb eq_refl). }
  assert (Hheap : forall b,
            heap (free (SimplifiedConfigurableCache.page_map c !! pid) m) !! b
            = if decide (SimplifiedConfigurableCache.page_map c !! pid = Some b)
              then None else heap m !! b).
  { intros b. destruct (SimplifiedConfigurableCache.page_map c !! pid) as [o|].
    - destruct (decide (Some o = Some b)) as [[= ->]|Hne]; simpl.
      + apply lookup_delete_eq.
      + apply lookup_delete_ne. congruence.
    - destruct (decide (None = Some b)); [discriminate|reflexivity]. }
  split; simpl.
  - intros q b. rewrite lookup_insert. case_decide as E.
    + intros [= <-]. subst q. rewrite Hheap.
      rewrite decide_False by (intros Hb; exact (Hold _ Hb eq_refl)). eauto.
    + intros Hb. rewrite Hheap.
      rewrite decide_False by (intros Hb'; apply E; eapply H2; eauto).
      eapply H1, Hb.
  - intros p1 p2 b. rewrite !lookup_insert. repeat case_decide; subst; try congruence.
    + intros [= <-] Hb. exfalso. exact (H4 _ _ Hb eq_refl).
    + intros Hb [= <-]. exfalso. exact (H4 _ _ Hb eq_refl).
    + apply H2.
  - intros b. rewrite Hheap. destruct (decide _) as [Hb|Hb]; [intros [x Hx]; discriminate|].
    intros Hsome. right. destruct (H3 _ Hsome) as [[= ->]|(q & Hq)].
    + exists pid. apply lookup_insert_eq.
    + exists q. rewrite lookup_insert_ne; [exact Hq|]. intros ->. congruence.
  - intros q b _. discriminate.
  - intros b. rewrite Hheap. destruct (decide _); [intros [x Hx]; discriminate|].
    destruct (SimplifiedConfigurableCache.page_map c !! pid); apply H5.
  - intros b p. rewrite Hheap. destruct (decide _); [discriminate|]. apply H6.
Qed.

Lemma evictPage_owned pend m c m' c' :
  pages_owned pend m c ->
  SimplifiedConfigurableCache.evictPage m c = Some (m', c') ->
  pages_owned pend m' c' /\
  ((exists pid a,
      SimplifiedConfigurableCache.page_map c !! pid = Some a /\
      SimplifiedConfigurableCache.page_map c'
      = delete pid (SimplifiedConfigurableCache.page_map c) /\
      SimplifiedConfigurableCache.capacity c' = SimplifiedConfigurableCache.capacity c) \/
   (SimplifiedConfigurableCache.page_map c' = SimplifiedConfigurableCache.page_map c /\
    SimplifiedConfigurableCache.capacity c'
    = to_size_t (SimplifiedConfigurableCache.capacity c + 1))) /\
  SimplifiedConfigurableCache.stats c' = SimplifiedConfigurableCache.stats c /\
  SimplifiedConfigurableCache.page_size c' = SimplifiedConfigurableCache.page_size c /\
  SimplifiedConfigurableCache.next_id c' = SimplifiedConfigurableCache.next_id c /\
  next_addr m' = next_addr m /\
  (forall b, (forall q, SimplifiedConfigurableCache.page_map c !! q <> Some b) ->
             heap m' !! b = heap m !! b).
Proof.
  intros [H1 H2 H3 H4 H5 H6]. unfold SimplifiedConfigurableCache.evictPage.
  destruct (SimplifiedConfigurableCache.evict_scan m _ _)
    as [[[[m1 pm1] r1] ev]|] eqn:Hscan; [|discriminate].
  simpl. intros [= <- <-]. apply evict_scan_order in Hscan. destruct ev.
  - destruct Hscan as (skipped & pid & rest & a & p & Hr & Hpid & Hp & _ & _
                       & -> & -> & ->).
    split; [|split; [left; exists pid, a; auto|]].
    2:{ repeat split; auto. intros b Hb. simpl. apply lookup_delete_ne.
        intros ->. exact (Hb _ Hpid). }
    split; simpl.
    + intros q b Hq. apply lookup_delete_Some in Hq as [Hne Hq].
      rewrite lookup_delete_ne; [eapply H1, Hq|].
      intros ->. apply Hne. symmetry. eapply H2; eauto.
    + intros p1 p2 b Hp1 Hp2. apply lookup_delete_Some in Hp1 as [_ Hp1].
      apply lookup_delete_Some in Hp2 as [_ Hp2]. eapply H2; eauto.
    + intros b Hb. destruct (decide (a = b)) as [->|Hne].
      { rewrite lookup_delete_eq in Hb. destruct Hb. discriminate. }
      rewrite lookup_delete_ne in Hb by exact Hne.
      destruct (H3 _ Hb) as [Hx|(q & Hq)]; [auto|]. right. exists q.
      rewrite lookup_delete_ne; [exact Hq|]. intros ->. congruence.
    + intros q b Hq. apply lookup_delete_Some in Hq as [_ Hq]. eapply H4, Hq.
    + intros b Hb. destruct (decide (a = b)) as [->|Hne].
      { rewrite lookup_delete_eq in Hb. destruct Hb. discriminate. }
      rewrite lookup_delete_ne in Hb by exact Hne. apply H5, Hb.
    + intros b q. destruct (decide (a = b)) as [->|Hne].
      { rewrite lookup_delete_eq. discriminate. }
      rewrite lookup_delete_ne by exact Hne. apply H6.
  - destruct Hscan as (_ & -> & -> & ->).
    split; [|split; [right; auto|repeat split; auto]].
    split; simpl; auto.
Qed.

Lemma size_insert_le (pm : gmap Z N) pid a :
  (size (<[pid := a]> pm) <= S (size pm))%nat.
Proof.
  destruct (pm !! pid) as [b|] eqn:E.
  - rewrite <- (insert_delete_id pm pid b E) at 2.
    rewrite <- (insert_delete_eq pm), !map_size_insert_None by apply lookup_delete_eq.
    lia.
  - rewrite map_size_insert_None by exact E. lia.
Qed.

Lemma size_delete_Some (pm : gmap Z N) pid a :
  pm !! pid = Some a -> size pm = S (size (delete pid pm)).
Proof.
  intros E. rewrite <- (insert_delete_id pm pid a E) at 1.
  apply map_size_insert_None, lookup_delete_eq.
Qed.

Lemma evict_if_full pend m c m2 c2 :
  pages_owned pend m c -> within_capacity c ->
  SimplifiedConfigurableCache.capacity c + 1 < 2 ^ 64 ->
  (if SimplifiedConfigurableCache.full c
   then SimplifiedConfigurableCache.evictPage m c else Some (m, c)) = Some (m2, c2) ->
  pages_owned pend m2 c2 /\
  SimplifiedConfigurableCache.size c2 < SimplifiedConfigurableCache.capacity c2 /\
  SimplifiedConfigurableCache.capacity c <= SimplifiedConfigurableCache.capacity c2
    <= SimplifiedConfigurableCache.capacity c + 1 /\
  SimplifiedConfigurableCache.stats c2 = SimplifiedConfigurableCache.stats c /\
  SimplifiedConfigurableCache.page_size c2 = SimplifiedConfigurableCache.page_size c /\
  SimplifiedConfigurableCache.next_id c2 = SimplifiedConfigurableCache.next_id c /\
  next_addr m2 = next_addr m /\
  (forall b, (forall q, SimplifiedConfigurableCache.page_map c !! q <> Some b) ->
             heap m2 !! b = heap m !! b) /\
  (forall q b, SimplifiedConfigurableCache.page_map c2 !! q = Some b ->
               SimplifiedConfigurableCache.page_map c !! q = Some b).
Proof.
  intros Ho Hcap Hwrap. unfold within_capacity, SimplifiedConfigurableCache.size in *.
  unfold SimplifiedConfigurableCache.full.
  destruct (Z.leb_spec (SimplifiedConfigurableCache.capacity c)
              (Z.of_nat (size (SimplifiedConfigurableCache.page_map c)))) as [Hfull|Hroom].
  - intros Hev. destruct (evictPage_owned _ _ _ _ _ Ho Hev)
      as (Ho2 & Hcase & Hst & Hps & Hid & Hna & Hframe).
    split; [exact Ho2|].
    destruct Hcase as [(pid & a & Hpid & Hpm & Hc)|[Hpm Hc]]; rewrite Hpm, Hc.
    + rewrite (size_delete_Some _ _ _ Hpid) in Hfull, Hcap.
      repeat split; auto; try lia.
      intros q b Hq. apply lookup_delete_Some in Hq as [_ Hq]. exact Hq.
    + rewrite to_size_t_small by lia. repeat split; auto; try lia.
  - intros [= <- <-]. split; [exact Ho|]. repeat split; auto; try lia.
Qed.

Lemma install_owned pid a m2 c2 m4 :
  pages_owned (Some a) m2 c2 ->
  (exists p, heap m2 !! a = Some p /\ Page.get_id p = pid) ->
  SimplifiedConfigurableCache.size c2 < SimplifiedConfigurableCache.capacity c2 ->
  mem_pin a (fst (SimplifiedConfigurableCache.store_page pid a m2 c2)) = Some m4 ->
  let c4 := SimplifiedConfigurableCache.updateLRU pid
              (snd (SimplifiedConfigurableCache.store_page pid a m2 c2)) in
  pages_owned None m4 c4 /\ within_capacity c4 /\
  SimplifiedConfigurableCache.capacity c4 = SimplifiedConfigurableCache.capacity c2 /\
  SimplifiedConfigurableCache.page_map c4 !! pid = Some a /\
  head (SimplifiedConfigurableCache.lru_list c4) = Some pid.
Proof.
  intros Ho Ha Hsz Hpin. simpl.
  pose proof (pages_owned_store pid a m2 c2 Ha Ho) as Hs.
  split; [|split; [|split; [reflexivity|split; [apply lookup_insert_eq|reflexivity]]]].
  - eapply pages_owned_pin; [exact Hpin|].
    eapply pages_owned_frame; [|exact Hs]. reflexivity.
  - unfold within_capacity, SimplifiedConfigurableCache.size in *. simpl.
    pose proof (size_insert_le (SimplifiedConfigurableCache.page_map c2) pid a). lia.
Qed.

Lemma new_page_owned m c m' c' a :
  pages_owned None m c -> within_capacity c ->
  SimplifiedConfigurableCache.capacity c + 1 < 2 ^ 64 ->
  SimplifiedConfigurableCache.new_page m c = Some (m', c', a) ->
  pages_owned None m' c' /\ within_capacity c' /\
  SimplifiedConfigurableCache.capacity c <= SimplifiedConfigurableCache.capacity c'
    <= SimplifiedConfigurableCache.capacity c + 1 /\
  SimplifiedConfigurableCache.page_map c' !! SimplifiedConfigurableCache.next_id c
  = Some a.
Proof.
  intros Ho Hcap Hwrap. unfold SimplifiedConfigurableCache.new_page.
  set (pid := SimplifiedConfigurableCache.next_id c).
  set (c1 := SimplifiedConfigurableCache.with_next_id _ c).
  set (P := Page.new pid (SimplifiedConfigurableCache.page_size c)).
  assert (Ho1 : pages_owned (Some (next_addr m)) (snd (alloc P m)) c1).
  { eapply pages_owned_frame; [|apply pages_owned_alloc; [simpl; lia|exact Ho]].
    reflexivity. }
  unfold alloc in *. simpl in Ho1. cbv beta iota zeta.
  set (m1 := mkMem _ _ _) in *.
  destruct (if SimplifiedConfigurableCache.full c1 then _ else _)
    as [[m2 c2]|] eqn:Hev; [|discriminate].
  destruct (evict_if_full _ m1 c1 m2 c2 Ho1 Hcap Hwrap Hev)
    as (Ho2 & Hsz & Hc & _ & _ & _ & _ & Hframe & _).
  cbn [mbind option_bind].
  change (SimplifiedConfigurableCache.store_page pid (next_addr m) m2 c2)
    with (fst (SimplifiedConfigurableCache.store_page pid (next_addr m) m2 c2),
          snd (SimplifiedConfigurableCache.store_page pid (next_addr m) m2 c2)).
  cbv beta iota zeta.
  destruct (mem_pin (next_addr m) _) as [m4|] eqn:Hpin; [|discriminate].
  simpl. intros [= <- <- <-].
  assert (Hlive : exists p, heap m2 !! next_addr m = Some p /\ Page.get_id p = pid).
  { exists P. split; [|reflexivity]. rewrite Hframe.
    - subst m1. simpl. apply lookup_insert_eq.
    - intros q Hq. exact (po_pending _ _ _ Ho1 _ _ Hq eq_refl). }
  destruct (install_owned pid (next_addr m) m2 c2 m4 Ho2 Hlive Hsz Hpin)
    as (H1 & H2 & H3 & H4 & _).
  split; [exact H1|]. split; [exact H2|]. split; [|exact H4].
  simpl in *. exact Hc.
Qed.

Lemma mem_pin_lookup a m m' :
  mem_pin a m = Some m' ->
  exists p, heap m !! a = Some p /\ heap m' !! a = Some (snd (Page.pin p)) /\
            next_addr m' = next_addr m.
Proof.
  unfold mem_pin. destruct (heap m !! a) as [p|] eqn:Hp; [|discriminate].
  intros [= <-]. exists p. split; [reflexivity|]. simpl.
  rewrite lookup_alter_eq, Hp. auto.
Qed.

Lemma fetch_page_owned m c pid m' c' a :
  pages_owned None m c -> within_capacity c ->
  SimplifiedConfigurableCache.capacity c + 1 < 2 ^ 64 ->
  SimplifiedConfigurableCache.fetch_page m c pid = Some (m', c', a) ->
  pages_owned None m' c' /\ within_capacity c' /\
  SimplifiedConfigurableCache.capacity c <= SimplifiedConfigurableCache.capacity c'
    <= SimplifiedConfigurableCache.capacity c + 1 /\
  SimplifiedConfigurableCache.page_map c' !! pid = Some a /\
  head (SimplifiedConfigurableCache.lru_list c') = Some pid /\
  match SimplifiedConfigurableCache.page_map c !! pid with
  | Some a0 =>
      a = a0 /\
      SimplifiedConfigurableCache.page_map c' = SimplifiedConfigurableCache.page_map c /\
      SimplifiedConfigurableCache.stats c'
      = CacheSectionStats.record_hit (SimplifiedConfigurableCache.stats c) /\
      exists p, heap m !! a = Some p /\ heap m' !! a = Some (snd (Page.pin p))
  | None =>
      a = next_addr m /\
      SimplifiedConfigurableCache.stats c'
      = CacheSectionStats.record_miss (SimplifiedConfigurableCache.stats c) /\
      heap m' !! a
      = Some (snd (Page.pin (Page.new pid (SimplifiedConfigurableCache.page_size c))))
  end.
Proof.
  intros Ho Hcap Hwrap. unfold SimplifiedConfigurableCache.fetch_page.
  destruct (SimplifiedConfigurableCache.page_map c !! pid) as [a0|] eqn:Hpm.
  - destruct (mem_pin a0 m) as [m1|] eqn:Hpin; [|discriminate].
    simpl. intros [= <- <- <-].
    destruct (mem_pin_lookup _ _ _ Hpin) as (p & Hp & Hp' & _).
    split; [eapply pages_owned_pin; [exact Hpin|];
            eapply pages_owned_frame; [|exact Ho]; reflexivity|].
    split; [exact Hcap|]. simpl. split; [lia|]. split; [exact Hpm|].
    split; [reflexivity|]. repeat split; auto. eauto.
  - set (c1 := SimplifiedConfigurableCache.with_stats _ c).
    assert (Ho1 : pages_owned None m c1)
      by (eapply pages_owned_frame; [|exact Ho]; reflexivity).
    destruct (if SimplifiedConfigurableCache.full c1 then _ else _)
      as [[m1 c2]|] eqn:Hev; [|discriminate].
    destruct (evict_if_full _ m c1 m1 c2 Ho1 Hcap Hwrap Hev)
      as (Ho2 & Hsz & Hc & Hst & _ & _ & Hna & _ & _).
    cbn [mbind option_bind].
    set (P := Page.new pid (SimplifiedConfigurableCache.page_size c)).
    assert (Ho3 : pages_owned (Some (next_addr m1)) (snd (alloc P m1)) c2).
    { apply pages_owned_alloc; [simpl; lia|exact Ho2]. }
    unfold alloc in *. simpl in Ho3. cbv beta iota zeta.
    set (m2 := mkMem _ _ _) in *.
    change (SimplifiedConfigurableCache.store_page pid (next_addr m1) m2 c2)
      with (fst (SimplifiedConfigurableCache.store_page pid (next_addr m1) m2 c2),
            snd (SimplifiedConfigurableCache.store_page pid (next_addr m1) m2 c2)).
    cbv beta iota zeta.
    destruct (mem_pin (next_addr m1) _) as [m4|] eqn:Hpin; [|discriminate].
    simpl. intros [= <- <- <-].
    assert (Hlive : exists p, heap m2 !! next_addr m1 = Some p /\ Page.get_id p = pid).
    { exists P. split; [|reflexivity]. subst m2. simpl. apply lookup_insert_eq. }
    destruct (install_owned pid (next_addr m1) m2 c2 m4 Ho3 Hlive Hsz Hpin)
      as (H1 & H2 & H3 & H4 & H5).
    split; [exact H1|]. split; [exact H2|]. split; [simpl in *; exact Hc|].
    split; [exact H4|]. split; [exact H5|]. split; [exact Hna|].
    split; [simpl; exact Hst|].
    destruct (mem_pin_lookup _ _ _ Hpin) as (p & Hp & Hp' & _).
    rewrite Hp'.
    unfold SimplifiedConfigurableCache.store_page in Hp. simpl in Hp.
    assert (Hx : heap (free (SimplifiedConfigurableCache.page_map c2 !! pid) m2)
                 !! next_addr m1 = Some P).
    { destruct (SimplifiedConfigurableCache.page_map c2 !! pid) as [old|] eqn:Hold;
        simpl; [|apply lookup_insert_eq].
      rewrite lookup_delete_ne; [apply lookup_insert_eq|].
      intros ->. exact (po_pending _ _ _ Ho3 _ _ Hold eq_refl). }
    rewrite Hp in Hx. injection Hx as ->. reflexivity.
Qed.

Lemma get_page_from_lock_stored c pid a :
  SimplifiedConfigurableCache.page_map c !! pid = Some a ->
  SimplifiedConfigurableCache.get_page_from_lock c a = Some a.
Proof.
  intros H. unfold SimplifiedConfigurableCache.get_page_from_lock.
  destruct (List.find _ _) as [kv|] eqn:Hf.
  - apply find_some in Hf. destruct Hf as [_ Hf]. apply N.eqb_eq in Hf.
    simpl. f_equal. exact Hf.
  - exfalso. apply elem_of_map_to_list, list_elem_of_In in H.
    apply (find_none _ _ Hf) in H. simpl in H. rewrite N.eqb_refl in H.
    discriminate.
Qed.

Lemma prefetch_page_owned m c pid m' c' :
  pages_owned None m c -> within_capacity c ->
  SimplifiedConfigurableCache.capacity c + 1 < 2 ^ 64 ->
  SimplifiedConfigurableCache.prefetch_page m c pid = Some (m', c') ->
  pages_owned None m' c' /\ within_capacity c' /\
  (SimplifiedConfigurableCache.capacity c <= SimplifiedConfigurableCache.capacity c'
    <= SimplifiedConfigurableCache.capacity c + 1).
Proof.
  intros Ho Hcap Hwrap. unfold SimplifiedConfigurableCache.prefetch_page.
  destruct (SimplifiedConfigurableCache.fetch_page m c pid) as [[[m1 c1] a]|] eqn:Hf;
    [|discriminate].
  destruct (fetch_page_owned _ _ _ _ _ _ Ho Hcap Hwrap Hf) as (H1 & H2 & H3 & H4 & _).
  cbn [mbind option_bind]. rewrite (get_page_from_lock_stored _ _ _ H4).
  simpl. destruct (mem_unpin a m1) as [m2|] eqn:Hu; [|discriminate].
  simpl. intros [= <- <-]. split; [|auto]. eapply pages_owned_unpin; eauto.
Qed.

Lemma prefetch_pages_owned ids : forall m c m' c',
  pages_owned None m c -> within_capacity c ->
  SimplifiedConfigurableCache.capacity c + Z.of_nat (length ids) < 2 ^ 64 ->
  SimplifiedConfigurableCache.prefetch_pages m c ids = Some (m', c') ->
  pages_owned None m' c' /\ within_capacity c' /\
  (SimplifiedConfigurableCache.capacity c <= SimplifiedConfigurableCache.capacity c'
    <= SimplifiedConfigurableCache.capacity c + Z.of_nat (length ids)).
Proof.
  induction ids as [|pid ids IH]; intros m c m' c' Ho Hcap Hwrap.
  - simpl. intros [= <- <-]. split; [exact Ho|]. split; [exact Hcap|]. lia.
  - cbn [SimplifiedConfigurableCache.prefetch_pages].
    destruct (SimplifiedConfigurableCache.prefetch_page m c pid) as [[m1 c1]|] eqn:Hp;
      [|discriminate].
    cbn [mbind option_bind]. intros Hr.
    assert (Hlen : Z.of_nat (length (pid :: ids)) = Z.of_nat (length ids) + 1)
      by (simpl length; lia).
    rewrite Hlen in *.
    destruct (prefetch_page_owned _ _ _ _ _ Ho Hcap ltac:(lia) Hp) as (H1 & H2 & H3).
    destruct (IH _ _ _ _ H1 H2 ltac:(lia) Hr) as (H4 & H5 & H6).
    split; [exact H4|]. split; [exact H5|]. lia.
Qed.

Lemma simplified_step_owned m c o m' c' :
  pages_owned None m c -> within_capacity c ->
  SimplifiedConfigurableCache.capacity c + call_requests o < 2 ^ 64 ->
  simplified_step (m, c) o = Some (m', c') ->
  pages_owned None m' c' /\ within_capacity c' /\
  (SimplifiedConfigurableCache.capacity c <= SimplifiedConfigurableCache.capacity c'
    <= SimplifiedConfigurableCache.capacity c + call_requests o).
Proof.
  intros Ho Hcap Hwrap. destruct o as [|pid|pg|pg d|pg| |pid|ids|st lsz assoc|];
    cbn [simplified_step call_requests] in *.
  - destruct (SimplifiedConfigurableCache.new_page m c) as [[[m1 c1] a]|] eqn:Hn;
      [|discriminate].
    simpl. intros [= <- <-].
    destruct (new_page_owned _ _ _ _ _ Ho Hcap Hwrap Hn) as (H1 & H2 & H3 & _). auto.
  - destruct (SimplifiedConfigurableCache.fetch_page m c pid) as [[[m1 c1] a]|] eqn:Hn;
      [|discriminate].
    simpl. intros [= <- <-].
    destruct (fetch_page_owned _ _ _ _ _ _ Ho Hcap Hwrap Hn) as (H1 & H2 & H3 & _).
    auto.
  - destruct pg as [a|]; simpl.
    + destruct (mem_pin a m) as [m1|] eqn:Hp; [|discriminate]. simpl.
      intros [= <- <-]. split; [eapply pages_owned_pin; eauto|]. split; [auto|lia].
    + intros [= <- <-]. split; [auto|]. split; [auto|lia].
  - destruct pg as [a|]; simpl.
    + destruct (if d then mem_set_dirty a true m else Some m) as [m1|] eqn:Hd;
        [|discriminate].
      cbn [mbind option_bind].
      destruct (mem_unpin a m1) as [m2|] eqn:Hu; [|discriminate]. simpl.
      intros [= <- <-].
      split; [|split; [auto|lia]].
      eapply pages_owned_unpin; [exact Hu|].
      destruct d; [eapply pages_owned_set_dirty; eauto|].
      injection Hd as <-. exact Ho.
    + intros [= <- <-]. split; [auto|]. split; [auto|lia].
  - destruct pg as [a|]; simpl.
    + destruct (mem_set_dirty a false m) as [m1|] eqn:Hp; [|discriminate]. simpl.
      intros [= <- <-]. split; [eapply pages_owned_set_dirty; eauto|].
      split; [auto|lia].
    + intros [= <- <-]. split; [auto|]. split; [auto|lia].
  - intros [= <- <-]. split; [apply pages_owned_flush_all, Ho|]. split; [auto|lia].
  - intros Hp. exact (prefetch_page_owned _ _ _ _ _ Ho Hcap Hwrap Hp).
  - intros Hp. exact (prefetch_pages_owned _ _ _ _ _ Ho Hcap Hwrap Hp).
  - intros [= <- <-]. split; [eapply pages_owned_frame; [|exact Ho]; reflexivity|].
    split; [exact Hcap|]. simpl. lia.
  - intros [= <- <-]. split; [eapply pages_owned_frame; [|exact Ho]; reflexivity|].
    split; [exact Hcap|]. simpl. lia.
Qed.

Lemma call_requests_nonneg o : 0 <= call_requests o.
Proof. destruct o; simpl; lia. Qed.

Lemma run_requests_nonneg ops : 0 <= run_requests ops.
Proof.
  induction ops as [|o ops IH]; simpl; [lia|].
  pose proof (call_requests_nonneg o). lia.
Qed.

Lemma foldl_none_step ops :
  foldl (fun acc o => s ← acc; simplified_step s o) None ops = None.
Proof. induction ops as [|o ops IH]; simpl; auto. Qed.

Lemma simplified_steps_owned ops : forall m c m' c',
  pages_owned None m c -> within_capacity c ->
  SimplifiedConfigurableCache.capacity c + run_requests ops < 2 ^ 64 ->
  foldl (fun acc o => s ← acc; simplified_step s o) (Some (m, c)) ops
  = Some (m', c') ->
  pages_owned None m' c' /\ within_capacity c' /\
  (SimplifiedConfigurableCache.capacity c <= SimplifiedConfigurableCache.capacity c'
    <= SimplifiedConfigurableCache.capacity c + run_requests ops).
Proof.
  induction ops as [|o ops IH]; intros m c m' c' Ho Hcap Hwrap.
  - simpl. intros [= <- <-]. split; [exact Ho|]. split; [exact Hcap|]. lia.
  - change (run_requests (o :: ops)) with (call_requests o + run_requests ops) in *.
    cbn [foldl]. cbn [mbind option_bind].
    pose proof (run_requests_nonneg ops) as Hnn.
    pose proof (call_requests_nonneg o) as Hno.
    destruct (simplified_step (m, c) o) as [[m1 c1]|] eqn:Hs;
      [|rewrite foldl_none_step; discriminate].
    intros Hr.
    assert (Hw1 : SimplifiedConfigurableCache.capacity c + call_requests o < 2 ^ 64)
      by lia.
    destruct (simplified_step_owned _ _ _ _ _ Ho Hcap Hw1 Hs) as (H1 & H2 & H3).
    assert (Hw2 : SimplifiedConfigurableCache.capacity c1 + run_requests ops < 2 ^ 64)
      by lia.
    destruct (IH _ _ _ _ H1 H2 Hw2 Hr) as (H4 & H5 & H6).
    split; [exact H4|]. split; [exact H5|]. lia.
Qed.

Lemma pages_owned_empty c :
  SimplifiedConfigurableCache.page_map c = ∅ -> pages_owned None empty_mem c.
Proof.
  intros E. split; rewrite ?E; simpl.
  - intros pid a H. rewrite lookup_empty in H. discriminate.
  - intros p1 p2 a H. rewrite lookup_empty in H. discriminate.
  - intros a [p H]. rewrite lookup_empty in H. discriminate.
  - intros pid a H. rewrite lookup_empty in H. discriminate.
  - intros a [p H]. rewrite lookup_empty in H. discriminate.
  - intros a p H. rewrite lookup_empty in H. discriminate.
Qed.

Lemma simplified_run_owned total psz lsz st assoc ops m c :
  0 <= total -> 0 < psz ->
  initial_capacity total psz + run_requests ops < 2 ^ 64 ->
  simplified_run total psz lsz st assoc ops = Some (m, c) ->
  pages_owned None m c /\ within_capacity c /\
  (initial_capacity total psz <= SimplifiedConfigurableCache.capacity c
    <= initial_capacity total psz + run_requests ops).
Proof.
  intros Ht Hp Hwrap. unfold simplified_run, SimplifiedConfigurableCache.new.
  destruct (psz =? 0) eqn:Hz; [apply Z.eqb_eq in Hz; lia|].
  cbn [mbind option_bind]. intros Hr.
  apply simplified_steps_owned in Hr; [exact Hr| | |exact Hwrap].
  - apply pages_owned_empty. reflexivity.
  - unfold within_capacity, SimplifiedConfigurableCache.size. simpl.
    rewrite map_size_empty. pose proof (Z.div_pos total psz Ht Hp).
    destruct (total / psz =? 0); lia.
Qed.

(** X19: the simplified cache never holds more pages than its capacity, and
    its capacity only grows.  After any sequence of calls on a cache built
    with a positive page size, [size()] is at most [get_capacity()], and
    [get_capacity()] lies between the constructor's value (total size over
    page size, at least 1) and that value plus the number of pages the calls
    requested: a request that finds every cached page pinned more than once
    expands the cache by one page instead of failing. *)
Theorem simplified_cache_stays_within_capacity total psz lsz st assoc ops m c :
  0 <= total -> 0 < psz ->
  initial_capacity total psz + run_requests ops < 2 ^ 64 ->
  simplified_run total psz lsz st assoc ops = Some (m, c) ->
  SimplifiedConfigurableCache.size c <= SimplifiedConfigurableCache.get_capacity c /\
  initial_capacity total psz <= SimplifiedConfigurableCache.get_capacity c /\
  SimplifiedConfigurableCache.get_capacity c
  <= initial_capacity total psz + run_requests ops.
Proof.
  intros Ht Hp Hwrap Hrun.
  destruct (simplified_run_owned _ _ _ _ _ _ _ _ Ht Hp Hwrap Hrun) as (_ & Hc & Hlo & Hhi).
  unfold SimplifiedConfigurableCache.get_capacity.
  split; [exact Hc|]. split; [exact Hlo|exact Hhi].
Qed.

Lemma simplified_cache_stays_within_capacity_witness :
  exists m c,
    simplified_run 4 4 4 CacheSection.FullyAssociative 8
      [CallFetchPage 7; CallPinPage (Some 0%N); CallFetchPage 9; CallFetchPage 5]
    = Some (m, c) /\
    initial_capacity 4 4 = 1 /\
    SimplifiedConfigurableCache.size c = 2 /\
    SimplifiedConfigurableCache.get_capacity c = 2 /\
    SimplifiedConfigurableCache.size c <= SimplifiedConfigurableCache.get_capacity c /\
    SimplifiedConfigurableCache.get_capacity c <= 1 + 3.
Proof.
  destruct (simplified_run 4 4 4 CacheSection.FullyAssociative 8
              [CallFetchPage 7; CallPinPage (Some 0%N); CallFetchPage 9;
               CallFetchPage 5]) as [[m c]|] eqn:H;
    [|vm_compute in H; discriminate].
  exists m, c. split; [reflexivity|]. split; [reflexivity|].
  match type of H with
  | simplified_run ?t ?p ?l ?s ?a ?ops = _ =>
      destruct (simplified_cache_stays_within_capacity t p l s a ops m c)
        as (H1 & H2 & H3);
      [lia|lia|vm_compute; reflexivity|exact H|]
  end.
  split; [vm_compute in H; injection H as <- <-; reflexivity|].
  split; [vm_compute in H; injection H as <- <-; reflexivity|].
  split; [exact H1|exact H3].
Defined.

(** X20: the simplified cache's map and the pages in memory agree.  After
    any sequence of calls, every identifier of [page_map] maps to a live page
    that carries this identifier, no page is stored under two identifiers,
    and every live page is stored in [page_map]: eviction and the
    replacement of a map entry destroy exactly the pages they drop. *)
Theorem simplified_cache_owns_its_pages total psz lsz st assoc ops m c :
  0 <= total -> 0 < psz ->
  initial_capacity total psz + run_requests ops < 2 ^ 64 ->
  simplified_run total psz lsz st assoc ops = Some (m, c) ->
  (forall pid a, SimplifiedConfigurableCache.page_map c !! pid = Some a ->
     exists p, heap m !! a = Some p /\ Page.get_id p = pid) /\
  (forall pid1 pid2 a,
     SimplifiedConfigurableCache.page_map c !! pid1 = Some a ->
     SimplifiedConfigurableCache.page_map c !! pid2 = Some a -> pid1 = pid2) /\
  (forall a p, heap m !! a = Some p ->
     SimplifiedConfigurableCache.page_map c !! Page.get_id p = Some a).
Proof.
  intros Ht Hp Hwrap Hrun.
  destruct (simplified_run_owned _ _ _ _ _ _ _ _ Ht Hp Hwrap Hrun) as (Ho & _).
  split; [exact (po_live _ _ _ Ho)|]. split; [exact (po_inj _ _ _ Ho)|].
  intros a p Ha.
  destruct (po_stored _ _ _ Ho a (ex_intro _ p Ha)) as [Hpend|[pid Hpid]];
    [discriminate|].
  destruct (po_live _ _ _ Ho _ _ Hpid) as (q & Hq & Hid).
  rewrite Ha in Hq. injection Hq as <-. rewrite Hid. exact Hpid.
Qed.

Lemma simplified_cache_owns_its_pages_witness :
  exists m c,
    simplified_run 4 4 4 CacheSection.FullyAssociative 8
      [CallNewPage; CallFetchPage 7; CallNewPage; CallPrefetchPage 1]
    = Some (m, c) /\
    SimplifiedConfigurableCache.page_map c !! 1 = Some 3%N /\
    heap m !! 0%N = None /\ heap m !! 1%N = None /\ heap m !! 2%N = None /\
    (exists p, heap m !! 3%N = Some p /\ Page.get_id p = 1) /\
    (forall a p, heap m !! a = Some p ->
       SimplifiedConfigurableCache.page_map c !! Page.get_id p = Some a).
Proof.
  destruct (simplified_run 4 4 4 CacheSection.FullyAssociative 8
              [CallNewPage; CallFetchPage 7; CallNewPage; CallPrefetchPage 1])
    as [[m c]|] eqn:H; [|vm_compute in H; discriminate].
  exists m, c. split; [reflexivity|].
  match type of H with
  | simplified_run ?t ?p ?l ?s ?a ?ops = _ =>
      destruct (simplified_cache_owns_its_pages t p l s a ops m c)
        as (H1 & H2 & H3);
      [lia|lia|vm_compute; reflexivity|exact H|]
  end.
  assert (H4 : SimplifiedConfigurableCache.page_map c !! 1 = Some 3%N)
    by (vm_compute in H; injection H as <- <-; reflexivity).
  split; [exact H4|].
  split; [vm_compute in H; injection H as <- <-; reflexivity|].
  split; [vm_compute in H; injection H as <- <-; reflexivity|].
  split; [vm_compute in H; injection H as <- <-; reflexivity|].
  split; [exact (H1 1 3%N H4)|exact H3].
Defined.

Lemma remove_first_head pid l :
  SimplifiedConfigurableCache.remove_first pid (pid :: l) = l.
Proof. simpl. rewrite Z.eqb_refl. reflexivity. Qed.

(** X21: in the simplified cache a fetched page is the requested one and
    stays cached for the next fetch.  After any sequence of calls, the page a
    [fetch_page] returns is live and carries the requested identifier, the
    identifier is in the cache and at the front of the LRU list.  Fetching
    the same identifier again is defined and is a hit: it returns the same
    page, pins it once more, counts one hit and leaves the map, the LRU list
    and every other page as they were. *)
Theorem simplified_fetch_page_keeps_the_page total psz lsz st assoc ops m c
    pid m1 c1 a :
  0 <= total -> 0 < psz ->
  initial_capacity total psz + run_requests ops + 1 < 2 ^ 64 ->
  simplified_run total psz lsz st assoc ops = Some (m, c) ->
  SimplifiedConfigurableCache.fetch_page m c pid = Some (m1, c1, a) ->
  exists p,
    heap m1 !! a = Some p /\ Page.get_id p = pid /\
    SimplifiedConfigurableCache.is_page_in_cache c1 pid = true /\
    head (SimplifiedConfigurableCache.lru_list c1) = Some pid /\
    exists m2 c2,
      SimplifiedConfigurableCache.fetch_page m1 c1 pid = Some (m2, c2, a) /\
      heap m2 = <[a := snd (Page.pin p)]> (heap m1) /\
      SimplifiedConfigurableCache.page_map c2 = SimplifiedConfigurableCache.page_map c1 /\
      SimplifiedConfigurableCache.lru_list c2 = SimplifiedConfigurableCache.lru_list c1 /\
      SimplifiedConfigurableCache.stats c2
      = CacheSectionStats.record_hit (SimplifiedConfigurableCache.stats c1).
Proof.
  intros Ht Hp Hwrap Hrun Hf.
  pose proof (run_requests_nonneg ops) as Hnn.
  assert (Hw0 : initial_capacity total psz + run_requests ops < 2 ^ 64) by lia.
  destruct (simplified_run_owned _ _ _ _ _ _ m c Ht Hp Hw0 Hrun)
    as (Ho & Hc & Hlo & Hhi).
  assert (Hw : SimplifiedConfigurableCache.capacity c + 1 < 2 ^ 64) by lia.
  destruct (fetch_page_owned _ _ _ _ _ _ Ho Hc Hw Hf) as (Ho1 & _ & _ & Hpm & Hhd & _).
  destruct (po_live _ _ _ Ho1 _ _ Hpm) as (p & Hp1 & Hid).
  exists p. split; [exact Hp1|]. split; [exact Hid|].
  split; [unfold SimplifiedConfigurableCache.is_page_in_cache;
          rewrite Hpm; reflexivity|].
  split; [exact Hhd|].
  unfold SimplifiedConfigurableCache.fetch_page. rewrite Hpm.
  unfold mem_pin. rewrite Hp1. cbn [mbind option_bind].
  eexists _, _. split; [reflexivity|].
  split.
  { unfold update_page. simpl. apply map_eq. intros b.
    destruct (decide (a = b)) as [->|Hne].
    - rewrite lookup_alter_eq, lookup_insert_eq, Hp1. reflexivity.
    - rewrite lookup_alter_ne, lookup_insert_ne by exact Hne. reflexivity. }
  split; [reflexivity|]. split; [|reflexivity].
  simpl. destruct (SimplifiedConfigurableCache.lru_list c1) as [|x l]; [discriminate|].
  simpl in Hhd. injection Hhd as ->. rewrite remove_first_head. reflexivity.
Qed.

Lemma simplified_fetch_page_keeps_the_page_witness :
  exists m c m1 c1 a p m2 c2,
    simplified_run 8 4 4 CacheSection.FullyAssociative 8
      [CallFetchPage 7; CallFetchPage 9; CallUnpinPage (Some 0%N) false] = Some (m, c) /\
    SimplifiedConfigurableCache.fetch_page m c 5 = Some (m1, c1, a) /\
    a = 2%N /\ heap m1 !! a = Some p /\ Page.get_id p = 5 /\
    SimplifiedConfigurableCache.lru_list c1 = [5; 9] /\
    SimplifiedConfigurableCache.fetch_page m1 c1 5 = Some (m2, c2, a) /\
    SimplifiedConfigurableCache.lru_list c2 = [5; 9] /\
    pin_count_at a m2 = Some 2.
Proof.
  destruct (simplified_run 8 4 4 CacheSection.FullyAssociative 8
              [CallFetchPage 7; CallFetchPage 9; CallUnpinPage (Some 0%N) false])
    as [[m c]|] eqn:H; [|vm_compute in H; discriminate].
  destruct (SimplifiedConfigurableCache.fetch_page m c 5) as [[[m1 c1] a]|] eqn:Hf;
    [|vm_compute in H; injection H as <- <-; vm_compute in Hf; discriminate].
  match type of H with
  | simplified_run ?t ?ps ?l ?s ?asc ?ops = _ =>
      destruct (simplified_fetch_page_keeps_the_page t ps l s asc ops m c 5 m1 c1 a)
        as (p & H1 & H2 & H3 & H4 & m2 & c2 & H5 & H6 & H7 & H8 & H9);
      [lia|lia|vm_compute; reflexivity|exact H|exact Hf|]
  end.
  assert (Ha : a = 2%N /\ SimplifiedConfigurableCache.lru_list c1 = [5; 9]
               /\ pin_count_at a m1 = Some 1).
  { vm_compute in H. injection H as <- <-. vm_compute in Hf.
    injection Hf as <- <- <-. repeat split; reflexivity. }
  destruct Ha as (Ha & Hl & Hpin).
  exists m, c, m1, c1, a, p, m2, c2.
  split; [first [exact H|reflexivity]|]. split; [first [exact Hf|reflexivity]|]. split; [exact Ha|].
  split; [exact H1|]. split; [exact H2|]. split; [exact Hl|].
  split; [exact H5|]. split; [rewrite H8; exact Hl|].
  unfold pin_count_at in *. rewrite H6, lookup_insert_eq. rewrite H1 in Hpin.
  simpl in *. injection Hpin as ->. reflexivity.
Defined.

Lemma pin_then_unpin p :
  - 2 ^ 31 <= Page.pin_count p < 2 ^ 31 ->
  Page.pin_count (snd (Page.unpin (snd (Page.pin p)))) = Page.pin_count p.
Proof.
  intros Hr. simpl. unfold to_int32_t.
  replace ((Page.pin_count p + 1 + 2 ^ 31) mod 2 ^ 32 - 2 ^ 31 - 1 + 2 ^ 31)
    with ((Page.pin_count p + 1 + 2 ^ 31) mod 2 ^ 32 - 1) by lia.
  rewrite <- (Z.mod_small 1 (2 ^ 32)) at 2 by lia.
  rewrite <- Zminus_mod.
  rewrite Z.mod_small by lia. lia.
Qed.

(** X22: in the simplified cache a prefetch leaves no pin behind.  After any
    sequence of calls, when [prefetch_page] returns the identifier is cached
    with a live page that carries it; a page that was already cached has the
    pin count it had before the call, and a page the prefetch created has pin
    count 0, so that the next eviction may take it. *)
Theorem simplified_prefetch_page_leaves_no_pin total psz lsz st assoc ops m c
    pid m1 c1 :
  0 <= total -> 0 < psz ->
  initial_capacity total psz + run_requests ops + 1 < 2 ^ 64 ->
  simplified_run total psz lsz st assoc ops = Some (m, c) ->
  SimplifiedConfigurableCache.prefetch_page m c pid = Some (m1, c1) ->
  exists a p,
    SimplifiedConfigurableCache.page_map c1 !! pid = Some a /\
    heap m1 !! a = Some p /\ Page.get_id p = pid /\
    match SimplifiedConfigurableCache.page_map c !! pid with
    | Some a0 => a = a0 /\ pin_count_at a0 m = Some (Page.pin_count p)
    | None => Page.pin_count p = 0
    end.
Proof.
  intros Ht Hp Hwrap Hrun.
  pose proof (run_requests_nonneg ops) as Hnn.
  assert (Hw0 : initial_capacity total psz + run_requests ops < 2 ^ 64) by lia.
  destruct (simplified_run_owned _ _ _ _ _ _ m c Ht Hp Hw0 Hrun)
    as (Ho & Hc & Hlo & Hhi).
  assert (Hw : SimplifiedConfigurableCache.capacity c + 1 < 2 ^ 64) by lia.
  unfold SimplifiedConfigurableCache.prefetch_page.
  destruct (SimplifiedConfigurableCache.fetch_page m c pid) as [[[m2 c2] a]|] eqn:Hf;
    [|discriminate].
  destruct (fetch_page_owned _ _ _ _ _ _ Ho Hc Hw Hf) as (Ho1 & _ & _ & Hpm & _ & Hcase).
  cbn [mbind option_bind]. rewrite (get_page_from_lock_stored _ _ _ Hpm).
  simpl. unfold mem_unpin.
  destruct (po_live _ _ _ Ho1 _ _ Hpm) as (q & Hq & Hid).
  rewrite Hq. simpl. intros [= <- <-]. simpl.
  exists a, (snd (Page.unpin q)).
  split; [exact Hpm|]. rewrite lookup_alter_eq, Hq.
  split; [reflexivity|]. split; [exact Hid|].
  destruct (SimplifiedConfigurableCache.page_map c !! pid) as [a0|].
  - destruct Hcase as (-> & _ & _ & p0 & Hp0 & Hp1).
    split; [reflexivity|]. unfold pin_count_at. rewrite Hp0. simpl. f_equal.
    rewrite Hq in Hp1. injection Hp1 as ->. symmetry.
    apply (pin_then_unpin p0). exact (po_pins _ _ _ Ho _ _ Hp0).
  - destruct Hcase as (_ & _ & Hp1). rewrite Hq in Hp1. injection Hp1 as ->.
    reflexivity.
Qed.

Lemma simplified_prefetch_page_leaves_no_pin_witness :
  exists m c m1 c1 m2 c2,
    simplified_run 4 4 4 CacheSection.FullyAssociative 8 [CallFetchPage 7]
    = Some (m, c) /\
    SimplifiedConfigurableCache.prefetch_page m c 9 = Some (m1, c1) /\
    pin_count_at 1%N m1 = Some 0 /\
    SimplifiedConfigurableCache.page_map c1 !! 9 = Some 1%N /\
    SimplifiedConfigurableCache.fetch_page m1 c1 7 = Some (m2, c2, 2%N) /\
    SimplifiedConfigurableCache.is_page_in_cache c2 9 = false.
Proof.
  destruct (simplified_run 4 4 4 CacheSection.FullyAssociative 8 [CallFetchPage 7])
    as [[m c]|] eqn:H; [|vm_compute in H; discriminate].
  destruct (SimplifiedConfigurableCache.prefetch_page m c 9) as [[m1 c1]|] eqn:Hf;
    [|vm_compute in H; injection H as <- <-; vm_compute in Hf; discriminate].
  match type of H with
  | simplified_run ?t ?ps ?l ?s ?asc ?ops = _ =>
      destruct (simplified_prefetch_page_leaves_no_pin t ps l s asc ops m c 9 m1 c1)
        as (a & p & H1 & H2 & H3 & H4);
      [lia|lia|vm_compute; reflexivity|exact H|exact Hf|]
  end.
  assert (Hnone : SimplifiedConfigurableCache.page_map c !! 9 = None)
    by (vm_compute in H; injection H as <- <-; reflexivity).
  rewrite Hnone in H4.
  assert (Ha : SimplifiedConfigurableCache.page_map c1 !! 9 = Some 1%N).
  { vm_compute in H. injection H as <- <-. vm_compute in Hf.
    injection Hf as <- <-. reflexivity. }
  assert (Hf2 : exists m2 c2,
             SimplifiedConfigurableCache.fetch_page m1 c1 7 = Some (m2, c2, 2%N) /\
             SimplifiedConfigurableCache.is_page_in_cache c2 9 = false).
  { vm_compute in H. injection H as <- <-. vm_compute in Hf.
    injection Hf as <- <-. eexists _, _. split; vm_compute; reflexivity. }
  destruct Hf2 as (m2 & c2 & Hf2 & Hf3).
  exists m, c, m1, c1, m2, c2.
  split; [first [exact H|reflexivity]|]. split; [first [exact Hf|reflexivity]|].
  split; [|split; [exact Ha|split; [exact Hf2|exact Hf3]]].
  rewrite Ha in H1. injection H1 as <-.
  unfold pin_count_at. rewrite H2. simpl. f_equal. exact H4.
Defined.

(** ** The LRU list of the simplified cache *)

Lemma remove_first_absent x l :
  x ∉ l -> SimplifiedConfigurableCache.remove_first x l = l.
Proof.
  induction l as [|y l IH]; intros Hx; [reflexivity|]. simpl.
  destruct (Z.eqb_spec y x) as [->|Hne].
  - exfalso. apply Hx. left.
  - f_equal. apply IH. intros H. apply Hx. right. exact H.
Qed.

Lemma remove_first_elem_of x l y :
  NoDup l ->
  y ∈ SimplifiedConfigurableCache.remove_first x l <-> y ∈ l /\ y <> x.
Proof.
  induction l as [|z l IH]; intros Hnd.
  - simpl. split; [intros H; inversion H|intros [H _]; inversion H].
  - apply NoDup_cons in Hnd. destruct Hnd as [Hz Hnd]. simpl.
    destruct (Z.eqb_spec z x) as [->|Hne].
    + split.
      * intros H. split; [right; exact H|]. intros ->. exact (Hz H).
      * intros [H Hyx]. apply elem_of_cons in H. destruct H as [H|H]; [congruence|exact H].
    + rewrite !elem_of_cons, (IH Hnd). split.
      * intros [->|[H1 H2]]; auto.
      * intros [[->|H1] H2]; auto.
Qed.

Lemma remove_first_keeps_NoDup x l :
  NoDup l -> NoDup (SimplifiedConfigurableCache.remove_first x l).
Proof.
  induction l as [|z l IH]; intros Hnd; [exact Hnd|].
  apply NoDup_cons in Hnd. destruct Hnd as [Hz Hnd]. simpl.
  destruct (z =? x); [exact Hnd|].
  apply NoDup_cons. split; [|apply IH, Hnd].
  intros H. apply Hz. apply (remove_first_elem_of x l z Hnd) in H. tauto.
Qed.

Lemma lru_tracks_frame c c' :
  SimplifiedConfigurableCache.page_map c' = SimplifiedConfigurableCache.page_map c ->
  SimplifiedConfigurableCache.lru_list c' = SimplifiedConfigurableCache.lru_list c ->
  lru_tracks c -> lru_tracks c'.
Proof. intros E1 E2 [H1 H2]. split; rewrite ?E1, ?E2; auto. Qed.

Lemma mapped_ids_all pm l :
  (forall q, q ∈ l -> is_Some (pm !! q)) -> mapped_ids pm l = l.
Proof.
  induction l as [|q l IH]; intros H; [reflexivity|].
  rewrite mapped_ids_cons_mapped by (apply H; left).
  f_equal. apply IH. intros q' Hq'. apply H. right. exact Hq'.
Qed.

Lemma elem_of_rev_list (x : Z) l : x ∈ rev l <-> x ∈ l.
Proof. rewrite !list_elem_of_In. symmetry. apply in_rev. Qed.

Lemma NoDup_rev_stdlib (l : list Z) : NoDup l -> NoDup (rev l).
Proof.
  intros H. apply NoDup_ListNoDup. apply List.NoDup_rev. apply NoDup_ListNoDup, H.
Qed.

Lemma evictPage_tracks m c m' c' :
  lru_tracks c ->
  SimplifiedConfigurableCache.evictPage m c = Some (m', c') -> lru_tracks c'.
Proof.
  intros [Hnd Hsame]. unfold SimplifiedConfigurableCache.evictPage.
  destruct (SimplifiedConfigurableCache.evict_scan m _ _)
    as [[[[m1 pm1] r1] ev]|] eqn:Hscan; [|discriminate].
  simpl. intros [= <- <-]. apply evict_scan_order in Hscan.
  assert (Hall : forall q, q ∈ rev (SimplifiedConfigurableCache.lru_list c) ->
                           is_Some (SimplifiedConfigurableCache.page_map c !! q)).
  { intros q Hq. apply Hsame, elem_of_rev_list, Hq. }
  destruct ev.
  - destruct Hscan as (skipped & pid & rest & a & p & Hr & H1 & H2 & H3 & H4
                       & _ & -> & ->).
    rewrite mapped_ids_all
      by (intros q Hq; apply Hall; rewrite Hr; apply elem_of_app; left; exact Hq).
    assert (Hnd' : NoDup (skipped ++ pid :: rest))
      by (rewrite <- Hr; apply NoDup_rev_stdlib, Hnd).
    apply NoDup_app in Hnd'. destruct Hnd' as (Hs & Hdis & Hpr).
    apply NoDup_cons in Hpr. destruct Hpr as [Hp Hrest].
    split; simpl.
    + apply NoDup_rev_stdlib. apply NoDup_app. split; [exact Hs|]. split; [|exact Hrest].
      intros x Hx Hx'. apply (Hdis x Hx). right. exact Hx'.
    + intros q. rewrite elem_of_rev_list, elem_of_app.
      destruct (decide (q = pid)) as [->|Hne].
      * rewrite lookup_delete_eq. split; [|intros [x Hx]; discriminate].
        intros [Hq|Hq]; [exfalso; apply (Hdis pid Hq); left|exfalso; exact (Hp Hq)].
      * rewrite lookup_delete_ne by congruence. rewrite <- Hsame.
        rewrite <- (elem_of_rev_list q (SimplifiedConfigurableCache.lru_list c)).
        rewrite Hr, elem_of_app, elem_of_cons. tauto.
  - destruct Hscan as (_ & _ & -> & ->).
    rewrite mapped_ids_all by exact Hall. rewrite rev_involutive.
    split; simpl; assumption.
Qed.

Lemma store_update_tracks pid a m c :
  lru_tracks c ->
  lru_tracks (SimplifiedConfigurableCache.updateLRU pid
                (snd (SimplifiedConfigurableCache.store_page pid a m c))).
Proof.
  intros [Hnd Hsame]. split; simpl.
  - apply NoDup_cons. split; [|apply remove_first_keeps_NoDup, Hnd].
    intros H. apply (remove_first_elem_of _ _ _ Hnd) in H. tauto.
  - intros q. rewrite elem_of_cons, (remove_first_elem_of _ _ _ Hnd).
    destruct (decide (q = pid)) as [->|Hne].
    + rewrite lookup_insert_eq. split; [eauto|auto].
    + rewrite lookup_insert_ne by congruence. rewrite <- Hsame. tauto.
Qed.

Lemma hit_update_tracks pid a c c1 :
  SimplifiedConfigurableCache.page_map c1 = SimplifiedConfigurableCache.page_map c ->
  SimplifiedConfigurableCache.lru_list c1 = SimplifiedConfigurableCache.lru_list c ->
  SimplifiedConfigurableCache.page_map c !! pid = Some a ->
  lru_tracks c -> lru_tracks (SimplifiedConfigurableCache.updateLRU pid c1).
Proof.
  intros E1 E2 Hpid [Hnd Hsame]. split; simpl; rewrite ?E1, ?E2.
  - apply NoDup_cons. split; [|apply remove_first_keeps_NoDup, Hnd].
    intros H. apply (remove_first_elem_of _ _ _ Hnd) in H. tauto.
  - intros q. rewrite elem_of_cons, (remove_first_elem_of _ _ _ Hnd).
    destruct (decide (q = pid)) as [->|Hne].
    + rewrite Hpid. split; [eauto|auto].
    + rewrite <- Hsame. tauto.
Qed.

Lemma evict_if_full_tracks m c m' c' :
  lru_tracks c ->
  (if SimplifiedConfigurableCache.full c
   then SimplifiedConfigurableCache.evictPage m c else Some (m, c)) = Some (m', c') ->
  lru_tracks c'.
Proof.
  intros Ht. destruct (SimplifiedConfigurableCache.full c).
  - apply evictPage_tracks, Ht.
  - intros [= <- <-]. exact Ht.
Qed.

Lemma new_page_tracks m c m' c' a :
  lru_tracks c ->
  SimplifiedConfigurableCache.new_page m c = Some (m', c', a) -> lru_tracks c'.
Proof.
  intros Ht. unfold SimplifiedConfigurableCache.new_page.
  unfold alloc. cbv beta iota zeta.
  destruct (if SimplifiedConfigurableCache.full _ then _ else _)
    as [[m2 c2]|] eqn:Hev; [|discriminate].
  apply evict_if_full_tracks in Hev;
    [|eapply lru_tracks_frame; [| |exact Ht]; reflexivity].
  cbn [mbind option_bind].
  change (SimplifiedConfigurableCache.store_page ?p ?b ?mm ?cc)
    with (fst (SimplifiedConfigurableCache.store_page p b mm cc),
          snd (SimplifiedConfigurableCache.store_page p b mm cc)).
  cbv beta iota zeta.
  destruct (mem_pin _ _) as [m4|]; [|discriminate].
  simpl. intros [= <- <- <-]. exact (store_update_tracks _ _ m2 c2 Hev).
Qed.

Lemma fetch_page_tracks m c pid m' c' a :
  lru_tracks c ->
  SimplifiedConfigurableCache.fetch_page m c pid = Some (m', c', a) -> lru_tracks c'.
Proof.
  intros Ht. unfold SimplifiedConfigurableCache.fetch_page.
  destruct (SimplifiedConfigurableCache.page_map c !! pid) as [a0|] eqn:Hpm.
  - destruct (mem_pin a0 m) as [m1|]; [|discriminate]. simpl.
    intros [= <- <- <-]. eapply hit_update_tracks; [| |exact Hpm|exact Ht]; reflexivity.
  - destruct (if SimplifiedConfigurableCache.full _ then _ else _)
      as [[m2 c2]|] eqn:Hev; [|discriminate].
    apply evict_if_full_tracks in Hev;
      [|eapply lru_tracks_frame; [| |exact Ht]; reflexivity].
    cbn [mbind option_bind]. unfold alloc. cbv beta iota zeta.
    change (SimplifiedConfigurableCache.store_page ?p ?b ?mm ?cc)
      with (fst (SimplifiedConfigurableCache.store_page p b mm cc),
            snd (SimplifiedConfigurableCache.store_page p b mm cc)).
    cbv beta iota zeta.
    destruct (mem_pin _ _) as [m4|]; [|discriminate].
    simpl. intros [= <- <- <-]. exact (store_update_tracks _ _ m2 c2 Hev).
Qed.

Lemma prefetch_page_tracks m c pid m' c' :
  lru_tracks c ->
  SimplifiedConfigurableCache.prefetch_page m c pid = Some (m', c') -> lru_tracks c'.
Proof.
  intros Ht. unfold SimplifiedConfigurableCache.prefetch_page.
  destruct (SimplifiedConfigurableCache.fetch_page m c pid) as [[[m1 c1] a]|] eqn:Hf;
    [|discriminate].
  apply fetch_page_tracks in Hf; [|exact Ht]. cbn [mbind option_bind].
  destruct (SimplifiedConfigurableCache.get_page_from_lock c1 a) as [pg|].
  - destruct (SimplifiedConfigurableCache.unpin_page m1 (Some pg) false);
      [|discriminate].
    simpl. intros [= <- <-]. exact Hf.
  - intros [= <- <-]. exact Hf.
Qed.

Lemma prefetch_pages_tracks ids : forall m c m' c',
  lru_tracks c ->
  SimplifiedConfigurableCache.prefetch_pages m c ids = Some (m', c') -> lru_tracks c'.
Proof.
  induction ids as [|pid ids IH]; intros m c m' c' Ht.
  - simpl. intros [= <- <-]. exact Ht.
  - cbn [SimplifiedConfigurableCache.prefetch_pages].
    destruct (SimplifiedConfigurableCache.prefetch_page m c pid) as [[m1 c1]|] eqn:Hp;
      [|discriminate].
    cbn [mbind option_bind]. apply IH. eapply prefetch_page_tracks; eauto.
Qed.

Lemma simplified_step_tracks m c o m' c' :
  lru_tracks c -> simplified_step (m, c) o = Some (m', c') -> lru_tracks c'.
Proof.
  intros Ht. destruct o as [|pid|pg|pg d|pg| |pid|ids|st lsz assoc|];
    cbn [simplified_step].
  - destruct (SimplifiedConfigurableCache.new_page m c) as [[[m1 c1] a]|] eqn:Hn;
      [|discriminate].
    simpl. intros [= <- <-]. eapply new_page_tracks; eauto.
  - destruct (SimplifiedConfigurableCache.fetch_page m c pid) as [[[m1 c1] a]|] eqn:Hn;
      [|discriminate].
    simpl. intros [= <- <-]. eapply fetch_page_tracks; eauto.
  - destruct (SimplifiedConfigurableCache.pin_page m pg); [|discriminate].
    simpl. intros [= <- <-]. exact Ht.
  - destruct (SimplifiedConfigurableCache.unpin_page m pg d); [|discriminate].
    simpl. intros [= <- <-]. exact Ht.
  - destruct (SimplifiedConfigurableCache.flush_page m pg); [|discriminate].
    simpl. intros [= <- <-]. exact Ht.
  - intros [= <- <-]. exact Ht.
  - apply prefetch_page_tracks, Ht.
  - apply prefetch_pages_tracks, Ht.
  - intros [= <- <-]. eapply lru_tracks_frame; [| |exact Ht]; reflexivity.
  - intros [= <- <-]. eapply lru_tracks_frame; [| |exact Ht]; reflexivity.
Qed.

Lemma simplified_steps_tracks ops : forall m c m' c',
  lru_tracks c ->
  foldl (fun acc o => s ← acc; simplified_step s o) (Some (m, c)) ops
  = Some (m', c') ->
  lru_tracks c'.
Proof.
  induction ops as [|o ops IH]; intros m c m' c' Ht.
  - simpl. intros [= <- <-]. exact Ht.
  - cbn [foldl]. cbn [mbind option_bind].
    destruct (simplified_step (m, c) o) as [[m1 c1]|] eqn:Hs;
      [|rewrite foldl_none_step; discriminate].
    apply IH. eapply simplified_step_tracks; eauto.
Qed.

Lemma lru_tracks_length c :
  lru_tracks c ->
  Z.of_nat (length (SimplifiedConfigurableCache.lru_list c))
  = SimplifiedConfigurableCache.size c.
Proof.
  intros [Hnd Hsame]. unfold SimplifiedConfigurableCache.size. f_equal.
  rewrite <- length_map_to_list.
  rewrite <- (length_fmap fst (map_to_list _)).
  apply Permutation_length. apply NoDup_Permutation;
    [exact Hnd|apply NoDup_fst_map_to_list|].
  intros q. rewrite Hsame, list_elem_of_fmap. split.
  - intros [a Ha]. exists (q, a). split; [reflexivity|].
    apply elem_of_map_to_list, Ha.
  - intros ([q' a] & -> & Ha). apply elem_of_map_to_list in Ha. simpl. eauto.
Qed.

(** X23: the LRU list of the simplified cache names exactly the cached
    pages.  After any sequence of calls, [lru_list] holds no identifier
    twice, an identifier is in [lru_list] exactly when [is_page_in_cache]
    answers true for it, and the list is as long as [size()]: every cached
    page is a candidate of [evictPage], and no identifier of an evicted page
    stays behind. *)
Theorem simplified_lru_list_names_the_cached_pages total psz lsz st assoc ops m c :
  simplified_run total psz lsz st assoc ops = Some (m, c) ->
  NoDup (SimplifiedConfigurableCache.lru_list c) /\
  (forall pid, pid ∈ SimplifiedConfigurableCache.lru_list c
               <-> SimplifiedConfigurableCache.is_page_in_cache c pid = true) /\
  Z.of_nat (length (SimplifiedConfigurableCache.lru_list c))
  = SimplifiedConfigurableCache.size c.
Proof.
  unfold simplified_run, SimplifiedConfigurableCache.new.
  destruct (psz =? 0); [rewrite foldl_none_step; discriminate|].
  cbn [mbind option_bind]. intros Hr.
  apply simplified_steps_tracks in Hr.
  - split; [exact (lt_nodup _ Hr)|]. split; [|apply lru_tracks_length, Hr].
    intros pid. rewrite (lt_same _ Hr).
    unfold SimplifiedConfigurableCache.is_page_in_cache.
    rewrite bool_decide_eq_true. reflexivity.
  - split; simpl; [apply NoDup_nil_2|].
    intros pid. rewrite lookup_empty. split; [intros H; inversion H|].
    intros [x Hx]. discriminate.
Qed.

Lemma simplified_lru_list_names_the_cached_pages_witness :
  exists m c,
    simplified_run 8 4 4 CacheSection.FullyAssociative 8
      [CallFetchPage 7; CallFetchPage 9; CallFetchPage 7; CallNewPage]
    = Some (m, c) /\
    SimplifiedConfigurableCache.lru_list c = [1; 7] /\
    SimplifiedConfigurableCache.is_page_in_cache c 9 = false /\
    NoDup (SimplifiedConfigurableCache.lru_list c) /\
    Z.of_nat (length (SimplifiedConfigurableCache.lru_list c))
    = SimplifiedConfigurableCache.size c.
Proof.
  destruct (simplified_run 8 4 4 CacheSection.FullyAssociative 8
              [CallFetchPage 7; CallFetchPage 9; CallFetchPage 7; CallNewPage])
    as [[m c]|] eqn:H; [|vm_compute in H; discriminate].
  exists m, c. split; [reflexivity|].
  match type of H with
  | simplified_run ?t ?ps ?l ?s ?asc ?ops = _ =>
      destruct (simplified_lru_list_names_the_cached_pages t ps l s asc ops m c H)
        as (H1 & H2 & H3)
  end.
  split; [vm_compute in H; injection H as <- <-; reflexivity|].
  split; [vm_compute in H; injection H as <- <-; reflexivity|].
  split; [exact H1|exact H3].
Defined.

(** ** [size()] and the pages in memory *)

Lemma owner_fresh_sets n a : Forall (Forall owner_entry) (CacheSection.fresh_sets n a).
Proof.
  unfold CacheSection.fresh_sets. apply Forall_forall. intros set Hset.
  apply elem_of_replicate in Hset as [-> _]. apply Forall_forall. intros e He.
  apply elem_of_replicate in He as [-> _]. split; simpl.
  - intros [x Hx]. discriminate.
  - discriminate.
Qed.

Lemma owner_insert (sets : list (list CacheSection.CacheEntry)) i set j e :
  Forall (Forall owner_entry) sets -> sets !! i = Some set -> owner_entry e ->
  Forall (Forall owner_entry) (<[i := <[j := e]> set]> sets).
Proof.
  intros Hall Hi He. apply Forall_insert; [exact Hall|].
  apply Forall_insert; [|exact He]. exact (Forall_lookup_1 _ _ _ _ Hall Hi).
Qed.

Lemma owner_bit_cleared set set' :
  Forall2 bit_cleared set set' -> Forall owner_entry set -> Forall owner_entry set'.
Proof.
  induction 1 as [|e e' l l' (Hp & _ & Hv & _) _ IH]; intros H; [constructor|].
  inversion H as [|? ? He Hl]; subst. constructor; [|apply IH, Hl].
  unfold owner_entry. rewrite Hp, Hv. exact He.
Qed.

Lemma owner_new_entry a pid r :
  owner_entry (CacheSection.mkEntry (Some a) pid true r).
Proof. split; simpl; eauto. Qed.

Lemma owner_set_referenced b e :
  owner_entry e -> owner_entry (CacheSection.set_referenced b e).
Proof. intros H. exact H. Qed.

Lemma find_victim_in_set_tidy m s i m' s' v :
  CacheSection.find_victim_in_set m s i = Some (m', s', v) ->
  CacheSection.structure s' = CacheSection.structure s /\
  CacheSection.pages s' = CacheSection.pages s /\
  (Forall (Forall owner_entry) (CacheSection.sets s) ->
   Forall (Forall owner_entry) (CacheSection.sets s')).
Proof.
  unfold CacheSection.find_victim_in_set.
  destruct (CacheSection.associativity s =? 0); [discriminate|].
  destruct (CacheSection.sets s !! i) as [set|] eqn:Hi; [|discriminate]. simpl.
  destruct (CacheSection.clock_sweep _ _ _ _ set) as [[[set' pos] hand]|] eqn:Hc;
    [|discriminate].
  simpl. intros [= _ <- _]. simpl. split; [reflexivity|]. split; [reflexivity|].
  intros Hall. apply Forall_insert; [exact Hall|].
  eapply owner_bit_cleared; [eapply clock_sweep_bits, Hc|].
  exact (Forall_lookup_1 _ _ _ _ Hall Hi).
Qed.

Lemma Forall_splice_front (P : CacheSection.CacheEntry -> Prop) i ps :
  Forall P ps -> Forall P (CacheSection.splice_front i ps).
Proof.
  intros H. unfold CacheSection.splice_front.
  destruct (ps !! i) as [e|] eqn:He; [|exact H].
  constructor; [exact (Forall_lookup_1 _ _ _ _ H He)|].
  apply Forall_delete, H.
Qed.

Lemma fetch_page_tidy s pid s' r :
  CacheSection.fetch_page s pid = Some (s', r) -> tidy s -> tidy s'.
Proof.
  unfold CacheSection.fetch_page, tidy.
  destruct (CacheSection.set_based (CacheSection.structure s)) eqn:Hsb.
  - destruct (CacheSection.sets s) as [|x l] eqn:E.
    + intros [= <- _]. rewrite Hsb, E. auto.
    + rewrite <- E in *. clear E x l.
      destruct (CacheSection.sets s !! _) as [set|] eqn:Hset; [|discriminate].
      cbn [mbind option_bind].
      destruct (find_first _ set) as [[j e]|] eqn:Hf.
      * intros [= <- _] [Hp Hall]. simpl. rewrite Hsb. split; [exact Hp|].
        apply owner_insert; [exact Hall|exact Hset|].
        apply find_first_Some in Hf as [Hj _].
        apply owner_set_referenced.
        exact (Forall_lookup_1 _ _ _ _ (Forall_lookup_1 _ _ _ _ Hall Hset) Hj).
      * rewrite fetch_miss_undefined. discriminate.
  - destruct (CacheSection.page_map s !! pid) as [a|].
    + destruct (CacheSection.node_at a (CacheSection.pages s)) as [[i e]|];
        [|discriminate].
      destruct (_ && _).
      * intros [= <- _] [Hs Hall]. simpl. rewrite Hsb. split; [exact Hs|].
        apply Forall_splice_front, Hall.
      * rewrite fetch_miss_undefined. discriminate.
    + rewrite fetch_miss_undefined. discriminate.
Qed.

Lemma allocate_page_tidy m s pid m' s' r :
  CacheSection.allocate_page m s pid = Some (m', s', r) -> tidy s -> tidy s'.
Proof.
  unfold CacheSection.allocate_page, tidy.
  destruct (CacheSection.set_based (CacheSection.structure s)) eqn:Hsb.
  - intros H [Hp Hall].
    set (s1 := match CacheSection.sets s with [] => _ | _ => s end) in H.
    assert (H1 : CacheSection.structure s1 = CacheSection.structure s /\
                 CacheSection.pages s1 = [] /\
                 Forall (Forall owner_entry) (CacheSection.sets s1)).
    { subst s1. destruct (CacheSection.sets s) eqn:E; simpl.
      - split; [reflexivity|]. split; [exact Hp|apply owner_fresh_sets].
      - split; [reflexivity|]. split; [exact Hp|]. rewrite E. exact Hall. }
    clearbody s1. destruct H1 as (Hst1 & Hp1 & Hall1).
    destruct (CacheSection.sets s1 !! _) as [set|] eqn:Hset; [|discriminate].
    cbn [mbind option_bind] in H.
    destruct (find_first _ set) as [[j e]|].
    + unfold CacheSection.create_page, alloc in H. simpl in H.
      injection H as _ <- _. simpl. rewrite Hst1, Hsb. split; [exact Hp1|].
      apply owner_insert; auto using owner_new_entry.
    + destruct (CacheSection.find_victim_in_set m s1 _) as [[[m1 s2] v]|] eqn:Hv;
        [|discriminate].
      apply find_victim_in_set_tidy in Hv. destruct Hv as (Hst2 & Hp2 & Hall2).
      specialize (Hall2 Hall1). cbn [mbind option_bind] in H.
      destruct (CacheSection.sets s2 !! _) as [set2|] eqn:Hset2; [|discriminate].
      cbn [mbind option_bind] in H.
      destruct (set2 !! v) as [victim|]; [|discriminate].
      cbn [mbind option_bind] in H.
      unfold CacheSection.create_page, alloc in H. simpl in H.
      injection H as _ <- _. simpl. rewrite Hst2, Hst1, Hsb.
      split; [rewrite Hp2; exact Hp1|].
      apply owner_insert; auto using owner_new_entry.
  - intros H [Hs Hall].
    assert (Hnew : forall a r, is_Some (CacheSection.page
                                          (CacheSection.mkEntry (Some a) pid true r)))
      by (intros; simpl; eauto).
    destruct (_ <? _).
    + unfold CacheSection.create_page, alloc in H. simpl in H.
      injection H as _ <- _. simpl. rewrite Hsb. split; [exact Hs|].
      constructor; [apply Hnew|exact Hall].
    + destruct (CacheSection.pages s) as [|x l] eqn:E.
      * unfold CacheSection.create_page, alloc in H. simpl in H.
        injection H as _ <- _. simpl. rewrite Hsb. split; [exact Hs|].
        constructor; [apply Hnew|constructor].
      * rewrite <- E in *.
        destruct (CacheSection.find_victim_in_fully_associative s) as [[i victim]|];
          [|discriminate].
        cbn [mbind option_bind] in H.
        unfold CacheSection.create_page, alloc in H. simpl in H.
        injection H as _ <- _. simpl. rewrite Hsb. split; [exact Hs|].
        apply Forall_splice_front. apply Forall_insert; [exact Hall|apply Hnew].
Qed.

Lemma prefetch_page_tidy m s pid m' s' :
  CacheSection.prefetch_page m s pid = Some (m', s') -> tidy s -> tidy s'.
Proof.
  unfold CacheSection.prefetch_page, tidy.
  destruct (CacheSection.set_based (CacheSection.structure s)) eqn:Hsb.
  - intros H [Hp Hall].
    destruct (CacheSection.sets s !! _) as [set|] eqn:Hset; [|discriminate].
    cbn [mbind option_bind] in H.
    destruct (find_first _ set) as [[j0 e0]|];
      [injection H as _ <-; rewrite Hsb; auto|].
    destruct (find_first _ set) as [[j e]|].
    + unfold CacheSection.create_page, alloc in H. simpl in H.
      injection H as _ <-. simpl. rewrite Hsb. split; [exact Hp|].
      apply owner_insert; auto using owner_new_entry.
    + destruct (CacheSection.find_victim_in_set m s _) as [[[m1 s2] v]|] eqn:Hv;
        [|discriminate].
      apply find_victim_in_set_tidy in Hv. destruct Hv as (Hst2 & Hp2 & Hall2).
      specialize (Hall2 Hall). cbn [mbind option_bind] in H.
      destruct (CacheSection.sets s2 !! _) as [set2|] eqn:Hset2; [|discriminate].
      cbn [mbind option_bind] in H.
      destruct (set2 !! v) as [victim|]; [|discriminate].
      cbn [mbind option_bind] in H.
      destruct (CacheSection.page victim) as [a0|]; [|discriminate].
      cbn [mbind option_bind] in H.
      destruct (heap m1 !! a0) as [p0|]; [|discriminate].
      cbn [mbind option_bind] in H.
      unfold CacheSection.create_page, alloc in H. simpl in H.
      injection H as _ <-. simpl. rewrite Hst2, Hsb.
      split; [rewrite Hp2; exact Hp|].
      apply owner_insert; auto using owner_new_entry.
  - intros H [Hs Hall].
    assert (Hnew : forall a r, is_Some (CacheSection.page
                                          (CacheSection.mkEntry (Some a) pid true r)))
      by (intros; simpl; eauto).
    destruct (CacheSection.page_map s !! pid);
      [injection H as _ <-; rewrite Hsb; auto|].
    destruct (_ <? _).
    + unfold CacheSection.create_page, alloc in H. simpl in H.
      injection H as _ <-. simpl. rewrite Hsb. split; [exact Hs|].
      constructor; [apply Hnew|exact Hall].
    + destruct (CacheSection.find_victim_in_fully_associative s) as [[i victim]|];
        [|discriminate].
      cbn [mbind option_bind] in H.
      unfold CacheSection.create_page, alloc in H. simpl in H.
      injection H as _ <-. simpl. rewrite Hsb. split; [exact Hs|].
      apply Forall_splice_front. apply Forall_insert; [exact Hall|apply Hnew].
Qed.

Lemma section_call_tidy m s m' s' :
  section_call m s m' s' -> tidy s -> tidy s'.
Proof.
  intros [m0 s0 pid s1 r H|m0 s0 pid m1 s1 r Hsb0 Hempty0 H|m0 s0 pid m1 s1 H].
  - eapply fetch_page_tidy, H.
  - unfold CacheSection.new_page in H. intros Hb.
    eapply allocate_page_tidy; [exact H|exact Hb].
  - eapply prefetch_page_tidy, H.
Qed.

Lemma resize_tidy m s n m' s' :
  CacheSection.resize m s n = Some (m', s') -> tidy s -> tidy s'.
Proof.
  unfold CacheSection.resize. intros H Hb.
  destruct (n =? CacheSection.size s); [injection H as _ <-; exact Hb|].
  destruct (_ || _); [discriminate|].
  unfold tidy in *.
  destruct (CacheSection.set_based (CacheSection.structure s)) eqn:Hsb;
    injection H as _ <-; simpl; rewrite Hsb.
  - split; [apply Hb|apply owner_fresh_sets].
  - split; [apply Hb|constructor].
Qed.

Lemma new_tidy sid sz lsz st assoc s :
  CacheSection.new sid sz lsz st assoc = Some s -> tidy s.
Proof.
  unfold CacheSection.new. destruct (_ || _); [discriminate|].
  intros [= <-]. unfold tidy. simpl.
  destruct (CacheSection.set_based st).
  - split; [reflexivity|apply owner_fresh_sets].
  - split; [reflexivity|constructor].
Qed.

Lemma router_step_tidy st st' :
  router_step st st' ->
  (forall sid s, ConfigurableCache.sections (snd st) !! sid = Some s -> tidy s) ->
  forall sid s, ConfigurableCache.sections (snd st') !! sid = Some s -> tidy s.
Proof.
  intros H. destruct H; simpl; intros Hall sid0 s0; try apply Hall.
  - rewrite lookup_insert. case_decide; [|apply Hall].
    intros [= <-]. eapply section_call_tidy; eauto.
  - unfold ConfigurableCache.remove_section.
    destruct (_ =? _); [apply Hall|].
    destruct (ConfigurableCache.sections c !! sid) as [s|]; [|apply Hall].
    destruct (ConfigurableCache.erase_section_ranges _ _ _). simpl.
    intros H0. apply lookup_delete_Some in H0 as [_ H0]. eapply Hall, H0.
  - unfold ConfigurableCache.resize_section in H0.
    destruct (ConfigurableCache.sections c !! sid) as [s|] eqn:Hs;
      [|injection H0 as <- <-; apply Hall].
    destruct (if CacheSection.get_size s <? n then _ else _) as [n' av].
    destruct (CacheSection.resize m s n') as [[m1 s1]|] eqn:Hres; [|discriminate].
    simpl in H0. injection H0 as <- <-. simpl.
    rewrite lookup_insert. case_decide; [|apply Hall].
    intros [= <-]. eapply resize_tidy; eauto.
  - unfold ConfigurableCache.map_page_to_section.
    destruct (ConfigurableCache.sections c !! sid); apply Hall.
  - unfold ConfigurableCache.map_page_range_to_section.
    destruct (ConfigurableCache.sections c !! sid); [|apply Hall].
    destruct (ConfigurableCache.erase_overlapping _ _ _ _). apply Hall.
  - simpl. rewrite lookup_fmap.
    destruct (ConfigurableCache.sections c !! sid0) as [s1|] eqn:E; [|discriminate].
    intros [= <-]. exact (Hall _ _ E).
Qed.

Lemma create_step_tidy st st' :
  create_step st st' ->
  (forall sid s, ConfigurableCache.sections (snd st) !! sid = Some s -> tidy s) ->
  forall sid s, ConfigurableCache.sections (snd st') !! sid = Some s -> tidy s.
Proof.
  intros H. destruct H as [m c sz lsz st assoc m' c' sid Hsz Hassoc H1]. simpl.
  intros Hall sid0 s0. unfold ConfigurableCache.create_section in H1.
  destruct (CacheSection.new _ _ lsz st assoc) as [s|] eqn:Hnew; [|discriminate].
  simpl in H1. injection H1 as _ <- _. simpl.
  rewrite lookup_insert. case_decide; [|apply Hall].
  intros [= <-]. eapply new_tidy, Hnew.
Qed.

Lemma cache_run_tidy total psz lsz ops m c :
  Forall op_typed ops ->
  cache_run ops (ConfigurableCache.new total psz lsz) = Some (m, c) ->
  forall sid s, ConfigurableCache.sections c !! sid = Some s -> tidy s.
Proof.
  intros Hty Hrun.
  destruct (ConfigurableCache.new total psz lsz) as [[m0 c0]|] eqn:Hnew;
    [|rewrite cache_run_None in Hrun; discriminate].
  apply (cache_run_invariant
           (fun st => forall sid s,
                ConfigurableCache.sections (snd st) !! sid = Some s -> tidy s)
           ops m0 c0 m c); auto.
  - intros st st' Hstep Hall. eapply router_step_tidy; eauto.
  - intros st st' Hstep Hall. eapply create_step_tidy; eauto.
  - simpl. unfold ConfigurableCache.new, ConfigurableCache.create_section in Hnew.
    destruct (CacheSection.new _ _ _ _ _) as [s0|] eqn:Hs0; [|discriminate].
    simpl in Hnew. injection Hnew as _ <-. simpl.
    intros sid1 s1. rewrite lookup_insert.
    case_decide; [|rewrite lookup_empty; discriminate].
    intros [= <-]. eapply new_tidy, Hs0.
Qed.

Lemma valid_count_footprint es :
  Forall owner_entry es ->
  length (filter (fun e => CacheSection.valid e = true) es)
  = length (footprint_of es).
Proof.
  induction 1 as [|e es He _ IH]; [reflexivity|].
  rewrite footprint_of_cons, length_app, <- IH. unfold footprint_of at 1. simpl.
  destruct (CacheSection.valid e) eqn:Hv.
  - rewrite filter_cons_True by exact Hv.
    destruct (proj2 He Hv) as [a Ha]. rewrite Ha. reflexivity.
  - rewrite filter_cons_False by (rewrite Hv; discriminate).
    destruct (CacheSection.page e) as [a|] eqn:Ha; [|reflexivity].
    assert (Hs : is_Some (CacheSection.page e)) by (rewrite Ha; eauto).
    apply He in Hs. congruence.
Qed.

Lemma owning_count_footprint es :
  Forall (fun e => is_Some (CacheSection.page e)) es ->
  length es = length (footprint_of es).
Proof.
  induction 1 as [|e es [a Ha] _ IH]; [reflexivity|].
  rewrite footprint_of_cons, length_app, <- IH. unfold footprint_of at 1. simpl.
  rewrite Ha. reflexivity.
Qed.

Lemma page_count_footprint s :
  tidy s -> CacheSection.page_count s = Z.of_nat (length (footprint s)).
Proof.
  unfold tidy, CacheSection.page_count, footprint, entries.
  destruct (CacheSection.set_based (CacheSection.structure s)); intros [H1 H2].
  - rewrite H1, app_nil_r. f_equal. apply valid_count_footprint.
    apply Forall_concat, H2.
  - rewrite H1. simpl. f_equal. apply owning_count_footprint, H2.
Qed.

Lemma sum_page_count (secs : list (Z * CacheSection.t)) :
  (forall kv, kv ∈ secs -> tidy (snd kv)) ->
  foldr (fun kv acc => CacheSection.page_count (snd kv) + acc) 0 secs
  = Z.of_nat (length (concat (map (fun kv => (footprint (snd kv)).*1) secs))).
Proof.
  induction secs as [|kv secs IH]; intros Hall; [reflexivity|].
  simpl. rewrite length_app, Nat2Z.inj_add, length_fmap.
  rewrite IH by (intros kv' H; apply Hall; right; exact H).
  rewrite page_count_footprint by (apply Hall; left). reflexivity.
Qed.

Lemma NoDup_concat_map {A B : Type} (f : A -> list B) (l : list A) :
  NoDup l ->
  (forall x, x ∈ l -> NoDup (f x)) ->
  (forall x y b, x ∈ l -> y ∈ l -> x <> y -> b ∈ f x -> b ∉ f y) ->
  NoDup (concat (map f l)).
Proof.
  induction 1 as [|x l Hx Hnd IH]; intros H1 H2; [constructor|].
  simpl. apply NoDup_app. split; [apply H1; left|]. split.
  - intros b Hb Hb'. apply list_elem_of_In, in_concat in Hb'.
    destruct Hb' as (ys & Hys & Hb'). apply in_map_iff in Hys.
    destruct Hys as (y & <- & Hy). apply list_elem_of_In in Hy, Hb'.
    apply (H2 x y b); [left|right; exact Hy| |exact Hb|exact Hb'].
    intros ->. exact (Hx Hy).
  - apply IH.
    + intros y Hy. apply H1. right. exact Hy.
    + intros y z b Hy Hz. apply H2; right; assumption.
Qed.

Lemma elem_of_owned_addresses c a :
  a ∈ owned_addresses c <->
  exists sid s, ConfigurableCache.sections c !! sid = Some s /\
                a ∈ (footprint s).*1.
Proof.
  unfold owned_addresses. split.
  - intros H. apply list_elem_of_In, in_concat in H.
    destruct H as (ys & Hys & Ha). apply in_map_iff in Hys.
    destruct Hys as ([sid s] & <- & Hkv). apply list_elem_of_In in Hkv, Ha.
    apply elem_of_map_to_list in Hkv. exists sid, s. auto.
  - intros (sid & s & Hs & Ha). apply list_elem_of_In, in_concat.
    exists ((footprint s).*1). split; [|apply list_elem_of_In, Ha].
    apply in_map_iff. exists (sid, s). split; [reflexivity|].
    apply list_elem_of_In, elem_of_map_to_list, Hs.
Qed.

Lemma owned_addresses_count m c :
  heap_owned m c ->
  length (owned_addresses c) = base.size (heap m).
Proof.
  intros Ho. rewrite <- length_map_to_list.
  rewrite <- (length_fmap fst (map_to_list (heap m))).
  apply Permutation_length. apply NoDup_Permutation.
  - unfold owned_addresses. apply NoDup_concat_map.
    + apply NoDup_map_to_list.
    + intros [sid s] Hkv. apply elem_of_map_to_list in Hkv. simpl.
      exact (ho_unique _ _ Ho _ _ Hkv).
    + intros [sid1 s1] [sid2 s2] a H1 H2 Hne. simpl.
      apply elem_of_map_to_list in H1, H2.
      apply (ho_disjoint _ _ Ho sid1 sid2); auto.
      intros ->. apply Hne. rewrite H1 in H2. injection H2 as ->. reflexivity.
  - apply NoDup_fst_map_to_list.
  - intros a. rewrite elem_of_owned_addresses, list_elem_of_fmap. split.
    + intros (sid & s & Hs & Ha). apply list_elem_of_fmap in Ha.
      destruct Ha as ([a' pid] & -> & Hin). simpl.
      destruct (ho_live _ _ Ho _ _ _ _ Hs Hin) as (p & Hp & _).
      exists (a', p). split; [reflexivity|]. apply elem_of_map_to_list, Hp.
    + intros ([a' p] & -> & Hin). apply elem_of_map_to_list in Hin. simpl.
      apply (ho_no_leak _ _ Ho). rewrite Hin. eauto.
Qed.

(** X24: [size()] counts the pages in memory.  In every state reached from
    the constructor, [ConfigurableCache::size()] - the sum of the sections'
    [page_count()] - is the number of live page objects (taken below 2^64,
    the range of [size_t]): no section counts an entry that has no page, and
    no page sits in an entry that is not counted. *)
Theorem size_counts_the_live_pages total psz lsz ops m c :
  0 <= total ->
  Forall op_typed ops ->
  cache_run ops (ConfigurableCache.new total psz lsz) = Some (m, c) ->
  Z.of_nat (base.size (heap m)) < 2 ^ 64 ->
  ConfigurableCache.size c = Z.of_nat (base.size (heap m)).
Proof.
  intros Ht Hty Hrun Hfit.
  destruct (cache_run_owned _ _ _ _ _ _ Ht Hty Hrun) as [_ Ho].
  pose proof (cache_run_tidy _ _ _ _ _ _ Hty Hrun) as Htidy.
  unfold ConfigurableCache.size. rewrite sum_page_count.
  - fold (owned_addresses c). rewrite (owned_addresses_count m c Ho).
    apply to_size_t_small. lia.
  - intros [sid s] Hkv. apply elem_of_map_to_list in Hkv. simpl.
    exact (Htidy _ _ Hkv).
Qed.

Lemma size_counts_the_live_pages_witness :
  exists m c,
    cache_run [CreateSection 16 8 CacheSection.DirectMapped 1;
               MapPageRangeToSection 100 199 1; PrefetchPage 100; FetchPage 100;
               PrefetchPage 101; PrefetchPage 1; PrefetchPage 2; FetchPage 1;
               PrefetchPage 3; PrefetchPage 4; ResizeSection 0 8;
               PrefetchPage 5; FetchPage 5]
              (ConfigurableCache.new 24 8 8) = Some (m, c) /\
    base.size (heap m) = 2%nat /\
    ConfigurableCache.size c = Z.of_nat (base.size (heap m)).
Proof.
  destruct (cache_run _ (ConfigurableCache.new 24 8 8)) as [[m c]|] eqn:H;
    [|vm_compute in H; discriminate].
  assert (Hn : base.size (heap m) = 2%nat)
    by (vm_compute in H; injection H as <- <-; reflexivity).
  exists m, c. split; [reflexivity|]. split; [exact Hn|].
  match type of H with
  | cache_run ?ops _ = _ => apply (size_counts_the_live_pages 24 8 8 ops m c)
  end.
  - lia.
  - repeat (constructor; simpl; try lia).
  - exact H.
  - rewrite Hn. reflexivity.
Defined.
